(** * BlendSearch / CFO search coordinator (flaml/searcher/blendsearch.py)

    A shallow embedding of the scheduling coordinator of FLAML's
    [BlendSearch] class and of its restricted variant [CFO], with the
    properties of the coordinator stated and proved over the embedding.

    Conventions of the embedding.
    - Python floats are values of [num]: an exact rational, a signed
      infinity or NaN.  Arithmetic on finite values is exact (rounding is not
      modelled); the special values follow IEEE 754, as [np.inf] is used
      by the coordinator itself.
    - Python dicts are insertion-ordered association lists ([dict]):
      iteration order is observable in the pruning pass and in thread
      selection.
    - Methods that mutate the coordinator are computations in the monad
      [M]: a state transformer that returns either a value or a raised
      exception, and in both cases the state reached so far.
    - [FLOW2], [SearchThread], the global search engine, the random variant
      generator and the clock are collaborators: their operations are the
      fields of the classes [LocalSearch] and [SearchThread]. *)

From Stdlib Require Import List String Ascii Bool Arith ZArith QArith Qreduction.
From Stdlib Require Import Lia Lqa DecimalString.
Import ListNotations.

Set Implicit Arguments.

(* ================================================================== *)
(** ** Numbers *)
(* ================================================================== *)

Module Num.

Inductive num : Type :=
  | Fin (q : Q)
  | Inf (negative : bool)
  | NaN.

Definition pinf : num := Inf false.
Definition ninf : num := Inf true.

Definition Qlt_bool (a b : Q) : bool := negb (Qle_bool b a).

Definition fneg (a : num) : num :=
    match a with
    | Fin q => Fin (Qred (- q))
    | Inf s => Inf (negb s)
    | NaN => NaN
    end.

Definition fadd (a b : num) : num :=
    match a, b with
    | Fin x, Fin y => Fin (Qred (x + y))
    | Fin _, Inf s => Inf s
    | Inf s, Fin _ => Inf s
    | Inf s, Inf t => if Bool.eqb s t then Inf s else NaN
    | _, _ => NaN
    end.

Definition fsub (a b : num) : num :=
    match a, b with
    | Fin x, Fin y => Fin (Qred (x - y))
    | Fin _, Inf s => Inf (negb s)
    | Inf s, Fin _ => Inf s
    | Inf s, Inf t => if Bool.eqb s t then NaN else Inf s
    | _, _ => NaN
    end.

  (** sign of a rational: [Some true] negative, [Some false] positive,
      [None] zero *)
Definition Qsign (q : Q) : option bool :=
    match Qnum q with
    | Z0 => None
    | Zpos _ => Some false
    | Zneg _ => Some true
    end.

Definition fmul (a b : num) : num :=
    match a, b with
    | Fin x, Fin y => Fin (Qred (x * y))
    | Fin x, Inf s | Inf s, Fin x =>
        match Qsign x with
        | None => NaN
        | Some t => Inf (xorb s t)
        end
    | Inf s, Inf t => Inf (xorb s t)
    | _, _ => NaN
    end.

  (** [a < b] *)
Definition flt (a b : num) : bool :=
    match a, b with
    | Fin x, Fin y => Qlt_bool x y
    | Fin _, Inf s => negb s
    | Inf s, Fin _ => s
    | Inf s, Inf t => s && negb t
    | _, _ => false
    end.

  (** [a <= b] *)
Definition fle (a b : num) : bool :=
    match a, b with
    | Fin x, Fin y => Qle_bool x y
    | Fin _, Inf s => negb s
    | Inf s, Fin _ => s
    | Inf s, Inf t => s || negb t
    | _, _ => false
    end.

Definition fgt (a b : num) : bool := flt b a.
Definition fge (a b : num) : bool := fle b a.

  (** truth value of a number in a condition: [if value:] *)
Definition truthy (a : num) : bool :=
    match a with
    | Fin q => negb (Qeq_bool q 0)
    | _ => true
    end.

Definition is_fin (a : num) : Prop :=
    match a with Fin _ => True | _ => False end.

Definition of_Z (z : Z) : num := Fin (inject_Z z).

  (** [min(iterable)]: [None] stands for the [ValueError] on an empty
      iterable; the running minimum is replaced only by a strictly
      smaller item *)
Definition fmin_list (l : list num) : option num :=
    match l with
    | [] => None
    | x :: r => Some (fold_left (fun m y => if flt y m then y else m) r x)
    end.

  (** *** [np.median] *)

Fixpoint insert_sorted (x : num) (l : list num) : list num :=
    match l with
    | [] => [x]
    | y :: r => if fle x y then x :: l else y :: insert_sorted x r
    end.

Definition sort (l : list num) : list num :=
    fold_right insert_sorted [] l.

Definition is_nan (a : num) : bool :=
    match a with NaN => true | _ => false end.

Definition half : num := Fin (1 # 2).

  (** the median of the empty list and of a list that holds a NaN is
      NaN; otherwise the middle item of the sorted list, or the mean of
      the two middle items *)
Definition median (l : list num) : num :=
    if existsb is_nan l then NaN
    else
      let s := sort l in
      let n := List.length s in
      match n with
      | O => NaN
      | _ =>
          if Nat.even n
          then fmul (fadd (nth (n / 2 - 1) s NaN) (nth (n / 2) s NaN)) half
          else nth (n / 2) s NaN
      end.

End Num.
Export Num.

Declare Scope num_scope.
Delimit Scope num_scope with num.
Bind Scope num_scope with num.
Notation "a +. b" := (fadd a b) (at level 50, left associativity) : num_scope.
Notation "a -. b" := (fsub a b) (at level 50, left associativity) : num_scope.
Notation "a *: b" := (fmul a b) (at level 40, left associativity) : num_scope.
Notation "a <. b" := (flt a b) (at level 70, no associativity) : num_scope.
Notation "a <=. b" := (fle a b) (at level 70, no associativity) : num_scope.
Notation "a >. b" := (fgt a b) (at level 70, no associativity) : num_scope.
Notation "a >=. b" := (fge a b) (at level 70, no associativity) : num_scope.
Open Scope num_scope.

(* ================================================================== *)
(** ** Insertion-ordered dictionaries *)
(* ================================================================== *)

Class EqDec (K : Type) : Type := {
  eqb : K -> K -> bool;
  eqb_eq : forall a b, eqb a b = true <-> a = b
}.

#[export] Instance EqDec_string : EqDec string :=
  {| eqb := String.eqb; eqb_eq := String.eqb_eq |}.

#[export] Instance EqDec_Z : EqDec Z :=
  {| eqb := Z.eqb; eqb_eq := Z.eqb_eq |}.

Module Dict.
Section Dict.
Context {K V : Type} `{EqDec K}.

Definition dict : Type := list (K * V).

Definition empty : dict := [].

  (** [d.get(k)] *)
Fixpoint get (k : K) (d : dict) : option V :=
    match d with
    | [] => None
    | (k', v) :: r => if eqb k k' then Some v else get k r
    end.

  (** [k in d] *)
Definition mem (k : K) (d : dict) : bool :=
    match get k d with Some _ => true | None => false end.

  (** [d[k] = v]: an existing key keeps its position, a new key goes
      last *)
Fixpoint set (k : K) (v : V) (d : dict) : dict :=
    match d with
    | [] => [(k, v)]
    | (k', v') :: r => if eqb k k' then (k, v) :: r else (k', v') :: set k v r
    end.

  (** [del d[k]] for a key in [d]: the dictionary without key [k] *)
Definition remove (k : K) (d : dict) : dict :=
    filter (fun kv : K * V => negb (eqb k (fst kv))) d.

(** the dictionary with the value under [k], if any, changed by [f]: an
    object held in a dictionary that is mutated in place *)
Fixpoint alter (f : V -> V) (k : K) (d : dict) : dict :=
    match d with
    | [] => []
    | (k', v) :: r =>
        if eqb k k' then (k', f v) :: r else (k', v) :: alter f k r
    end.

(** every value changed by [f] *)
Definition map_values (f : V -> V) (d : dict) : dict :=
    map (fun kv : K * V => (fst kv, f (snd kv))) d.

Definition keys (d : dict) : list K := map fst d.
Definition values (d : dict) : list V := map snd d.

  (** [d.update(other)]: [d[k] = other[k]] for every key of [other] *)
Definition update (d other : dict) : dict :=
    fold_left
      (fun acc k => match get k other with Some v => set k v acc | None => acc end)
      (keys other) d.

End Dict.
Arguments dict : clear implicits.
End Dict.
Import Dict.

(* ================================================================== *)
(** ** Collaborators *)
(* ================================================================== *)

(** A configuration, a normalized point, a result record and a bounding
    box are dictionaries from names to numbers. *)
Definition Config : Type := dict string num.
Definition Result : Type := dict string num.
Definition Box : Type := dict string num.

(** [self._ls]: the local search engine (FLOW2) the coordinator holds as
    a template, with the attributes and methods the coordinator uses.
    [Sig] is the type of configuration signatures (hashable tuples);
    [Env] is the state the collaborators keep outside the coordinator
    (random generators, seeds, the clock). *)
Class LocalSearch (Sig Env : Type) : Type := {
  sig_eqdec :: EqDec Sig;
  ls_metric : string;                 (* self._ls.metric *)
  metric_op : num;                    (* self._ls.metric_op: 1 or -1 *)
  init_config : Config;               (* self._ls.init_config *)
  ls_resource : bool;                 (* truth value of self._ls._resource *)
  prune_attr : string;                (* self._ls.prune_attr *)
  min_resource : num;                 (* self._ls.min_resource *)
  STEPSIZE : num;                     (* self._ls.STEPSIZE *)
  normalize : Config -> Config;
  complete_config : Config -> Box -> Box -> Env -> Config * Env;
  config_signature : Config -> Sig;
  (* first variant of generate_variants({'config': self._ls.space}) *)
  generate_variants : Env -> option Config * Env;
  (* time.time() *)
  time_time : Env -> num * Env
}.

(** [SearchThread]: the wrapper of the global engine (thread 0) or of a
    local engine (thread ids above 0). *)
Class SearchThread (Thread Env : Type) : Type := {
  (* SearchThread(self._ls.mode, self._gs) *)
  new_global_thread : Thread;
  (* SearchThread(self._ls.mode, self._ls.create(config, obj, cost=cost),
                  self.cost_attr) *)
  new_local_thread : Config -> num -> num -> Env -> Thread * Env;
  obj_best1 : Thread -> num;
  obj_best2 : Thread -> num;
  speed : Thread -> num;
  eci : Thread -> num;
  priority : Thread -> num;
  resource : Thread -> option num;
  converged : Thread -> bool;
  can_suggest : Thread -> bool;
  reach : Thread -> Thread -> bool;   (* [reach t2 t1] is t2.reach(t1) *)
  thread_suggest : Thread -> string -> option Config * Thread;
  thread_on_trial_complete :
    Thread -> string -> option Result -> bool -> Thread;
  thread_on_trial_result : Thread -> string -> Result -> Thread;
  update_eci : Thread -> num -> num -> Thread;
  update_priority : Thread -> num -> Thread;
  incr_running : Thread -> Thread     (* thread.running += 1 *)
}.

(* ================================================================== *)
(** ** Coordinator state and the monad of its methods *)
(* ================================================================== *)

Inductive exn : Type :=
| KeyError | TypeError | ValueError | IndexError
| AssertionError | AttributeError.

Inductive res (A : Type) : Type :=
| Ok (a : A)
| Raise (e : exn).
Arguments Raise {A} e.

(** the class of the coordinator object: the methods [suggest],
    [_select_thread], [_create_condition] and [on_trial_complete] are
    overridden in [CFO] *)
Inductive variant : Type := BlendSearch | CFO.

(** [(func, sign, threshold)] and [(metric_name, sign, threshold)] *)
Definition config_constraint : Type := (Config -> num) * string * num.
Definition metric_constraint : Type := string * string * num.

(** class attributes *)
Definition cost_attr : string := "time_total_s".
Definition lagrange : string := "_lagrange".
Definition penalty : num := Fin 10000000000.

Section Coordinator.

Context {Sig Env Thread : Type}.
Context {LS : LocalSearch Sig Env} {ST : SearchThread Thread Env}.

  (** The attributes of a coordinator object.  A list stands for
      an optional list that is only ever tested for truth and iterated
      ([None] and [[]] behave alike); an attribute that is assigned
      after construction only is an [option], [None] while it is unset. *)
Record State : Type := mkState {
    cls : variant;
    _metric : string;
    _points_to_evaluate : list Config;
    _config_constraints : list config_constraint;
    _metric_constraints : list metric_constraint;
    _candidate_start_points : option (dict string (option Result));
    _started_from_given : option bool;
    _started_from_low_cost : option bool;
    _metric_target : num;
    _search_thread_pool : dict Z Thread;
    _thread_count : Z;
    _init_used : bool;
    _trial_proposed_by : dict string Z;
    _ls_bound_min : Box;
    _ls_bound_max : Box;
    _gs_admissible_min : Box;
    _gs_admissible_max : Box;
    _result : dict Sig Result;
    _deadline : num;
    _metric_constraint_satisfied : bool;
    _metric_constraint_penalty : option (list num);
    env : Env
  }.

Definition set_points_to_evaluate v s := mkState (cls s) (_metric s) v (_config_constraints s) (_metric_constraints s) (_candidate_start_points s) (_started_from_given s) (_started_from_low_cost s) (_metric_target s) (_search_thread_pool s) (_thread_count s) (_init_used s) (_trial_proposed_by s) (_ls_bound_min s) (_ls_bound_max s) (_gs_admissible_min s) (_gs_admissible_max s) (_result s) (_deadline s) (_metric_constraint_satisfied s) (_metric_constraint_penalty s) (env s).
Definition set_candidate_start_points v s := mkState (cls s) (_metric s) (_points_to_evaluate s) (_config_constraints s) (_metric_constraints s) v (_started_from_given s) (_started_from_low_cost s) (_metric_target s) (_search_thread_pool s) (_thread_count s) (_init_used s) (_trial_proposed_by s) (_ls_bound_min s) (_ls_bound_max s) (_gs_admissible_min s) (_gs_admissible_max s) (_result s) (_deadline s) (_metric_constraint_satisfied s) (_metric_constraint_penalty s) (env s).
Definition set_started_from_given v s := mkState (cls s) (_metric s) (_points_to_evaluate s) (_config_constraints s) (_metric_constraints s) (_candidate_start_points s) v (_started_from_low_cost s) (_metric_target s) (_search_thread_pool s) (_thread_count s) (_init_used s) (_trial_proposed_by s) (_ls_bound_min s) (_ls_bound_max s) (_gs_admissible_min s) (_gs_admissible_max s) (_result s) (_deadline s) (_metric_constraint_satisfied s) (_metric_constraint_penalty s) (env s).
Definition set_started_from_low_cost v s := mkState (cls s) (_metric s) (_points_to_evaluate s) (_config_constraints s) (_metric_constraints s) (_candidate_start_points s) (_started_from_given s) v (_metric_target s) (_search_thread_pool s) (_thread_count s) (_init_used s) (_trial_proposed_by s) (_ls_bound_min s) (_ls_bound_max s) (_gs_admissible_min s) (_gs_admissible_max s) (_result s) (_deadline s) (_metric_constraint_satisfied s) (_metric_constraint_penalty s) (env s).
Definition set_metric_target v s := mkState (cls s) (_metric s) (_points_to_evaluate s) (_config_constraints s) (_metric_constraints s) (_candidate_start_points s) (_started_from_given s) (_started_from_low_cost s) v (_search_thread_pool s) (_thread_count s) (_init_used s) (_trial_proposed_by s) (_ls_bound_min s) (_ls_bound_max s) (_gs_admissible_min s) (_gs_admissible_max s) (_result s) (_deadline s) (_metric_constraint_satisfied s) (_metric_constraint_penalty s) (env s).
Definition set_search_thread_pool v s := mkState (cls s) (_metric s) (_points_to_evaluate s) (_config_constraints s) (_metric_constraints s) (_candidate_start_points s) (_started_from_given s) (_started_from_low_cost s) (_metric_target s) v (_thread_count s) (_init_used s) (_trial_proposed_by s) (_ls_bound_min s) (_ls_bound_max s) (_gs_admissible_min s) (_gs_admissible_max s) (_result s) (_deadline s) (_metric_constraint_satisfied s) (_metric_constraint_penalty s) (env s).
Definition set_thread_count v s := mkState (cls s) (_metric s) (_points_to_evaluate s) (_config_constraints s) (_metric_constraints s) (_candidate_start_points s) (_started_from_given s) (_started_from_low_cost s) (_metric_target s) (_search_thread_pool s) v (_init_used s) (_trial_proposed_by s) (_ls_bound_min s) (_ls_bound_max s) (_gs_admissible_min s) (_gs_admissible_max s) (_result s) (_deadline s) (_metric_constraint_satisfied s) (_metric_constraint_penalty s) (env s).
Definition set_init_used v s := mkState (cls s) (_metric s) (_points_to_evaluate s) (_config_constraints s) (_metric_constraints s) (_candidate_start_points s) (_started_from_given s) (_started_from_low_cost s) (_metric_target s) (_search_thread_pool s) (_thread_count s) v (_trial_proposed_by s) (_ls_bound_min s) (_ls_bound_max s) (_gs_admissible_min s) (_gs_admissible_max s) (_result s) (_deadline s) (_metric_constraint_satisfied s) (_metric_constraint_penalty s) (env s).
Definition set_trial_proposed_by v s := mkState (cls s) (_metric s) (_points_to_evaluate s) (_config_constraints s) (_metric_constraints s) (_candidate_start_points s) (_started_from_given s) (_started_from_low_cost s) (_metric_target s) (_search_thread_pool s) (_thread_count s) (_init_used s) v (_ls_bound_min s) (_ls_bound_max s) (_gs_admissible_min s) (_gs_admissible_max s) (_result s) (_deadline s) (_metric_constraint_satisfied s) (_metric_constraint_penalty s) (env s).
Definition set_ls_bound_min v s := mkState (cls s) (_metric s) (_points_to_evaluate s) (_config_constraints s) (_metric_constraints s) (_candidate_start_points s) (_started_from_given s) (_started_from_low_cost s) (_metric_target s) (_search_thread_pool s) (_thread_count s) (_init_used s) (_trial_proposed_by s) v (_ls_bound_max s) (_gs_admissible_min s) (_gs_admissible_max s) (_result s) (_deadline s) (_metric_constraint_satisfied s) (_metric_constraint_penalty s) (env s).
Definition set_ls_bound_max v s := mkState (cls s) (_metric s) (_points_to_evaluate s) (_config_constraints s) (_metric_constraints s) (_candidate_start_points s) (_started_from_given s) (_started_from_low_cost s) (_metric_target s) (_search_thread_pool s) (_thread_count s) (_init_used s) (_trial_proposed_by s) (_ls_bound_min s) v (_gs_admissible_min s) (_gs_admissible_max s) (_result s) (_deadline s) (_metric_constraint_satisfied s) (_metric_constraint_penalty s) (env s).
Definition set_gs_admissible_min v s := mkState (cls s) (_metric s) (_points_to_evaluate s) (_config_constraints s) (_metric_constraints s) (_candidate_start_points s) (_started_from_given s) (_started_from_low_cost s) (_metric_target s) (_search_thread_pool s) (_thread_count s) (_init_used s) (_trial_proposed_by s) (_ls_bound_min s) (_ls_bound_max s) v (_gs_admissible_max s) (_result s) (_deadline s) (_metric_constraint_satisfied s) (_metric_constraint_penalty s) (env s).
Definition set_gs_admissible_max v s := mkState (cls s) (_metric s) (_points_to_evaluate s) (_config_constraints s) (_metric_constraints s) (_candidate_start_points s) (_started_from_given s) (_started_from_low_cost s) (_metric_target s) (_search_thread_pool s) (_thread_count s) (_init_used s) (_trial_proposed_by s) (_ls_bound_min s) (_ls_bound_max s) (_gs_admissible_min s) v (_result s) (_deadline s) (_metric_constraint_satisfied s) (_metric_constraint_penalty s) (env s).
Definition set_result v s := mkState (cls s) (_metric s) (_points_to_evaluate s) (_config_constraints s) (_metric_constraints s) (_candidate_start_points s) (_started_from_given s) (_started_from_low_cost s) (_metric_target s) (_search_thread_pool s) (_thread_count s) (_init_used s) (_trial_proposed_by s) (_ls_bound_min s) (_ls_bound_max s) (_gs_admissible_min s) (_gs_admissible_max s) v (_deadline s) (_metric_constraint_satisfied s) (_metric_constraint_penalty s) (env s).
Definition set_metric_constraint_satisfied v s := mkState (cls s) (_metric s) (_points_to_evaluate s) (_config_constraints s) (_metric_constraints s) (_candidate_start_points s) (_started_from_given s) (_started_from_low_cost s) (_metric_target s) (_search_thread_pool s) (_thread_count s) (_init_used s) (_trial_proposed_by s) (_ls_bound_min s) (_ls_bound_max s) (_gs_admissible_min s) (_gs_admissible_max s) (_result s) (_deadline s) v (_metric_constraint_penalty s) (env s).
Definition set_metric_constraint_penalty v s := mkState (cls s) (_metric s) (_points_to_evaluate s) (_config_constraints s) (_metric_constraints s) (_candidate_start_points s) (_started_from_given s) (_started_from_low_cost s) (_metric_target s) (_search_thread_pool s) (_thread_count s) (_init_used s) (_trial_proposed_by s) (_ls_bound_min s) (_ls_bound_max s) (_gs_admissible_min s) (_gs_admissible_max s) (_result s) (_deadline s) (_metric_constraint_satisfied s) v (env s).
Definition set_env v s := mkState (cls s) (_metric s) (_points_to_evaluate s) (_config_constraints s) (_metric_constraints s) (_candidate_start_points s) (_started_from_given s) (_started_from_low_cost s) (_metric_target s) (_search_thread_pool s) (_thread_count s) (_init_used s) (_trial_proposed_by s) (_ls_bound_min s) (_ls_bound_max s) (_gs_admissible_min s) (_gs_admissible_max s) (_result s) (_deadline s) (_metric_constraint_satisfied s) (_metric_constraint_penalty s) v.

  (** *** The monad: state, and a value or an exception *)

Definition M (A : Type) : Type := State -> res A * State.

Definition ret {A} (a : A) : M A := fun s => (Ok a, s).

Definition bind {A B} (m : M A) (f : A -> M B) : M B :=
    fun s =>
      match m s with
      | (Ok a, s') => f a s'
      | (Raise e, s') => (Raise e, s')
      end.

Definition raise {A} (e : exn) : M A := fun s => (Raise e, s).

Definition gets {A} (f : State -> A) : M A := fun s => (Ok (f s), s).

Definition modify (f : State -> State) : M unit := fun s => (Ok tt, f s).

  (** [d[k]] *)
Definition item {A} (e : exn) (o : option A) : M A :=
    match o with
    | Some a => ret a
    | None => raise e
    end.

Definition lift {A} (r : res A) : M A := fun s => (r, s).

(** [d[k]] for a dictionary [d] read from the state *)
Definition gets_item {A} (e : exn) (f : State -> option A) : M A :=
  fun s => item e (f s) s.

(** a call to a collaborator that advances the collaborators' state *)
Definition with_env {A} (f : Env -> A * Env) : M A :=
  fun s => let (a, e) := f (env s) in (Ok a, set_env e s).

End Coordinator.

Declare Scope monad_scope.
Delimit Scope monad_scope with monad.
Notation "x <- m ;; k" := (bind m (fun x => k))
  (at level 61, m at next level, right associativity) : monad_scope.
Notation "m ;; k" := (bind m (fun _ => k))
  (at level 61, right associativity) : monad_scope.
Notation "' pat <- m ;; k" := (bind m (fun x => match x with pat => k end))
  (at level 61, pat pattern, m at next level, right associativity) : monad_scope.

Local Open Scope monad_scope.
Local Open Scope Z_scope.

(* ================================================================== *)
(** ** The methods of [BlendSearch] and [CFO] *)
(* ================================================================== *)

(** truth value of a dict, of an optional dict and of a list *)
Definition nonempty {A} (l : list A) : bool :=
  match l with [] => false | _ :: _ => true end.

Definition truthy_opt {A} (o : option (list A)) : bool :=
  match o with Some l => nonempty l | None => false end.

(** [l[i] = v] on a list, for an index in range *)
Fixpoint list_set {A} (i : nat) (v : A) (l : list A) : list A :=
  match l, i with
  | [], _ => []
  | _ :: r, O => v :: r
  | x :: r, S j => x :: list_set j v r
  end.

(** [enumerate(l)] *)
Definition enumerate {A} (l : list A) : list (nat * A) :=
  combine (seq 0 (List.length l)) l.

(** the configuration held by a result record: the items whose key
    starts with 'config/', under the rest of the key *)
Definition config_of_result (r : Result) : Config :=
  fold_left
    (fun (config : Config) (kv : string * num) =>
       let (key, value) := kv in
       if String.prefix "config/" key
       then Dict.set (String.substring 7 (String.length key - 7) key) value config
       else config)
    r Dict.empty.

(** [a and a < b] on optional resource levels; comparing a number with
    [None] is a [TypeError] *)
Definition and_lt (a b : option num) : res bool :=
  match a with
  | None => Ok false
  | Some x =>
      if truthy x
      then match b with
           | Some y => Ok (flt x y)
           | None => Raise TypeError
           end
      else Ok false
  end.

(** the two admissible regions, passed by reference in the source *)
Inductive region : Type := LocalBox | GlobalBox.

Section Methods.

Context {Sig Env Thread : Type}.
Context {LS : LocalSearch Sig Env} {ST : SearchThread Thread Env}.

Abbreviation State := (@State Sig Env Thread).
Abbreviation M := (@M Sig Env Thread).

Fixpoint for_each {A} (l : list A) (body : A -> M unit) : M unit :=
  match l with
  | [] => ret tt
  | x :: r => body x ;; for_each r body
  end.

Fixpoint fold_M {A B} (l : list A) (body : A -> B -> M B) (acc : B) : M B :=
  match l with
  | [] => ret acc
  | x :: r => acc' <- body x acc ;; fold_M r body acc'
  end.

(** *** Construction *)

Definition _init_search (s : State) : State :=
  let bound := normalize init_config in
  let constrained := nonempty (_metric_constraints s) in
  mkState (cls s) (_metric s) (_points_to_evaluate s)
    (_config_constraints s) (_metric_constraints s)
    (_candidate_start_points s) (_started_from_given s)
    (_started_from_low_cost s)
    (pinf *: metric_op)                       (* _metric_target *)
    [(0, new_global_thread)]                  (* _search_thread_pool *)
    1                                         (* _thread_count *)
    false                                     (* _init_used *)
    Dict.empty                                (* _trial_proposed_by *)
    bound bound bound bound
    Dict.empty                                (* _result *)
    pinf                                      (* _deadline *)
    (negb constrained)
    (if constrained
     then Some (map (fun _ => penalty) (_metric_constraints s))
     else None)
    (env s).

(** [__init__]: the local engine always holds a dict as [init_config]
    ([low_cost_partial_config or {}]), so [_init_used] starts false and
    [not low_cost_partial_config] is the emptiness of [init_config]. *)
Definition __init__ (c : variant) (metric : string)
    (points_to_evaluate : list Config)
    (config_constraints : list config_constraint)
    (metric_constraints : list metric_constraint) (e : Env) : State :=
  let candidates :=
    match c with
    | CFO => (1 <? Z.of_nat (List.length points_to_evaluate))
    | BlendSearch => false
    end in
  _init_search
    (mkState c metric points_to_evaluate config_constraints
       metric_constraints
       (if candidates then Some Dict.empty else None)
       None
       (if candidates then Some (negb (nonempty init_config)) else None)
       NaN [] 0 false Dict.empty Dict.empty Dict.empty Dict.empty
       Dict.empty Dict.empty NaN true None e).

(** *** Admissible regions *)

Definition box_min (w : region) (s : State) : Box :=
  match w with
  | LocalBox => _ls_bound_min s
  | GlobalBox => _gs_admissible_min s
  end.

Definition box_max (w : region) (s : State) : Box :=
  match w with
  | LocalBox => _ls_bound_max s
  | GlobalBox => _gs_admissible_max s
  end.

Definition set_box_min (w : region) (b : Box) (s : State) : State :=
  match w with
  | LocalBox => set_ls_bound_min b s
  | GlobalBox => set_gs_admissible_min b s
  end.

Definition set_box_max (w : region) (b : Box) (s : State) : State :=
  match w with
  | LocalBox => set_ls_bound_max b s
  | GlobalBox => set_gs_admissible_max b s
  end.

Definition _update_admissible_region (config : Config) (w : region) : M unit :=
  let normalized_config := normalize config in
  ks <- gets (fun s => Dict.keys (box_min w s)) ;;
  for_each ks (fun key =>
    value <- item KeyError (Dict.get key normalized_config) ;;
    hi <- gets_item KeyError (fun s => Dict.get key (box_max w s)) ;;
    if value >. hi
    then modify (fun s => set_box_max w (Dict.set key value (box_max w s)) s)
    else
      lo <- gets_item KeyError (fun s => Dict.get key (box_min w s)) ;;
      if value <. lo
      then modify (fun s => set_box_min w (Dict.set key value (box_min w s)) s)
      else ret tt).

Definition _expand_admissible_region : M unit :=
  ks <- gets (fun s => Dict.keys (_ls_bound_max s)) ;;
  for_each ks (fun key =>
    hi <- gets_item KeyError (fun s => Dict.get key (_ls_bound_max s)) ;;
    modify (fun s =>
      set_ls_bound_max (Dict.set key (hi +. STEPSIZE) (_ls_bound_max s)) s) ;;
    lo <- gets_item KeyError (fun s => Dict.get key (_ls_bound_min s)) ;;
    modify (fun s =>
      set_ls_bound_min (Dict.set key (lo -. STEPSIZE) (_ls_bound_min s)) s)).

(** reset of the admissible region to the bounding box of the local
    threads: the two [update] calls *)
Definition sync_admissible_region : M unit :=
  modify (fun s =>
    set_gs_admissible_min
      (Dict.update (_gs_admissible_min s) (_ls_bound_min s)) s) ;;
  modify (fun s =>
    set_gs_admissible_max
      (Dict.update (_gs_admissible_max s) (_ls_bound_max s)) s).

(** the scan of [_valid] over the keys of [_gs_admissible_min] *)
Fixpoint _valid_scan (config normalized_config : Config) (gs_min gs_max : Box)
    (ks : list string) : res bool :=
  match ks with
  | [] => Ok true
  | key :: rest =>
      if Dict.mem key config
      then
        match Dict.get key normalized_config with
        | None => Raise KeyError
        | Some value =>
            match Dict.get key gs_min with
            | None => Raise KeyError
            | Some lo =>
                if value +. STEPSIZE <. lo then Ok false
                else
                  match Dict.get key gs_max with
                  | None => Raise KeyError
                  | Some hi =>
                      if value >. hi +. STEPSIZE then Ok false
                      else _valid_scan config normalized_config gs_min gs_max rest
                  end
            end
        end
      else _valid_scan config normalized_config gs_min gs_max rest
  end.

(** [_valid]: config validator *)
Definition _valid (config : Config) : M bool :=
  gs_min <- gets _gs_admissible_min ;;
  gs_max <- gets _gs_admissible_max ;;
  lift (_valid_scan config (normalize config) gs_min gs_max (Dict.keys gs_min)).

(** *** Thread creation and pruning *)

(** [_inferior]: whether thread [id1] is inferior to [id2] *)
Definition _inferior (pool : dict Z Thread) (id1 id2 : Z) : res bool :=
  match Dict.get id1 pool with
  | None => Raise KeyError
  | Some t1 =>
      match Dict.get id2 pool with
      | None => Raise KeyError
      | Some t2 =>
          if obj_best1 t1 <. obj_best2 t2 then Ok false
          else
            match and_lt (resource t1) (resource t2) with
            | Raise e => Raise e
            | Ok true => Ok false
            | Ok false => if reach t2 t1 then Ok true else Ok false
            end
      end
  end.

Definition _create_thread (config : Config) (result : Result) : M unit :=
  obj <- item KeyError (Dict.get ls_metric result) ;;
  let cost :=
    match Dict.get cost_attr result with
    | Some c => c
    | None => Fin 1
    end in
  t <- with_env (new_local_thread config obj cost) ;;
  modify (fun s =>
    set_search_thread_pool
      (Dict.set (_thread_count s) t (_search_thread_pool s)) s) ;;
  modify (fun s => set_thread_count (_thread_count s + 1)%Z s) ;;
  _update_admissible_region config LocalBox.

(** [BlendSearch._create_condition] *)
Definition BlendSearch_create_condition (result : Result) : M bool :=
  pool <- gets _search_thread_pool ;;
  if (List.length pool <? 2)%nat then ret true
  else
    let obj_median :=
      median
        (map (fun kv : Z * Thread => obj_best1 (snd kv))
           (filter (fun kv : Z * Thread => negb (fst kv =? 0)%Z) pool)) in
    obj <- item KeyError (Dict.get ls_metric result) ;;
    ret (obj *: metric_op <. obj_median).

(** the results recorded for candidate start points that are resolved
    ([if r]) *)
Definition resolved {A} (l : list (A * option Result)) : list (A * Result) :=
  flat_map
    (fun kv : A * option Result =>
       match snd kv with
       | Some r => if nonempty r then [(fst kv, r)] else []
       | None => []
       end) l.

(** the list [x[metric] * metric_op] over records, raising [KeyError]
    at the first record without the metric *)
Fixpoint objectives {A} (l : list (A * Result)) : res (list (A * num)) :=
  match l with
  | [] => Ok []
  | (a, r) :: rest =>
      match Dict.get ls_metric r with
      | None => Raise KeyError
      | Some v =>
          match objectives rest with
          | Ok t => Ok ((a, v *: metric_op) :: t)
          | Raise e => Raise e
          end
      end
  end.

(** [CFO._create_condition] *)
Definition CFO_create_condition (result : Result) : M bool :=
  pts <- gets _points_to_evaluate ;;
  if nonempty pts then ret false
  else
    pool <- gets _search_thread_pool ;;
    if (List.length pool =? 2)%nat then ret false
    else
      csp <- gets _candidate_start_points ;;
      count <- gets _thread_count ;;
      if truthy_opt csp && (count =? 1)%Z
      then
        objs <- lift (objectives
                        (resolved (match csp with Some d => d | None => [] end))) ;;
        obj_best <- item ValueError (fmin_list (map snd objs)) ;;
        obj <- item KeyError (Dict.get ls_metric result) ;;
        ret (obj *: metric_op <=. obj_best)
      else ret true.

Definition _create_condition (result : Result) : M bool :=
  c <- gets cls ;;
  match c with
  | BlendSearch => BlendSearch_create_condition result
  | CFO => CFO_create_condition result
  end.

(** the scan of [_create_thread_from_best_candidate]: the first
    resolved candidate with the least sign-adjusted objective *)
Fixpoint best_candidate (l : list (string * Result))
    (best : option (string * num)) : res (option (string * num)) :=
  match l with
  | [] => Ok best
  | (trial_id, r) :: rest =>
      match best with
      | None =>
          match Dict.get ls_metric r with
          | None => Raise KeyError
          | Some v => best_candidate rest (Some (trial_id, v *: metric_op))
          end
      | Some (_, obj_best) =>
          match Dict.get ls_metric r with
          | None => Raise KeyError
          | Some v =>
              if v *: metric_op <. obj_best
              then best_candidate rest (Some (trial_id, v *: metric_op))
              else best_candidate rest best
          end
      end
  end.

Definition _create_thread_from_best_candidate : M unit :=
  csp <- gets _candidate_start_points ;;
  match csp with
  | None => raise AttributeError
  | Some d =>
      best <- lift (best_candidate (resolved d) None) ;;
      match best with
      | None => ret tt
      | Some (best_trial_id, _) =>
          (* [if best_trial_id:] an empty trial id is false *)
          if (String.length best_trial_id =? 0)%nat then ret tt
          else
            match Dict.get best_trial_id d with
            | Some (Some result) =>
                let config := config_of_result result in
                modify (set_started_from_given (Some true)) ;;
                modify (set_candidate_start_points
                          (Some (Dict.remove best_trial_id d))) ;;
                _create_thread config result
            | _ => raise KeyError
            end
      end
  end.

(** [todelete.add(id)] *)
Definition set_add (id : Z) (l : list Z) : list Z :=
  if existsb (Z.eqb id) l then l else l ++ [id].

(** first loop of [_clean]: the other local threads inferior to
    [thread_id] *)
Fixpoint inferior_to (pool : dict Z Thread) (thread_id : Z) (ids : list Z)
    (todelete : list Z) : res (list Z) :=
  match ids with
  | [] => Ok todelete
  | id :: rest =>
      if negb (id =? 0)%Z && negb (id =? thread_id)%Z
      then
        match _inferior pool id thread_id with
        | Raise e => Raise e
        | Ok true => inferior_to pool thread_id rest (set_add id todelete)
        | Ok false => inferior_to pool thread_id rest todelete
        end
      else inferior_to pool thread_id rest todelete
  end.

(** second loop of [_clean]: whether [thread_id] is inferior to some
    other local thread *)
Fixpoint inferior_to_some (pool : dict Z Thread) (thread_id : Z)
    (ids : list Z) : res bool :=
  match ids with
  | [] => Ok false
  | id :: rest =>
      if negb (id =? 0)%Z && negb (id =? thread_id)%Z
      then
        match _inferior pool thread_id id with
        | Raise e => Raise e
        | Ok true => Ok true
        | Ok false => inferior_to_some pool thread_id rest
        end
      else inferior_to_some pool thread_id rest
  end.

(** the candidate start points no better than [obj] *)
Definition worse_candidates (obj : num) (l : list (string * num))
    : list string :=
  map fst (filter (fun kv : string * num => snd kv >=. obj) l).

Definition _clean (thread_id : Z) : M unit :=
  if (thread_id =? 0)%Z then raise AssertionError
  else
    pool <- gets _search_thread_pool ;;
    todelete <- lift (inferior_to pool thread_id (Dict.keys pool) []) ;;
    dominated <- lift (inferior_to_some pool thread_id (Dict.keys pool)) ;;
    let todelete := if dominated then set_add thread_id todelete else todelete in
    t <- item KeyError (Dict.get thread_id pool) ;;
    let todelete :=
      if converged t then set_add thread_id todelete else todelete in
    create_new <-
      (if converged t
       then
         _expand_admissible_region ;;
         csp <- gets _candidate_start_points ;;
         if truthy_opt csp
         then
           given <- gets_item AttributeError _started_from_given ;;
           (if negb given
            then
              (* remove start points whose perf is worse than the converged *)
              let obj := obj_best1 t in
              objs <- lift (objectives
                        (resolved (match csp with Some d => d | None => [] end))) ;;
              for_each (worse_candidates obj objs) (fun trial_id =>
                modify (fun s =>
                  set_candidate_start_points
                    (match _candidate_start_points s with
                     | Some d => Some (Dict.remove trial_id d)
                     | None => None
                     end) s))
            else ret tt) ;;
           csp <- gets _candidate_start_points ;;
           if truthy_opt csp
           then gets_item AttributeError _started_from_low_cost
           else ret false
         else ret false
       else ret false) ;;
    for_each todelete (fun id =>
      modify (fun s =>
        set_search_thread_pool (Dict.remove id (_search_thread_pool s)) s)) ;;
    if create_new then _create_thread_from_best_candidate else ret tt.

(** *** [on_trial_complete] and [on_trial_result] *)

(** [self._metric_constraint_penalty[i]] *)
Definition penalty_at (i : nat) : M num :=
  p <- gets _metric_constraint_penalty ;;
  match p with
  | None => raise TypeError
  | Some l => item IndexError (nth_error l i)
  end.

(** [self._metric_constraint_penalty[i] = v] *)
Definition set_penalty_at (i : nat) (v : num) : M unit :=
  p <- gets _metric_constraint_penalty ;;
  match p with
  | None => raise TypeError
  | Some l =>
      if (i <? List.length l)%nat
      then modify (set_metric_constraint_penalty (Some (list_set i v l)))
      else raise IndexError
  end.

(** the body of the loop over the metric constraints; the accumulator is
    the pair of the locals [objective] and [metric_constraint_satisfied] *)
Definition metric_constraint_step (result : Result)
    (ic : nat * metric_constraint) (acc : num * bool) : M (num * bool) :=
  let '(i, (metric_constraint, sign, threshold)) := ic in
  let '(objective, metric_constraint_satisfied) := acc in
  match Dict.get metric_constraint result with
  | None => ret acc
  | Some value =>
      if truthy value
      then
        (* sign is <= or >= *)
        let sign_op := if String.eqb sign "<=" then Fin 1 else Fin (-1 # 1) in
        let violation := (value -. threshold) *: sign_op in
        if violation >. Fin 0
        then
          (* add penalty term to the metric *)
          p <- penalty_at i ;;
          let objective := objective +. p *: violation *: metric_op in
          (if p <. penalty
           then set_penalty_at i (p +. violation)
           else ret tt) ;;
          ret (objective, false)
        else ret acc
      else ret acc
  end.

(** the account of the metric constraints: returns the result record
    with the lagrange-modified metric added, and the local flag
    [metric_constraint_satisfied] *)
Definition account_metric_constraints (result : Result) : M (Result * bool) :=
  metric <- gets _metric ;;
  constraints <- gets _metric_constraints ;;
  objective <- item KeyError (Dict.get metric result) ;;
  '(objective, metric_constraint_satisfied) <-
    fold_M (enumerate constraints) (metric_constraint_step result)
      (objective, true) ;;
  let result := Dict.set (metric ++ lagrange)%string objective result in
  satisfied <- gets _metric_constraint_satisfied ;;
  (if metric_constraint_satisfied && negb satisfied
   then (* found a feasible point *)
     modify (set_metric_constraint_penalty
               (Some (map (fun _ => Fin 1) constraints)))
   else ret tt) ;;
  modify (fun s =>
    set_metric_constraint_satisfied
      (_metric_constraint_satisfied s || metric_constraint_satisfied) s) ;;
  ret (result, metric_constraint_satisfied).

(** delivery of the result to the owning thread, when it is still in
    the pool *)
Definition notify_thread (trial_id : string) (result : option Result)
    (error : bool) (thread_id : option Z) : M unit :=
  match thread_id with
  | None => ret tt
  | Some id =>
      pool <- gets _search_thread_pool ;;
      if Dict.mem id pool
      then
        modify (fun s =>
          set_search_thread_pool
            (Dict.alter
               (fun t => thread_on_trial_complete t trial_id result error)
               id (_search_thread_pool s)) s) ;;
        modify (fun s =>
          set_trial_proposed_by
            (Dict.remove trial_id (_trial_proposed_by s)) s)
      else ret tt
  end.

(** the update of the result cache and of the pool for a non-empty
    [result]; returns the local [thread_id] *)
Definition record_result (trial_id : string) (result : Result)
    (error metric_constraint_satisfied : bool) (thread_id : option Z)
    : M (option Z) :=
  let config := config_of_result result in
  let signature := config_signature config in
  if error
  then (* remove from result cache *)
    cache <- gets _result ;;
    if Dict.mem signature cache
    then
      modify (fun s => set_result (Dict.remove signature (_result s)) s) ;;
      ret thread_id
    else raise KeyError
  else (* add to result cache *)
    modify (fun s => set_result (Dict.set signature result (_result s)) s) ;;
    (* update target metric if improved *)
    objective <- item KeyError (Dict.get ls_metric result) ;;
    target <- gets _metric_target ;;
    (if (objective -. target) *: metric_op <. Fin 0
     then modify (set_metric_target objective)
     else ret tt) ;;
    create <-
      (match thread_id with
       | Some 0%Z =>
           if metric_constraint_satisfied
           then _create_condition result
           else ret false
       | _ => ret false
       end) ;;
    thread_id <-
      (if create
       then (* thread creator *)
         count <- gets _thread_count ;;
         csp <- gets _candidate_start_points ;;
         let given :=
           match csp with
           | Some d => nonempty d && Dict.mem trial_id d
           | None => false
           end in
         modify (set_started_from_given (Some given)) ;;
         (if given
          then modify (set_candidate_start_points
                         (match csp with
                          | Some d => Some (Dict.remove trial_id d)
                          | None => None
                          end))
          else modify (set_started_from_low_cost (Some true))) ;;
         _create_thread config result ;;
         ret (Some count)
       else
         satisfied <- gets _metric_constraint_satisfied ;;
         (match thread_id with
          | Some id =>
              if negb (id =? 0)%Z && negb satisfied
              then (* no point has been found to satisfy metric constraint *)
                _expand_admissible_region
              else ret tt
          | None => ret tt
          end) ;;
         ret thread_id) ;;
    (* reset admissible region to ls bounding box *)
    sync_admissible_region ;;
    ret thread_id.

(** the pruning pass at the end of [on_trial_complete] *)
Definition cleaner (thread_id : option Z) : M unit :=
  match thread_id with
  | Some id =>
      pool <- gets _search_thread_pool ;;
      if negb (id =? 0)%Z && Dict.mem id pool
      then _clean id
      else ret tt
  | None => ret tt
  end.

(** the first part of [BlendSearch.on_trial_complete]: the account of the
    metric constraints, when there are any and the result is not empty
    and not an error; returns the [result] object, which is modified in
    place, and the local [metric_constraint_satisfied] *)
Definition constraint_phase (result : option Result) (error : bool)
    : M (option Result * bool) :=
  constraints <- gets _metric_constraints ;;
  match result with
  | Some r =>
      if nonempty r && negb error && nonempty constraints
      then
        '(r', satisfied) <- account_metric_constraints r ;;
        ret (Some r', satisfied)
      else ret (result, true)
  | None => ret (result, true)
  end.

(** the rest of [BlendSearch.on_trial_complete]: search thread updater
    and cleaner *)
Definition delivery (trial_id : string) (result : option Result)
    (error metric_constraint_satisfied : bool) : M unit :=
  thread_id <- gets (fun s => Dict.get trial_id (_trial_proposed_by s)) ;;
  notify_thread trial_id result error thread_id ;;
  thread_id <-
    (match result with
     | Some r =>
         if nonempty r
         then record_result trial_id r error metric_constraint_satisfied
                thread_id
         else ret thread_id
     | None => ret thread_id
     end) ;;
  cleaner thread_id.

(** [BlendSearch.on_trial_complete]; returns the [result] object, which
    the method modifies in place *)
Definition BlendSearch_on_trial_complete (trial_id : string)
    (result : option Result) (error : bool) : M (option Result) :=
  '(result, metric_constraint_satisfied) <- constraint_phase result error ;;
  delivery trial_id result error metric_constraint_satisfied ;;
  ret result.

(** [CFO.on_trial_complete] *)
Definition CFO_on_trial_complete (trial_id : string)
    (result : option Result) (error : bool) : M unit :=
  result <- BlendSearch_on_trial_complete trial_id result error ;;
  csp <- gets _candidate_start_points ;;
  match csp with
  | Some d =>
      if nonempty d && Dict.mem trial_id d
      then
        (* the trial is a candidate start point *)
        modify (set_candidate_start_points
                  (Some (Dict.set trial_id result d))) ;;
        pool <- gets _search_thread_pool ;;
        pts <- gets _points_to_evaluate ;;
        if (List.length pool <? 2)%nat && negb (nonempty pts)
        then _create_thread_from_best_candidate
        else ret tt
      else ret tt
  | None => ret tt
  end.

Definition on_trial_complete (trial_id : string) (result : option Result)
    (error : bool) : M unit :=
  c <- gets cls ;;
  match c with
  | BlendSearch =>
      BlendSearch_on_trial_complete trial_id result error ;; ret tt
  | CFO => CFO_on_trial_complete trial_id result error
  end.

(** [on_trial_result]: receive an intermediate result *)
Definition on_trial_result (trial_id : string) (result : Result) : M unit :=
  proposed <- gets _trial_proposed_by ;;
  match Dict.get trial_id proposed with
  | None => ret tt
  | Some thread_id =>
      pool <- gets _search_thread_pool ;;
      if Dict.mem thread_id pool
      then
        metric <- gets _metric ;;
        constraints <- gets _metric_constraints ;;
        result <-
          (if nonempty result && nonempty constraints
           then
             v <- item KeyError (Dict.get metric result) ;;
             ret (Dict.set (metric ++ lagrange)%string v result)
           else ret result) ;;
        modify (fun s =>
          set_search_thread_pool
            (Dict.alter (fun t => thread_on_trial_result t trial_id result)
               thread_id (_search_thread_pool s)) s)
      else ret tt
  end.

(** *** [suggest] *)

(** [BlendSearch._select_thread]: updates the priorities and returns the
    top and the backup choice *)
Definition BlendSearch_select_thread : M (Z * Z) :=
  deadline <- gets _deadline ;;
  now <- with_env time_time ;;
  let min_eci := deadline -. now in
  let min_eci := if min_eci <=. Fin 0 then Fin 0 else min_eci in
  pool <- gets _search_thread_pool ;;
  let max_speed :=
    fold_left
      (fun (m : num) (kv : Z * Thread) =>
         if speed (snd kv) >. m then speed (snd kv) else m)
      pool (Fin 0) in
  target <- gets _metric_target ;;
  modify (fun s =>
    set_search_thread_pool
      (Dict.map_values (fun t => update_eci t target max_speed)
         (_search_thread_pool s)) s) ;;
  pool <- gets _search_thread_pool ;;
  let min_eci :=
    fold_left
      (fun (m : num) (kv : Z * Thread) =>
         if eci (snd kv) <. m then eci (snd kv) else m)
      pool min_eci in
  modify (fun s =>
    set_search_thread_pool
      (Dict.map_values (fun t => update_priority t min_eci)
         (_search_thread_pool s)) s) ;;
  pool <- gets _search_thread_pool ;;
  t0 <- item KeyError (Dict.get 0%Z pool) ;;
  let '(top_thread_id, backup_thread_id, _, _) :=
    fold_left
      (fun (acc : Z * Z * num * num) (kv : Z * Thread) =>
         let '(top, backup, priority1, priority2) := acc in
         let (thread_id, thread) := kv in
         if negb (thread_id =? 0)%Z && can_suggest thread
         then
           let p := priority thread in
           let '(top, priority1) :=
             if p >. priority1 then (thread_id, p) else (top, priority1) in
           let '(backup, priority2) :=
             if (p >. priority2) || (backup =? 0)%Z
             then (thread_id, p) else (backup, priority2) in
           (top, backup, priority1, priority2)
         else acc)
      pool (0%Z, 0%Z, priority t0, priority t0) in
  ret (top_thread_id, backup_thread_id).

(** [CFO._select_thread]: the first local thread; without one the method
    returns [None], which the caller fails to unpack *)
Definition CFO_select_thread : M (Z * Z) :=
  pool <- gets _search_thread_pool ;;
  match filter (fun key => negb (key =? 0)%Z) (Dict.keys pool) with
  | key :: _ => ret (key, key)
  | [] => raise TypeError
  end.

Definition _select_thread : M (Z * Z) :=
  c <- gets cls ;;
  match c with
  | BlendSearch => BlendSearch_select_thread
  | CFO => CFO_select_thread
  end.

(** whether a config constraint [(func, sign, threshold)] is violated *)
Definition violated (config : Config) (constraint : config_constraint) : bool :=
  let '(func, sign, threshold) := constraint in
  let value := func config in
  (String.eqb sign "<=" && (value >. threshold))
  || (String.eqb sign ">=" && (value <. threshold)).

(** [self._search_thread_pool[id].on_trial_complete(trial_id, result,
    error)] *)
Definition thread_complete (id : Z) (trial_id : string)
    (result : option Result) (error : bool) : M unit :=
  _ <- gets_item KeyError (fun s => Dict.get id (_search_thread_pool s)) ;;
  modify (fun s =>
    set_search_thread_pool
      (Dict.alter (fun t => thread_on_trial_complete t trial_id result error)
         id (_search_thread_pool s)) s).

(** [_should_skip]: true if [config] is [None], or its result is known,
    or a config constraint is violated *)
Definition _should_skip (choice : Z) (trial_id : string)
    (config : option Config) : M bool :=
  match config with
  | None => ret true
  | Some config =>
      let config_signature := config_signature config in
      cache <- gets _result ;;
      let exists_ := Dict.mem config_signature cache in
      constraints <- gets _config_constraints ;;
      exists_ <-
        (if negb exists_ && existsb (violated config) constraints
         then
           metric <- gets _metric ;;
           modify (fun s =>
             set_result
               (Dict.set config_signature
                  (Dict.set "time_total_s"%string (Fin 1)
                     (Dict.set metric (pinf *: metric_op) Dict.empty))
                  (_result s)) s) ;;
           ret true
         else ret exists_) ;;
      if exists_
      then (* suggested before *)
        (if (choice >=? 0)%Z
         then (* not fallback to rs *)
           cache <- gets _result ;;
           match Dict.get config_signature cache with
           | Some result =>
               if nonempty result
               then (* finished *)
                 thread_complete choice trial_id (Some result) false ;;
                 if negb (choice =? 0)%Z then _clean choice else ret tt
               else ret tt
           | None => ret tt
           end
         else ret tt) ;;
        ret true
      else ret false
  end.

(** [self._search_thread_pool[id].suggest(trial_id)] *)
Definition suggest_from (id : Z) (trial_id : string) : M (option Config) :=
  t <- gets_item KeyError (fun s => Dict.get id (_search_thread_pool s)) ;;
  modify (fun s =>
    set_search_thread_pool
      (Dict.alter (fun t => snd (thread_suggest t trial_id)) id
         (_search_thread_pool s)) s) ;;
  ret (fst (thread_suggest t trial_id)).

(** [self._ls.complete_config(init_config, self._ls_bound_min,
    self._ls_bound_max)] *)
Definition complete (init_config : Config) : M Config :=
  lo <- gets _ls_bound_min ;;
  hi <- gets _ls_bound_max ;;
  with_env (complete_config init_config lo hi).

(** the end of the steady-state branch of [suggest], from the update of
    the admissible region *)
Definition register_proposal (choice : Z) (config : Config)
    : M (option Config) :=
  config <-
    (if (choice =? 0)%Z
     then (* global search *)
       let config :=
         if ls_resource then Dict.set prune_attr min_resource config
         else config in
       (* temporarily relax admissible region for parallel proposals *)
       _update_admissible_region config GlobalBox ;;
       ret config
     else
       _update_admissible_region config LocalBox ;;
       sync_admissible_region ;;
       ret config) ;;
  modify (fun s =>
    set_result (Dict.set (config_signature config) Dict.empty (_result s)) s) ;;
  ret (Some config).

Definition set_proposed_by (trial_id : string) (id : Z) : M unit :=
  modify (fun s =>
    set_trial_proposed_by (Dict.set trial_id id (_trial_proposed_by s)) s).

(** the steady-state branch of [suggest] for a config that passed the
    preliminary check *)
Definition propose (trial_id : string) (choice backup : Z) (config : Config)
    : M (option Config) :=
  valid <- (if negb (choice =? 0)%Z then ret true else _valid config) ;;
  if valid
  then (* LS or valid or no backup choice *)
    set_proposed_by trial_id choice ;;
    register_proposal choice config
  else (* invalid config proposed by GS *)
    if (choice =? backup)%Z
    then (* use CFO's init point *)
      config <- complete init_config ;;
      set_proposed_by trial_id choice ;;
      register_proposal choice config
    else
      config <- suggest_from backup trial_id ;;
      skip <- _should_skip backup trial_id config ;;
      if skip then ret None
      else
        match config with
        | None => raise TypeError  (* not reached: [None] is skipped *)
        | Some config =>
            set_proposed_by trial_id backup ;;
            register_proposal backup config
        end.

(** the branch of [suggest] that uses an initial point *)
Definition suggest_init (trial_id : string) : M (option Config) :=
  csp <- gets _candidate_start_points ;;
  pts <- gets _points_to_evaluate ;;
  (match csp with
   | Some d =>
       if nonempty pts
       then modify (set_candidate_start_points
                      (Some (Dict.set trial_id None d)))
       else ret tt
   | None => ret tt
   end) ;;
  init_config <-
    (match pts with
     | p :: rest => modify (set_points_to_evaluate rest) ;; ret p
     | [] => ret init_config
     end) ;;
  config <- complete init_config ;;
  let config_signature := config_signature config in
  cache <- gets _result ;;
  match Dict.get config_signature cache with
  | Some (_ :: _) => ret None  (* tried before *)
  | Some [] => ret None        (* running but no result yet *)
  | None =>                    (* not tried before *)
      modify (fun s =>
        set_result (Dict.set config_signature Dict.empty (_result s)) s) ;;
      modify (set_init_used true) ;;
      set_proposed_by trial_id 0%Z ;;
      _ <- gets_item KeyError (fun s => Dict.get 0%Z (_search_thread_pool s)) ;;
      modify (fun s =>
        set_search_thread_pool
          (Dict.alter incr_running 0%Z (_search_thread_pool s)) s) ;;
      ret (Some config)
  end.

(** [BlendSearch.suggest]: choose thread, suggest a valid config *)
Definition BlendSearch_suggest (trial_id : string) : M (option Config) :=
  init_used <- gets _init_used ;;
  pts <- gets _points_to_evaluate ;;
  if init_used && negb (nonempty pts)
  then
    '(choice, backup) <- _select_thread ;;
    if (choice <? 0)%Z then ret None (* timeout *)
    else
      config <- suggest_from choice trial_id ;;
      if negb (choice =? 0)%Z
         && match config with None => true | Some _ => false end
      then (* local search thread finishes *)
        pool <- gets _search_thread_pool ;;
        t <- item KeyError (Dict.get choice pool) ;;
        (if converged t
         then
           _expand_admissible_region ;;
           modify (fun s =>
             set_search_thread_pool
               (Dict.remove choice (_search_thread_pool s)) s)
         else ret tt) ;;
        ret None
      else
        (* preliminary check; not checking config validation *)
        skip <- _should_skip choice trial_id config ;;
        if skip
        then
          if negb (choice =? 0)%Z then ret None
          else
            (* use rs when BO fails to suggest a config *)
            generated <- with_env generate_variants ;;
            let config :=
              match generated with
              | Some c => Some c
              | None => config
              end in
            skip <- _should_skip (-1)%Z trial_id config ;;
            if skip then ret None
            else
              match config with
              | None => raise TypeError  (* not reached *)
              | Some config => propose trial_id choice backup config
              end
        else
          match config with
          | None => raise TypeError  (* not reached *)
          | Some config => propose trial_id choice backup config
          end
  else (* use init config *)
    suggest_init trial_id.

(** [CFO.suggest] *)
Definition CFO_suggest (trial_id : string) : M (option Config) :=
  pool <- gets _search_thread_pool ;;
  (* Number of threads is 1 or 2. Thread 0 is a vacuous thread *)
  if (List.length pool <? 3)%nat
  then
    (if (List.length pool <? 2)%nat
     then modify (set_init_used false)
     else ret tt) ;;
    BlendSearch_suggest trial_id
  else raise AssertionError.

Definition suggest (trial_id : string) : M (option Config) :=
  c <- gets cls ;;
  match c with
  | BlendSearch => BlendSearch_suggest trial_id
  | CFO => CFO_suggest trial_id
  end.

End Methods.

(* ================================================================== *)
(** ** Runs of the coordinator *)
(* ================================================================== *)

(** the calls a trial runner makes on a coordinator *)
Inductive call : Type :=
| Suggest (trial_id : string)
| OnTrialResult (trial_id : string) (result : Result)
| OnTrialComplete (trial_id : string) (result : option Result) (error : bool).

Section Runs.

Context {Sig Env Thread : Type}.
Context {LS : LocalSearch Sig Env} {ST : SearchThread Thread Env}.

(** the state after a call; an exception raised by the call is caught by
    the caller and the coordinator is used further *)
Definition step (c : call) (s : @State Sig Env Thread) : @State Sig Env Thread :=
  match c with
  | Suggest trial_id => snd (suggest trial_id s)
  | OnTrialResult trial_id result => snd (on_trial_result trial_id result s)
  | OnTrialComplete trial_id result error =>
      snd (on_trial_complete trial_id result error s)
  end.

Definition run (calls : list call) (s : @State Sig Env Thread)
    : @State Sig Env Thread :=
  fold_left (fun s c => step c s) calls s.

End Runs.

(* ================================================================== *)
(** ** A small instance of the collaborators *)
(* ================================================================== *)

(** One dimension [x]; the local engine normalizes by the identity and
    completes a config by returning it; a signature is the pair of the
    numerator and denominator of [x] packed in one integer.  A thread
    proposes the fixed config it holds. *)
Module Toy.

Record thread : Type := mkThread {
  best1 : num;
  best2 : num;
  level : option num;
  finished : bool;
  reaches : bool;
  proposal : option Config;
  completed : nat
}.

Definition signature (c : Config) : Z :=
  match Dict.get "x"%string c with
  | Some (Fin q) => (Qnum q * 1000 + Zpos (Qden q))%Z
  | _ => (-1)%Z
  end.

Definition local_search (metric : string) (op : num) : LocalSearch Z unit :=
  {| sig_eqdec := EqDec_Z;
     ls_metric := metric;
     metric_op := op;
     init_config := [("x"%string, Fin 0)];
     ls_resource := false;
     prune_attr := "x"%string;
     min_resource := Fin 0;
     STEPSIZE := Fin (1 # 100);
     normalize := fun c => c;
     complete_config := fun c _ _ e => (c, e);
     config_signature := signature;
     generate_variants := fun e => (None, e);
     time_time := fun e => (Fin 0, e) |}.

Definition search_thread : SearchThread thread unit :=
  {| new_global_thread :=
       mkThread pinf pinf None false false
         (Some [("x"%string, Fin (1 # 200))]) 0;
     new_local_thread := fun c obj _ e =>
       (mkThread obj obj None false false (Some c) 0, e);
     obj_best1 := best1;
     obj_best2 := best2;
     speed := fun _ => Fin 0;
     eci := fun _ => Fin 1;
     priority := fun _ => Fin 0;
     resource := level;
     converged := finished;
     can_suggest := fun _ => true;
     reach := fun t2 _ => reaches t2;
     thread_suggest := fun t _ => (proposal t, t);
     thread_on_trial_complete := fun t _ _ _ =>
       mkThread (best1 t) (best2 t) (level t) (finished t) (reaches t)
         (proposal t) (S (completed t));
     thread_on_trial_result := fun t _ _ => t;
     update_eci := fun t _ _ => t;
     update_priority := fun t _ => t;
     incr_running := fun t => t |}.

(** the local engine that minimizes [loss] *)
Definition plain_search : LocalSearch Z unit := local_search "loss" (Fin 1).

(** a coordinator that minimizes [loss] without constraints *)
Definition plain (c : variant) : @State Z unit thread :=
  @__init__ Z unit thread plain_search search_thread
    c "loss"%string [] [] [] tt.

(** the state after a sequence of calls on such a coordinator *)
Definition plain_run (calls : list call) (s : @State Z unit thread)
    : @State Z unit thread :=
  @run Z unit thread plain_search search_thread calls s.

(** the local engine that minimizes the lagrange-modified [loss] *)
Definition constrained_search : LocalSearch Z unit :=
  local_search "loss_lagrange" (Fin 1).

(** a coordinator that minimizes [loss] subject to [accuracy >= 0.9] *)
Definition constrained : @State Z unit thread :=
  @__init__ Z unit thread constrained_search search_thread
    BlendSearch "loss"%string [] []
    [("accuracy"%string, ">="%string, Fin (9 # 10))] tt.

End Toy.

(* ================================================================== *)
(** * Properties *)
(* ================================================================== *)

(** ** Numbers *)

Lemma Qlt_bool_iff (a b : Q) : Qlt_bool a b = true <-> (a < b)%Q.
Proof.
  unfold Qlt_bool. rewrite negb_true_iff.
  destruct (Qle_bool b a) eqn:E.
  - apply Qle_bool_iff in E. split; [discriminate | intros H; exfalso; lra].
  - split; [intros _ | reflexivity].
    destruct (Qlt_le_dec a b) as [L | L]; [exact L |].
    apply Qle_bool_iff in L. congruence.
Qed.

Lemma Qlt_bool_false_iff (a b : Q) : Qlt_bool a b = false <-> (b <= a)%Q.
Proof.
  unfold Qlt_bool. rewrite negb_false_iff. apply Qle_bool_iff.
Qed.

Lemma flt_fin (a b : Q) : (Fin a <. Fin b) = true <-> (a < b)%Q.
Proof. apply Qlt_bool_iff. Qed.

Lemma fle_fin (a b : Q) : (Fin a <=. Fin b) = true <-> (a <= b)%Q.
Proof. apply Qle_bool_iff. Qed.

Lemma flt_fle (a b : num) : (a <. b) = true -> (a <=. b) = true.
Proof.
  destruct a as [x | s |], b as [y | t |]; simpl; try congruence.
  - rewrite Qlt_bool_iff. intros H. apply Qle_bool_iff. lra.
  - destruct s, t; simpl; congruence.
Qed.

Lemma fle_trans (a b c : num) :
  (a <=. b) = true -> (b <=. c) = true -> (a <=. c) = true.
Proof.
  destruct a as [x | s |], b as [y | t |], c as [z | u |]; simpl;
    try congruence;
    try (rewrite !Qle_bool_iff; intros; lra);
    repeat match goal with b : bool |- _ => destruct b end;
    simpl; congruence.
Qed.

(** [a] is not above [b]: the order of the numbers, made reflexive on the
    special values *)
Definition num_le (a b : num) : Prop := a = b \/ (a <=. b) = true.

Lemma num_le_refl (a : num) : num_le a a.
Proof. left; reflexivity. Qed.

Lemma num_le_trans (a b c : num) : num_le a b -> num_le b c -> num_le a c.
Proof.
  intros [-> | H1] [-> | H2]; unfold num_le; auto.
  right. eapply fle_trans; eauto.
Qed.

Lemma num_le_add_step (a : num) (step : Q) :
  (0 <= step)%Q -> num_le a (a +. Fin step).
Proof.
  intros Hs. destruct a as [x | s |]; [| left; reflexivity ..].
  right. apply Qle_bool_iff. pose proof (Qred_correct (x + step)). lra.
Qed.

Lemma num_le_sub_step (a : num) (step : Q) :
  (0 <= step)%Q -> num_le (a -. Fin step) a.
Proof.
  intros Hs. destruct a as [x | s |]; [| left; reflexivity ..].
  right. apply Qle_bool_iff. pose proof (Qred_correct (x - step)). lra.
Qed.

(** ** Dictionaries *)

Section DictFacts.

Context {K V : Type} `{EqDec K}.

Lemma eqb_refl (k : K) : eqb k k = true.
Proof. apply eqb_eq. reflexivity. Qed.

Lemma eqb_neq (k k' : K) : k <> k' -> eqb k k' = false.
Proof.
  intros N. destruct (eqb k k') eqn:E; [| reflexivity].
  apply eqb_eq in E. contradiction.
Qed.

Lemma eqb_dec (k k' : K) : {k = k'} + {k <> k'}.
Proof.
  destruct (eqb k k') eqn:E.
  - left. apply eqb_eq. exact E.
  - right. intros ->. rewrite eqb_refl in E. discriminate.
Qed.

Lemma get_set_eq (k : K) (v : V) (d : dict K V) :
  Dict.get k (Dict.set k v d) = Some v.
Proof.
  induction d as [| [k' v'] r IH]; simpl.
  - rewrite eqb_refl. reflexivity.
  - destruct (eqb k k') eqn:E; simpl.
    + rewrite eqb_refl. reflexivity.
    + rewrite E. exact IH.
Qed.

Lemma get_set_neq (k k' : K) (v : V) (d : dict K V) :
  k <> k' -> Dict.get k' (Dict.set k v d) = Dict.get k' d.
Proof.
  intros N. induction d as [| [k0 v0] r IH]; simpl.
  - rewrite (eqb_neq (k:=k') (k':=k)); auto.
  - destruct (eqb k k0) eqn:E; simpl.
    + apply eqb_eq in E. subst k0.
      rewrite (eqb_neq (k:=k') (k':=k)); auto.
    + destruct (eqb k' k0); auto.
Qed.

Lemma get_set (k k' : K) (v : V) (d : dict K V) :
  Dict.get k' (Dict.set k v d)
  = if eqb k k' then Some v else Dict.get k' d.
Proof.
  destruct (eqb_dec k k') as [-> | N].
  - rewrite eqb_refl. apply get_set_eq.
  - rewrite (eqb_neq N). apply get_set_neq. exact N.
Qed.

Lemma length_set_present (k : K) (v v0 : V) (d : dict K V) :
  Dict.get k d = Some v0 -> List.length (Dict.set k v d) = List.length d.
Proof.
  induction d as [| [k' v'] r IH]; simpl; [discriminate |].
  destruct (eqb k k'); simpl; auto.
Qed.

Lemma length_set_le (k : K) (v : V) (d : dict K V) :
  (List.length (Dict.set k v d) <= S (List.length d))%nat.
Proof.
  induction d as [| [k' v'] r IH]; simpl; [lia |].
  destruct (eqb k k'); simpl; lia.
Qed.

Lemma keys_set_present (k : K) (v v0 : V) (d : dict K V) :
  Dict.get k d = Some v0 -> Dict.keys (Dict.set k v d) = Dict.keys d.
Proof.
  unfold Dict.keys.
  induction d as [| [k' v'] r IH]; simpl; [discriminate |].
  destruct (eqb k k') eqn:E; simpl.
  - apply eqb_eq in E. subst. reflexivity.
  - intros G. rewrite IH; auto.
Qed.

Lemma get_remove_eq (k : K) (d : dict K V) :
  Dict.get k (Dict.remove k d) = None.
Proof.
  unfold Dict.remove.
  induction d as [| [k' v'] r IH]; simpl; [reflexivity |].
  destruct (eqb k k') eqn:E; simpl; [exact IH |].
  rewrite E. exact IH.
Qed.

Lemma get_remove_neq (k k' : K) (d : dict K V) :
  k <> k' -> Dict.get k' (Dict.remove k d) = Dict.get k' d.
Proof.
  intros N. unfold Dict.remove.
  induction d as [| [k0 v0] r IH]; simpl; [reflexivity |].
  destruct (eqb k k0) eqn:E; simpl.
  - apply eqb_eq in E. subst k0.
    rewrite (eqb_neq (k:=k') (k':=k)); auto.
  - destruct (eqb k' k0); auto.
Qed.

Lemma get_remove_some (k k' : K) (v : V) (d : dict K V) :
  Dict.get k' (Dict.remove k d) = Some v -> Dict.get k' d = Some v.
Proof.
  destruct (eqb_dec k k') as [-> | N].
  - rewrite get_remove_eq. discriminate.
  - rewrite get_remove_neq; auto.
Qed.

Lemma length_remove_le (k : K) (d : dict K V) :
  (List.length (Dict.remove k d) <= List.length d)%nat.
Proof.
  unfold Dict.remove.
  induction d as [| [k' v'] r IH]; simpl; [lia |].
  destruct (eqb k k'); simpl; lia.
Qed.

Lemma length_remove_present (k : K) (v : V) (d : dict K V) :
  Dict.get k d = Some v ->
  (S (List.length (Dict.remove k d)) <= List.length d)%nat.
Proof.
  unfold Dict.remove.
  induction d as [| [k' v'] r IH]; simpl; [discriminate |].
  destruct (eqb k k') eqn:E; simpl.
  - intros _. pose proof (length_remove_le k r) as L.
    unfold Dict.remove in L. lia.
  - intros G. specialize (IH G). lia.
Qed.

Lemma mem_get (k : K) (d : dict K V) :
  Dict.mem k d = true <-> exists v, Dict.get k d = Some v.
Proof.
  unfold Dict.mem. destruct (Dict.get k d) as [v |].
  - split; eauto.
  - split; [discriminate | intros [v E]; discriminate].
Qed.

Lemma get_in_keys (k : K) (v : V) (d : dict K V) :
  Dict.get k d = Some v -> In k (Dict.keys d).
Proof.
  unfold Dict.keys.
  induction d as [| [k' v'] r IH]; simpl; [discriminate |].
  destruct (eqb k k') eqn:E.
  - apply eqb_eq in E. auto.
  - auto.
Qed.

Lemma in_keys_get (k : K) (d : dict K V) :
  In k (Dict.keys d) -> exists v, Dict.get k d = Some v.
Proof.
  unfold Dict.keys.
  induction d as [| [k' v'] r IH]; simpl; [contradiction |].
  intros [-> | I].
  - rewrite eqb_refl. eauto.
  - destruct (eqb k k'); eauto.
Qed.

(** the lookups of [d.update(other)] *)
Lemma get_update (k : K) (d other : dict K V) :
  Dict.get k (Dict.update d other)
  = match Dict.get k other with
    | Some v => Some v
    | None => Dict.get k d
    end.
Proof.
  unfold Dict.update.
  assert (G : forall ks acc,
    Dict.get k
      (fold_left
         (fun acc k0 =>
            match Dict.get k0 other with
            | Some v => Dict.set k0 v acc
            | None => acc
            end) ks acc)
    = if existsb (eqb k) ks
      then match Dict.get k other with
           | Some v => Some v
           | None => Dict.get k acc
           end
      else Dict.get k acc).
  { induction ks as [| k0 ks IH]; intros acc; simpl; [reflexivity |].
    rewrite IH. destruct (eqb_dec k k0) as [<- | N].
    - rewrite eqb_refl. simpl.
      destruct (Dict.get k other) as [v |] eqn:E.
      + rewrite get_set_eq. destruct (existsb (eqb k) ks); reflexivity.
      + destruct (existsb (eqb k) ks); reflexivity.
    - rewrite (eqb_neq N). simpl.
      destruct (Dict.get k0 other) as [v0 |] eqn:E0; [| reflexivity].
      rewrite get_set_neq; auto. }
  rewrite G.
  destruct (existsb (eqb k) (Dict.keys other)) eqn:E; [reflexivity |].
  destruct (Dict.get k other) as [v |] eqn:E1; [| reflexivity].
  apply get_in_keys in E1.
  assert (existsb (eqb k) (Dict.keys other) = true).
  { apply existsb_exists. exists k. split; [exact E1 | apply eqb_refl]. }
  congruence.
Qed.

End DictFacts.

Arguments Qred : simpl never.
Arguments Qplus : simpl never.
Arguments Qminus : simpl never.
Arguments Qmult : simpl never.
Arguments Qle_bool : simpl never.
Arguments Qeq_bool : simpl never.

(** ** The domination rule [_inferior] *)

Section Inferior.

Context {Sig Env Thread : Type}.
Context {LS : LocalSearch Sig Env} {ST : SearchThread Thread Env}.

(** thread [a] has a defined, non-zero resource level that is strictly
    smaller than the level of [b] *)
Definition resource_smaller (a b : Thread) : Prop :=
  exists ra rb,
    resource a = Some ra /\ truthy ra = true /\
    resource b = Some rb /\ (ra <. rb) = true.

(** the levels of [a] and [b] can be compared: [b] has a level whenever
    [a] has a non-zero one *)
Definition comparable (a b : Thread) : Prop :=
  forall ra, resource a = Some ra -> truthy ra = true ->
             exists rb, resource b = Some rb.

Lemma and_lt_true (a b : Thread) :
  and_lt (resource a) (resource b) = Ok true <-> resource_smaller a b.
Proof.
  unfold and_lt, resource_smaller. split.
  - intros E.
    destruct (resource a) as [ra |]; [| discriminate E].
    destruct (truthy ra) eqn:T; [| discriminate E].
    destruct (resource b) as [rb |]; [| discriminate E].
    injection E as E'. exists ra, rb. repeat split; auto.
  - intros (ra & rb & -> & -> & -> & ->). reflexivity.
Qed.

Lemma and_lt_comparable (a b : Thread) :
  comparable a b -> exists r, and_lt (resource a) (resource b) = Ok r.
Proof.
  unfold comparable, and_lt. intros C.
  destruct (resource a) as [ra |]; [| eauto].
  destruct (truthy ra) eqn:T; [| eauto].
  destruct (C ra eq_refl T) as [rb ->]. eauto.
Qed.

(** C2. For threads A and B of the pool, [_inferior A B] is false as
    soon as A's best objective is strictly below B's second best, and
    also when A has a defined non-zero resource level strictly smaller
    than B's; when the resource levels can be compared it returns a
    boolean, which is true iff neither of these holds and B reaches A.
    With A.obj_best1 = 2 and B.obj_best2 = 3 the answer is false
    whatever the resource levels and the reach predicate are. *)
Theorem inferior_iff (pool : dict Z Thread) (id1 id2 : Z) (A B : Thread) :
  Dict.get id1 pool = Some A ->
  Dict.get id2 pool = Some B ->
  ((obj_best1 A <. obj_best2 B) = true -> _inferior pool id1 id2 = Ok false)
  /\ (resource_smaller A B -> _inferior pool id1 id2 = Ok false)
  /\ (comparable A B ->
      exists r, _inferior pool id1 id2 = Ok r /\
        (r = true <->
         (obj_best1 A <. obj_best2 B) = false
         /\ ~ resource_smaller A B
         /\ reach B A = true))
  /\ (obj_best1 A = Fin 2 -> obj_best2 B = Fin 3 ->
      _inferior pool id1 id2 = Ok false).
Proof.
  intros GA GB. unfold _inferior. rewrite GA, GB.
  split; [| split; [| split]].
  - intros E. rewrite E. reflexivity.
  - intros RS. destruct (obj_best1 A <. obj_best2 B); [reflexivity |].
    apply and_lt_true in RS. rewrite RS. reflexivity.
  - intros C. destruct (obj_best1 A <. obj_best2 B) eqn:E1.
    + exists false. split; [reflexivity |].
      split; [intros F; discriminate F | intros (F & _); discriminate F].
    + destruct (and_lt_comparable C) as [r Er]. rewrite Er.
      destruct r.
      * exists false. split; [reflexivity |].
        split; [intros F; discriminate F |].
        intros (_ & N & _). exfalso. apply N. apply and_lt_true. exact Er.
      * assert (N : ~ resource_smaller A B).
        { intros RS. apply and_lt_true in RS. congruence. }
        destruct (reach B A) eqn:R.
        -- exists true. split; [reflexivity |]. split; auto.
        -- exists false. split; [reflexivity |].
           split; [intros F; discriminate F | intros (_ & _ & F); discriminate F].
  - intros -> ->. reflexivity.
Qed.

End Inferior.

(** a pool of two local threads, A with best objectives 2 and B with 3 *)
Definition inferior_pool : dict Z Toy.thread :=
  [(1%Z, Toy.mkThread (Fin 2) (Fin 2) None false true None 0);
   (2%Z, Toy.mkThread (Fin 3) (Fin 3) None false true None 0)].

Lemma inferior_iff_witness :
  @_inferior unit Toy.thread Toy.search_thread inferior_pool 1 2 = Ok false
  /\ @_inferior unit Toy.thread Toy.search_thread inferior_pool 2 1 = Ok true.
Proof.
  split.
  - exact (proj1
      (@inferior_iff unit Toy.thread Toy.search_thread inferior_pool 1%Z 2%Z
         _ _ eq_refl eq_refl) eq_refl).
  - reflexivity.
Defined.

(** ** The validity check [_valid] *)

Section Valid.

Context {Sig Env Thread : Type}.
Context {LS : LocalSearch Sig Env} {ST : SearchThread Thread Env}.

Abbreviation State := (@State Sig Env Thread).

(** every dimension of the global admissible region that is present in
    [config] has a minimum, a maximum and a normalized value, so that no
    lookup of [_valid] fails *)
Definition tracked (s : State) (config : Config) : Prop :=
  forall key,
    In key (Dict.keys (_gs_admissible_min s)) ->
    Dict.mem key config = true ->
    exists lo hi v,
      Dict.get key (_gs_admissible_min s) = Some lo
      /\ Dict.get key (_gs_admissible_max s) = Some hi
      /\ Dict.get key (normalize config) = Some v.

(** [v] lies within [[lo - slack, hi + slack]] as [_valid] tests it, with
    the slack STEPSIZE: [v + slack] is not below [lo] and [v] is not
    above [hi + slack] *)
Definition in_slack (lo hi v : num) : Prop :=
  (v +. STEPSIZE <. lo) = false /\ (v >. hi +. STEPSIZE) = false.

(** every dimension of the global admissible region that is present in
    [config] has its normalized value within the slack of its bounds *)
Definition within_region (s : State) (config : Config) : Prop :=
  forall key lo hi v,
    Dict.get key (_gs_admissible_min s) = Some lo ->
    Dict.get key (_gs_admissible_max s) = Some hi ->
    Dict.mem key config = true ->
    Dict.get key (normalize config) = Some v ->
    in_slack lo hi v.

(** the two tests read over the rationals, where the sums are exact *)
Lemma below_min_iff (v slack lo : Q) :
  (Fin v +. Fin slack <. Fin lo) = false <-> (lo - slack <= v)%Q.
Proof.
  unfold fadd, flt. rewrite Qlt_bool_false_iff.
  pose proof (Qred_correct (v + slack)). split; intros; lra.
Qed.

Lemma above_max_iff (v slack hi : Q) :
  (Fin v >. Fin hi +. Fin slack) = false <-> (v <= hi + slack)%Q.
Proof.
  unfold fgt, fadd, flt. rewrite Qlt_bool_false_iff.
  pose proof (Qred_correct (hi + slack)). split; intros; lra.
Qed.

Lemma valid_scan_spec (s : State) (config : Config) (ks : list string) :
  tracked s config ->
  (forall key, In key ks -> In key (Dict.keys (_gs_admissible_min s))) ->
  exists b,
    _valid_scan config (normalize config) (_gs_admissible_min s)
      (_gs_admissible_max s) ks = Ok b
    /\ (b = true <->
        forall key lo hi v,
          In key ks ->
          Dict.get key (_gs_admissible_min s) = Some lo ->
          Dict.get key (_gs_admissible_max s) = Some hi ->
          Dict.mem key config = true ->
          Dict.get key (normalize config) = Some v ->
          in_slack lo hi v).
Proof.
  intros HF. induction ks as [| key rest IH]; intros Hin.
  - exists true. split; [reflexivity |]. split; [| reflexivity].
    intros _ key lo hi v [].
  - destruct IH as (b & Eb & Hb).
    { intros k I. apply Hin. right. exact I. }
    cbn [_valid_scan].
    destruct (Dict.mem key config) eqn:Mem.
    + destruct (HF key (Hin key (or_introl eq_refl)) Mem)
        as (lo & hi & v & Glo & Ghi & Gv).
      rewrite Gv, Glo, Ghi.
      destruct (v +. STEPSIZE <. lo) eqn:E1.
      { exists false. split; [reflexivity |].
        split; [intros F; discriminate F |].
        intros W. destruct (W key lo hi v (or_introl eq_refl) Glo Ghi Mem Gv)
          as [L _].
        congruence. }
      destruct (v >. hi +. STEPSIZE) eqn:E2.
      { exists false. split; [reflexivity |].
        split; [intros F; discriminate F |].
        intros W. destruct (W key lo hi v (or_introl eq_refl) Glo Ghi Mem Gv)
          as [_ U].
        congruence. }
      exists b. split; [exact Eb |].
      rewrite Hb. split.
      * intros W k lo' hi' v' [<- | I] Glo' Ghi' Mem' Gv'.
        -- rewrite Glo in Glo'. rewrite Ghi in Ghi'. rewrite Gv in Gv'.
           injection Glo' as <-. injection Ghi' as <-. injection Gv' as <-.
           split; assumption.
        -- eapply W; eauto.
      * intros W k lo' hi' v' I. apply W. right. exact I.
    + exists b. split; [exact Eb |].
      rewrite Hb. split.
      * intros W k lo' hi' v' [<- | I] Glo' Ghi' Mem' Gv'.
        -- congruence.
        -- eapply W; eauto.
      * intros W k lo' hi' v' I. apply W. right. exact I.
Qed.

(** C3. [_valid config] returns, whenever its lookups succeed, and it
    accepts iff every dimension of the global admissible region that is
    also in [config] has its normalized value within
    [[global_min - slack, global_max + slack]], where slack is the local
    engine's STEPSIZE and the interval is read as the code tests it:
    [value + slack] is not below [global_min] and [value] is not above
    [global_max + slack]; it rejects otherwise.  With the box min_x = 0,
    max_x = 0.3 and slack 0.01: x = 0.32 is rejected, x = 0.305 is
    accepted and x = -0.02 is rejected. *)
Theorem valid_iff (s : State) (config : Config) :
  tracked s config ->
  (exists b, _valid config s = (Ok b, s)
             /\ (b = true <-> within_region s config))
  /\ (STEPSIZE = Fin (1 # 100) ->
      _gs_admissible_min s = [("x"%string, Fin 0)] ->
      _gs_admissible_max s = [("x"%string, Fin (3 # 10))] ->
      Dict.mem "x"%string config = true ->
      (Dict.get "x"%string (normalize config) = Some (Fin (32 # 100)) ->
       _valid config s = (Ok false, s))
      /\ (Dict.get "x"%string (normalize config) = Some (Fin (305 # 1000)) ->
          _valid config s = (Ok true, s))
      /\ (Dict.get "x"%string (normalize config) = Some (Fin (-2 # 100)) ->
          _valid config s = (Ok false, s))).
Proof.
  intros HF. split.
  - destruct (@valid_scan_spec s config
                (Dict.keys (_gs_admissible_min s)) HF (fun _ I => I))
      as (b & Eb & Hb).
    exists b. split.
    + unfold _valid, bind, gets, lift. cbn. rewrite Eb. reflexivity.
    + rewrite Hb. unfold within_region. split.
      * intros W key lo hi v Glo.
        apply W; [eapply get_in_keys; eauto | exact Glo].
      * intros W key lo hi v _. apply W.
  - intros HS Emin Emax Mem.
    unfold _valid, bind, gets, lift. cbn. rewrite Emin, Emax. cbn.
    rewrite Mem, HS.
    split; [| split]; intros ->; reflexivity.
Qed.

End Valid.

(** the coordinator of the small instance with the global box
    [[0, 0.3]] on [x] *)
Definition valid_state : @State Z unit Toy.thread :=
  set_gs_admissible_max [("x"%string, Fin (3 # 10))] (Toy.plain BlendSearch).

Lemma valid_iff_witness :
  (exists b,
     @_valid Z unit Toy.thread (Toy.local_search "loss" (Fin 1))
       [("x"%string, Fin (305 # 1000))] valid_state = (Ok b, valid_state)
     /\ (b = true <->
         @within_region Z unit Toy.thread (Toy.local_search "loss" (Fin 1))
           valid_state [("x"%string, Fin (305 # 1000))]))
  /\ @_valid Z unit Toy.thread (Toy.local_search "loss" (Fin 1))
       [("x"%string, Fin (305 # 1000))] valid_state = (Ok true, valid_state).
Proof.
  assert (T : @tracked Z unit Toy.thread (Toy.local_search "loss" (Fin 1))
                valid_state [("x"%string, Fin (305 # 1000))]).
  { intros key [<- | []] _. exists (Fin 0), (Fin (3 # 10)), (Fin (305 # 1000)).
    repeat split; reflexivity. }
  destruct (@valid_iff Z unit Toy.thread (Toy.local_search "loss" (Fin 1))
              valid_state [("x"%string, Fin (305 # 1000))] T) as [A B].
  split; [exact A |].
  exact (proj1 (proj2 (B eq_refl eq_refl eq_refl eq_refl)) eq_refl).
Defined.

(** ** The thread-creation condition of [BlendSearch] *)

Example median_odd : median [Fin 3; Fin 1; Fin 2] = Fin 2.
Proof. reflexivity. Qed.

Example median_even : median [Fin 4; Fin 1; Fin 3; Fin 2] = Fin (5 # 2).
Proof. reflexivity. Qed.

Example median_single (q : Q) : median [Fin q] = Fin q.
Proof. reflexivity. Qed.

Section CreateCondition.

Context {Sig Env Thread : Type}.
Context {LS : LocalSearch Sig Env} {ST : SearchThread Thread Env}.

Abbreviation State := (@State Sig Env Thread).

(** [obj_best1] of the local threads, in pool order *)
Definition local_bests (pool : dict Z Thread) : list num :=
  map (fun kv : Z * Thread => obj_best1 (snd kv))
    (filter (fun kv : Z * Thread => negb (fst kv =? 0)%Z) pool).

Lemma local_bests_spec (pool : dict Z Thread) (b : num) :
  In b (local_bests pool) <->
  exists id t, In (id, t) pool /\ id <> 0%Z /\ obj_best1 t = b.
Proof.
  unfold local_bests. rewrite in_map_iff. split.
  - intros ([id t] & E & I). apply filter_In in I. destruct I as [I N].
    exists id, t. cbn in *; repeat split; auto.
    apply negb_true_iff in N. apply Z.eqb_neq. exact N.
  - intros (id & t & I & N & E). exists (id, t). split; [exact E |].
    apply filter_In. split; [exact I |]. cbn.
    apply negb_true_iff. apply Z.eqb_neq. exact N.
Qed.

(** C6. The default creation condition is true whenever the pool holds
    fewer than 2 threads; otherwise it is true iff the objective of the
    result times metric_op is strictly below the median of obj_best1
    over the local (non-zero id) threads.  A [BlendSearch] coordinator
    uses this condition. *)
Theorem create_condition_default (s : State) (result : Result) :
  ((List.length (_search_thread_pool s) < 2)%nat ->
   BlendSearch_create_condition result s = (Ok true, s))
  /\ ((2 <= List.length (_search_thread_pool s))%nat ->
      forall obj, Dict.get ls_metric result = Some obj ->
      BlendSearch_create_condition result s
      = (Ok (obj *: metric_op <. median (local_bests (_search_thread_pool s))),
         s))
  /\ (cls s = BlendSearch ->
      _create_condition result s = BlendSearch_create_condition result s).
Proof.
  unfold BlendSearch_create_condition, _create_condition, bind, gets.
  cbv beta iota. fold (local_bests (_search_thread_pool s)).
  split; [| split].
  - intros L. apply Nat.ltb_lt in L. rewrite L. reflexivity.
  - intros L obj G.
    destruct (List.length (_search_thread_pool s) <? 2)%nat eqn:E.
    + apply Nat.ltb_lt in E. lia.
    + unfold item. rewrite G. reflexivity.
  - intros E. rewrite E. reflexivity.
Qed.

End CreateCondition.

Lemma create_condition_default_witness :
  @BlendSearch_create_condition Z unit Toy.thread
    (Toy.local_search "loss" (Fin 1)) Toy.search_thread
    [("loss"%string, Fin 1)] (Toy.plain BlendSearch)
  = (Ok true, Toy.plain BlendSearch).
Proof.
  apply (proj1 (@create_condition_default Z unit Toy.thread
                  (Toy.local_search "loss" (Fin 1)) Toy.search_thread
                  (Toy.plain BlendSearch) [("loss"%string, Fin 1)])).
  vm_compute. reflexivity.
Defined.

(** ** [suggest] in bootstrap mode *)

Section Bootstrap.

Context {Sig Env Thread : Type}.
Context {LS : LocalSearch Sig Env} {ST : SearchThread Thread Env}.

Abbreviation State := (@State Sig Env Thread).

(** the initial point [suggest] uses: the first user-supplied point, or
    the init config of the local engine *)
Definition initial_point (s : State) : Config :=
  match _points_to_evaluate s with
  | p :: _ => p
  | [] => init_config
  end.

(** the initial point completed against the current bounds *)
Definition completed_point (s : State) : Config :=
  fst (complete_config (initial_point s) (_ls_bound_min s) (_ls_bound_max s)
         (env s)).

Lemma suggest_init_cached (s : State) (trial_id : string) (r : Result) :
  Dict.get (config_signature (completed_point s)) (_result s) = Some r ->
  fst (suggest_init trial_id s) = Ok None.
Proof.
  unfold completed_point, initial_point, suggest_init, complete.
  unfold bind, gets, modify, ret, with_env.
  intros G.
  destruct (_candidate_start_points s) as [d |];
    destruct (_points_to_evaluate s) as [| p rest]; cbn in *;
    match goal with
    | |- context [complete_config ?a ?b ?c ?e] =>
        destruct (complete_config a b c e) as [cfg e'] eqn:E
    end; cbn in *; rewrite G; destruct r; reflexivity.
Qed.

Lemma suggest_init_unseen (s : State) (trial_id : string) (t0 : Thread) :
  Dict.get (config_signature (completed_point s)) (_result s) = None ->
  Dict.get 0%Z (_search_thread_pool s) = Some t0 ->
  exists s',
    suggest_init trial_id s = (Ok (Some (completed_point s)), s')
    /\ Dict.get (config_signature (completed_point s)) (_result s') = Some []
    /\ Dict.get trial_id (_trial_proposed_by s') = Some 0%Z
    /\ _init_used s' = true.
Proof.
  unfold completed_point, initial_point, suggest_init, complete, set_proposed_by.
  unfold bind, gets, modify, ret, with_env, gets_item, item.
  intros G G0.
  destruct (_candidate_start_points s) as [d |];
    destruct (_points_to_evaluate s) as [| p rest]; cbn in *;
    match goal with
    | |- context [complete_config ?a ?b ?c ?e] =>
        destruct (complete_config a b c e) as [cfg e'] eqn:E
    end; cbn in *; rewrite G; cbn; rewrite G0; cbn;
    eexists; (split; [reflexivity |]); cbn;
    rewrite !get_set_eq; auto.
Qed.

Lemma suggest_init_some (s s' : State) (trial_id : string) (c : Config) :
  suggest_init trial_id s = (Ok (Some c), s') ->
  Dict.get (config_signature (completed_point s)) (_result s) = None.
Proof.
  destruct (Dict.get (config_signature (completed_point s)) (_result s))
    as [r |] eqn:G; [| reflexivity].
  intros E. pose proof (@suggest_init_cached s trial_id r G) as F.
  rewrite E in F. discriminate F.
Qed.

(** C8. In bootstrap mode, [suggest] for an initial point whose
    signature is cached, with a resolved result or with the empty
    placeholder, returns no suggestion; for an unseen signature it caches
    the placeholder, records thread 0 as the owner and returns the
    completed configuration; and a configuration is returned only for an
    unseen signature. *)
Theorem bootstrap_suggest (s : State) (trial_id : string) :
  _init_used s && negb (nonempty (_points_to_evaluate s)) = false ->
  let signature := config_signature (completed_point s) in
  (forall r, Dict.get signature (_result s) = Some r -> nonempty r = true ->
             fst (BlendSearch_suggest trial_id s) = Ok None)
  /\ (Dict.get signature (_result s) = Some [] ->
      fst (BlendSearch_suggest trial_id s) = Ok None)
  /\ (forall t0,
        Dict.get signature (_result s) = None ->
        Dict.get 0%Z (_search_thread_pool s) = Some t0 ->
        exists s',
          BlendSearch_suggest trial_id s = (Ok (Some (completed_point s)), s')
          /\ Dict.get signature (_result s') = Some []
          /\ Dict.get trial_id (_trial_proposed_by s') = Some 0%Z
          /\ _init_used s' = true)
  /\ (forall c s',
        BlendSearch_suggest trial_id s = (Ok (Some c), s') ->
        Dict.get signature (_result s) = None).
Proof.
  intros Mode signature.
  assert (E : BlendSearch_suggest trial_id s = suggest_init trial_id s).
  { unfold BlendSearch_suggest, bind, gets. cbv beta iota.
    rewrite Mode. reflexivity. }
  rewrite E. repeat split.
  - intros r G _. eapply suggest_init_cached; eauto.
  - intros G. eapply suggest_init_cached; eauto.
  - intros t0 G G0. eapply suggest_init_unseen; eauto.
  - intros c s' R. eapply suggest_init_some; eauto.
Qed.

End Bootstrap.

Lemma bootstrap_suggest_witness :
  exists s',
    @BlendSearch_suggest Z unit Toy.thread (Toy.local_search "loss" (Fin 1))
      Toy.search_thread "t1" (Toy.plain BlendSearch)
    = (Ok (Some [("x"%string, Fin 0)]), s')
    /\ Dict.get 1%Z (_result s') = Some []
    /\ Dict.get "t1"%string (_trial_proposed_by s') = Some 0%Z
    /\ _init_used s' = true.
Proof.
  refine (proj1 (proj2 (proj2
    (@bootstrap_suggest Z unit Toy.thread (Toy.local_search "loss" (Fin 1))
       Toy.search_thread (Toy.plain BlendSearch) "t1"%string eq_refl)))
    _ eq_refl eq_refl).
Defined.

(** ** Running a computation step by step *)

Ltac run :=
  repeat (unfold bind, gets, ret, modify, raise, item, lift, gets_item,
            with_env;
          cbv beta iota).

(** ** The account of metric constraints in [on_trial_complete] *)

Section MetricConstraints.

Context {Sig Env Thread : Type}.
Context {LS : LocalSearch Sig Env} {ST : SearchThread Thread Env}.

Abbreviation State := (@State Sig Env Thread).
Abbreviation M := (@M Sig Env Thread).

(** the signed violation of a constraint by a value *)
Definition violation (sign : string) (threshold value : num) : num :=
  (value -. threshold) *: (if String.eqb sign "<=" then Fin 1 else Fin (-1 # 1)).

(** the metric of the constraint is absent from the result, or its
    value is zero *)
Definition skipped (result : Result) (c : metric_constraint) : bool :=
  match Dict.get (fst (fst c)) result with
  | None => true
  | Some value => negb (truthy value)
  end.

Lemma step_skipped (result : Result) (i : nat) (c : metric_constraint)
    (acc : num * bool) (s : State) :
  skipped result c = true ->
  metric_constraint_step result (i, c) acc s = (Ok acc, s).
Proof.
  destruct c as [[name sign] threshold], acc as [objective sat].
  unfold skipped, metric_constraint_step. cbn [fst].
  destruct (Dict.get name result) as [value |]; [| reflexivity].
  intros T. apply negb_true_iff in T. rewrite T. reflexivity.
Qed.

(** a violated constraint with a non-zero value adds
    [penalty[i] * violation * metric_op] to the objective and clears the
    local flag; the weight grows by the violation while it is below the
    initial penalty *)
Lemma step_violated (result : Result) (i : nat) (name sign : string)
    (threshold value objective p : num) (sat : bool) (l : list num)
    (s : State) :
  Dict.get name result = Some value ->
  truthy value = true ->
  (violation sign threshold value >. Fin 0) = true ->
  _metric_constraint_penalty s = Some l ->
  nth_error l i = Some p ->
  metric_constraint_step result
    (i, ((name, sign, threshold) : metric_constraint)) (objective, sat) s
  = (Ok (objective +. p *: violation sign threshold value *: metric_op, false),
     if p <. penalty
     then set_metric_constraint_penalty
            (Some (list_set i (p +. violation sign threshold value) l)) s
     else s).
Proof.
  intros G T V P N. unfold metric_constraint_step, violation in *.
  rewrite G, T, V.
  unfold penalty_at, set_penalty_at. run.
  rewrite P. run. rewrite N. run.
  destruct (p <. penalty); [| reflexivity].
  run. rewrite P.
  assert (L : (i <? List.length l)%nat = true).
  { apply Nat.ltb_lt. apply nth_error_Some. congruence. }
  rewrite L. reflexivity.
Qed.

(** a constraint that is met leaves the accumulator and the weights as
    they are *)
Lemma step_met (result : Result) (i : nat) (name sign : string)
    (threshold value : num) (acc : num * bool) (s : State) :
  Dict.get name result = Some value ->
  (violation sign threshold value >. Fin 0) = false ->
  metric_constraint_step result
    (i, ((name, sign, threshold) : metric_constraint)) acc s
  = (Ok acc, s).
Proof.
  intros G V. destruct acc as [objective sat].
  unfold metric_constraint_step, violation in *.
  rewrite G, V. destruct (truthy value); reflexivity.
Qed.

(** the loop over the constraints behaves as if the skipped constraints
    were not in the list *)
Lemma loop_skips (result : Result) (l : list (nat * metric_constraint))
    (acc : num * bool) (s : State) :
  fold_M l (metric_constraint_step result) acc s
  = fold_M (filter (fun ic => negb (skipped result (snd ic))) l)
      (metric_constraint_step result) acc s.
Proof.
  revert acc s. induction l as [| [i c] l IH]; intros acc s; [reflexivity |].
  cbn [fold_M filter snd].
  destruct (skipped result c) eqn:K; cbn [negb].
  - unfold bind at 1. rewrite (@step_skipped result i c acc s K). apply IH.
  - cbn [fold_M]. unfold bind.
    destruct (metric_constraint_step result (i, c) acc s) as [[acc' | e] s'];
      [apply IH | reflexivity].
Qed.

Lemma loop_all_skipped (result : Result) (cs : list metric_constraint)
    (acc : num * bool) (s : State) :
  forallb (skipped result) cs = true ->
  fold_M (enumerate cs) (metric_constraint_step result) acc s = (Ok acc, s).
Proof.
  intros A. rewrite loop_skips.
  assert (E : filter (fun ic : nat * metric_constraint =>
                        negb (skipped result (snd ic))) (enumerate cs) = []).
  { unfold enumerate. generalize (seq 0 (List.length cs)).
    induction cs as [| c cs IH]; intros [| n ns]; try reflexivity.
    cbn in A. apply andb_true_iff in A. destruct A as [A1 A2].
    cbn. rewrite A1. cbn. apply IH. exact A2. }
  rewrite E. reflexivity.
Qed.

(** C9. A metric constraint whose metric is absent from the result, or
    whose value is 0, is skipped by the loop of [on_trial_complete]: its
    step changes neither the objective, nor the local satisfied flag, nor
    the weights, and the loop runs as if the constraint were not listed.
    A result in which every constraint is skipped is recorded with the
    unmodified objective, sets the satisfied flag and, when the flag was
    not set, resets the weights to 1.  This holds also for a value 0 that
    violates its threshold, as accuracy = 0 does for accuracy >= 0.9. *)
Theorem zero_or_absent_skipped (s : State) (result : Result) :
  (forall i c acc,
     skipped result c = true ->
     metric_constraint_step result (i, c) acc s = (Ok acc, s))
  /\ (forall l acc,
        fold_M l (metric_constraint_step result) acc s
        = fold_M (filter (fun ic => negb (skipped result (snd ic))) l)
            (metric_constraint_step result) acc s)
  /\ (forall objective,
        forallb (skipped result) (_metric_constraints s) = true ->
        Dict.get (_metric s) result = Some objective ->
        account_metric_constraints result s
        = (Ok (Dict.set (_metric s ++ lagrange)%string objective result, true),
           set_metric_constraint_satisfied true
             (if _metric_constraint_satisfied s then s
              else set_metric_constraint_penalty
                     (Some (map (fun _ => Fin 1) (_metric_constraints s))) s)))
  /\ (skipped [("accuracy"%string, Fin 0)]
        ("accuracy"%string, ">="%string, Fin (9 # 10)) = true
      /\ (violation ">=" (Fin (9 # 10)) (Fin 0) >. Fin 0) = true).
Proof.
  split; [| split; [| split]].
  - intros i c acc K. apply step_skipped. exact K.
  - intros l acc. apply loop_skips.
  - intros objective A G.
    unfold account_metric_constraints.
    unfold bind at 1. unfold gets at 1. cbv beta iota.
    unfold bind at 1. unfold gets at 1. cbv beta iota.
    unfold bind at 1. unfold item. rewrite G. unfold ret at 1. cbv beta iota.
    unfold bind at 1.
    rewrite (@loop_all_skipped result (_metric_constraints s) (objective, true)
               s A).
    cbv beta iota.
    unfold bind, gets, modify, ret. cbn [andb].
    destruct (_metric_constraint_satisfied s) eqn:F; cbn.
    + rewrite F. reflexivity.
    + rewrite F. reflexivity.
  - split; reflexivity.
Qed.

End MetricConstraints.

Lemma zero_or_absent_skipped_witness :
  @account_metric_constraints Z unit Toy.thread
    (Toy.local_search "loss_lagrange" (Fin 1))
    [("loss"%string, Fin 5); ("accuracy"%string, Fin 0)] Toy.constrained
  = (Ok ([("loss"%string, Fin 5); ("accuracy"%string, Fin 0);
          ("loss_lagrange"%string, Fin 5)], true),
     set_metric_constraint_satisfied true
       (set_metric_constraint_penalty (Some [Fin 1]) Toy.constrained)).
Proof.
  exact (proj1 (proj2 (proj2
    (@zero_or_absent_skipped Z unit Toy.thread
       (Toy.local_search "loss_lagrange" (Fin 1)) Toy.constrained
       [("loss"%string, Fin 5); ("accuracy"%string, Fin 0)])))
    (Fin 5) eq_refl eq_refl).
Defined.

Unset Implicit Arguments.

(** ** More facts on dictionaries *)

Section DictMoreFacts.

Context {K V : Type} `{EqDec K}.

Lemma length_alter (f : V -> V) (k : K) (d : dict K V) :
  List.length (Dict.alter f k d) = List.length d.
Proof.
  induction d as [| [k' v] r IH]; cbn; [reflexivity |].
  destruct (eqb k k'); cbn; congruence.
Qed.

Lemma keys_alter (f : V -> V) (k : K) (d : dict K V) :
  Dict.keys (Dict.alter f k d) = Dict.keys d.
Proof.
  unfold Dict.keys.
  induction d as [| [k' v] r IH]; cbn; [reflexivity |].
  destruct (eqb k k'); cbn; congruence.
Qed.

Lemma get_alter (f : V -> V) (k k' : K) (d : dict K V) :
  Dict.get k' (Dict.alter f k d)
  = if eqb k k' then option_map f (Dict.get k' d) else Dict.get k' d.
Proof.
  induction d as [| [k0 v] r IH]; cbn.
  - destruct (eqb k k'); reflexivity.
  - destruct (eqb k k0) eqn:E; cbn.
    + apply eqb_eq in E. subst k0.
      destruct (eqb k' k) eqn:E'.
      * apply eqb_eq in E'. subst k'. rewrite eqb_refl. reflexivity.
      * destruct (eqb k k') eqn:E2; [| reflexivity].
        apply eqb_eq in E2. subst k'. rewrite eqb_refl in E'. discriminate E'.
    + destruct (eqb k' k0) eqn:E'.
      * apply eqb_eq in E'. subst k0. rewrite E. reflexivity.
      * exact IH.
Qed.

Lemma length_map_values (f : V -> V) (d : dict K V) :
  List.length (Dict.map_values f d) = List.length d.
Proof. unfold Dict.map_values. apply length_map. Qed.

Lemma keys_map_values (f : V -> V) (d : dict K V) :
  Dict.keys (Dict.map_values f d) = Dict.keys d.
Proof.
  unfold Dict.keys, Dict.map_values. rewrite map_map. reflexivity.
Qed.

Lemma get_map_values (f : V -> V) (k : K) (d : dict K V) :
  Dict.get k (Dict.map_values f d) = option_map f (Dict.get k d).
Proof.
  unfold Dict.map_values.
  induction d as [| [k' v] r IH]; cbn; [reflexivity |].
  destruct (eqb k k'); [reflexivity | exact IH].
Qed.

Lemma mem_set_other (k k' : K) (v : V) (d : dict K V) :
  Dict.mem k' d = true -> Dict.mem k' (Dict.set k v d) = true.
Proof.
  unfold Dict.mem. rewrite get_set.
  destruct (eqb k k'); [reflexivity | auto].
Qed.

Lemma mem_remove (k k' : K) (d : dict K V) :
  Dict.mem k' (Dict.remove k d) = true -> Dict.mem k' d = true.
Proof.
  unfold Dict.mem.
  destruct (Dict.get k' (Dict.remove k d)) as [v |] eqn:G; [| discriminate].
  apply get_remove_some in G. rewrite G. reflexivity.
Qed.

End DictMoreFacts.

(** ** Properties kept by a computation *)

Section Preservation.

Context {Sig Env Thread : Type}.
Context {LS : LocalSearch Sig Env} {ST : SearchThread Thread Env}.

Abbreviation State := (@State Sig Env Thread).
Abbreviation M := (@M Sig Env Thread).

(** [P] holds in the state a computation ends in, with a value or with an
    exception, whenever it holds in the state it starts from *)
Definition preserves {A} (P : State -> Prop) (m : M A) : Prop :=
  forall s, P s -> P (snd (m s)).

Variable P : State -> Prop.

Lemma pres_ret {A} (a : A) : preserves P (ret a).
Proof. intros s H. exact H. Qed.

Lemma pres_raise {A} (e : exn) : preserves P (@raise Sig Env Thread A e).
Proof. intros s H. exact H. Qed.

Lemma pres_gets {A} (f : State -> A) : preserves P (gets f).
Proof. intros s H. exact H. Qed.

Lemma pres_lift {A} (r : res A) : preserves P (lift r).
Proof. intros s H. exact H. Qed.

Lemma pres_item {A} (e : exn) (o : option A) : preserves P (item e o).
Proof. intros s H. destruct o; exact H. Qed.

Lemma pres_gets_item {A} (e : exn) (f : State -> option A) :
  preserves P (gets_item e f).
Proof. intros s H. unfold gets_item. destruct (f s); exact H. Qed.

Lemma pres_modify (f : State -> State) :
  (forall s, P s -> P (f s)) -> preserves P (modify f).
Proof. intros F s H. apply F. exact H. Qed.

Lemma pres_with_env {A} (f : Env -> A * Env) :
  (forall e s, P s -> P (set_env e s)) -> preserves P (with_env f).
Proof.
  intros F s H. unfold with_env. destruct (f (env s)) as [a e].
  apply F. exact H.
Qed.

Lemma pres_bind {A B} (m : M A) (f : A -> M B) :
  preserves P m -> (forall a, preserves P (f a)) -> preserves P (bind m f).
Proof.
  intros Hm Hf s H. unfold bind. specialize (Hm s H).
  destruct (m s) as [[a | e] s']; cbn in *.
  - apply Hf. exact Hm.
  - exact Hm.
Qed.

Lemma pres_for_each {A} (l : list A) (body : A -> M unit) :
  (forall x, preserves P (body x)) -> preserves P (for_each l body).
Proof.
  intros Hb. induction l as [| x r IH]; cbn [for_each].
  - apply pres_ret.
  - apply pres_bind; [apply Hb | intros _; exact IH].
Qed.

Lemma pres_fold_M {A B} (l : list A) (body : A -> B -> M B) (acc : B) :
  (forall x b, preserves P (body x b)) -> preserves P (fold_M l body acc).
Proof.
  intros Hb. revert acc. induction l as [| x r IH]; intros acc; cbn [fold_M].
  - apply pres_ret.
  - apply pres_bind; [apply Hb | intros acc'; apply IH].
Qed.

End Preservation.

(** one step of a proof that a computation keeps a property: the
    structure of the computation is followed; a [modify] leaves the
    property of the changed state to be proved *)
Ltac pres_step :=
  first
    [ assumption
    | solve [eauto]
    | apply pres_ret | apply pres_raise | apply pres_gets | apply pres_lift
    | apply pres_item | apply pres_gets_item
    | apply pres_bind; [| intros ?]
    | apply pres_for_each; intros ?
    | apply pres_fold_M; intros ? ?
    | apply pres_with_env; solve [eauto]
    | apply pres_modify; intros ? ?; cbv beta; solve [eauto 8]
    | match goal with
      | |- preserves _ (if ?b then _ else _) => destruct b
      | |- preserves _ (match ?x with _ => _ end) => destruct x
      end ].

Ltac pres := repeat pres_step.

(** ** Frame lemmas

    A property of the state is kept by a method when it is kept by the
    assignments the method makes.  The assignments are the hypotheses of
    the section; each lemma depends on the ones its method makes.  The
    methods that create or prune threads, that move the local bounding
    box and that account the metric constraints are hypotheses of the
    methods that call them, so that a property that is sensitive to them
    can bring its own proof. *)

Section Frame.

Context {Sig Env Thread : Type}.
Context {LS : LocalSearch Sig Env} {ST : SearchThread Thread Env}.

Abbreviation State := (@State Sig Env Thread).

Variable P : State -> Prop.

Hypothesis st_points : forall v s, P s -> P (set_points_to_evaluate v s).
Hypothesis st_csp : forall v s, P s -> P (set_candidate_start_points v s).
Hypothesis st_given : forall v s, P s -> P (set_started_from_given v s).
Hypothesis st_low_cost : forall v s, P s -> P (set_started_from_low_cost v s).
Hypothesis st_target : forall v s, P s -> P (set_metric_target v s).
Hypothesis st_count : forall v s, P s -> P (set_thread_count v s).
Hypothesis st_init_used : forall v s, P s -> P (set_init_used v s).
Hypothesis st_proposed : forall v s, P s -> P (set_trial_proposed_by v s).
Hypothesis st_ls_min : forall v s, P s -> P (set_ls_bound_min v s).
Hypothesis st_ls_max : forall v s, P s -> P (set_ls_bound_max v s).
Hypothesis st_gs_min : forall v s, P s -> P (set_gs_admissible_min v s).
Hypothesis st_gs_max : forall v s, P s -> P (set_gs_admissible_max v s).
Hypothesis st_result : forall v s, P s -> P (set_result v s).
Hypothesis st_flag : forall v s, P s -> P (set_metric_constraint_satisfied v s).
Hypothesis st_penalty : forall v s, P s -> P (set_metric_constraint_penalty v s).
Hypothesis st_env : forall v s, P s -> P (set_env v s).

(** the pool: a thread mutated in place, every thread mutated, a thread
    deleted, a thread stored under an id *)
Hypothesis st_pool_alter : forall f id s,
  P s -> P (set_search_thread_pool (Dict.alter f id (_search_thread_pool s)) s).
Hypothesis st_pool_map : forall f s,
  P s -> P (set_search_thread_pool (Dict.map_values f (_search_thread_pool s)) s).
Hypothesis st_pool_remove : forall id s,
  P s -> P (set_search_thread_pool (Dict.remove id (_search_thread_pool s)) s).
Hypothesis st_pool_set : forall id t s,
  P s -> P (set_search_thread_pool (Dict.set id t (_search_thread_pool s)) s).

(** methods *)
Hypothesis H_update_local : forall c,
  preserves P (_update_admissible_region c LocalBox).
Hypothesis H_update_global : forall c,
  preserves P (_update_admissible_region c GlobalBox).
Hypothesis H_expand : preserves P _expand_admissible_region.
Hypothesis H_create : forall c r, preserves P (_create_thread c r).
Hypothesis H_from_best : preserves P _create_thread_from_best_candidate.
Hypothesis H_clean : forall id, preserves P (_clean id).
Hypothesis H_account : forall r, preserves P (account_metric_constraints r).
Hypothesis H_record : forall tid r e sat th,
  preserves P (record_result tid r e sat th).
Hypothesis H_base_complete : forall tid r e,
  preserves P (BlendSearch_on_trial_complete tid r e).

Lemma update_region_keeps (c : Config) (w : region) :
  (forall v s, P s -> P (set_box_min w v s)) ->
  (forall v s, P s -> P (set_box_max w v s)) ->
  preserves P (_update_admissible_region c w).
Proof using Type.
  clear H_update_local H_update_global.
  intros Hmin Hmax. unfold _update_admissible_region. pres.
Qed.

Lemma expand_keeps : preserves P _expand_admissible_region.
Proof using st_ls_min st_ls_max.
  clear H_expand. unfold _expand_admissible_region. pres.
Qed.

Lemma sync_keeps : preserves P sync_admissible_region.
Proof using st_gs_min st_gs_max. unfold sync_admissible_region. pres. Qed.

Lemma valid_keeps (c : Config) : preserves P (_valid c).
Proof using Type. unfold _valid. pres. Qed.

Lemma create_condition_keeps (r : Result) : preserves P (_create_condition r).
Proof using Type.
  unfold _create_condition, BlendSearch_create_condition,
    CFO_create_condition.
  pres.
Qed.

Lemma create_thread_keeps (c : Config) (r : Result) :
  preserves P (_create_thread c r).
Proof using st_env st_pool_set st_count H_update_local.
  clear H_create. unfold _create_thread. pres.
Qed.

Lemma from_best_keeps : preserves P _create_thread_from_best_candidate.
Proof using st_given st_csp H_create.
  clear H_from_best. unfold _create_thread_from_best_candidate. pres.
Qed.

Lemma clean_keeps (id : Z) : preserves P (_clean id).
Proof using st_csp st_pool_remove H_expand H_from_best.
  clear H_clean. unfold _clean. pres.
Qed.

Lemma cleaner_keeps (th : option Z) : preserves P (cleaner th).
Proof using H_clean. unfold cleaner. pres. Qed.

Lemma notify_keeps (tid : string) (r : option Result) (e : bool)
    (th : option Z) :
  preserves P (notify_thread tid r e th).
Proof using st_pool_alter st_proposed. unfold notify_thread. pres. Qed.

Lemma account_keeps (r : Result) : preserves P (account_metric_constraints r).
Proof using st_flag st_penalty.
  clear H_account.
  unfold account_metric_constraints, metric_constraint_step, penalty_at,
    set_penalty_at.
  pres.
Qed.

Lemma record_keeps (tid : string) (r : Result) (e sat : bool)
    (th : option Z) :
  preserves P (record_result tid r e sat th).
Proof using st_result st_target st_given st_csp st_low_cost st_gs_min
  st_gs_max H_create H_expand.
  clear H_record.
  pose proof sync_keeps. pose proof create_condition_keeps.
  unfold record_result. pres.
Qed.

Lemma base_complete_keeps (tid : string) (r : option Result) (e : bool) :
  preserves P (BlendSearch_on_trial_complete tid r e).
Proof using st_pool_alter st_proposed H_account H_record H_clean.
  clear H_base_complete.
  pose proof notify_keeps. pose proof cleaner_keeps.
  unfold BlendSearch_on_trial_complete, constraint_phase, delivery. pres.
Qed.

Lemma CFO_complete_keeps (tid : string) (r : option Result) (e : bool) :
  preserves P (CFO_on_trial_complete tid r e).
Proof using st_csp H_base_complete H_from_best.
  unfold CFO_on_trial_complete. pres.
Qed.

Lemma on_trial_result_keeps (tid : string) (r : Result) :
  preserves P (on_trial_result tid r).
Proof using st_pool_alter. unfold on_trial_result. pres. Qed.

Lemma thread_complete_keeps (id : Z) (tid : string) (r : option Result)
    (e : bool) :
  preserves P (thread_complete id tid r e).
Proof using st_pool_alter. unfold thread_complete. pres. Qed.

Lemma should_skip_keeps (choice : Z) (tid : string) (c : option Config) :
  preserves P (_should_skip choice tid c).
Proof using st_result st_pool_alter H_clean.
  pose proof thread_complete_keeps.
  unfold _should_skip. pres.
Qed.

Lemma suggest_from_keeps (id : Z) (tid : string) :
  preserves P (suggest_from id tid).
Proof using st_pool_alter. unfold suggest_from. pres. Qed.

Lemma complete_keeps (c : Config) : preserves P (complete c).
Proof using st_env. unfold complete. pres. Qed.

Lemma register_proposal_keeps (choice : Z) (c : Config) :
  preserves P (register_proposal choice c).
Proof using st_result st_gs_min st_gs_max H_update_local H_update_global.
  pose proof sync_keeps.
  unfold register_proposal. pres.
Qed.

Lemma set_proposed_by_keeps (tid : string) (id : Z) :
  preserves P (set_proposed_by tid id).
Proof using st_proposed. unfold set_proposed_by. pres. Qed.

Lemma propose_keeps (tid : string) (choice backup : Z) (c : Config) :
  preserves P (propose tid choice backup c).
Proof using st_result st_gs_min st_gs_max st_proposed st_env st_pool_alter
  H_update_local H_update_global H_clean.
  pose proof valid_keeps. pose proof set_proposed_by_keeps.
  pose proof register_proposal_keeps. pose proof complete_keeps.
  pose proof suggest_from_keeps. pose proof should_skip_keeps.
  unfold propose. pres.
Qed.

Lemma suggest_init_keeps (tid : string) : preserves P (suggest_init tid).
Proof using st_csp st_points st_env st_result st_init_used st_proposed
  st_pool_alter.
  pose proof set_proposed_by_keeps. pose proof complete_keeps.
  unfold suggest_init. pres.
Qed.

Lemma select_thread_keeps : preserves P _select_thread.
Proof using st_env st_pool_map.
  unfold _select_thread, BlendSearch_select_thread, CFO_select_thread.
  pres.
Qed.

Lemma base_suggest_keeps (tid : string) : preserves P (BlendSearch_suggest tid).
Proof using st_result st_gs_min st_gs_max st_proposed st_env st_pool_alter
  st_pool_map st_pool_remove st_csp st_points st_init_used
  H_update_local H_update_global H_expand H_clean.
  pose proof select_thread_keeps. pose proof suggest_from_keeps.
  pose proof should_skip_keeps. pose proof propose_keeps.
  pose proof suggest_init_keeps.
  unfold BlendSearch_suggest. pres.
Qed.

Lemma suggest_keeps (tid : string) : preserves P (suggest tid).
Proof using st_result st_gs_min st_gs_max st_proposed st_env st_pool_alter
  st_pool_map st_pool_remove st_csp st_points st_init_used
  H_update_local H_update_global H_expand H_clean.
  pose proof base_suggest_keeps.
  unfold suggest, CFO_suggest. pres.
Qed.

Lemma on_trial_complete_keeps (tid : string) (r : option Result) (e : bool) :
  preserves P (on_trial_complete tid r e).
Proof using st_csp H_base_complete H_from_best.
  pose proof CFO_complete_keeps.
  unfold on_trial_complete. pres.
Qed.

End Frame.

(** ** Triples: a precondition, a postcondition on the value and the
    state of a normal return, and one on the state of an exception *)

Section Triples.

Context {Sig Env Thread : Type}.
Context {LS : LocalSearch Sig Env} {ST : SearchThread Thread Env}.

Abbreviation State := (@State Sig Env Thread).
Abbreviation M := (@M Sig Env Thread).

Definition triple {A} (P : State -> Prop) (m : M A)
    (Q : A -> State -> Prop) (E : State -> Prop) : Prop :=
  forall s, P s ->
    match m s with
    | (Ok a, s') => Q a s'
    | (Raise _, s') => E s'
    end.

Lemma triple_bind {A B} (P : State -> Prop) (m : M A) (f : A -> M B)
    (R : A -> State -> Prop) (Q : B -> State -> Prop) (E : State -> Prop) :
  triple P m R E -> (forall a, triple (R a) (f a) Q E) ->
  triple P (bind m f) Q E.
Proof.
  intros Hm Hf s H. unfold bind. specialize (Hm s H).
  destruct (m s) as [[a | e] s'].
  - apply Hf. exact Hm.
  - exact Hm.
Qed.

Lemma triple_conseq {A} (P P' : State -> Prop) (m : M A)
    (Q Q' : A -> State -> Prop) (E E' : State -> Prop) :
  triple P m Q E ->
  (forall s, P' s -> P s) ->
  (forall a s, Q a s -> Q' a s) ->
  (forall s, E s -> E' s) ->
  triple P' m Q' E'.
Proof.
  intros Hm HP HQ HE s H. specialize (Hm s (HP s H)).
  destruct (m s) as [[a | e] s']; auto.
Qed.

Lemma triple_ret {A} (P : State -> Prop) (a : A) (Q : A -> State -> Prop)
    (E : State -> Prop) :
  (forall s, P s -> Q a s) -> triple P (ret a) Q E.
Proof. intros H s HP. apply H. exact HP. Qed.

Lemma triple_raise {A} (P : State -> Prop) (e : exn)
    (Q : A -> State -> Prop) (E : State -> Prop) :
  (forall s, P s -> E s) -> triple P (raise e) Q E.
Proof. intros H s HP. apply H. exact HP. Qed.

Lemma triple_gets {A} (P : State -> Prop) (f : State -> A)
    (Q : A -> State -> Prop) (E : State -> Prop) :
  (forall s, P s -> Q (f s) s) -> triple P (gets f) Q E.
Proof. intros H s HP. apply H. exact HP. Qed.

Lemma triple_modify (P : State -> Prop) (f : State -> State)
    (Q : unit -> State -> Prop) (E : State -> Prop) :
  (forall s, P s -> Q tt (f s)) -> triple P (modify f) Q E.
Proof. intros H s HP. apply H. exact HP. Qed.

Lemma triple_item {A} (P : State -> Prop) (e : exn) (o : option A)
    (Q : A -> State -> Prop) (E : State -> Prop) :
  (forall a s, o = Some a -> P s -> Q a s) ->
  (forall s, o = None -> P s -> E s) ->
  triple P (item e o) Q E.
Proof.
  intros HQ HE s HP. destruct o as [a |]; cbn.
  - apply HQ; auto.
  - apply HE; auto.
Qed.

Lemma triple_gets_item {A} (P : State -> Prop) (e : exn)
    (f : State -> option A) (Q : A -> State -> Prop) (E : State -> Prop) :
  (forall a s, f s = Some a -> P s -> Q a s) ->
  (forall s, f s = None -> P s -> E s) ->
  triple P (gets_item e f) Q E.
Proof.
  intros HQ HE s HP. unfold gets_item. destruct (f s) as [a |] eqn:F; cbn.
  - apply HQ; auto.
  - apply HE; auto.
Qed.

Lemma triple_lift {A} (P : State -> Prop) (r : res A)
    (Q : A -> State -> Prop) (E : State -> Prop) :
  (forall a s, r = Ok a -> P s -> Q a s) ->
  (forall s, P s -> E s) ->
  triple P (lift r) Q E.
Proof.
  intros HQ HE s HP. unfold lift. destruct r as [a | e].
  - apply HQ; auto.
  - apply HE; auto.
Qed.

(** a property that is kept holds after a normal return and after an
    exception *)
Lemma triple_of_preserves {A} (P : State -> Prop) (m : M A) :
  preserves P m -> triple P m (fun _ => P) P.
Proof.
  intros Hm s H. specialize (Hm s H). destruct (m s) as [[a | e] s']; exact Hm.
Qed.

Lemma preserves_of_triple {A} (P : State -> Prop) (m : M A) :
  triple P m (fun _ => P) P -> preserves P m.
Proof.
  intros Hm s H. specialize (Hm s H). destruct (m s) as [[a | e] s']; exact Hm.
Qed.

(** a computation that reads the state only returns in the state it
    started from *)
Definition reads_only {A} (m : M A) : Prop := forall s, snd (m s) = s.

Lemma triple_reads_only {A} (P : State -> Prop) (m : M A)
    (Q : A -> State -> Prop) (E : State -> Prop) :
  reads_only m ->
  (forall a s, P s -> m s = (Ok a, s) -> Q a s) ->
  (forall s, P s -> E s) ->
  triple P m Q E.
Proof.
  intros R HQ HE s HP. specialize (R s).
  destruct (m s) as [[a | e] s'] eqn:F; cbn in R; subst s'.
  - apply HQ; auto.
  - apply HE; auto.
Qed.

(** inversion of a normal return of [bind] *)
Lemma bind_ok {A B} (m : M A) (f : A -> M B) (s s' : State) (b : B) :
  bind m f s = (Ok b, s') ->
  exists a s1, m s = (Ok a, s1) /\ f a s1 = (Ok b, s').
Proof.
  unfold bind. destruct (m s) as [[a | e] s1]; intros H.
  - exists a, s1. split; [reflexivity | exact H].
  - discriminate H.
Qed.

End Triples.

(** ** Completion of a trial that has no owning thread *)

Section Completion.

Context {Sig Env Thread : Type}.
Context {LS : LocalSearch Sig Env} {ST : SearchThread Thread Env}.

Abbreviation State := (@State Sig Env Thread).

Lemma set_penalty_same (s : State) :
  set_metric_constraint_penalty (_metric_constraint_penalty s) s = s.
Proof. destruct s; reflexivity. Qed.

Lemma length_list_set {A} (i : nat) (v : A) (l : list A) :
  List.length (list_set i v l) = List.length l.
Proof.
  revert i. induction l as [| x r IH]; intros [| j]; cbn; auto.
Qed.

(** there is one penalty weight per metric constraint *)
Definition weights_ok (s : State) : Prop :=
  exists l, _metric_constraint_penalty s = Some l
            /\ List.length l = List.length (_metric_constraints s).

Lemma step_returns (result : Result) (i : nat) (c : metric_constraint)
    (acc : num * bool) (l : list num) (s : State) :
  _metric_constraint_penalty s = Some l ->
  (i < List.length l)%nat ->
  exists acc' l',
    metric_constraint_step result (i, c) acc s
    = (Ok acc', set_metric_constraint_penalty (Some l') s)
    /\ List.length l' = List.length l.
Proof.
  intros Hp Hi.
  assert (Same : (Ok acc, s)
                 = (@Ok (num * bool) acc,
                    set_metric_constraint_penalty (Some l) s)).
  { rewrite <- Hp, set_penalty_same. reflexivity. }
  destruct c as [[name sign] threshold], acc as [objective sat].
  unfold metric_constraint_step.
  destruct (Dict.get name result) as [value |];
    [| exists (objective, sat), l; split; [exact Same | reflexivity]].
  destruct (truthy value);
    [| exists (objective, sat), l; split; [exact Same | reflexivity]].
  match goal with
  | |- context [if ?b then _ else _] => destruct b
  end; [| exists (objective, sat), l; split; [exact Same | reflexivity]].
  unfold penalty_at, set_penalty_at. run. rewrite Hp. run.
  destruct (nth_error l i) as [p |] eqn:N.
  2:{ apply nth_error_None in N. lia. }
  run. destruct (p <. penalty).
  - run. rewrite Hp. apply Nat.ltb_lt in Hi. rewrite Hi. run.
    eexists. eexists. split; [reflexivity |]. apply length_list_set.
  - run. eexists. exists l. split; [| reflexivity].
    rewrite <- Hp, set_penalty_same. reflexivity.
Qed.

Lemma loop_returns (result : Result) (ics : list (nat * metric_constraint))
    (acc : num * bool) (l : list num) (s : State) :
  _metric_constraint_penalty s = Some l ->
  (forall i c, In (i, c) ics -> (i < List.length l)%nat) ->
  exists acc' l',
    fold_M ics (metric_constraint_step result) acc s
    = (Ok acc', set_metric_constraint_penalty (Some l') s)
    /\ List.length l' = List.length l.
Proof.
  revert acc l s. induction ics as [| [i c] ics IH]; intros acc l s Hp Hi.
  - exists acc, l. split; [| reflexivity].
    cbn. unfold ret. rewrite <- Hp, set_penalty_same. reflexivity.
  - destruct (step_returns result i c acc l s Hp (Hi i c (or_introl eq_refl)))
      as (acc1 & l1 & E1 & L1).
    cbn [fold_M]. unfold bind. rewrite E1.
    destruct (IH acc1 l1 (set_metric_constraint_penalty (Some l1) s) eq_refl)
      as (acc2 & l2 & E2 & L2).
    { intros j c' I. rewrite L1. apply (Hi j c'). right. exact I. }
    exists acc2, l2. split; [| congruence].
    rewrite E2. reflexivity.
Qed.

Lemma enumerate_index {A} (l : list A) (i : nat) (x : A) :
  In (i, x) (enumerate l) -> (i < List.length l)%nat.
Proof.
  unfold enumerate. intros I. apply in_combine_l in I.
  apply in_seq in I. lia.
Qed.

(** with one weight per constraint and the metric in the result, the
    account returns the result with the lagrange-modified metric added,
    from a state that differs in the weights and the satisfied flag
    only *)
Lemma account_returns (r : Result) (objective : num) (s : State) :
  weights_ok s ->
  Dict.get (_metric s) r = Some objective ->
  exists objective' sat p f,
    account_metric_constraints r s
    = (Ok (Dict.set (_metric s ++ lagrange)%string objective' r, sat),
       set_metric_constraint_satisfied f (set_metric_constraint_penalty p s)).
Proof.
  intros (l & Hp & Hl) G. unfold account_metric_constraints.
  unfold bind at 1. unfold gets at 1. cbv beta iota.
  unfold bind at 1. unfold gets at 1. cbv beta iota.
  unfold bind at 1. unfold item. rewrite G. unfold ret at 1. cbv beta iota.
  destruct (loop_returns r (enumerate (_metric_constraints s))
              (objective, true) l s Hp) as ([obj' sat] & l' & E & L).
  { intros i c I. rewrite Hl. eapply enumerate_index; eauto. }
  unfold bind at 1. rewrite E. cbv beta iota.
  run. cbn [_metric_constraint_satisfied set_metric_constraint_penalty].
  destruct (sat && negb (_metric_constraint_satisfied s)); run;
    do 4 eexists; reflexivity.
Qed.

(** the result is ready to be recorded: without metric constraints it
    holds the metric of the local engine; with metric constraints it
    holds the metric, there is one weight per constraint, and the local
    engine optimizes the lagrange-modified metric *)
Definition recordable (s : State) (r : Result) : Prop :=
  match _metric_constraints s with
  | [] => exists objective, Dict.get ls_metric r = Some objective
  | _ :: _ =>
      weights_ok s
      /\ (exists objective, Dict.get (_metric s) r = Some objective)
      /\ ls_metric = (_metric s ++ lagrange)%string
  end.

Lemma set_constraint_state_same (s : State) :
  set_metric_constraint_satisfied (_metric_constraint_satisfied s)
    (set_metric_constraint_penalty (_metric_constraint_penalty s) s) = s.
Proof. destruct s; reflexivity. Qed.

Lemma nonempty_set {K V} `{EqDec K} (k : K) (v : V) (d : dict K V) :
  nonempty (Dict.set k v d) = true.
Proof. destruct d as [| [k' v'] r]; cbn; [| destruct (eqb k k')]; reflexivity. Qed.

(** the result after the account of the metric constraints *)
Definition accounted (s : State) (r r' : Result) : Prop :=
  match _metric_constraints s with
  | [] => r' = r
  | _ :: _ =>
      exists objective',
        r' = Dict.set (_metric s ++ lagrange)%string objective' r
  end.

Lemma constraint_phase_returns (s : State) (r : Result) :
  nonempty r = true ->
  recordable s r ->
  exists r' sat p f objective,
    constraint_phase (Some r) false s
    = (Ok (Some r', sat),
       set_metric_constraint_satisfied f (set_metric_constraint_penalty p s))
    /\ accounted s r r'
    /\ nonempty r' = true
    /\ Dict.get ls_metric r' = Some objective.
Proof.
  intros Hr Hrec. unfold constraint_phase, recordable, accounted in *.
  run. rewrite Hr. cbn [negb andb].
  destruct (_metric_constraints s) as [| c cs] eqn:C.
  - destruct Hrec as [objective G]. cbn [nonempty].
    exists r, true, (_metric_constraint_penalty s),
      (_metric_constraint_satisfied s), objective.
    rewrite set_constraint_state_same. auto.
  - destruct Hrec as (W & [objective G] & Hm). cbn [nonempty].
    destruct (account_returns r objective s W G) as (o' & sat & p & f & E).
    rewrite E. cbv beta iota.
    exists (Dict.set (_metric s ++ lagrange)%string o' r), sat, p, f, o'.
    split; [reflexivity |]. split; [eauto |].
    split; [apply nonempty_set |].
    rewrite Hm. apply get_set_eq.
Qed.

(** C10. [on_trial_complete] without error, with a non-empty result,
    for a trial that has no recorded owning thread: the result (with the
    lagrange-modified metric added when there are metric constraints) is
    cached under the signature of its configuration, the target is
    replaced by the objective when the objective improves it, and the
    pool, the thread count, the trial table, the local bounding box and
    the candidate start points are left as they are: no thread is
    created, pruned or notified.  [on_trial_result] for such a trial
    changes nothing at all. *)
Theorem complete_unknown_trial (s : State) (trial_id : string) (r : Result) :
  nonempty r = true ->
  Dict.get trial_id (_trial_proposed_by s) = None ->
  recordable s r ->
  (exists r' objective s',
     BlendSearch_on_trial_complete trial_id (Some r) false s = (Ok (Some r'), s')
     /\ accounted s r r'
     /\ Dict.get (config_signature (config_of_result r')) (_result s') = Some r'
     /\ Dict.get ls_metric r' = Some objective
     /\ _metric_target s'
        = (if (objective -. _metric_target s) *: metric_op <. Fin 0
           then objective else _metric_target s)
     /\ _search_thread_pool s' = _search_thread_pool s
     /\ _thread_count s' = _thread_count s
     /\ _trial_proposed_by s' = _trial_proposed_by s
     /\ _ls_bound_min s' = _ls_bound_min s
     /\ _ls_bound_max s' = _ls_bound_max s
     /\ _candidate_start_points s' = _candidate_start_points s)
  /\ (forall partial, on_trial_result trial_id partial s = (Ok tt, s)).
Proof.
  intros Hr Hu Hrec. split.
  - destruct (constraint_phase_returns s r Hr Hrec)
      as (r' & sat & p & f & objective & E & Hacc & Hr' & G).
    exists r', objective.
    unfold BlendSearch_on_trial_complete. unfold bind at 1. rewrite E.
    cbv beta iota.
    unfold delivery, notify_thread, record_result, cleaner,
      sync_admissible_region.
    run. cbn [_trial_proposed_by set_metric_constraint_satisfied
              set_metric_constraint_penalty].
    rewrite Hu. run. rewrite Hr'. run.
    rewrite G. run.
    cbn [_metric_target set_result set_metric_constraint_satisfied
         set_metric_constraint_penalty].
    destruct ((objective -. _metric_target s) *: metric_op <. Fin 0); run;
      (eexists; split; [reflexivity |]);
      cbn; rewrite get_set_eq; repeat split; auto.
  - intros partial. unfold on_trial_result. run. rewrite Hu. reflexivity.
Qed.

End Completion.

Lemma complete_unknown_trial_witness :
  exists r' objective s',
    @BlendSearch_on_trial_complete Z unit Toy.thread
      (Toy.local_search "loss" (Fin 1)) Toy.search_thread "t9"
      (Some [("loss"%string, Fin 3); ("config/x"%string, Fin (1 # 4))]) false
      (Toy.plain BlendSearch) = (Ok (Some r'), s')
    /\ Dict.get "loss"%string r' = Some objective
    /\ _metric_target s' = Fin 3
    /\ _search_thread_pool s' = _search_thread_pool (Toy.plain BlendSearch).
Proof.
  destruct (proj1 (@complete_unknown_trial Z unit Toy.thread
                     (Toy.local_search "loss" (Fin 1)) Toy.search_thread
                     (Toy.plain BlendSearch) "t9"%string
                     [("loss"%string, Fin 3); ("config/x"%string, Fin (1 # 4))]
                     eq_refl eq_refl
                     (ex_intro _ (Fin 3) eq_refl)))
    as (r' & objective & s' & E & _ & _ & G & T & Pl & _).
  exists r', objective, s'. repeat split; try assumption.
  rewrite T. vm_compute in E. injection E as <- <-.
  vm_compute in G. injection G as <-. reflexivity.
Defined.

Arguments Dict.remove : simpl never.
Arguments Dict.set : simpl never.
Arguments Dict.alter : simpl never.
Arguments Dict.map_values : simpl never.
Arguments Dict.update : simpl never.
Arguments Dict.mem : simpl never.
Arguments Dict.get : simpl never.

(** ** Properties that the creation and the pruning of threads keep *)

Ltac stable := intros; cbn in *; auto.

Section PruningFrame.

Context {Sig Env Thread : Type}.
Context {LS : LocalSearch Sig Env} {ST : SearchThread Thread Env}.

Abbreviation State := (@State Sig Env Thread).

Variable P : State -> Prop.

Hypothesis st_csp : forall v s, P s -> P (set_candidate_start_points v s).
Hypothesis st_given : forall v s, P s -> P (set_started_from_given v s).
Hypothesis st_count : forall v s, P s -> P (set_thread_count v s).
Hypothesis st_env : forall v s, P s -> P (set_env v s).
Hypothesis st_pool_remove : forall id s,
  P s -> P (set_search_thread_pool (Dict.remove id (_search_thread_pool s)) s).
Hypothesis st_pool_set : forall id t s,
  P s -> P (set_search_thread_pool (Dict.set id t (_search_thread_pool s)) s).
Hypothesis H_update_local : forall c,
  preserves P (_update_admissible_region c LocalBox).
Hypothesis H_expand : preserves P _expand_admissible_region.

Lemma create_thread_frame (c : Config) (r : Result) :
  preserves P (_create_thread c r).
Proof using st_count st_env st_pool_set H_update_local.
  apply create_thread_keeps; assumption.
Qed.

Lemma from_best_frame : preserves P _create_thread_from_best_candidate.
Proof using st_csp st_given st_count st_env st_pool_set H_update_local.
  apply from_best_keeps; try assumption. apply create_thread_frame.
Qed.

Lemma clean_frame (id : Z) : preserves P (_clean id).
Proof using st_csp st_given st_count st_env st_pool_set st_pool_remove
  H_update_local H_expand.
  apply clean_keeps; try assumption. apply from_best_frame.
Qed.

Lemma cleaner_frame (th : option Z) : preserves P (cleaner th).
Proof using st_csp st_given st_count st_env st_pool_set st_pool_remove
  H_update_local H_expand.
  apply cleaner_keeps. apply clean_frame.
Qed.

End PruningFrame.

(** ** Completion of a trial with an error *)

Section CompletionError.

Context {Sig Env Thread : Type}.
Context {LS : LocalSearch Sig Env} {ST : SearchThread Thread Env}.

Abbreviation State := (@State Sig Env Thread).

(** the cache and the trial table of [s], up to the deletion of trials *)
Definition cache_is (R : dict Sig Result) (T : dict string Z) (s : State)
    : Prop :=
  _result s = R
  /\ forall t, Dict.mem t (_trial_proposed_by s) = true -> Dict.mem t T = true.

Lemma cache_is_update_local (R : dict Sig Result) (T : dict string Z)
    (c : Config) :
  preserves (cache_is R T) (_update_admissible_region c LocalBox).
Proof. apply update_region_keeps; stable. Qed.

Lemma cache_is_expand (R : dict Sig Result) (T : dict string Z) :
  preserves (cache_is R T) _expand_admissible_region.
Proof. apply expand_keeps; stable. Qed.

Lemma cache_is_cleaner (R : dict Sig Result) (T : dict string Z)
    (th : option Z) :
  preserves (cache_is R T) (cleaner th).
Proof.
  apply cleaner_frame; try (stable; fail).
  - apply cache_is_update_local.
  - apply cache_is_expand.
Qed.

Lemma cache_is_from_best (R : dict Sig Result) (T : dict string Z) :
  preserves (cache_is R T) _create_thread_from_best_candidate.
Proof.
  apply from_best_frame; try (stable; fail).
  apply cache_is_update_local.
Qed.

(** the signature of the configuration held by a result *)
Definition signature_of (r : Result) : Sig :=
  config_signature (config_of_result r).

(** the cache after a completion with an error *)
Definition cache_after_error (result : option Result) (s : State)
    : dict Sig Result :=
  match result with
  | Some r =>
      if nonempty r && Dict.mem (signature_of r) (_result s)
      then Dict.remove (signature_of r) (_result s)
      else _result s
  | None => _result s
  end.

Lemma notify_frame (tid : string) (result : option Result) (e : bool)
    (th : option Z) (s : State) :
  exists s1,
    notify_thread tid result e th s = (Ok tt, s1)
    /\ cache_is (_result s) (_trial_proposed_by s) s1
    /\ (forall id, th = Some id ->
        id = 0%Z \/ Dict.mem id (_search_thread_pool s) = false ->
        id = 0%Z \/ Dict.mem id (_search_thread_pool s1) = false).
Proof.
  unfold notify_thread, cache_is. destruct th as [id |]; run.
  - destruct (Dict.mem id (_search_thread_pool s)) eqn:Mm; run.
    + eexists. split; [reflexivity |]. cbn. split; [split |].
      * reflexivity.
      * intros t. apply mem_remove.
      * intros id' E [Z0 | F]; [left; exact Z0 |].
        injection E as <-. congruence.
    + exists s. repeat split; auto.
  - exists s. repeat split; auto; try (intros id E; discriminate E).
Qed.

Lemma record_error (tid : string) (r : Result) (sat : bool) (th : option Z)
    (s : State) :
  record_result tid r true sat th s
  = if Dict.mem (signature_of r) (_result s)
    then (Ok th, set_result (Dict.remove (signature_of r) (_result s)) s)
    else (Raise KeyError, s).
Proof.
  unfold record_result, signature_of. run.
  destruct (Dict.mem (config_signature (config_of_result r)) (_result s));
    reflexivity.
Qed.

Lemma delivery_unfold (tid : string) (result : option Result)
    (e sat : bool) (s : State) :
  delivery tid result e sat s
  = match notify_thread tid result e (Dict.get tid (_trial_proposed_by s)) s with
    | (Ok _, s1) =>
        match
          match result with
          | Some r =>
              if nonempty r
              then record_result tid r e sat
                     (Dict.get tid (_trial_proposed_by s)) s1
              else (Ok (Dict.get tid (_trial_proposed_by s)), s1)
          | None => (Ok (Dict.get tid (_trial_proposed_by s)), s1)
          end
        with
        | (Ok th, s2) => cleaner th s2
        | (Raise x, s2) => (Raise x, s2)
        end
    | (Raise x, s1) => (Raise x, s1)
    end.
Proof.
  unfold delivery. run.
  destruct (notify_thread tid result e (Dict.get tid (_trial_proposed_by s)) s)
    as [[u | x] s1]; [| reflexivity].
  destruct result as [r |]; [| reflexivity].
  destruct (nonempty r); reflexivity.
Qed.

Lemma delivery_error (tid : string) (result : option Result) (sat : bool)
    (s : State) :
  cache_is (cache_after_error result s) (_trial_proposed_by s)
    (snd (delivery tid result true sat s))
  /\ (forall r, result = Some r -> nonempty r = true ->
      Dict.mem (signature_of r) (_result s) = true ->
      (forall id, Dict.get tid (_trial_proposed_by s) = Some id ->
                  id = 0%Z \/ Dict.mem id (_search_thread_pool s) = false) ->
      fst (delivery tid result true sat s) = Ok tt).
Proof.
  rewrite delivery_unfold.
  destruct (notify_frame tid result true
              (Dict.get tid (_trial_proposed_by s)) s)
    as (s1 & E1 & [C1 T1] & L1).
  rewrite E1.
  assert (G : forall th s2,
            cache_is (cache_after_error result s) (_trial_proposed_by s) s2 ->
            cache_is (cache_after_error result s) (_trial_proposed_by s)
              (snd (cleaner th s2))).
  { intros th s2. apply cache_is_cleaner. }
  unfold cache_after_error in *.
  destruct result as [r |].
  - destruct (nonempty r) eqn:Nr; cbn [andb] in *.
    + rewrite record_error. rewrite C1.
      destruct (Dict.mem (signature_of r) (_result s)) eqn:Mm.
      * split.
        -- apply G. split; [reflexivity | exact T1].
        -- intros r0 E _ _ Own. injection E as <-.
           unfold cleaner.
           destruct (Dict.get tid (_trial_proposed_by s)) as [id |];
             [| reflexivity].
           run. cbn [_search_thread_pool set_result].
           destruct (L1 id eq_refl (Own id eq_refl)) as [-> | F].
           ++ reflexivity.
           ++ rewrite F. rewrite andb_false_r. reflexivity.
      * split; [split; [exact C1 | exact T1] |].
        intros r0 E _ Mm'. injection E as <-. congruence.
    + split; [apply G; split; [exact C1 | exact T1] |].
      intros r0 E Nr'. injection E as <-. congruence.
  - split; [apply G; split; [exact C1 | exact T1] |].
    intros r0 E. discriminate E.
Qed.

Lemma constraint_phase_error (result : option Result) (s : State) :
  constraint_phase result true s = (Ok (result, true), s).
Proof.
  unfold constraint_phase. run. destruct result as [r |]; [| reflexivity].
  cbn [negb]. rewrite andb_false_r. reflexivity.
Qed.

Lemma base_complete_error (tid : string) (result : option Result) (s : State) :
  cache_is (cache_after_error result s) (_trial_proposed_by s)
    (snd (BlendSearch_on_trial_complete tid result true s))
  /\ (forall r, result = Some r -> nonempty r = true ->
      Dict.mem (signature_of r) (_result s) = true ->
      (forall id, Dict.get tid (_trial_proposed_by s) = Some id ->
                  id = 0%Z \/ Dict.mem id (_search_thread_pool s) = false) ->
      fst (BlendSearch_on_trial_complete tid result true s) = Ok result).
Proof.
  assert (U : BlendSearch_on_trial_complete tid result true s
              = match delivery tid result true true s with
                | (Ok _, s1) => (Ok result, s1)
                | (Raise x, s1) => (Raise x, s1)
                end).
  { unfold BlendSearch_on_trial_complete. unfold bind at 1.
    rewrite constraint_phase_error. reflexivity. }
  rewrite U. clear U.
  destruct (delivery_error tid result true s) as [C R].
  destruct (delivery tid result true true s) as [[u | e] s1].
  - cbn in *. split; [exact C | reflexivity].
  - cbn in *. split; [exact C |].
    intros r E Nr Mm Own. specialize (R r E Nr Mm Own). discriminate R.
Qed.

(** C7 (amended). [on_trial_complete] with [error=true] and a non-empty
    result whose configuration signature is in the result cache removes
    that entry, also when a later step of the call raises; with an absent
    or empty result the cache is left as it is.  In every case no
    signature is added to the cache and no trial is given an owner: the
    call makes no suggestion.  Under
    [BlendSearch], when the entry is cached and the trial has no live
    local owning thread, the call returns normally. *)
Theorem complete_with_error (s : State) (trial_id : string)
    (result : option Result) :
  let s' := snd (on_trial_complete trial_id result true s) in
  (forall r, result = Some r -> nonempty r = true ->
     Dict.mem (signature_of r) (_result s) = true ->
     _result s' = Dict.remove (signature_of r) (_result s)
     /\ Dict.mem (signature_of r) (_result s') = false)
  /\ (truthy_opt result = false -> _result s' = _result s)
  /\ (forall sg, Dict.mem sg (_result s') = true ->
                 Dict.mem sg (_result s) = true)
  /\ (forall t, Dict.mem t (_trial_proposed_by s') = true ->
                Dict.mem t (_trial_proposed_by s) = true)
  /\ (forall r, result = Some r -> nonempty r = true ->
      Dict.mem (signature_of r) (_result s) = true ->
      cls s = BlendSearch ->
      (forall id, Dict.get trial_id (_trial_proposed_by s) = Some id ->
                  id = 0%Z \/ Dict.mem id (_search_thread_pool s) = false) ->
      fst (on_trial_complete trial_id result true s) = Ok tt).
Proof.
  intros s'.
  assert (C : cache_is (cache_after_error result s) (_trial_proposed_by s) s').
  { subst s'. unfold on_trial_complete. unfold bind at 1. unfold gets at 1.
    cbv beta iota.
    destruct (base_complete_error trial_id result s) as [C _].
    destruct (cls s).
    - unfold bind.
      destruct (BlendSearch_on_trial_complete trial_id result true s)
        as [[u | e] s1]; exact C.
    - unfold CFO_on_trial_complete.
      revert C. generalize (cache_after_error result s).
      intros R C.
      pose proof (cache_is_from_best R (_trial_proposed_by s)) as FB.
      unfold bind at 1.
      destruct (BlendSearch_on_trial_complete trial_id result true s)
        as [[a | e] s1]; cbn [snd] in C |- *; [| exact C].
      match goal with
      | |- cache_is _ _ (snd (?m s1)) =>
          assert (PF : preserves (cache_is R (_trial_proposed_by s)) m)
            by (pres; stable)
      end.
      apply PF. exact C. }
  destruct C as [CR CT].
  split; [| split; [| split; [| split]]].
  - intros r E Nr Mm. rewrite CR. unfold cache_after_error.
    rewrite E, Nr, Mm. cbn. split; [reflexivity |].
    unfold Dict.mem. rewrite get_remove_eq. reflexivity.
  - intros F. rewrite CR. unfold cache_after_error.
    destruct result as [r |]; [| reflexivity].
    cbn in F. rewrite F. reflexivity.
  - intros sg. rewrite CR. unfold cache_after_error.
    destruct result as [r |]; [| auto].
    destruct (nonempty r && Dict.mem (signature_of r) (_result s)); [| auto].
    apply mem_remove.
  - exact CT.
  - intros r E Nr Mm B Own. unfold on_trial_complete. run. rewrite B.
    destruct (base_complete_error trial_id result s) as [_ R].
    specialize (R r E Nr Mm Own). unfold bind.
    destruct (BlendSearch_on_trial_complete trial_id result true s)
      as [[u | e] s1]; cbn in *; [reflexivity | discriminate R].
Qed.

End CompletionError.

(** The coordinator of the small instance proposes its init config
    [x = 0] for trial [t1]; the signature of that config is 1.  A
    completion of [t1] with an error and no result leaves the entry in the
    cache, and a completion with an error for a config that was never
    proposed raises [KeyError]. *)
Lemma complete_with_error_counterexample :
  let s := Toy.plain_run [Suggest "t1"] (Toy.plain BlendSearch) in
  Dict.get "t1"%string (_trial_proposed_by s) = Some 0%Z
  /\ Dict.mem 1%Z (_result s) = true
  /\ Dict.mem 1%Z
       (_result (Toy.plain_run [OnTrialComplete "t1" None true] s)) = true
  /\ fst (@on_trial_complete Z unit Toy.thread Toy.plain_search
            Toy.search_thread "t1"
            (Some [("config/x"%string, Fin (1 # 2))]) true s)
     = Raise KeyError.
Proof. vm_compute. repeat split; reflexivity. Qed.

Lemma complete_with_error_witness :
  let s := Toy.plain_run [Suggest "t1"] (Toy.plain BlendSearch) in
  let s' := Toy.plain_run
              [OnTrialComplete "t1" (Some [("config/x"%string, Fin 0)]) true]
              s in
  _result s' = [] /\ Dict.mem 1%Z (_result s') = false.
Proof.
  exact (proj1 (@complete_with_error Z unit Toy.thread Toy.plain_search
                  Toy.search_thread
                  (Toy.plain_run [Suggest "t1"] (Toy.plain BlendSearch))
                  "t1"%string (Some [("config/x"%string, Fin 0)]))
           [("config/x"%string, Fin 0)] eq_refl eq_refl eq_refl).
Defined.

(** ** Properties that only the moves of the local bounding box can
    affect *)

Section BoxFrame.

Context {Sig Env Thread : Type}.
Context {LS : LocalSearch Sig Env} {ST : SearchThread Thread Env}.

Abbreviation State := (@State Sig Env Thread).

Variable P : State -> Prop.

Hypothesis st_points : forall v s, P s -> P (set_points_to_evaluate v s).
Hypothesis st_csp : forall v s, P s -> P (set_candidate_start_points v s).
Hypothesis st_given : forall v s, P s -> P (set_started_from_given v s).
Hypothesis st_low_cost : forall v s, P s -> P (set_started_from_low_cost v s).
Hypothesis st_target : forall v s, P s -> P (set_metric_target v s).
Hypothesis st_count : forall v s, P s -> P (set_thread_count v s).
Hypothesis st_init_used : forall v s, P s -> P (set_init_used v s).
Hypothesis st_proposed : forall v s, P s -> P (set_trial_proposed_by v s).
Hypothesis st_gs_min : forall v s, P s -> P (set_gs_admissible_min v s).
Hypothesis st_gs_max : forall v s, P s -> P (set_gs_admissible_max v s).
Hypothesis st_result : forall v s, P s -> P (set_result v s).
Hypothesis st_flag : forall v s, P s -> P (set_metric_constraint_satisfied v s).
Hypothesis st_penalty : forall v s, P s -> P (set_metric_constraint_penalty v s).
Hypothesis st_env : forall v s, P s -> P (set_env v s).
Hypothesis st_pool : forall v s, P s -> P (set_search_thread_pool v s).
Hypothesis H_update_local : forall c,
  preserves P (_update_admissible_region c LocalBox).
Hypothesis H_expand : preserves P _expand_admissible_region.

Lemma box_update_global (c : Config) :
  preserves P (_update_admissible_region c GlobalBox).
Proof using st_gs_min st_gs_max. apply update_region_keeps; auto. Qed.

Lemma box_clean (id : Z) : preserves P (_clean id).
Proof using st_csp st_given st_count st_env st_pool H_update_local H_expand.
  apply clean_frame; auto.
Qed.

Lemma box_create_thread (c : Config) (r : Result) :
  preserves P (_create_thread c r).
Proof using st_count st_env st_pool H_update_local.
  apply create_thread_frame; auto.
Qed.

Lemma box_from_best : preserves P _create_thread_from_best_candidate.
Proof using st_csp st_given st_count st_env st_pool H_update_local.
  apply from_best_frame; auto.
Qed.

Lemma box_suggest (tid : string) : preserves P (suggest tid).
Proof using st_points st_csp st_given st_count st_init_used st_proposed
  st_gs_min st_gs_max st_result st_env st_pool H_update_local H_expand.
  apply suggest_keeps; auto.
  - apply box_update_global.
  - apply box_clean.
Qed.

Lemma box_on_trial_result (tid : string) (r : Result) :
  preserves P (on_trial_result tid r).
Proof using st_pool. apply on_trial_result_keeps; auto. Qed.

Lemma box_base_complete (tid : string) (r : option Result) (e : bool) :
  preserves P (BlendSearch_on_trial_complete tid r e).
Proof using st_csp st_given st_low_cost st_target st_count st_proposed
  st_gs_min st_gs_max st_result st_flag st_penalty st_env st_pool
  H_update_local H_expand.
  apply base_complete_keeps; auto.
  - apply box_clean.
  - apply account_keeps; auto.
  - apply record_keeps; auto. apply box_create_thread.
Qed.

Lemma box_on_trial_complete (tid : string) (r : option Result) (e : bool) :
  preserves P (on_trial_complete tid r e).
Proof using st_csp st_given st_low_cost st_target st_count st_proposed
  st_gs_min st_gs_max st_result st_flag st_penalty st_env st_pool
  H_update_local H_expand.
  apply on_trial_complete_keeps; auto.
  - apply box_from_best.
  - apply box_base_complete.
Qed.

Lemma box_step (c : call) (s : State) : P s -> P (step c s).
Proof using st_points st_csp st_given st_low_cost st_target st_count
  st_init_used st_proposed st_gs_min st_gs_max st_result st_flag st_penalty
  st_env st_pool H_update_local H_expand.
  destruct c as [tid | tid r | tid r e]; cbn [step].
  - apply box_suggest.
  - apply box_on_trial_result.
  - apply box_on_trial_complete.
Qed.

End BoxFrame.

(** ** The local bounding box only grows *)

(** the minima of [b] are not above those of [b0], on the same
    dimensions *)
Definition min_not_above (b0 b : Box) : Prop :=
  forall key,
    match Dict.get key b0, Dict.get key b with
    | Some x, Some y => num_le y x
    | None, None => True
    | _, _ => False
    end.

(** the maxima of [b] are not below those of [b0], on the same
    dimensions *)
Definition max_not_below (b0 b : Box) : Prop :=
  forall key,
    match Dict.get key b0, Dict.get key b with
    | Some x, Some y => num_le x y
    | None, None => True
    | _, _ => False
    end.

Lemma min_not_above_refl (b : Box) : min_not_above b b.
Proof. intros key. destruct (Dict.get key b); [apply num_le_refl | exact I]. Qed.

Lemma max_not_below_refl (b : Box) : max_not_below b b.
Proof. intros key. destruct (Dict.get key b); [apply num_le_refl | exact I]. Qed.

Lemma min_not_above_trans (a b c : Box) :
  min_not_above a b -> min_not_above b c -> min_not_above a c.
Proof.
  intros H1 H2 key. specialize (H1 key). specialize (H2 key).
  destruct (Dict.get key a), (Dict.get key b), (Dict.get key c);
    try contradiction; auto.
  eapply num_le_trans; eauto.
Qed.

Lemma max_not_below_trans (a b c : Box) :
  max_not_below a b -> max_not_below b c -> max_not_below a c.
Proof.
  intros H1 H2 key. specialize (H1 key). specialize (H2 key).
  destruct (Dict.get key a), (Dict.get key b), (Dict.get key c);
    try contradiction; auto.
  eapply num_le_trans; eauto.
Qed.

Lemma min_lowered (b0 b : Box) (key : string) (lo v : num) :
  min_not_above b0 b -> Dict.get key b = Some lo -> num_le v lo ->
  min_not_above b0 (Dict.set key v b).
Proof.
  intros H G L k. specialize (H k). rewrite get_set.
  destruct (eqb key k) eqn:E; [| exact H].
  apply eqb_eq in E. subst k. rewrite G in H.
  destruct (Dict.get key b0); [| contradiction].
  eapply num_le_trans; eauto.
Qed.

Lemma max_raised (b0 b : Box) (key : string) (hi v : num) :
  max_not_below b0 b -> Dict.get key b = Some hi -> num_le hi v ->
  max_not_below b0 (Dict.set key v b).
Proof.
  intros H G L k. specialize (H k). rewrite get_set.
  destruct (eqb key k) eqn:E; [| exact H].
  apply eqb_eq in E. subst k. rewrite G in H.
  destruct (Dict.get key b0); [| contradiction].
  eapply num_le_trans; eauto.
Qed.

Section Growth.

Context {Sig Env Thread : Type}.
Context {LS : LocalSearch Sig Env} {ST : SearchThread Thread Env}.

Abbreviation State := (@State Sig Env Thread).

(** from [s0] to [s] the local bounding box keeps its dimensions, no
    minimum has increased and no maximum has decreased *)
Definition grows (s0 s : State) : Prop :=
  min_not_above (_ls_bound_min s0) (_ls_bound_min s)
  /\ max_not_below (_ls_bound_max s0) (_ls_bound_max s).

Lemma grows_refl (s : State) : grows s s.
Proof. split; [apply min_not_above_refl | apply max_not_below_refl]. Qed.

Lemma grows_trans (a b c : State) : grows a b -> grows b c -> grows a c.
Proof.
  intros [H1 H2] [H3 H4]. split.
  - eapply min_not_above_trans; eauto.
  - eapply max_not_below_trans; eauto.
Qed.

(** a property of the local bounding box that holds again when a maximum
    is raised or a minimum is lowered *)
Definition growth_closed (P : State -> Prop) : Prop :=
  (forall s key hi v,
     P s -> Dict.get key (_ls_bound_max s) = Some hi -> num_le hi v ->
     P (set_ls_bound_max (Dict.set key v (_ls_bound_max s)) s))
  /\ (forall s key lo v,
        P s -> Dict.get key (_ls_bound_min s) = Some lo -> num_le v lo ->
        P (set_ls_bound_min (Dict.set key v (_ls_bound_min s)) s)).

Lemma grows_closed (s0 : State) : growth_closed (grows s0).
Proof.
  split.
  - intros s key hi v [H1 H2] G L. split; [exact H1 |].
    cbn. eapply max_raised; eauto.
  - intros s key lo v [H1 H2] G L. split; [| exact H2].
    cbn. eapply min_lowered; eauto.
Qed.

Lemma update_local_closed (P : State -> Prop) (c : Config) :
  growth_closed P -> preserves P (_update_admissible_region c LocalBox).
Proof.
  intros [Hmax Hmin]. unfold _update_admissible_region.
  apply pres_bind; [apply pres_gets | intros ks].
  apply pres_for_each. intros key s H.
  run. destruct (Dict.get key (normalize c)) as [value |]; [| exact H].
  cbn [box_max box_min].
  destruct (Dict.get key (_ls_bound_max s)) as [hi |] eqn:Ghi; [| exact H].
  destruct (value >. hi) eqn:Up.
  - cbn. apply (Hmax s key hi value H Ghi).
    right. apply flt_fle. exact Up.
  - run. cbn [box_min].
    destruct (Dict.get key (_ls_bound_min s)) as [lo |] eqn:Glo; [| exact H].
    destruct (value <. lo) eqn:Down; [| exact H].
    cbn. apply (Hmin s key lo value H Glo).
    right. apply flt_fle. exact Down.
Qed.

Lemma expand_closed (P : State -> Prop) (slack : Q) :
  STEPSIZE = Fin slack -> (0 <= slack)%Q ->
  growth_closed P -> preserves P _expand_admissible_region.
Proof.
  intros HS Hpos [Hmax Hmin]. unfold _expand_admissible_region.
  apply pres_bind; [apply pres_gets | intros ks].
  apply pres_for_each. intros key s H.
  run.
  destruct (Dict.get key (_ls_bound_max s)) as [hi |] eqn:Ghi; [| exact H].
  run.
  pose proof (Hmax s key hi (hi +. STEPSIZE) H Ghi) as H1.
  rewrite HS in *. specialize (H1 (@num_le_add_step hi slack Hpos)).
  cbn [_ls_bound_min set_ls_bound_max].
  destruct (Dict.get key (_ls_bound_min s)) as [lo |] eqn:Glo; [| exact H1].
  run. cbn.
  apply (Hmin _ key lo (lo -. Fin slack) H1 Glo).
  apply (@num_le_sub_step lo slack Hpos).
Qed.

(** every call on the coordinator keeps a property that is closed under
    growth of the local bounding box and does not depend on the rest of
    the state *)
Lemma growth_step (slack : Q) (s0 : State) (c : call) (s : State) :
  STEPSIZE = Fin slack -> (0 <= slack)%Q ->
  grows s0 s -> grows s0 (step c s).
Proof.
  intros HS Hpos. apply box_step; try (intros ? ? HP; exact HP).
  - intros cfg. apply update_local_closed. apply grows_closed.
  - eapply expand_closed; eauto. apply grows_closed.
Qed.

Lemma growth_run (slack : Q) (calls : list call) (s : State) :
  STEPSIZE = Fin slack -> (0 <= slack)%Q -> grows s (run calls s).
Proof.
  intros HS Hpos. unfold run.
  assert (G : forall s0 s1, grows s0 s1 ->
                grows s0 (fold_left (fun s c => step c s) calls s1)).
  { induction calls as [| c calls IH]; intros s0 s1 H; cbn; [exact H |].
    apply IH. eapply growth_step; eauto. }
  apply G. apply grows_refl.
Qed.

End Growth.

(** ** The reset of the global admissible box on a completion *)

Section Reset.

Context {Sig Env Thread : Type}.
Context {LS : LocalSearch Sig Env} {ST : SearchThread Thread Env}.

Abbreviation State := (@State Sig Env Thread).

(** every dimension of the local bounding box has the same bounds in the
    global admissible box *)
Definition synced (s : State) : Prop :=
  forall key v,
    (Dict.get key (_ls_bound_min s) = Some v ->
     Dict.get key (_gs_admissible_min s) = Some v)
    /\ (Dict.get key (_ls_bound_max s) = Some v ->
        Dict.get key (_gs_admissible_max s) = Some v).

(** the global box of [s] is the one of [s1], where it was reset to the
    local box, and the local box has only grown since *)
Definition reset_at (s1 s : State) : Prop :=
  synced s1 /\ grows s1 s
  /\ _gs_admissible_min s = _gs_admissible_min s1
  /\ _gs_admissible_max s = _gs_admissible_max s1.

(** on every dimension of the local box, the global bounds lie within
    the local bounds *)
Definition contained (s : State) : Prop :=
  forall key,
    (forall lo, Dict.get key (_ls_bound_min s) = Some lo ->
       exists g, Dict.get key (_gs_admissible_min s) = Some g /\ num_le lo g)
    /\ (forall hi, Dict.get key (_ls_bound_max s) = Some hi ->
          exists g, Dict.get key (_gs_admissible_max s) = Some g
                    /\ num_le g hi).

Lemma reset_contained (s1 s : State) : reset_at s1 s -> contained s.
Proof.
  intros (Sy & [Gmin Gmax] & Emin & Emax) key. split.
  - intros lo G. specialize (Gmin key). rewrite G in Gmin.
    destruct (Dict.get key (_ls_bound_min s1)) as [x |] eqn:G1;
      [| contradiction].
    exists x. split; [| exact Gmin].
    rewrite Emin. apply (Sy key x). exact G1.
  - intros hi G. specialize (Gmax key). rewrite G in Gmax.
    destruct (Dict.get key (_ls_bound_max s1)) as [x |] eqn:G1;
      [| contradiction].
    exists x. split; [| exact Gmax].
    rewrite Emax. apply (Sy key x). exact G1.
Qed.

Lemma reset_closed (s1 : State) : growth_closed (reset_at s1).
Proof.
  destruct (grows_closed s1) as [Hmax Hmin]. split.
  - intros s key hi v (Sy & G & E1 & E2) Gk L.
    split; [exact Sy |]. split; [| split; [exact E1 | exact E2]].
    apply (Hmax s key hi v G Gk L).
  - intros s key lo v (Sy & G & E1 & E2) Gk L.
    split; [exact Sy |]. split; [| split; [exact E1 | exact E2]].
    apply (Hmin s key lo v G Gk L).
Qed.

Lemma reset_cleaner (slack : Q) (s1 : State) (th : option Z) :
  STEPSIZE = Fin slack -> (0 <= slack)%Q ->
  preserves (reset_at s1) (cleaner th).
Proof.
  intros HS Hpos. apply cleaner_frame; try (intros; assumption).
  - intros c. apply update_local_closed. apply reset_closed.
  - eapply expand_closed; eauto. apply reset_closed.
Qed.

Lemma reset_from_best (s1 : State) :
  preserves (reset_at s1) _create_thread_from_best_candidate.
Proof.
  apply from_best_frame; try (intros; assumption).
  intros c. apply update_local_closed. apply reset_closed.
Qed.

Lemma sync_synced (s : State) : synced (snd (sync_admissible_region s)).
Proof.
  unfold sync_admissible_region. run. intros key v.
  cbn [snd _ls_bound_min _ls_bound_max _gs_admissible_min _gs_admissible_max
       set_gs_admissible_max set_gs_admissible_min].
  rewrite !get_update. split; intros G; rewrite G; reflexivity.
Qed.

Lemma record_synced (tid : string) (r : Result) (sat : bool)
    (th th' : option Z) (s s' : State) :
  record_result tid r false sat th s = (Ok th', s') -> synced s'.
Proof.
  unfold record_result. cbv beta iota zeta. intros H.
  do 6 (apply bind_ok in H; destruct H as (? & ? & _ & H)).
  apply bind_ok in H. destruct H as (u & s7 & Hs & H).
  unfold ret in H. injection H as _ <-.
  pose proof (sync_synced x10) as S. rewrite Hs in S. exact S.
Qed.

Lemma account_nonempty (r r' : Result) (sat : bool) (s s' : State) :
  account_metric_constraints r s = (Ok (r', sat), s') -> nonempty r' = true.
Proof.
  unfold account_metric_constraints. intros H.
  do 3 (apply bind_ok in H; destruct H as (? & ? & _ & H)).
  apply bind_ok in H. destruct H as ([o b] & ? & _ & H).
  do 3 (apply bind_ok in H; destruct H as (? & ? & _ & H)).
  unfold ret in H. injection H as <- _ _.
  apply nonempty_set.
Qed.

Lemma constraint_phase_nonempty (r : Result) (e : bool)
    (res' : option Result) (sat : bool) (s s' : State) :
  nonempty r = true ->
  constraint_phase (Some r) e s = (Ok (res', sat), s') ->
  exists r', res' = Some r' /\ nonempty r' = true.
Proof.
  intros Nr H. unfold constraint_phase in H.
  apply bind_ok in H. destruct H as (cs & s1 & _ & H).
  destruct (nonempty r && negb e && nonempty cs).
  - apply bind_ok in H. destruct H as ([r' sat'] & s2 & A & H).
    unfold ret in H. injection H as <- _ _.
    exists r'. split; [reflexivity |]. eapply account_nonempty; eauto.
  - unfold ret in H. injection H as <- _ _. eauto.
Qed.

(** the part of [on_trial_complete] before the pruning pass, for a
    result without error: the account of the metric constraints, the
    delivery to the owning thread and the recording of the result, which
    ends with the reset of the global box to the local box (the two
    [update] calls); it returns the record and the thread that the
    pruning pass is run for *)
Definition complete_until_reset (trial_id : string) (r : Result)
    : M (option Result * option Z) :=
  '(result, metric_constraint_satisfied) <-
    constraint_phase (Some r) false ;;
  thread_id <- gets (fun s => Dict.get trial_id (_trial_proposed_by s)) ;;
  notify_thread trial_id result false thread_id ;;
  thread_id <-
    (match result with
     | Some r' =>
         if nonempty r'
         then record_result trial_id r' false metric_constraint_satisfied
                thread_id
         else ret thread_id
     | None => ret thread_id
     end) ;;
  ret (result, thread_id).

(** the rest of [CFO.on_trial_complete] after the call of the method of
    [BlendSearch] *)
Definition candidate_completed (trial_id : string) (result : option Result)
    : M unit :=
  csp <- gets _candidate_start_points ;;
  match csp with
  | Some d =>
      if nonempty d && Dict.mem trial_id d
      then
        modify (set_candidate_start_points
                  (Some (Dict.set trial_id result d))) ;;
        pool <- gets _search_thread_pool ;;
        pts <- gets _points_to_evaluate ;;
        if (List.length pool <? 2)%nat && negb (nonempty pts)
        then _create_thread_from_best_candidate
        else ret tt
      else ret tt
  | None => ret tt
  end.

(** the rest of [on_trial_complete] after the reset: the pruning pass
    and, under [CFO], the bookkeeping of the candidate start points *)
Definition complete_after_reset (c : variant) (trial_id : string)
    (x : option Result * option Z) : M unit :=
  cleaner (snd x) ;;
  match c with
  | BlendSearch => ret tt
  | CFO => candidate_completed trial_id (fst x)
  end.

(** [on_trial_complete] is the first part followed by the rest *)
Lemma on_trial_complete_split (tid : string) (r : Result) (s : State) :
  on_trial_complete tid (Some r) false s
  = (x <- complete_until_reset tid r ;; complete_after_reset (cls s) tid x) s.
Proof.
  unfold on_trial_complete, CFO_on_trial_complete,
    BlendSearch_on_trial_complete, complete_until_reset,
    complete_after_reset, candidate_completed, delivery.
  unfold bind at 1. unfold gets at 1. cbv beta iota.
  destruct (cls s);
    unfold bind;
    (destruct (constraint_phase (Some r) false s) as [[[res sat] | e] s0];
     [| reflexivity]);
    unfold gets, ret; cbv beta iota;
    (destruct (notify_thread tid res false
                 (Dict.get tid (_trial_proposed_by s0)) s0) as [[u | e] s1];
     [| reflexivity]);
    match goal with
    | |- context [match ?m s1 with _ => _ end] =>
        destruct (m s1) as [[th | e] s2]
    end;
    try reflexivity;
    cbn [fst snd];
    destruct (cleaner th s2) as [[u' | e] s3]; reflexivity.
Qed.

Lemma until_reset_synced (tid : string) (r : Result)
    (x : option Result * option Z) (s s1 : State) :
  nonempty r = true ->
  complete_until_reset tid r s = (Ok x, s1) -> synced s1.
Proof.
  intros Nr H. unfold complete_until_reset in H.
  apply bind_ok in H. destruct H as ([res sat] & s0 & Ph & H).
  destruct (constraint_phase_nonempty r false res sat s s0 Nr Ph)
    as (r' & -> & Nr').
  apply bind_ok in H. destruct H as (th & s0' & G & H).
  unfold gets in G. injection G as <- <-.
  apply bind_ok in H. destruct H as (u & s2 & _ & H).
  rewrite Nr' in H.
  apply bind_ok in H. destruct H as (th' & s3 & R & H).
  unfold ret in H. injection H as _ <-.
  eapply record_synced. exact R.
Qed.

Lemma after_reset_keeps (slack : Q) (c : variant) (tid : string)
    (x : option Result * option Z) (s1 : State) :
  STEPSIZE = Fin slack -> (0 <= slack)%Q ->
  preserves (reset_at s1) (complete_after_reset c tid x).
Proof.
  intros HS Hpos.
  pose proof (reset_cleaner slack s1 (snd x) HS Hpos) as C.
  pose proof (reset_from_best s1) as FB.
  unfold complete_after_reset, candidate_completed.
  pres; stable.
Qed.

(** C5 (amended). With a non-negative STEPSIZE, the local bounding box
    only grows: over every sequence of calls, and in particular in
    [suggest], in the creation of a thread and in the expansion of the
    region, it keeps its dimensions, no minimum increases and no maximum
    decreases.  A completion without error, with a non-empty result, that
    returns normally resets the global admissible box to the local box
    before the pruning pass: in the state [s1] that the call is in after
    the two [update] calls and before the pruning pass, every dimension
    of the local box has the same bounds in the global box; the rest of
    the call leaves the global box as it is in [s1] and lets the local
    box only grow, so that in the end the global bounds are the local
    bounds of [s1] and lie within the final local bounds. *)
Theorem local_box_grows (slack : Q) :
  STEPSIZE = Fin slack -> (0 <= slack)%Q ->
  (forall calls (s : State), grows s (run calls s))
  /\ (forall tid (s : State), grows s (snd (suggest tid s)))
  /\ (forall tid r e (s : State), grows s (snd (on_trial_complete tid r e s)))
  /\ (forall c r (s : State), grows s (snd (_create_thread c r s)))
  /\ (forall s : State, grows s (snd (_expand_admissible_region s)))
  /\ (forall tid r (s s' : State),
        nonempty r = true ->
        on_trial_complete tid (Some r) false s = (Ok tt, s') ->
        exists x s1,
          complete_until_reset tid r s = (Ok x, s1)
          /\ complete_after_reset (cls s) tid x s1 = (Ok tt, s')
          /\ synced s1
          /\ _gs_admissible_min s' = _gs_admissible_min s1
          /\ _gs_admissible_max s' = _gs_admissible_max s1
          /\ grows s1 s'
          /\ contained s').
Proof.
  intros HS Hpos.
  split; [| split; [| split; [| split; [| split]]]].
  - intros calls s. eapply growth_run; eauto.
  - intros tid s.
    apply (growth_step slack s (Suggest tid) s HS Hpos (grows_refl s)).
  - intros tid r e s.
    apply (growth_step slack s (OnTrialComplete tid r e) s HS Hpos
             (grows_refl s)).
  - intros c r s. apply create_thread_frame; try (intros; assumption).
    + intros cfg. apply update_local_closed. apply grows_closed.
    + apply grows_refl.
  - intros s. eapply expand_closed; eauto.
    + apply grows_closed.
    + apply grows_refl.
  - intros tid r s s' Nr H.
    rewrite on_trial_complete_split in H.
    apply bind_ok in H. destruct H as (x & s1 & U & A).
    exists x, s1.
    pose proof (until_reset_synced tid r x s s1 Nr U) as Sy.
    assert (R : reset_at s1 s').
    { pose proof (after_reset_keeps slack (cls s) tid x s1 HS Hpos s1) as K.
      rewrite A in K. apply K.
      split; [exact Sy |]. split; [apply grows_refl | split; reflexivity]. }
    split; [exact U |]. split; [exact A |]. split; [exact Sy |].
    destruct R as (_ & G & E1 & E2).
    split; [exact E1 |]. split; [exact E2 |]. split; [exact G |].
    eapply reset_contained. split; [exact Sy |]. split; [exact G |].
    split; [exact E1 | exact E2].
Qed.

End Reset.

(** the completion of the trial [t2] of the global thread, after the
    proposals for [t1] and [t2]: the local box grows, and the thread
    created from the result widens the local box to [x <= 1/200] before
    the reset, so that the global maximum of [x] is 1/200 in the end *)
Lemma local_box_grows_witness :
  let r := [("loss"%string, Fin 1); ("config/x"%string, Fin (1 # 200))] in
  let s := Toy.plain_run [Suggest "t1"; Suggest "t2"] (Toy.plain BlendSearch) in
  let s' := Toy.plain_run [OnTrialComplete "t2" (Some r) false] s in
  @grows Z unit Toy.thread s s'
  /\ exists x s1,
       @complete_until_reset Z unit Toy.thread Toy.plain_search
         Toy.search_thread "t2" r s = (Ok x, s1)
       /\ @synced Z unit Toy.thread s1
       /\ _ls_bound_max s1 = [("x"%string, Fin (1 # 200))]
       /\ _gs_admissible_max s' = [("x"%string, Fin (1 # 200))]
       /\ @contained Z unit Toy.thread s'.
Proof.
  intros r s s'.
  assert (Hpos : (0 <= 1 # 100)%Q) by (unfold Qle; cbn; lia).
  destruct (@local_box_grows Z unit Toy.thread Toy.plain_search
              Toy.search_thread (1 # 100) eq_refl Hpos)
    as (G & _ & _ & _ & _ & R).
  split; [exact (G [OnTrialComplete "t2"%string (Some r) false] s) |].
  assert (E : @on_trial_complete Z unit Toy.thread Toy.plain_search
                Toy.search_thread "t2" (Some r) false s = (Ok tt, s'))
    by (vm_compute; reflexivity).
  destruct (R "t2"%string r s s' eq_refl E)
    as (x & s1 & U & _ & Sy & _ & E2 & _ & C).
  exists x, s1. split; [exact U |]. split; [exact Sy |].
  vm_compute in U. injection U as _ <-.
  split; [reflexivity |]. split; [vm_compute; reflexivity | exact C].
Defined.

(** After the proposals for [t1] (the init config) and [t2] (a config of
    the global thread) the global box is relaxed to [x <= 0.005]; the
    completion of [t2] with an error leaves it so, while the local box
    is still [x <= 0]. *)
Lemma local_box_grows_counterexample :
  let s := Toy.plain_run [Suggest "t1"; Suggest "t2"] (Toy.plain BlendSearch) in
  let s' := Toy.plain_run [OnTrialComplete "t2" None true] s in
  _ls_bound_max s' = [("x"%string, Fin 0)]
  /\ _gs_admissible_max s' = [("x"%string, Fin (1 # 200))]
  /\ _gs_admissible_max s' <> _ls_bound_max s'.
Proof.
  vm_compute. repeat split; try reflexivity. intros E. discriminate E.
Qed.

(** ** The size of the pool under [CFO] *)

Section PoolSize.

Context {Sig Env Thread : Type}.
Context {LS : LocalSearch Sig Env} {ST : SearchThread Thread Env}.

Abbreviation State := (@State Sig Env Thread).
Abbreviation M := (@M Sig Env Thread).

(** [Q] holds in the state a computation ends in whenever [P] holds in
    the state it starts from *)
Definition carries {A} (P : State -> Prop) (m : M A) (Q : State -> Prop)
    : Prop :=
  forall s, P s -> Q (snd (m s)).

Lemma carries_bind {A B} (P R Q : State -> Prop) (m : M A) (f : A -> M B) :
  carries P m R -> (forall a, carries R (f a) Q) -> (forall s, R s -> Q s) ->
  carries P (bind m f) Q.
Proof.
  intros Hm Hf W s H. unfold bind. specialize (Hm s H).
  destruct (m s) as [[a | e] s1]; cbn in *.
  - apply Hf. exact Hm.
  - apply W. exact Hm.
Qed.

Lemma carries_weaken {A} (P Q : State -> Prop) (m : M A) :
  preserves P m -> (forall s, P s -> Q s) -> carries P m Q.
Proof. intros Hm W s H. apply W. apply Hm. exact H. Qed.

(** the value a computation returns may be used in what follows *)
Lemma carries_bind_value {A B} (P Q : State -> Prop) (V : A -> State -> Prop)
    (m : M A) (f : A -> M B) :
  (forall s, P s ->
     P (snd (m s)) /\ forall a, fst (m s) = Ok a -> V a (snd (m s))) ->
  (forall a, carries (fun s => P s /\ V a s) (f a) Q) ->
  (forall s, P s -> Q s) ->
  carries P (bind m f) Q.
Proof.
  intros Hm Hf W s H. unfold bind. destruct (Hm s H) as [H1 H2].
  destruct (m s) as [[a | e] s1]; cbn in *.
  - apply Hf. split; [exact H1 | apply H2; reflexivity].
  - apply W. exact H1.
Qed.

(** the pool holds at most [n] threads, fewer than [n] threads *)
Definition pool_le (n : nat) (s : State) : Prop :=
  (List.length (_search_thread_pool s) <= n)%nat.

Definition pool_lt (n : nat) (s : State) : Prop :=
  (S (List.length (_search_thread_pool s)) <= n)%nat.

Definition cfo_le (n : nat) (s : State) : Prop := cls s = CFO /\ pool_le n s.
Definition cfo_lt (n : nat) (s : State) : Prop := cls s = CFO /\ pool_lt n s.

Lemma cfo_lt_le (n : nat) (s : State) : cfo_lt n s -> cfo_le n s.
Proof. unfold cfo_lt, cfo_le, pool_lt, pool_le. intros [C L]. split; [auto | lia]. Qed.

Lemma cfo_le_alter (n : nat) (f : Thread -> Thread) (id : Z) (s : State) :
  cfo_le n s ->
  cfo_le n (set_search_thread_pool
              (Dict.alter f id (_search_thread_pool s)) s).
Proof.
  unfold cfo_le, pool_le. cbn. rewrite length_alter. auto.
Qed.

Lemma cfo_le_map (n : nat) (f : Thread -> Thread) (s : State) :
  cfo_le n s ->
  cfo_le n (set_search_thread_pool
              (Dict.map_values f (_search_thread_pool s)) s).
Proof.
  unfold cfo_le, pool_le. cbn. rewrite length_map_values. auto.
Qed.

Lemma cfo_le_remove (n : nat) (id : Z) (s : State) :
  cfo_le n s ->
  cfo_le n (set_search_thread_pool
              (Dict.remove id (_search_thread_pool s)) s).
Proof.
  unfold cfo_le, pool_le. cbn. intros [C L]. split; [exact C |].
  pose proof (length_remove_le id (_search_thread_pool s)). lia.
Qed.

Lemma cfo_lt_remove (n : nat) (id : Z) (s : State) :
  cfo_lt n s ->
  cfo_lt n (set_search_thread_pool
              (Dict.remove id (_search_thread_pool s)) s).
Proof.
  unfold cfo_lt, pool_lt. cbn. intros [C L]. split; [exact C |].
  pose proof (length_remove_le id (_search_thread_pool s)). lia.
Qed.

Lemma cfo_le_update_local (n : nat) (c : Config) :
  preserves (cfo_le n) (_update_admissible_region c LocalBox).
Proof. apply update_region_keeps; intros; assumption. Qed.

Lemma cfo_le_update_global (n : nat) (c : Config) :
  preserves (cfo_le n) (_update_admissible_region c GlobalBox).
Proof. apply update_region_keeps; intros; assumption. Qed.

Lemma cfo_le_expand (n : nat) : preserves (cfo_le n) _expand_admissible_region.
Proof. apply expand_keeps; intros; assumption. Qed.

(** a new thread adds at most one to the pool *)
Lemma create_thread_adds (n : nat) (c : Config) (r : Result) :
  carries (cfo_lt n) (_create_thread c r) (cfo_le n).
Proof.
  unfold _create_thread.
  apply carries_bind with (R := cfo_lt n);
    [apply carries_weaken; [apply pres_item | auto] | intros obj |
     apply cfo_lt_le].
  apply carries_bind with (R := cfo_lt n);
    [apply carries_weaken; [apply pres_with_env | auto] | intros t |
     apply cfo_lt_le].
  { intros e s H. exact H. }
  apply carries_bind with (R := cfo_le n); [| intros _ | auto].
  - intros s [C L]. split; [exact C |].
    unfold pool_lt, pool_le in *. cbn.
    pose proof (length_set_le (_thread_count s) t (_search_thread_pool s)).
    lia.
  - apply carries_weaken; [| auto].
    apply pres_bind; [apply pres_modify; intros s H; exact H | intros _].
    apply cfo_le_update_local.
Qed.

Lemma from_best_adds (n : nat) :
  carries (cfo_lt n) _create_thread_from_best_candidate (cfo_le n).
Proof.
  unfold _create_thread_from_best_candidate.
  apply carries_bind with (R := cfo_lt n);
    [apply carries_weaken; [apply pres_gets | auto] | intros csp |
     apply cfo_lt_le].
  destruct csp as [d |];
    [| apply carries_weaken; [apply pres_raise | apply cfo_lt_le]].
  apply carries_bind with (R := cfo_lt n);
    [apply carries_weaken; [apply pres_lift | auto] | intros best |
     apply cfo_lt_le].
  destruct best as [[best_trial_id obj] |];
    [| apply carries_weaken; [apply pres_ret | apply cfo_lt_le]].
  destruct (String.length best_trial_id =? 0)%nat;
    [apply carries_weaken; [apply pres_ret | apply cfo_lt_le] |].
  destruct (Dict.get best_trial_id d) as [[result |] |];
    try (apply carries_weaken; [apply pres_raise | apply cfo_lt_le]).
  apply carries_bind with (R := cfo_lt n);
    [apply carries_weaken;
       [apply pres_modify; intros s H; exact H | auto]
    | intros _ | apply cfo_lt_le].
  apply carries_bind with (R := cfo_lt n);
    [apply carries_weaken;
       [apply pres_modify; intros s H; exact H | auto]
    | intros _ | apply cfo_lt_le].
  apply create_thread_adds.
Qed.

(** the deletion of the threads of a list that holds a thread of the
    pool leaves fewer threads *)
Lemma deletions_remove (n : nat) (id : Z) (l : list Z) (s : State) :
  cfo_le n s ->
  (exists t, Dict.get id (_search_thread_pool s) = Some t) ->
  In id l ->
  cfo_lt n
    (snd (for_each l
            (fun id0 =>
               modify (fun s0 : State =>
                 set_search_thread_pool
                   (Dict.remove id0 (_search_thread_pool s0)) s0)) s)).
Proof.
  revert s. induction l as [| x l IH]; intros s H [t G] I; [destruct I |].
  cbn [for_each]. unfold bind at 1. unfold modify at 1. cbv beta iota.
  destruct (Z.eq_dec x id) as [-> | N].
  - assert (L : cfo_lt n (set_search_thread_pool
                           (Dict.remove id (_search_thread_pool s)) s)).
    { destruct H as [C L]. split; [exact C |].
      unfold pool_lt, pool_le in *. cbn.
      pose proof (@length_remove_present _ _ _ id t (_search_thread_pool s) G).
      lia. }
    revert L. generalize (set_search_thread_pool
                            (Dict.remove id (_search_thread_pool s)) s).
    intros s1 L.
    assert (PF : preserves (cfo_lt n)
                   (for_each l
                      (fun id0 =>
                         modify (fun s0 : State =>
                           set_search_thread_pool
                             (Dict.remove id0 (_search_thread_pool s0)) s0)))).
    { apply pres_for_each. intros y. apply pres_modify.
      intros s0. apply cfo_lt_remove. }
    apply PF. exact L.
  - apply IH.
    + apply cfo_le_remove. exact H.
    + exists t. cbn. rewrite get_remove_neq; auto.
    + destruct I as [E | I]; [contradiction | exact I].
Qed.

Lemma in_set_add (id : Z) (l : list Z) : In id (set_add id l).
Proof.
  unfold set_add. destruct (existsb (Z.eqb id) l) eqn:E.
  - apply existsb_exists in E. destruct E as (x & I & E).
    apply Z.eqb_eq in E. subst x. exact I.
  - apply in_or_app. right. left. reflexivity.
Qed.

Lemma bind_ret {A B} (a : A) (f : A -> M B) : bind (ret a) f = f a.
Proof. reflexivity. Qed.

Lemma deletions_keep (n : nat) (l : list Z) :
  preserves (cfo_le n)
    (for_each l
       (fun id0 =>
          modify (fun s0 : State =>
            set_search_thread_pool
              (Dict.remove id0 (_search_thread_pool s0)) s0))).
Proof.
  apply pres_for_each. intros y. apply pres_modify.
  intros s0. apply cfo_le_remove.
Qed.

(** the pruning pass never leaves more threads than it found: a thread
    is created from a candidate only after the converged thread is
    deleted *)
Lemma carries_pre {A} (P P' Q : State -> Prop) (m : M A) :
  (forall s, P' s -> P s) -> carries P m Q -> carries P' m Q.
Proof. intros W H s HP. apply H. apply W. exact HP. Qed.

Lemma clean_cfo (n : nat) (id : Z) : preserves (cfo_le n) (_clean id).
Proof.
  unfold _clean. destruct (id =? 0)%Z; [apply pres_raise |].
  apply (@carries_bind_value _ _ (cfo_le n) (cfo_le n)
           (fun pool s => pool = _search_thread_pool s)); [| | auto].
  { intros s H. split; [exact H |]. intros pool E. injection E as <-.
    reflexivity. }
  intros pool.
  set (P1 := fun s : State => cfo_le n s /\ pool = _search_thread_pool s).
  assert (W1 : forall s, P1 s -> cfo_le n s) by (intros s [H _]; exact H).
  apply carries_bind with (R := P1);
    [apply carries_weaken; [apply pres_lift | auto] | intros td | exact W1].
  apply carries_bind with (R := P1);
    [apply carries_weaken; [apply pres_lift | auto] | intros dom | exact W1].
  cbv zeta.
  apply carries_bind_value
    with (V := fun t (s : State) => Dict.get id pool = Some t); [| | exact W1].
  { intros s H. split; [apply pres_item; exact H |].
    intros t E. destruct (Dict.get id pool) as [t' |]; cbn in E.
    - injection E as <-. reflexivity.
    - discriminate E. }
  intros t.
  set (P2 := fun s : State =>
               cfo_le n s
               /\ exists t', Dict.get id (_search_thread_pool s) = Some t').
  apply carries_pre with (P := P2).
  { intros s [[H E] G]. split; [exact H |]. exists t. rewrite <- E. exact G. }
  assert (W2 : forall s, P2 s -> cfo_le n s) by (intros s [H _]; exact H).
  destruct (converged t).
  - apply carries_bind with (R := P2); [| intros create_new | exact W2].
    + apply carries_weaken; [| auto].
      assert (Hx : preserves P2 _expand_admissible_region)
        by (apply expand_keeps; intros; assumption).
      pres; stable.
    + apply carries_bind with (R := cfo_lt n);
        [| intros _ | apply cfo_lt_le].
      * intros s [H G]. apply (deletions_remove n id); auto.
        apply in_set_add.
      * destruct create_new.
        -- apply from_best_adds.
        -- apply carries_weaken; [apply pres_ret | apply cfo_lt_le].
  - rewrite bind_ret.
    apply carries_pre with (P := cfo_le n); [exact W2 |].
    apply carries_weaken; [| auto].
    apply pres_bind; [apply deletions_keep | intros _; apply pres_ret].
Qed.

Lemma suggest_cfo (n : nat) (tid : string) : preserves (cfo_le n) (suggest tid).
Proof.
  apply suggest_keeps; try (intros; assumption).
  - intros f id s. apply cfo_le_alter.
  - intros f s. apply cfo_le_map.
  - intros id s. apply cfo_le_remove.
  - apply cfo_le_update_local.
  - apply cfo_le_update_global.
  - apply cfo_le_expand.
  - apply clean_cfo.
Qed.

Lemma on_trial_result_cfo (n : nat) (tid : string) (r : Result) :
  preserves (cfo_le n) (on_trial_result tid r).
Proof.
  apply on_trial_result_keeps. intros f id s. apply cfo_le_alter.
Qed.

(** the creation condition only reads the state *)
Lemma create_condition_reads (r : Result) (s : State) :
  snd (_create_condition r s) = s.
Proof.
  symmetry. apply (create_condition_keeps (fun x => s = x) r s). reflexivity.
Qed.

Lemma CFO_condition_two (r : Result) (s : State) :
  List.length (_search_thread_pool s) = 2%nat ->
  CFO_create_condition r s = (Ok false, s).
Proof.
  intros L. unfold CFO_create_condition. run.
  destruct (nonempty (_points_to_evaluate s)); [reflexivity |].
  rewrite L. reflexivity.
Qed.

Lemma CFO_condition_points (r : Result) (s : State) :
  _points_to_evaluate s <> [] ->
  CFO_create_condition r s = (Ok false, s).
Proof.
  intros N. unfold CFO_create_condition. run.
  destruct (_points_to_evaluate s) as [| p pts]; [contradiction |].
  reflexivity.
Qed.

Lemma CFO_condition_true (r : Result) (s : State) :
  cls s = CFO ->
  fst (_create_condition r s) = Ok true ->
  List.length (_search_thread_pool s) <> 2%nat.
Proof.
  intros C T L. unfold _create_condition in T. unfold bind, gets in T.
  rewrite C in T. rewrite (CFO_condition_two r s L) in T. discriminate T.
Qed.

(** the record of a result creates a thread only when the pool does not
    hold two *)
Lemma record_cfo (tid : string) (r : Result) (e sat : bool) (th : option Z) :
  preserves (cfo_le 2) (record_result tid r e sat th).
Proof.
  assert (Sy : preserves (cfo_le 2) sync_admissible_region)
    by (apply sync_keeps; intros; assumption).
  pose proof (cfo_le_expand 2) as Ex.
  unfold record_result. cbv zeta. destruct e.
  - pres; stable.
  - apply pres_bind; [apply pres_modify; intros s H; exact H | intros _].
    apply pres_bind; [apply pres_item | intros objective].
    apply pres_bind; [apply pres_gets | intros target].
    apply pres_bind; [pres; stable | intros _].
    apply (@carries_bind_value _ _ (cfo_le 2) (cfo_le 2)
             (fun (create : bool) s => create = true -> cfo_lt 2 s));
      [| | auto].
    + intros s H.
      assert (K : cfo_le 2 (snd (_create_condition r s))
                  /\ forall a, fst (_create_condition r s) = Ok a ->
                        a = true -> cfo_lt 2 (snd (_create_condition r s))).
      { rewrite create_condition_reads. split; [exact H |].
        intros a E ->. destruct H as [C L]. split; [exact C |].
        pose proof (CFO_condition_true r s C E) as N.
        unfold pool_lt, pool_le in *. lia. }
      destruct th as [[| p | p] |]; try destruct sat; try exact K;
        (split; [exact H | intros a E T; cbn in E; congruence]).
    + intros create. destruct create.
      * apply carries_bind with (R := cfo_le 2); [| intros th' | auto].
        -- apply carries_pre with (P := cfo_lt 2);
             [intros s [_ T]; apply T; reflexivity |].
           apply carries_bind with (R := cfo_lt 2);
             [apply carries_weaken; [apply pres_gets | auto] | intros count
             | apply cfo_lt_le].
           apply carries_bind with (R := cfo_lt 2);
             [apply carries_weaken; [apply pres_gets | auto] | intros csp
             | apply cfo_lt_le].
           apply carries_bind with (R := cfo_lt 2);
             [apply carries_weaken;
                [apply pres_modify; intros s H; exact H | auto]
             | intros _ | apply cfo_lt_le].
           apply carries_bind with (R := cfo_lt 2);
             [apply carries_weaken; [pres; stable | auto]
             | intros _ | apply cfo_lt_le].
           apply carries_bind with (R := cfo_le 2);
             [apply create_thread_adds | intros _ | auto].
           apply carries_weaken; [apply pres_ret | auto].
        -- apply carries_weaken; [| auto]. pres.
      * apply carries_pre with (P := cfo_le 2); [intros s [H _]; exact H |].
        apply carries_weaken; [| auto]. pres; stable.
Qed.

Lemma base_complete_cfo (tid : string) (r : option Result) (e : bool) :
  preserves (cfo_le 2) (BlendSearch_on_trial_complete tid r e).
Proof.
  apply base_complete_keeps; try (intros; assumption).
  - intros f id s. apply cfo_le_alter.
  - apply clean_cfo.
  - intros r0. apply account_keeps; intros; assumption.
  - apply record_cfo.
Qed.

(** the thread [CFO.on_trial_complete] creates from the best candidate is
    created in a pool of fewer than two threads *)
Lemma CFO_complete_cfo (tid : string) (r : option Result) (e : bool) :
  preserves (cfo_le 2) (CFO_on_trial_complete tid r e).
Proof.
  unfold CFO_on_trial_complete.
  apply pres_bind; [apply base_complete_cfo | intros result].
  apply pres_bind; [apply pres_gets | intros csp].
  destruct csp as [d |]; [| apply pres_ret].
  destruct (nonempty d && Dict.mem tid d); [| apply pres_ret].
  apply pres_bind; [apply pres_modify; intros s H; exact H | intros _].
  apply (@carries_bind_value _ _ (cfo_le 2) (cfo_le 2)
           (fun pool s => pool = _search_thread_pool s)); [| | auto].
  { intros s H. split; [exact H |]. intros pool E. injection E as <-.
    reflexivity. }
  intros pool.
  apply carries_bind
    with (R := fun s => cfo_le 2 s /\ pool = _search_thread_pool s);
    [apply carries_weaken; [apply pres_gets | auto] | intros pts
    | intros s [H _]; exact H].
  destruct (List.length pool <? 2)%nat eqn:L; cbn [andb].
  - destruct (negb (nonempty pts)).
    + apply carries_pre with (P := cfo_lt 2); [| apply from_best_adds].
      intros s [[C _] E]. split; [exact C |].
      apply Nat.ltb_lt in L. unfold pool_lt. rewrite <- E. lia.
    + apply carries_weaken; [apply pres_ret | intros s [H _]; exact H].
  - apply carries_weaken; [apply pres_ret | intros s [H _]; exact H].
Qed.

Lemma on_trial_complete_cfo (tid : string) (r : option Result) (e : bool) :
  preserves (cfo_le 2) (on_trial_complete tid r e).
Proof.
  unfold on_trial_complete.
  apply pres_bind; [apply pres_gets | intros c]. destruct c.
  - apply pres_bind; [apply base_complete_cfo | intros _; apply pres_ret].
  - apply CFO_complete_cfo.
Qed.

Lemma step_cfo (c : call) (s : State) : cfo_le 2 s -> cfo_le 2 (step c s).
Proof.
  destruct c as [tid | tid r | tid r e]; cbn [step].
  - apply suggest_cfo.
  - apply on_trial_result_cfo.
  - apply on_trial_complete_cfo.
Qed.

Lemma run_cfo (calls : list call) (s : State) :
  cfo_le 2 s -> cfo_le 2 (run calls s).
Proof.
  unfold run. revert s.
  induction calls as [| c calls IH]; intros s H; cbn; [exact H |].
  apply IH. apply step_cfo. exact H.
Qed.

Lemma init_cfo (metric : string) (points : list Config)
    (config_constraints : list config_constraint)
    (metric_constraints : list metric_constraint) (e : Env) :
  cfo_le 2 (__init__ CFO metric points config_constraints metric_constraints e).
Proof. split; [reflexivity |]. unfold pool_le. cbn. lia. Qed.

Lemma suggest_three (tid : string) (s : State) :
  cls s = CFO ->
  (3 <= List.length (_search_thread_pool s))%nat ->
  suggest tid s = (Raise AssertionError, s).
Proof.
  intros C L. unfold suggest, CFO_suggest. run. rewrite C.
  destruct (List.length (_search_thread_pool s) <? 3)%nat eqn:E;
    [| reflexivity].
  apply Nat.ltb_lt in E. lia.
Qed.

(** C4. Under [CFO] the pool never holds more than 2 threads: not in a
    coordinator as constructed, and not after any sequence of calls of
    [suggest], [on_trial_result] and [on_trial_complete], whether they
    return or raise.  [suggest] on a pool of 3 or more threads fails its
    assertion, and the creation condition of [CFO] is false whenever the
    pool holds 2 threads and whenever initial points remain to be
    evaluated. *)
Theorem cfo_pool_invariant :
  (forall metric points config_constraints metric_constraints (e : Env) calls,
     (List.length
        (_search_thread_pool
           (run calls
              (__init__ CFO metric points config_constraints
                 metric_constraints e))) <= 2)%nat)
  /\ (forall (s : State) calls,
        cls s = CFO ->
        (List.length (_search_thread_pool s) <= 2)%nat ->
        (List.length (_search_thread_pool (run calls s)) <= 2)%nat)
  /\ (forall (s : State) tid,
        cls s = CFO ->
        (3 <= List.length (_search_thread_pool s))%nat ->
        suggest tid s = (Raise AssertionError, s))
  /\ (forall (s : State) r,
        List.length (_search_thread_pool s) = 2%nat ->
        CFO_create_condition r s = (Ok false, s))
  /\ (forall (s : State) r,
        _points_to_evaluate s <> [] ->
        CFO_create_condition r s = (Ok false, s)).
Proof.
  split; [| split; [| split; [| split]]].
  - intros metric points cc mc e calls.
    apply (run_cfo calls _ (init_cfo metric points cc mc e)).
  - intros s calls C L. apply (run_cfo calls s (conj C L)).
  - intros s tid. apply suggest_three.
  - intros s r. apply CFO_condition_two.
  - intros s r. apply CFO_condition_points.
Qed.

End PoolSize.

(** ** The penalty of violated metric constraints *)

Section Penalty.

Context {Sig Env Thread : Type}.
Context {LS : LocalSearch Sig Env} {ST : SearchThread Thread Env}.

Abbreviation State := (@State Sig Env Thread).

(** the constraint is not counted as violated by the loop: its metric is
    absent or zero, or its signed violation is not positive *)
Definition unviolated (result : Result) (c : metric_constraint) : bool :=
  match Dict.get (fst (fst c)) result with
  | None => true
  | Some value =>
      negb (truthy value)
      || negb (violation (snd (fst c)) (snd c) value >. Fin 0)
  end.

Lemma step_unviolated (result : Result) (i : nat) (c : metric_constraint)
    (acc : num * bool) (s : State) :
  unviolated result c = true ->
  metric_constraint_step result (i, c) acc s = (Ok acc, s).
Proof.
  destruct c as [[name sign] threshold]. unfold unviolated. cbn [fst snd].
  destruct (Dict.get name result) as [value |] eqn:G.
  - intros U. apply orb_true_iff in U. destruct U as [U | U].
    + apply (@step_skipped Sig Env Thread LS result i (name, sign, threshold)).
      unfold skipped. cbn [fst]. rewrite G. exact U.
    + apply negb_true_iff in U.
      apply (@step_met Sig Env Thread LS result i name sign threshold value
               acc s G U).
  - intros _.
    apply (@step_skipped Sig Env Thread LS result i (name, sign, threshold)).
    unfold skipped. cbn [fst]. rewrite G. reflexivity.
Qed.

Lemma loop_unviolated (result : Result) (ics : list (nat * metric_constraint))
    (acc : num * bool) (s : State) :
  forallb (fun ic => unviolated result (snd ic)) ics = true ->
  fold_M ics (metric_constraint_step result) acc s = (Ok acc, s).
Proof.
  induction ics as [| [i c] ics IH]; intros A; [reflexivity |].
  cbn in A. apply andb_true_iff in A. destruct A as [A1 A2].
  cbn [fold_M]. unfold bind. rewrite (step_unviolated result i c acc s A1).
  apply IH. exact A2.
Qed.

Lemma forallb_enumerate {A} (f : A -> bool) (l : list A) :
  forallb f l = true ->
  forallb (fun ic : nat * A => f (snd ic)) (enumerate l) = true.
Proof.
  unfold enumerate. generalize (seq 0 (List.length l)).
  induction l as [| x l IH]; intros [| n ns] H; try reflexivity.
  cbn in *. apply andb_true_iff in H. destruct H as [H1 H2].
  rewrite H1. cbn. apply IH. exact H2.
Qed.

(** a result without counted violation is recorded with its objective,
    sets the satisfied flag and, when the flag was not set, resets the
    weights to 1 *)
Lemma account_unviolated (result : Result) (objective : num) (s : State) :
  forallb (unviolated result) (_metric_constraints s) = true ->
  Dict.get (_metric s) result = Some objective ->
  account_metric_constraints result s
  = (Ok (Dict.set (_metric s ++ lagrange)%string objective result, true),
     set_metric_constraint_satisfied true
       (if _metric_constraint_satisfied s then s
        else set_metric_constraint_penalty
               (Some (map (fun _ => Fin 1) (_metric_constraints s))) s)).
Proof.
  intros A G. unfold account_metric_constraints.
  unfold bind at 1. unfold gets at 1. cbv beta iota.
  unfold bind at 1. unfold gets at 1. cbv beta iota.
  unfold bind at 1. unfold item. rewrite G. unfold ret at 1. cbv beta iota.
  unfold bind at 1.
  rewrite (loop_unviolated result (enumerate (_metric_constraints s))
             (objective, true) s (forallb_enumerate _ _ A)).
  cbv beta iota. unfold bind, gets, modify, ret. cbn [andb].
  destruct (_metric_constraint_satisfied s) eqn:F; cbn; rewrite F; reflexivity.
Qed.

(** the satisfied flag, once set, stays set *)
Definition satisfied (s : State) : Prop := _metric_constraint_satisfied s = true.

Lemma satisfied_account (r : Result) :
  preserves satisfied (account_metric_constraints r).
Proof.
  unfold account_metric_constraints, metric_constraint_step, penalty_at,
    set_penalty_at.
  pres; try (stable; fail).
  apply pres_modify. intros s H. unfold satisfied in *. cbn. rewrite H.
  reflexivity.
Qed.

Lemma satisfied_update (c : Config) (w : region) :
  preserves satisfied (_update_admissible_region c w).
Proof. apply update_region_keeps; destruct w; intros; assumption. Qed.

Lemma satisfied_expand : preserves satisfied _expand_admissible_region.
Proof. apply expand_keeps; intros; assumption. Qed.

Lemma satisfied_clean (id : Z) : preserves satisfied (_clean id).
Proof.
  apply clean_frame; try (intros; assumption).
  - intros c. apply satisfied_update.
  - apply satisfied_expand.
Qed.

Lemma satisfied_create (c : Config) (r : Result) :
  preserves satisfied (_create_thread c r).
Proof.
  apply create_thread_frame; try (intros; assumption).
  intros c0. apply satisfied_update.
Qed.

Lemma satisfied_step (c : call) (s : State) :
  satisfied s -> satisfied (step c s).
Proof.
  destruct c as [tid | tid r | tid r e]; cbn [step].
  - apply suggest_keeps; try (intros; assumption).
    + intros c. apply satisfied_update.
    + intros c. apply satisfied_update.
    + apply satisfied_expand.
    + apply satisfied_clean.
  - apply on_trial_result_keeps. intros; assumption.
  - apply on_trial_complete_keeps; try (intros; assumption).
    + apply from_best_frame; try (intros; assumption).
      intros c. apply satisfied_update.
    + apply base_complete_keeps; try (intros; assumption).
      * apply satisfied_clean.
      * apply satisfied_account.
      * apply record_keeps; try (intros; assumption).
        -- apply satisfied_expand.
        -- apply satisfied_create.
Qed.

Lemma satisfied_run (calls : list call) (s : State) :
  satisfied s -> satisfied (run calls s).
Proof.
  unfold run. revert s.
  induction calls as [| c calls IH]; intros s H; cbn; [exact H |].
  apply IH. apply satisfied_step. exact H.
Qed.

Lemma set_flag_same (s : State) :
  set_metric_constraint_satisfied (_metric_constraint_satisfied s) s = s.
Proof. destruct s; reflexivity. Qed.

(** The account of the metric constraints of [on_trial_complete], i.e.
    for a non-empty result without error when metric constraints are
    configured: a constraint whose value is present and non-zero and
    whose signed violation is positive adds
    [penalty[i] * violation * metric_op] to the objective and clears the
    local satisfied flag; a result in which no constraint with a present,
    non-zero value is violated is recorded under the lagrange-derived
    name with its objective unchanged, sets the satisfied flag and, when
    the flag was not set before, resets every weight to 1; the flag,
    once set, stays set over all later [suggest], [on_trial_result] and
    [on_trial_complete] calls. *)
Lemma account_of_metric_constraints (s : State) (result : Result)
    (objective : num) :
  Dict.get (_metric s) result = Some objective ->
  (forall i name sign threshold value obj p sat l,
     Dict.get name result = Some value ->
     truthy value = true ->
     (violation sign threshold value >. Fin 0) = true ->
     _metric_constraint_penalty s = Some l ->
     nth_error l i = Some p ->
     metric_constraint_step result
    (i, ((name, sign, threshold) : metric_constraint)) (obj, sat) s
     = (Ok (obj +. p *: violation sign threshold value *: metric_op, false),
        if p <. penalty
        then set_metric_constraint_penalty
               (Some (list_set i (p +. violation sign threshold value) l)) s
        else s))
  /\ (forallb (unviolated result) (_metric_constraints s) = true ->
      account_metric_constraints result s
      = (Ok (Dict.set (_metric s ++ lagrange)%string objective result, true),
         set_metric_constraint_satisfied true
           (if _metric_constraint_satisfied s then s
            else set_metric_constraint_penalty
                   (Some (map (fun _ => Fin 1) (_metric_constraints s))) s)))
  /\ (_metric_constraint_satisfied s = true ->
      forall calls, _metric_constraint_satisfied (run calls s) = true).
Proof.
  intros G. split; [| split].
  - intros i name sign threshold value obj p sat l Gv T V Pn N.
    apply (@step_violated Sig Env Thread LS result i name sign threshold value
             obj p sat l s Gv T V Pn N).
  - intros A. apply account_unviolated; assumption.
  - intros F calls. apply satisfied_run. exact F.
Qed.

End Penalty.

(** C1. A constrained metric of value 0 escapes the penalty.  With
    the constraint accuracy >= 0.9 on a coordinator that has found no
    feasible point yet (flag not set, weight at the initial penalty), the
    completion of a trial with loss = 5 and accuracy = 0 violates the
    constraint by 0.9, and yet the test [if value:] skips the constraint:
    the account returns the objective 5 unchanged under the
    lagrange-derived name with the local flag true, the branch for a
    feasible point resets the weight to 1 and sets the satisfied flag,
    and [on_trial_complete] caches that record and leaves the
    coordinator satisfied. *)
Theorem zero_value_counted_feasible :
  let r := [("loss"%string, Fin 5); ("accuracy"%string, Fin 0);
            ("config/x"%string, Fin (1 # 2))] in
  let s' := snd (@on_trial_complete Z unit Toy.thread Toy.constrained_search
                   Toy.search_thread "t1" (Some r) false Toy.constrained) in
  (violation ">=" (Fin (9 # 10)) (Fin 0) >. Fin 0) = true
  /\ _metric_constraint_satisfied Toy.constrained = false
  /\ _metric_constraint_penalty Toy.constrained = Some [penalty]
  /\ @account_metric_constraints Z unit Toy.thread Toy.constrained_search
       r Toy.constrained
     = (Ok (r ++ [("loss_lagrange"%string, Fin 5)], true),
        set_metric_constraint_satisfied true
          (set_metric_constraint_penalty (Some [Fin 1]) Toy.constrained))
  /\ Dict.get 1002%Z (_result s')
     = Some (r ++ [("loss_lagrange"%string, Fin 5)])
  /\ _metric_constraint_satisfied s' = true
  /\ _metric_constraint_penalty s' = Some [Fin 1].
Proof. vm_compute. repeat split; reflexivity. Qed.

(** the two completions of the metric-constraint example, run on the
    small instance: the first is recorded with the penalty term added and
    leaves the flag and the weight as they are, the second sets the flag
    and resets the weight *)
Example penalty_then_feasible :
  let r1 := [("loss"%string, Fin 5); ("accuracy"%string, Fin (8 # 10));
             ("config/x"%string, Fin 0)] in
  let r2 := [("loss"%string, Fin 5); ("accuracy"%string, Fin (95 # 100));
             ("config/x"%string, Fin (1 # 2))] in
  let s1 := snd (@on_trial_complete Z unit Toy.thread Toy.constrained_search
                   Toy.search_thread "t1" (Some r1) false Toy.constrained) in
  let s2 := snd (@on_trial_complete Z unit Toy.thread Toy.constrained_search
                   Toy.search_thread "t2" (Some r2) false s1) in
  Dict.get 1%Z (_result s1)
  = Some (r1 ++ [("loss_lagrange"%string,
                  Fin 5
                  +. penalty
                     *: violation ">=" (Fin (9 # 10)) (Fin (8 # 10))
                     *: Fin 1)])
  /\ _metric_constraint_satisfied s1 = false
  /\ _metric_constraint_penalty s1 = Some [penalty]
  /\ _metric_constraint_satisfied s2 = true
  /\ _metric_constraint_penalty s2 = Some [Fin 1].
Proof. vm_compute. repeat split; reflexivity. Qed.

(** a run of the restricted variant on the small instance: the init
    config is proposed and completed, a local thread is created, and the
    pool holds the global slot and that thread *)
Lemma cfo_pool_invariant_witness :
  let calls :=
    [Suggest "t1";
     OnTrialComplete "t1"
       (Some [("loss"%string, Fin 1); ("config/x"%string, Fin 0)]) false;
     Suggest "t2"] in
  (List.length (_search_thread_pool (Toy.plain_run calls (Toy.plain CFO)))
   <= 2)%nat.
Proof.
  exact (proj1 (@cfo_pool_invariant Z unit Toy.thread Toy.plain_search
                  Toy.search_thread)
           "loss"%string [] [] [] tt _).
Defined.

Example cfo_run_pool :
  Dict.keys
    (_search_thread_pool
       (Toy.plain_run
          [Suggest "t1";
           OnTrialComplete "t1"
             (Some [("loss"%string, Fin 1); ("config/x"%string, Fin 0)]) false;
           Suggest "t2"] (Toy.plain CFO)))
  = [0%Z; 1%Z].
Proof. vm_compute. reflexivity. Qed.

(* ================================================================== *)
(** * Further properties of the coordinator *)
(* ================================================================== *)

(** ** Order of the numbers *)

Lemma flt_irrefl (a : num) : (a <. a) = false.
Proof.
  destruct a as [x | s |]; cbn; [| destruct s; reflexivity | reflexivity].
  apply Qlt_bool_false_iff. lra.
Qed.

Lemma fle_flt_trans (a b c : num) :
  (a <=. b) = true -> (b <. c) = true -> (a <. c) = true.
Proof.
  destruct a as [x | s |], b as [y | t |], c as [z | u |]; cbn;
    try congruence;
    try (rewrite Qle_bool_iff, !Qlt_bool_iff; intros; lra);
    repeat match goal with b : bool |- _ => destruct b end;
    cbn; congruence.
Qed.

Lemma flt_fle_trans (a b c : num) :
  (a <. b) = true -> (b <=. c) = true -> (a <. c) = true.
Proof.
  destruct a as [x | s |], b as [y | t |], c as [z | u |]; cbn;
    try congruence;
    try (rewrite Qle_bool_iff, !Qlt_bool_iff; intros; lra);
    repeat match goal with b : bool |- _ => destruct b end;
    cbn; congruence.
Qed.

Lemma flt_asym (a b : num) : (a <. b) = true -> (b <. a) = false.
Proof.
  destruct a as [x | s |], b as [y | t |]; cbn; try congruence;
    try (rewrite Qlt_bool_iff, Qlt_bool_false_iff; intros; lra);
    repeat match goal with b : bool |- _ => destruct b end;
    cbn; congruence.
Qed.

(** a bound that a value does not pass is not passed either when it is
    moved away from the value *)
Lemma not_below_lowered (v lo lo' : num) :
  (v <. lo) = false -> num_le lo' lo -> (v <. lo') = false.
Proof.
  intros H [-> | L]; [exact H |].
  destruct (v <. lo') eqn:E; [| reflexivity].
  rewrite (flt_fle_trans v lo' lo E L) in H. discriminate H.
Qed.

Lemma not_above_raised (v hi hi' : num) :
  (v >. hi) = false -> num_le hi hi' -> (v >. hi') = false.
Proof.
  unfold fgt. intros H [<- | L]; [exact H |].
  destruct (hi' <. v) eqn:E; [| reflexivity].
  rewrite (fle_flt_trans hi hi' v L E) in H. discriminate H.
Qed.

(** the slack of [_valid] only helps *)
Lemma not_below_slack (v lo : num) (slack : Q) :
  (0 <= slack)%Q -> (v <. lo) = false -> (v +. Fin slack <. lo) = false.
Proof.
  intros Hs.
  destruct v as [x | s |], lo as [y | t |]; cbn; try congruence.
  rewrite !Qlt_bool_false_iff. pose proof (Qred_correct (x + slack)).
  intros; lra.
Qed.

Lemma not_above_slack (v hi : num) (slack : Q) :
  (0 <= slack)%Q -> (v >. hi) = false -> (v >. hi +. Fin slack) = false.
Proof.
  intros Hs. unfold fgt.
  destruct v as [x | s |], hi as [y | t |]; cbn; try congruence.
  rewrite !Qlt_bool_false_iff. pose proof (Qred_correct (y + slack)).
  intros; lra.
Qed.

Lemma num_le_add_mono (a b : num) (c : Q) :
  num_le a b -> num_le (a +. Fin c) (b +. Fin c).
Proof.
  intros [-> | L]; [left; reflexivity |].
  destruct a as [x | s |], b as [y | t |]; cbn in *;
    try discriminate L; try (right; exact L).
  right. apply Qle_bool_iff in L. apply Qle_bool_iff.
  pose proof (Qred_correct (x + c)). pose proof (Qred_correct (y + c)). lra.
Qed.

(** ** The admissible regions enclose the points they are updated with *)

Section Enclosure.

Context {Sig Env Thread : Type}.
Context {LS : LocalSearch Sig Env} {ST : SearchThread Thread Env}.

Abbreviation State := (@State Sig Env Thread).
Abbreviation M := (@M Sig Env Thread).

(** no minimum of the region is above the maximum of its dimension *)
Definition ordered (w : region) (s : State) : Prop :=
  forall key lo hi,
    Dict.get key (box_min w s) = Some lo ->
    Dict.get key (box_max w s) = Some hi ->
    (lo <=. hi) = true.

(** on dimension [key] the region has bounds and the point a value that
    is neither below the minimum nor above the maximum *)
Definition encloses (w : region) (point : Config) (key : string) (s : State)
    : Prop :=
  exists value lo hi,
    Dict.get key point = Some value
    /\ Dict.get key (box_min w s) = Some lo
    /\ Dict.get key (box_max w s) = Some hi
    /\ (value <. lo) = false
    /\ (value >. hi) = false.

(** from [s0] to [s] the region keeps its dimensions, no minimum has
    increased and no maximum has decreased *)
Definition widened (w : region) (s0 s : State) : Prop :=
  min_not_above (box_min w s0) (box_min w s)
  /\ max_not_below (box_max w s0) (box_max w s).

(** the body of the loop of [_update_admissible_region] *)
Definition update_dimension (point : Config) (w : region) (key : string)
    : M unit :=
  value <- item KeyError (Dict.get key point) ;;
  hi <- gets_item KeyError (fun s => Dict.get key (box_max w s)) ;;
  if value >. hi
  then modify (fun s => set_box_max w (Dict.set key value (box_max w s)) s)
  else
    lo <- gets_item KeyError (fun s => Dict.get key (box_min w s)) ;;
    if value <. lo
    then modify (fun s => set_box_min w (Dict.set key value (box_min w s)) s)
    else ret tt.

Lemma update_region_unfold (config : Config) (w : region) :
  _update_admissible_region config w
  = (ks <- gets (fun s => Dict.keys (box_min w s)) ;;
     for_each ks (update_dimension (normalize config) w)).
Proof. reflexivity. Qed.

Lemma box_max_set_max (w : region) (b : Box) (s : State) :
  box_max w (set_box_max w b s) = b.
Proof. destruct w; reflexivity. Qed.

Lemma box_min_set_max (w : region) (b : Box) (s : State) :
  box_min w (set_box_max w b s) = box_min w s.
Proof. destruct w; reflexivity. Qed.

Lemma box_min_set_min (w : region) (b : Box) (s : State) :
  box_min w (set_box_min w b s) = b.
Proof. destruct w; reflexivity. Qed.

Lemma box_max_set_min (w : region) (b : Box) (s : State) :
  box_max w (set_box_min w b s) = box_max w s.
Proof. destruct w; reflexivity. Qed.

Lemma widened_refl (w : region) (s : State) : widened w s s.
Proof. split; [apply min_not_above_refl | apply max_not_below_refl]. Qed.

Lemma widened_trans (w : region) (a b c : State) :
  widened w a b -> widened w b c -> widened w a c.
Proof.
  intros [H1 H2] [H3 H4]. split.
  - eapply min_not_above_trans; eauto.
  - eapply max_not_below_trans; eauto.
Qed.

Lemma widened_mem_min (w : region) (s0 s : State) (key : string) :
  widened w s0 s ->
  Dict.mem key (box_min w s) = Dict.mem key (box_min w s0).
Proof.
  intros [H _]. specialize (H key). unfold Dict.mem.
  destruct (Dict.get key (box_min w s0)), (Dict.get key (box_min w s));
    try contradiction; reflexivity.
Qed.

Lemma widened_get_min (w : region) (s0 s : State) (key : string) :
  widened w s0 s ->
  Dict.get key (box_min w s0) = None <-> Dict.get key (box_min w s) = None.
Proof.
  intros [H _]. specialize (H key).
  destruct (Dict.get key (box_min w s0)), (Dict.get key (box_min w s));
    try contradiction; split; congruence.
Qed.

Lemma widened_get_max (w : region) (s0 s : State) (key : string) :
  widened w s0 s ->
  Dict.get key (box_max w s0) = None <-> Dict.get key (box_max w s) = None.
Proof.
  intros [_ H]. specialize (H key).
  destruct (Dict.get key (box_max w s0)), (Dict.get key (box_max w s));
    try contradiction; split; congruence.
Qed.

(** one dimension: the bounds move outwards only; an exception is a
    [KeyError] for a dimension that the point or a bound lacks, and
    leaves the state as it is *)
Lemma update_dimension_widens (point : Config) (w : region) (key : string)
    (s : State) :
  widened w s (snd (update_dimension point w key s))
  /\ forall e, fst (update_dimension point w key s) = Raise e ->
       e = KeyError
       /\ snd (update_dimension point w key s) = s
       /\ (Dict.get key point = None
           \/ Dict.get key (box_max w s) = None
           \/ Dict.get key (box_min w s) = None).
Proof.
  unfold update_dimension. run.
  destruct (Dict.get key point) as [value |]; cbn [fst snd].
  2:{ split; [apply widened_refl |]. intros e E. injection E as <-. auto. }
  destruct (Dict.get key (box_max w s)) as [hi |] eqn:Ghi; cbn [fst snd].
  2:{ split; [apply widened_refl |]. intros e E. injection E as <-. auto. }
  destruct (value >. hi) eqn:Up; cbn [fst snd].
  - split; [| intros e E; discriminate E].
    split; rewrite ?box_min_set_max, ?box_max_set_max.
    + apply min_not_above_refl.
    + eapply max_raised; [apply max_not_below_refl | exact Ghi |].
      right. apply flt_fle. exact Up.
  - destruct (Dict.get key (box_min w s)) as [lo |] eqn:Glo; cbn [fst snd].
    2:{ split; [apply widened_refl |]. intros e E. injection E as <-. auto. }
    destruct (value <. lo) eqn:Down; cbn [fst snd].
    + split; [| intros e E; discriminate E].
      split; rewrite ?box_min_set_min, ?box_max_set_min.
      * eapply min_lowered; [apply min_not_above_refl | exact Glo |].
        right. apply flt_fle. exact Down.
      * apply max_not_below_refl.
    + split; [apply widened_refl | intros e E; discriminate E].
Qed.

(** one dimension of an ordered region: the region stays ordered and
    encloses the point on that dimension, when the region has it, and on
    every dimension on which it did before *)
Lemma update_dimension_encloses (point : Config) (w : region) (key : string)
    (s s1 : State) :
  ordered w s ->
  update_dimension point w key s = (Ok tt, s1) ->
  ordered w s1
  /\ (Dict.mem key (box_min w s) = true -> encloses w point key s1)
  /\ (forall k, encloses w point k s -> encloses w point k s1).
Proof.
  intros Ho. unfold update_dimension. run.
  destruct (Dict.get key point) as [value |] eqn:Gv; [| discriminate].
  destruct (Dict.get key (box_max w s)) as [hi |] eqn:Ghi; [| discriminate].
  destruct (value >. hi) eqn:Up.
  - intros E. injection E as <-.
    assert (Enc : Dict.mem key (box_min w s) = true ->
                  encloses w point key
                    (set_box_max w (Dict.set key value (box_max w s)) s)).
    { intros Mm. apply mem_get in Mm. destruct Mm as [lo Glo].
      pose proof (Ho key lo hi Glo Ghi) as L.
      exists value, lo, value.
      rewrite box_min_set_max, box_max_set_max, get_set_eq.
      repeat split; auto; [| unfold fgt; apply flt_irrefl].
      destruct (value <. lo) eqn:B; [| reflexivity].
      pose proof (flt_fle_trans value lo hi B L) as C.
      unfold fgt in Up. rewrite (flt_asym hi value Up) in C. discriminate C. }
    split; [| split; [exact Enc |]].
    + intros k lo' hi'. rewrite box_min_set_max, box_max_set_max, get_set.
      destruct (eqb key k) eqn:K.
      * apply eqb_eq in K. subst k. intros Glo' E. injection E as <-.
        eapply fle_trans; [exact (Ho key lo' hi Glo' Ghi) |].
        apply flt_fle. exact Up.
      * apply Ho.
    + intros k (v & lo' & hi' & G1 & G2 & G3 & B1 & B2).
      destruct (eqb_dec key k) as [<- | N].
      * apply Enc. apply mem_get. eauto.
      * exists v, lo', hi'.
        rewrite box_min_set_max, box_max_set_max, get_set_neq; auto.
  - destruct (Dict.get key (box_min w s)) as [lo |] eqn:Glo; [| discriminate].
    destruct (value <. lo) eqn:Down.
    + intros E. injection E as <-.
      assert (Enc : encloses w point key
                      (set_box_min w (Dict.set key value (box_min w s)) s)).
      { exists value, value, hi.
        rewrite box_min_set_min, box_max_set_min, get_set_eq.
        repeat split; auto. apply flt_irrefl. }
      split; [| split; [intros _; exact Enc |]].
      * intros k lo' hi'. rewrite box_min_set_min, box_max_set_min, get_set.
        destruct (eqb key k) eqn:K.
        -- apply eqb_eq in K. subst k. intros E Ghi'. injection E as <-.
           apply flt_fle.
           eapply flt_fle_trans; [exact Down |].
           exact (Ho key lo hi' Glo Ghi').
        -- apply Ho.
      * intros k (v & lo' & hi' & G1 & G2 & G3 & B1 & B2).
        destruct (eqb_dec key k) as [<- | N]; [exact Enc |].
        exists v, lo', hi'.
        rewrite box_min_set_min, box_max_set_min, get_set_neq; auto.
    + intros E. injection E as <-.
      split; [exact Ho | split; [| auto]].
      intros _. exists value, lo, hi. repeat split; auto.
Qed.

Lemma update_loop_widens (point : Config) (w : region) (ks : list string)
    (s : State) :
  widened w s (snd (for_each ks (update_dimension point w) s))
  /\ forall e, fst (for_each ks (update_dimension point w) s) = Raise e ->
       e = KeyError
       /\ exists key,
            In key ks
            /\ (Dict.get key point = None
                \/ Dict.get key (box_max w s) = None
                \/ Dict.get key (box_min w s) = None).
Proof.
  revert s. induction ks as [| key ks IH]; intros s; cbn [for_each].
  - split; [apply widened_refl | intros e E; discriminate E].
  - destruct (update_dimension_widens point w key s) as [W R].
    unfold bind.
    destruct (update_dimension point w key s) as [[u | e] s1]; cbn [fst snd] in *.
    + destruct (IH s1) as [W1 R1]. split.
      * eapply widened_trans; eauto.
      * intros e E. destruct (R1 e E) as (-> & k & I & Miss).
        split; [reflexivity |]. exists k. split; [right; exact I |].
        rewrite (widened_get_max w s s1 k W), (widened_get_min w s s1 k W).
        exact Miss.
    + split; [exact W |]. intros e' E. injection E as <-.
      destruct (R e eq_refl) as (-> & _ & Miss).
      split; [reflexivity |]. exists key. split; [left; reflexivity | exact Miss].
Qed.

Lemma update_loop_encloses (point : Config) (w : region) (ks : list string)
    (s s' : State) :
  ordered w s ->
  for_each ks (update_dimension point w) s = (Ok tt, s') ->
  ordered w s'
  /\ (forall k, In k ks -> Dict.mem k (box_min w s) = true ->
        encloses w point k s')
  /\ (forall k, encloses w point k s -> encloses w point k s').
Proof.
  revert s. induction ks as [| key ks IH]; intros s Ho; cbn [for_each].
  - intros E. injection E as <-. split; [exact Ho |].
    split; [intros k [] | auto].
  - unfold bind.
    destruct (update_dimension_widens point w key s) as [W _].
    destruct (update_dimension point w key s) as [[[] | e] s1] eqn:E1;
      [| discriminate].
    cbn [snd] in W. intros E.
    destruct (update_dimension_encloses point w key s s1 Ho E1)
      as (Ho1 & Enc1 & Keep1).
    destruct (IH s1 Ho1 E) as (Ho' & Enc' & Keep').
    split; [exact Ho' | split].
    + intros k [<- | I] Mm.
      * apply Keep'. apply Enc1. exact Mm.
      * apply Enc'; [exact I |].
        rewrite (widened_mem_min w s s1 k W). exact Mm.
    + intros k Ek. apply Keep'. apply Keep1. exact Ek.
Qed.

(** X1. [_update_admissible_region] on a region in which no minimum is
    above its maximum: when the normalized configuration and the maxima
    have every dimension of the minima, the call returns, the region is
    still ordered, no bound has moved inwards and on every dimension the
    normalized value is neither below the minimum nor above the maximum;
    when the normalized configuration lacks a dimension of the region, the
    call raises [KeyError]. *)
Theorem update_region_encloses (config : Config) (w : region) (s : State) :
  ordered w s ->
  ((forall key,
      In key (Dict.keys (box_min w s)) ->
      Dict.mem key (normalize config) = true
      /\ Dict.mem key (box_max w s) = true) ->
   exists s',
     _update_admissible_region config w s = (Ok tt, s')
     /\ (forall key,
           In key (Dict.keys (box_min w s)) ->
           encloses w (normalize config) key s')
     /\ ordered w s'
     /\ widened w s s')
  /\ (forall key,
        In key (Dict.keys (box_min w s)) ->
        Dict.mem key (normalize config) = false ->
        fst (_update_admissible_region config w s) = Raise KeyError).
Proof.
  intros Ho. rewrite update_region_unfold. unfold bind, gets. cbv beta iota.
  destruct (update_loop_widens (normalize config) w
              (Dict.keys (box_min w s)) s) as [W R].
  destruct (for_each (Dict.keys (box_min w s))
              (update_dimension (normalize config) w) s)
    as [[[] | e] s'] eqn:E; cbn [fst snd] in *.
  - destruct (update_loop_encloses _ _ _ _ _ Ho E) as (Ho' & Enc & _).
    assert (EncAll : forall key, In key (Dict.keys (box_min w s)) ->
                       encloses w (normalize config) key s').
    { intros key I. apply Enc; [exact I |].
      apply mem_get. apply in_keys_get. exact I. }
    split.
    + intros _. exists s'. auto.
    + intros key I Mm. destruct (EncAll key I) as (v & _ & _ & G & _).
      unfold Dict.mem in Mm. rewrite G in Mm. discriminate Mm.
  - destruct (R e eq_refl) as (-> & k & I & Miss). split; [| reflexivity].
    intros Full. exfalso. destruct (Full k I) as [M1 M2].
    apply in_keys_get in I. destruct I as [lo Glo].
    unfold Dict.mem in M1, M2.
    destruct Miss as [G | [G | G]]; rewrite G in *; discriminate.
Qed.

(** *** The validator on a widened region *)

(** [config] is admitted on dimension [key]: the dimension is not in
    [config], or the normalized value and both bounds are there and the
    value passes the two tests of [_valid] *)
Definition admits (config point : Config) (gs_min gs_max : Box)
    (key : string) : Prop :=
  Dict.mem key config = true ->
  exists value lo hi,
    Dict.get key point = Some value
    /\ Dict.get key gs_min = Some lo
    /\ Dict.get key gs_max = Some hi
    /\ (value +. STEPSIZE <. lo) = false
    /\ (value >. hi +. STEPSIZE) = false.

Lemma valid_scan_true (config point : Config) (gs_min gs_max : Box)
    (ks : list string) :
  _valid_scan config point gs_min gs_max ks = Ok true
  <-> forall key, In key ks -> admits config point gs_min gs_max key.
Proof.
  unfold admits. induction ks as [| key ks IH]; cbn [_valid_scan].
  - split; [intros _ key [] | reflexivity].
  - destruct (Dict.mem key config) eqn:Mm.
    + destruct (Dict.get key point) as [value |] eqn:Gv.
      2:{ split; [discriminate |]. intros A.
          destruct (A key (or_introl eq_refl) Mm) as (v & lo & hi & G & _).
          congruence. }
      destruct (Dict.get key gs_min) as [lo |] eqn:Glo.
      2:{ split; [discriminate |]. intros A.
          destruct (A key (or_introl eq_refl) Mm) as (v & lo & hi & _ & G & _).
          congruence. }
      destruct (value +. STEPSIZE <. lo) eqn:B1.
      { split; [discriminate |]. intros A.
        destruct (A key (or_introl eq_refl) Mm)
          as (v & lo' & hi & G1 & G2 & _ & B & _).
        congruence. }
      destruct (Dict.get key gs_max) as [hi |] eqn:Ghi.
      2:{ split; [discriminate |]. intros A.
          destruct (A key (or_introl eq_refl) Mm)
            as (v & lo' & hi & _ & _ & G & _).
          congruence. }
      destruct (value >. hi +. STEPSIZE) eqn:B2.
      { split; [discriminate |]. intros A.
        destruct (A key (or_introl eq_refl) Mm)
          as (v & lo' & hi' & G1 & _ & G3 & _ & B).
        congruence. }
      rewrite IH. split.
      * intros A k [<- | I] Mk; [| apply A; assumption].
        exists value, lo, hi. auto.
      * intros A k I. apply A. right. exact I.
    + rewrite IH. split.
      * intros A k [<- | I] Mk; [congruence | apply A; assumption].
      * intros A k I. apply A. right. exact I.
Qed.

Lemma valid_true (config : Config) (s : State) :
  _valid config s = (Ok true, s)
  <-> forall key,
        In key (Dict.keys (_gs_admissible_min s)) ->
        admits config (normalize config) (_gs_admissible_min s)
          (_gs_admissible_max s) key.
Proof.
  rewrite <- valid_scan_true. unfold _valid, bind, gets, lift. cbv beta iota.
  split.
  - intros E. injection E as E. exact E.
  - intros ->. reflexivity.
Qed.

Lemma widened_keys (s0 s : State) (key : string) :
  widened GlobalBox s0 s ->
  In key (Dict.keys (_gs_admissible_min s)) ->
  In key (Dict.keys (_gs_admissible_min s0)).
Proof.
  intros W I. apply in_keys_get in I. destruct I as [lo G].
  destruct (Dict.get key (_gs_admissible_min s0)) as [lo0 |] eqn:G0.
  - eapply get_in_keys; eauto.
  - apply (widened_get_min GlobalBox s0 s key W) in G0. cbn in G0. congruence.
Qed.

(** X2. The relaxation of the global admissible region for a proposal:
    after [_update_admissible_region config] on the global region, when
    it returns, [_valid config] accepts the configuration, for a
    non-negative [STEPSIZE] and a region in which no minimum was above
    its maximum. *)
Theorem relaxed_region_accepts (config : Config) (s s' : State) (slack : Q) :
  STEPSIZE = Fin slack ->
  (0 <= slack)%Q ->
  ordered GlobalBox s ->
  _update_admissible_region config GlobalBox s = (Ok tt, s') ->
  _valid config s' = (Ok true, s').
Proof.
  intros HS Hpos Ho E. rewrite update_region_unfold in E.
  unfold bind, gets in E. cbv beta iota in E.
  destruct (update_loop_widens (normalize config) GlobalBox
              (Dict.keys (box_min GlobalBox s)) s) as [W _].
  rewrite E in W. cbn [snd] in W.
  destruct (update_loop_encloses _ _ _ _ _ Ho E) as (_ & Enc & _).
  apply valid_true. intros key I _.
  pose proof (widened_keys s s' key W I) as I0.
  destruct (Enc key I0) as (v & lo & hi & Gv & Glo & Ghi & B1 & B2).
  { apply mem_get. apply in_keys_get. exact I0. }
  exists v, lo, hi. rewrite HS. cbn [box_min box_max] in *.
  repeat split; auto.
  - apply not_below_slack; assumption.
  - apply not_above_slack; assumption.
Qed.

(** X3. The relaxation never invalidates: a configuration that [_valid]
    accepts is still accepted after [_update_admissible_region] on the
    global region, for any configuration the region is updated with and
    whether the update returns or raises, for a finite [STEPSIZE]. *)
Theorem relaxation_keeps_valid (config other : Config) (s : State)
    (slack : Q) :
  STEPSIZE = Fin slack ->
  _valid other s = (Ok true, s) ->
  _valid other (snd (_update_admissible_region config GlobalBox s))
  = (Ok true, snd (_update_admissible_region config GlobalBox s)).
Proof.
  intros HS V. rewrite update_region_unfold. unfold bind, gets.
  cbv beta iota.
  destruct (update_loop_widens (normalize config) GlobalBox
              (Dict.keys (box_min GlobalBox s)) s) as [[Wmin Wmax] _].
  pose proof (widened_keys s
                (snd (for_each (Dict.keys (box_min GlobalBox s))
                        (update_dimension (normalize config) GlobalBox) s)))
    as Keys.
  specialize (fun key => Keys key (conj Wmin Wmax)).
  revert Wmin Wmax Keys.
  generalize (snd (for_each (Dict.keys (box_min GlobalBox s))
                     (update_dimension (normalize config) GlobalBox) s)).
  intros s' Wmin Wmax Keys. cbn [box_min box_max] in *.
  apply valid_true. intros key I Mk.
  destruct (proj1 (valid_true other s) V key (Keys key I) Mk)
    as (v & lo & hi & Gv & Glo & Ghi & B1 & B2).
  specialize (Wmin key). specialize (Wmax key).
  rewrite Glo in Wmin. rewrite Ghi in Wmax.
  destruct (Dict.get key (_gs_admissible_min s')) as [lo' |];
    [| contradiction].
  destruct (Dict.get key (_gs_admissible_max s')) as [hi' |];
    [| contradiction].
  exists v, lo', hi'. repeat split; auto.
  - eapply not_below_lowered; eauto.
  - eapply not_above_raised; [exact B2 |].
    rewrite HS. apply num_le_add_mono. exact Wmax.
Qed.

End Enclosure.

Lemma toy_ordered (w : region) :
  @ordered Z unit Toy.thread w (Toy.plain BlendSearch).
Proof.
  intros key lo hi. destruct w; cbn; unfold Dict.get;
    (destruct (eqb key "x"%string); intros E1 E2;
     [injection E1 as <-; injection E2 as <-; reflexivity | discriminate E1]).
Qed.

Lemma update_region_encloses_witness :
  exists s',
    @_update_admissible_region Z unit Toy.thread Toy.plain_search
      [("x"%string, Fin (1 # 2))] GlobalBox (Toy.plain BlendSearch)
    = (Ok tt, s')
    /\ encloses GlobalBox [("x"%string, Fin (1 # 2))] "x"%string s'.
Proof.
  destruct (proj1 (@update_region_encloses Z unit Toy.thread Toy.plain_search
                     [("x"%string, Fin (1 # 2))] GlobalBox
                     (Toy.plain BlendSearch) (toy_ordered GlobalBox)))
    as (s' & E & Enc & _).
  { intros key [<- | []]. split; reflexivity. }
  exists s'. split; [exact E |].
  apply (Enc "x"%string). left. reflexivity.
Defined.

Lemma relaxed_region_accepts_witness :
  let s' := snd (@_update_admissible_region Z unit Toy.thread Toy.plain_search
                   [("x"%string, Fin (1 # 2))] GlobalBox
                   (Toy.plain BlendSearch)) in
  @_valid Z unit Toy.thread Toy.plain_search [("x"%string, Fin (1 # 2))] s'
  = (Ok true, s').
Proof.
  assert (Hpos : (0 <= 1 # 100)%Q) by (unfold Qle; cbn; lia).
  exact (@relaxed_region_accepts Z unit Toy.thread Toy.plain_search
           [("x"%string, Fin (1 # 2))] (Toy.plain BlendSearch) _ (1 # 100)
           eq_refl Hpos (toy_ordered GlobalBox) eq_refl).
Defined.

Lemma relaxation_keeps_valid_witness :
  let s' := snd (@_update_admissible_region Z unit Toy.thread Toy.plain_search
                   [("x"%string, Fin (1 # 2))] GlobalBox
                   (Toy.plain BlendSearch)) in
  @_valid Z unit Toy.thread Toy.plain_search [("x"%string, Fin (1 # 200))] s'
  = (Ok true, s').
Proof.
  exact (@relaxation_keeps_valid Z unit Toy.thread Toy.plain_search
           [("x"%string, Fin (1 # 2))] [("x"%string, Fin (1 # 200))]
           (Toy.plain BlendSearch) (1 # 100) eq_refl eq_refl).
Defined.

(** ** The preliminary check of a proposal: [_should_skip] *)

Section ShouldSkip.

Context {Sig Env Thread : Type}.
Context {LS : LocalSearch Sig Env} {ST : SearchThread Thread Env}.

Abbreviation State := (@State Sig Env Thread).
Abbreviation M := (@M Sig Env Thread).

(** the record cached for a configuration that violates a config
    constraint *)
Definition infeasible_result (metric : string) : Result :=
  Dict.set "time_total_s"%string (Fin 1)
    (Dict.set metric (pinf *: metric_op) Dict.empty).

(** the end of [_should_skip] for a configuration whose signature is
    cached: the thread that proposed it is told the cached result, when
    there is one *)
Definition skip_known (choice : Z) (trial_id : string) (signature : Sig)
    : M bool :=
  (if (choice >=? 0)%Z
   then
     cache <- gets _result ;;
     match Dict.get signature cache with
     | Some result =>
         if nonempty result
         then
           thread_complete choice trial_id (Some result) false ;;
           if negb (choice =? 0)%Z then _clean choice else ret tt
         else ret tt
     | None => ret tt
     end
   else ret tt) ;;
  ret true.

Lemma should_skip_unfold (choice : Z) (trial_id : string) (c : Config)
    (s : State) :
  _should_skip choice trial_id (Some c) s
  = if Dict.mem (config_signature c) (_result s)
    then skip_known choice trial_id (config_signature c) s
    else
      if existsb (violated c) (_config_constraints s)
      then
        skip_known choice trial_id (config_signature c)
          (set_result
             (Dict.set (config_signature c) (infeasible_result (_metric s))
                (_result s)) s)
      else (Ok false, s).
Proof.
  unfold _should_skip, skip_known, infeasible_result.
  unfold bind at 1. unfold gets at 1. cbv beta iota.
  unfold bind at 1. unfold gets at 1. cbv beta iota.
  destruct (Dict.mem (config_signature c) (_result s)); cbn [negb andb].
  - reflexivity.
  - destruct (existsb (violated c) (_config_constraints s)); reflexivity.
Qed.

Lemma skip_known_true (choice : Z) (trial_id : string) (signature : Sig)
    (s : State) :
  fst (skip_known choice trial_id signature s) <> Ok false.
Proof.
  unfold skip_known. unfold bind at 1.
  match goal with
  | |- context [match ?m s with _ => _ end] => destruct (m s) as [[u | e] s1]
  end; cbn; discriminate.
Qed.

Lemma skip_known_cache (choice : Z) (trial_id : string) (signature : Sig)
    (R : dict Sig Result) :
  preserves (fun s : State => _result s = R)
    (skip_known choice trial_id signature).
Proof.
  assert (Hc : forall id, preserves (fun s : State => _result s = R) (_clean id)).
  { intros id. apply clean_frame; try (stable; fail).
    - intros c. apply update_region_keeps; stable.
    - apply expand_keeps; stable. }
  pose proof (thread_complete_keeps (fun s : State => _result s = R)) as Ht.
  unfold skip_known. pres.
Qed.

(** X4. [_should_skip] returns [False] exactly for a configuration
    that is not [None], whose signature is not in the result cache and
    that violates no config constraint; it then leaves the coordinator
    as it is. *)
Theorem should_skip_false_iff (choice : Z) (trial_id : string)
    (config : option Config) (s : State) :
  (fst (_should_skip choice trial_id config s) = Ok false
   <-> exists c,
         config = Some c
         /\ Dict.mem (config_signature c) (_result s) = false
         /\ existsb (violated c) (_config_constraints s) = false)
  /\ (fst (_should_skip choice trial_id config s) = Ok false ->
      snd (_should_skip choice trial_id config s) = s).
Proof.
  destruct config as [c |].
  - rewrite should_skip_unfold.
    destruct (Dict.mem (config_signature c) (_result s)) eqn:Mm.
    + split; [split |]; intros H.
      * exfalso. revert H. apply skip_known_true.
      * destruct H as (c' & E & F & _). injection E as <-. congruence.
      * exfalso. revert H. apply skip_known_true.
    + destruct (existsb (violated c) (_config_constraints s)) eqn:V.
      * split; [split |]; intros H.
        -- exfalso. revert H. apply skip_known_true.
        -- destruct H as (c' & E & _ & F). injection E as <-. congruence.
        -- exfalso. revert H. apply skip_known_true.
      * split; [split |]; intros H; [| reflexivity ..].
        exists c. auto.
  - cbn. split; [split |]; intros H; try discriminate H.
    destruct H as (c & E & _). discriminate E.
Qed.

(** X5. A configuration that violates a config constraint and whose
    signature is not cached: [_should_skip] does not return [False], and
    in the state it ends in, with a value or an exception, the cache
    holds under the signature the record with the objective
    [inf * metric_op] and the cost 1 and is otherwise as it was; for the
    global thread in the pool the call returns [True] and that thread
    has been told the record as a result without error; for the random
    fallback (a negative [choice]) the call returns [True] and only the
    cache has changed. *)
Theorem constraint_violation_marked (choice : Z) (trial_id : string)
    (c : Config) (s : State) :
  Dict.mem (config_signature c) (_result s) = false ->
  existsb (violated c) (_config_constraints s) = true ->
  let marked :=
    set_result
      (Dict.set (config_signature c) (infeasible_result (_metric s))
         (_result s)) s in
  fst (_should_skip choice trial_id (Some c) s) <> Ok false
  /\ _result (snd (_should_skip choice trial_id (Some c) s)) = _result marked
  /\ Dict.get "time_total_s"%string (infeasible_result (_metric s))
     = Some (Fin 1)
  /\ (_metric s <> "time_total_s"%string ->
      Dict.get (_metric s) (infeasible_result (_metric s))
      = Some (pinf *: metric_op))
  /\ ((choice < 0)%Z ->
      _should_skip choice trial_id (Some c) s = (Ok true, marked))
  /\ (choice = 0%Z ->
      Dict.mem 0%Z (_search_thread_pool s) = true ->
      _should_skip choice trial_id (Some c) s
      = (Ok true,
         set_search_thread_pool
           (Dict.alter
              (fun t =>
                 thread_on_trial_complete t trial_id
                   (Some (infeasible_result (_metric s))) false)
              0%Z (_search_thread_pool s)) marked)).
Proof.
  intros Mm V marked. rewrite should_skip_unfold, Mm, V. fold marked.
  split; [apply skip_known_true |].
  split; [apply (skip_known_cache choice trial_id _ (_result marked));
          reflexivity |].
  split; [unfold infeasible_result; apply get_set_eq |].
  split.
  { intros N. unfold infeasible_result. rewrite get_set_neq, get_set_eq; auto. }
  split.
  - intros Neg. unfold skip_known.
    destruct (choice >=? 0)%Z eqn:G; [apply Z.geb_le in G; lia |].
    reflexivity.
  - intros -> M0. unfold skip_known, thread_complete. run.
    cbn [Z.geb Z.compare Z.eqb negb].
    unfold marked at 1. cbn [_result set_result]. rewrite get_set_eq.
    unfold infeasible_result at 1. rewrite nonempty_set.
    cbn [_search_thread_pool marked set_result].
    apply mem_get in M0. destruct M0 as [t0 G0].
    unfold marked. cbn [_search_thread_pool set_result]. rewrite G0.
    reflexivity.
Qed.

End ShouldSkip.

Lemma should_skip_false_iff_witness :
  @_should_skip Z unit Toy.thread Toy.plain_search Toy.search_thread 0%Z "t1"
    (Some [("x"%string, Fin (1 # 3))]) (Toy.plain BlendSearch)
  = (Ok false, Toy.plain BlendSearch).
Proof.
  pose proof (@should_skip_false_iff Z unit Toy.thread Toy.plain_search
                Toy.search_thread 0%Z "t1"%string
                (Some [("x"%string, Fin (1 # 3))]) (Toy.plain BlendSearch))
    as [[_ Back] Same].
  assert (F : fst (@_should_skip Z unit Toy.thread Toy.plain_search
                     Toy.search_thread 0%Z "t1"
                     (Some [("x"%string, Fin (1 # 3))]) (Toy.plain BlendSearch))
              = Ok false).
  { apply Back. exists [("x"%string, Fin (1 # 3))].
    split; [reflexivity | split; reflexivity]. }
  specialize (Same F). revert F Same.
  destruct (@_should_skip Z unit Toy.thread Toy.plain_search
              Toy.search_thread 0%Z "t1"
              (Some [("x"%string, Fin (1 # 3))]) (Toy.plain BlendSearch))
    as [r s1].
  cbn [fst snd]. intros -> ->. reflexivity.
Defined.

(** a coordinator with the config constraint [x <= 1/4] *)
Definition toy_bounded : @State Z unit Toy.thread :=
  @__init__ Z unit Toy.thread Toy.plain_search Toy.search_thread
    BlendSearch "loss"%string []
    [(fun c : Config =>
        match Dict.get "x"%string c with Some v => v | None => Fin 0 end,
      "<="%string, Fin (1 # 4))]
    [] tt.

Lemma constraint_violation_marked_witness :
  exists s',
    @_should_skip Z unit Toy.thread Toy.plain_search Toy.search_thread
      (-1)%Z "t1" (Some [("x"%string, Fin (1 # 2))]) toy_bounded
    = (Ok true, s')
    /\ Dict.get 1002%Z (_result s')
       = Some [("loss"%string, pinf); ("time_total_s"%string, Fin 1)].
Proof.
  destruct (@constraint_violation_marked Z unit Toy.thread Toy.plain_search
              Toy.search_thread (-1)%Z "t1"%string
              [("x"%string, Fin (1 # 2))] toy_bounded eq_refl eq_refl)
    as (_ & _ & _ & _ & Neg & _).
  eexists. split; [apply Neg; reflexivity | reflexivity].
Defined.

(** ** The bookkeeping of [suggest] *)

Section Proposals.

Context {Sig Env Thread : Type}.
Context {LS : LocalSearch Sig Env} {ST : SearchThread Thread Env}.

Abbreviation State := (@State Sig Env Thread).
Abbreviation M := (@M Sig Env Thread).

(** the thread [id] is in the pool *)
Definition live (id : Z) (s : State) : Prop :=
  Dict.mem id (_search_thread_pool s) = true.

(** the trial has an owning thread on record, and that thread is in the
    pool *)
Definition owned (trial_id : string) (s : State) : Prop :=
  exists id,
    Dict.get trial_id (_trial_proposed_by s) = Some id /\ live id s.

(** what [suggest] has done when it returns: a configuration it returns
    has the empty placeholder under its signature in the result cache and
    the trial has an owner in the pool; when it returns [None] the trial
    table is [T] *)
Definition accounted_for (trial_id : string) (T : dict string Z)
    (r : option Config) (s : State) : Prop :=
  (forall c, r = Some c ->
     Dict.get (config_signature c) (_result s) = Some Dict.empty
     /\ owned trial_id s)
  /\ (r = None -> _trial_proposed_by s = T).

(** the trial table is [T] *)
Definition table_is (T : dict string Z) (s : State) : Prop :=
  _trial_proposed_by s = T.

(** the trial table is [T] and the thread [id] is in the pool *)
Definition table_live (T : dict string Z) (id : Z) (s : State) : Prop :=
  table_is T s /\ live id s.

Definition anyhow : State -> Prop := fun _ => True.

Lemma triple_keep {A} (P : State -> Prop) (m : M A) :
  preserves P m -> triple P m (fun _ => P) anyhow.
Proof.
  intros Hm. eapply triple_conseq; [apply triple_of_preserves; exact Hm | ..];
    unfold anyhow; auto.
Qed.

Lemma triple_then {A B} (P : State -> Prop) (m : M A) (f : A -> M B)
    (Q : B -> State -> Prop) :
  preserves P m -> (forall a, triple P (f a) Q anyhow) ->
  triple P (bind m f) Q anyhow.
Proof.
  intros Hm Hf. apply triple_bind with (R := fun _ => P); [| exact Hf].
  apply triple_keep. exact Hm.
Qed.

Lemma triple_pre {A} (P P' : State -> Prop) (m : M A)
    (Q : A -> State -> Prop) (E : State -> Prop) :
  triple P m Q E -> (forall s, P' s -> P s) -> triple P' m Q E.
Proof. intros Hm W. eapply triple_conseq; eauto. Qed.

Lemma live_alter (f : Thread -> Thread) (k id : Z) (s : State) :
  live id s ->
  live id (set_search_thread_pool (Dict.alter f k (_search_thread_pool s)) s).
Proof.
  unfold live, Dict.mem. cbn [_search_thread_pool set_search_thread_pool].
  rewrite get_alter.
  destruct (eqb k id), (Dict.get id (_search_thread_pool s)); auto.
Qed.

Lemma live_map (f : Thread -> Thread) (id : Z) (s : State) :
  live id s ->
  live id
    (set_search_thread_pool (Dict.map_values f (_search_thread_pool s)) s).
Proof.
  unfold live, Dict.mem. cbn [_search_thread_pool set_search_thread_pool].
  rewrite get_map_values.
  destruct (Dict.get id (_search_thread_pool s)); auto.
Qed.

Lemma table_update (T : dict string Z) (c : Config) (w : region) :
  preserves (table_is T) (_update_admissible_region c w).
Proof. apply update_region_keeps; destruct w; stable. Qed.

Lemma table_expand (T : dict string Z) :
  preserves (table_is T) _expand_admissible_region.
Proof. apply expand_keeps; stable. Qed.

Lemma table_clean (T : dict string Z) (id : Z) :
  preserves (table_is T) (_clean id).
Proof.
  apply clean_frame; try (stable; fail).
  - intros c. apply table_update.
  - apply table_expand.
Qed.

Lemma owned_update (tid : string) (c : Config) (w : region) :
  preserves (owned tid) (_update_admissible_region c w).
Proof. apply update_region_keeps; destruct w; stable. Qed.

(** [_should_skip] returns [False] in the state it was called in *)
Lemma should_skip_same (choice : Z) (tid : string) (c : option Config)
    (s s' : State) :
  _should_skip choice tid c s = (Ok false, s') -> s' = s.
Proof.
  destruct c as [c |]; [| cbn; discriminate].
  rewrite should_skip_unfold.
  destruct (Dict.mem (config_signature c) (_result s)).
  - intros E. exfalso.
    apply (skip_known_true choice tid (config_signature c) s).
    rewrite E. reflexivity.
  - destruct (existsb (violated c) (_config_constraints s)).
    + intros E. exfalso.
      eapply (skip_known_true choice tid (config_signature c)).
      rewrite E. reflexivity.
    + intros E. injection E as <-. reflexivity.
Qed.

(** what is kept by [_should_skip] holds when it returns [True]; when it
    returns [False] everything that held before still holds *)
Lemma should_skip_passes (P P' : State -> Prop) (choice : Z) (tid : string)
    (c : option Config) :
  preserves P' (_should_skip choice tid c) ->
  (forall s, P s -> P' s) ->
  triple P (_should_skip choice tid c)
    (fun skip s => if skip then P' s else P s) anyhow.
Proof.
  intros Hk W s HP. specialize (Hk s (W s HP)).
  destruct (_should_skip choice tid c s) as [[[|] | e] s'] eqn:E.
  - exact Hk.
  - apply should_skip_same in E. subst s'. exact HP.
  - exact I.
Qed.

Lemma should_skip_table (T : dict string Z) (choice : Z) (tid : string)
    (c : option Config) :
  preserves (table_is T) (_should_skip choice tid c).
Proof. apply should_skip_keeps; try (stable; fail). apply table_clean. Qed.

(** a check for the global thread, or for the random fallback, deletes no
    thread *)
Lemma should_skip_global_live (T : dict string Z) (choice : Z)
    (tid : string) (c : option Config) :
  (choice <= 0)%Z ->
  preserves (table_live T 0) (_should_skip choice tid c).
Proof.
  intros Hc.
  pose proof (thread_complete_keeps (table_live T 0)) as Ht.
  assert (Hx : forall id r e,
             preserves (table_live T 0) (thread_complete id tid r e)).
  { intros. apply Ht. intros f k s [H1 H2].
    split; [exact H1 | apply live_alter; exact H2]. }
  unfold _should_skip.
  destruct (Z.eqb_spec choice 0) as [-> | N].
  - cbn [Z.eqb negb Z.geb Z.compare]. pres; stable.
  - replace (choice >=? 0)%Z with false
      by (symmetry; rewrite Z.geb_leb; apply Z.leb_gt; lia).
    pres; stable.
Qed.

(** a thread that was asked for a proposal is in the pool *)
Lemma suggest_from_live (T : dict string Z) (id : Z) (tid : string) :
  triple (table_is T) (suggest_from id tid) (fun _ => table_live T id) anyhow.
Proof.
  intros s H. unfold suggest_from. run.
  destruct (Dict.get id (_search_thread_pool s)) as [t |] eqn:G;
    [| exact I].
  split; [exact H |]. apply live_alter.
  unfold live, Dict.mem. rewrite G. reflexivity.
Qed.

(** the end of a proposal: the empty placeholder is cached under the
    signature *)
Lemma register_proposal_registers (tid : string) (T : dict string Z)
    (choice : Z) (config : Config) :
  triple (owned tid) (register_proposal choice config)
    (accounted_for tid T) anyhow.
Proof.
  unfold register_proposal.
  apply triple_then.
  { pose proof (owned_update tid).
    pose proof (sync_keeps (owned tid)) as Sy.
    pres; apply Sy; stable. }
  intros config'.
  apply triple_bind
    with (R := fun _ s =>
                 owned tid s
                 /\ Dict.get (config_signature config') (_result s)
                    = Some Dict.empty).
  - apply triple_modify. intros s H. split; [exact H |].
    cbn. apply get_set_eq.
  - intros _. apply triple_ret. intros s [H Mm]. split.
    + intros c E. injection E as <-. auto.
    + intros E. discriminate E.
Qed.

Lemma assign_and_register (tid : string) (T : dict string Z)
    (P : State -> Prop) (id : Z) (config : Config) :
  (forall s, P s -> live id s) ->
  triple P (set_proposed_by tid id ;; register_proposal id config)
    (accounted_for tid T) anyhow.
Proof.
  intros W.
  apply triple_bind with (R := fun _ => owned tid).
  - apply triple_modify. intros s H. exists id. split.
    + cbn. apply get_set_eq.
    + apply W in H. exact H.
  - intros _. apply register_proposal_registers.
Qed.

Lemma none_accounted (tid : string) (T : dict string Z) (P : State -> Prop) :
  (forall s, P s -> table_is T s) ->
  triple P (ret None) (accounted_for tid T) anyhow.
Proof.
  intros W.
  apply triple_ret. intros s H. split; [intros c E; discriminate E |].
  intros _. apply W. exact H.
Qed.

Lemma raise_accounted (tid : string) (T : dict string Z) (P : State -> Prop)
    (e : exn) :
  triple P (raise e) (accounted_for tid T) anyhow.
Proof. apply triple_raise. intros s _. exact I. Qed.

Lemma propose_accounted (tid : string) (T : dict string Z)
    (choice backup : Z) (config : Config) :
  triple (table_live T choice) (propose tid choice backup config)
    (accounted_for tid T) anyhow.
Proof.
  unfold propose.
  apply triple_then.
  { destruct (negb (choice =? 0)%Z); [apply pres_ret | apply valid_keeps]. }
  intros valid.
  destruct valid; [apply assign_and_register; intros s [_ L]; exact L |].
  destruct (choice =? backup)%Z.
  - apply triple_then; [apply complete_keeps; stable | intros c].
    apply assign_and_register. intros s [_ L]. exact L.
  - apply triple_bind with (R := fun _ => table_live T backup).
    { eapply triple_pre; [apply suggest_from_live |].
      intros s [H _]. exact H. }
    intros c.
    eapply triple_bind.
    { apply should_skip_passes with (P' := table_is T).
      - apply should_skip_table.
      - intros s [H _]. exact H. }
    intros skip. destruct skip; [apply none_accounted; auto |].
    destruct c as [c |]; [| apply raise_accounted].
    apply assign_and_register. intros s [_ L]. exact L.
Qed.

Lemma suggest_init_accounted (tid : string) (T : dict string Z) :
  triple (table_is T) (suggest_init tid) (accounted_for tid T) anyhow.
Proof.
  unfold suggest_init.
  apply triple_then; [apply pres_gets | intros csp].
  apply triple_then; [apply pres_gets | intros pts].
  apply triple_then; [pres; stable | intros _].
  apply triple_then; [pres; stable | intros init].
  apply triple_then; [apply complete_keeps; stable | intros config].
  apply triple_then; [apply pres_gets | intros cache].
  destruct (Dict.get (config_signature config) cache) as [[| kv r] |];
    try (apply none_accounted; auto; fail).
  intros s _. unfold set_proposed_by. run.
  cbn [_search_thread_pool set_trial_proposed_by set_init_used set_result].
  destruct (Dict.get 0%Z (_search_thread_pool s)) as [t0 |] eqn:G0;
    [| exact I].
  split.
  - intros c E. injection E as <-. cbn. split.
    + apply get_set_eq.
    + exists 0%Z. split; [cbn; apply get_set_eq |].
      unfold live, Dict.mem. cbn. rewrite get_alter, G0. reflexivity.
  - intros E. discriminate E.
Qed.

Lemma base_suggest_accounted (tid : string) (T : dict string Z) :
  triple (table_is T) (BlendSearch_suggest tid) (accounted_for tid T) anyhow.
Proof.
  pose proof (table_clean T) as Hc.
  unfold BlendSearch_suggest.
  apply triple_then; [apply pres_gets | intros init_used].
  apply triple_then; [apply pres_gets | intros pts].
  destruct (init_used && negb (nonempty pts));
    [| apply suggest_init_accounted].
  apply triple_then; [apply select_thread_keeps; stable | intros [choice backup]].
  destruct (choice <? 0)%Z; [apply none_accounted; auto |].
  apply triple_bind with (R := fun _ => table_live T choice);
    [apply suggest_from_live | intros config].
  match goal with |- triple _ (if ?b then _ else _) _ _ => destruct b end.
  - apply triple_pre with (P := table_is T); [| intros s [H _]; exact H].
    apply triple_then; [apply pres_gets | intros pool].
    apply triple_then; [apply pres_item | intros t].
    apply triple_then; [| intros _; apply none_accounted; auto].
    pose proof (table_expand T). pres; stable.
  - destruct (Z.eqb_spec choice 0) as [-> | N].
    + cbn [negb].
      apply triple_then;
        [apply should_skip_global_live; lia | intros skip].
      destruct skip.
      * apply triple_then.
        { apply pres_with_env. intros v s [H L]. split; [exact H | exact L]. }
        intros generated. cbv zeta.
        apply triple_then;
          [apply should_skip_global_live; lia | intros skip].
        destruct skip; [apply none_accounted; intros s [H _]; exact H |].
        match goal with
        | |- triple _ (match ?x with _ => _ end) _ _ => destruct x
        end; [apply propose_accounted | apply raise_accounted].
      * destruct config as [c |];
          [apply propose_accounted | apply raise_accounted].
    + eapply triple_bind.
      { apply should_skip_passes with (P' := table_is T).
        - apply should_skip_table.
        - intros s [H _]. exact H. }
      intros skip. destruct skip; cbn [negb].
      * apply none_accounted; auto.
      * destruct config as [c |];
          [apply propose_accounted | apply raise_accounted].
Qed.

(** X6. The bookkeeping of [suggest]: when it returns a configuration,
    the result cache holds the empty placeholder under the signature of
    that configuration, and the trial is on record with an owning thread
    that is in the pool; when it returns [None], the table of the owners
    of the trials is as it was before the call. *)
Theorem suggest_registers (trial_id : string) (s : State) :
  match suggest trial_id s with
  | (Ok (Some config), s') =>
      Dict.get (config_signature config) (_result s') = Some Dict.empty
      /\ exists id,
           Dict.get trial_id (_trial_proposed_by s') = Some id
           /\ Dict.mem id (_search_thread_pool s') = true
  | (Ok None, s') => _trial_proposed_by s' = _trial_proposed_by s
  | (Raise _, _) => True
  end.
Proof.
  assert (H : triple (table_is (_trial_proposed_by s)) (suggest trial_id)
                (accounted_for trial_id (_trial_proposed_by s)) anyhow).
  { unfold suggest.
    apply triple_then; [apply pres_gets | intros c]. destruct c.
    - apply base_suggest_accounted.
    - unfold CFO_suggest.
      apply triple_then; [apply pres_gets | intros pool].
      destruct (List.length pool <? 3)%nat; [| apply raise_accounted].
      apply triple_then; [pres; stable | intros _].
      apply base_suggest_accounted. }
  specialize (H s eq_refl).
  destruct (suggest trial_id s) as [[[config |] | e] s']; [| | exact I].
  - destruct H as [H _]. apply (H config eq_refl).
  - destruct H as [_ H]. apply H. reflexivity.
Qed.

End Proposals.

(** ** More facts on dictionaries: keys *)

Section DictKeys.

Context {K V : Type} `{EqDec K}.

Lemma keys_remove (k : K) (d : dict K V) :
  Dict.keys (Dict.remove k d)
  = filter (fun k' => negb (eqb k k')) (Dict.keys d).
Proof.
  unfold Dict.keys, Dict.remove.
  induction d as [| [k' v] r IH]; cbn; [reflexivity |].
  destruct (eqb k k'); cbn; congruence.
Qed.

Lemma keys_set_absent (k : K) (v : V) (d : dict K V) :
  Dict.get k d = None -> Dict.keys (Dict.set k v d) = Dict.keys d ++ [k].
Proof.
  unfold Dict.keys, Dict.get, Dict.set.
  induction d as [| [k' v'] r IH]; cbn; [reflexivity |].
  destruct (eqb k k'); [discriminate |].
  intros G. cbn. rewrite (IH G). reflexivity.
Qed.

Lemma mem_in_keys (k : K) (d : dict K V) :
  Dict.mem k d = true <-> In k (Dict.keys d).
Proof.
  rewrite mem_get. split.
  - intros [v G]. eapply get_in_keys; eauto.
  - apply in_keys_get.
Qed.

Lemma not_in_keys_get (k : K) (d : dict K V) :
  ~ In k (Dict.keys d) -> Dict.get k d = None.
Proof.
  intros N. destruct (Dict.get k d) as [v |] eqn:G; [| reflexivity].
  exfalso. apply N. eapply get_in_keys; eauto.
Qed.

End DictKeys.

(** ** The pool is a dictionary with the global thread and fresh ids *)

Section PoolSound.

Context {Sig Env Thread : Type}.
Context {LS : LocalSearch Sig Env} {ST : SearchThread Thread Env}.

Abbreviation State := (@State Sig Env Thread).
Abbreviation M := (@M Sig Env Thread).

(** thread 0 is in the pool, no id occurs twice, and every id is below
    the count of the threads created so far *)
Definition pool_sound (s : State) : Prop :=
  Dict.mem 0%Z (_search_thread_pool s) = true
  /\ NoDup (Dict.keys (_search_thread_pool s))
  /\ forall id,
       In id (Dict.keys (_search_thread_pool s)) ->
       (0 <= id < _thread_count s)%Z.

Lemma sound_keys (s : State) (pool : dict Z Thread) :
  Dict.keys pool = Dict.keys (_search_thread_pool s) ->
  pool_sound s -> pool_sound (set_search_thread_pool pool s).
Proof.
  intros E (M0 & N & B). unfold pool_sound.
  cbn [_search_thread_pool set_search_thread_pool _thread_count]. rewrite E.
  split; [| auto]. apply mem_in_keys. rewrite E. apply mem_in_keys. exact M0.
Qed.

Lemma sound_alter (f : Thread -> Thread) (id : Z) (s : State) :
  pool_sound s ->
  pool_sound
    (set_search_thread_pool (Dict.alter f id (_search_thread_pool s)) s).
Proof. apply sound_keys. apply keys_alter. Qed.

Lemma sound_map (f : Thread -> Thread) (s : State) :
  pool_sound s ->
  pool_sound
    (set_search_thread_pool (Dict.map_values f (_search_thread_pool s)) s).
Proof. apply sound_keys. apply keys_map_values. Qed.

(** a local thread is deleted *)
Lemma sound_remove (id : Z) (s : State) :
  id <> 0%Z ->
  pool_sound s ->
  pool_sound
    (set_search_thread_pool (Dict.remove id (_search_thread_pool s)) s).
Proof.
  intros N0 (M0 & N & B). unfold pool_sound.
  cbn [_search_thread_pool set_search_thread_pool _thread_count].
  rewrite keys_remove.
  split; [| split].
  - unfold Dict.mem in *. rewrite get_remove_neq; auto.
  - apply NoDup_filter. exact N.
  - intros x I. apply filter_In in I. apply B. apply I.
Qed.

(** a thread is stored under the count, and the count is advanced *)
Lemma sound_store (t : Thread) (s : State) :
  pool_sound s ->
  pool_sound
    (set_thread_count (_thread_count s + 1)
       (set_search_thread_pool
          (Dict.set (_thread_count s) t (_search_thread_pool s)) s)).
Proof.
  intros (M0 & N & B). unfold pool_sound.
  cbn [_search_thread_pool set_search_thread_pool _thread_count
       set_thread_count].
  assert (Fresh : ~ In (_thread_count s) (Dict.keys (_search_thread_pool s))).
  { intros I. specialize (B _ I). lia. }
  rewrite (keys_set_absent _ _ _ (not_in_keys_get _ _ Fresh)).
  split; [| split].
  - apply mem_set_other. exact M0.
  - apply NoDup_app; [exact N | repeat constructor; intros [] |].
    intros x I [<- | []]. contradiction.
  - intros x I. apply in_app_or in I. destruct I as [I | [<- | []]].
    + specialize (B _ I). lia.
    + apply mem_in_keys in M0. specialize (B _ M0). lia.
Qed.

Lemma sound_update (c : Config) (w : region) :
  preserves pool_sound (_update_admissible_region c w).
Proof. apply update_region_keeps; destruct w; stable. Qed.

Lemma sound_expand : preserves pool_sound _expand_admissible_region.
Proof. apply expand_keeps; stable. Qed.

Lemma sound_create (c : Config) (r : Result) :
  preserves pool_sound (_create_thread c r).
Proof.
  unfold _create_thread.
  apply pres_bind; [apply pres_item | intros obj].
  apply pres_bind; [apply pres_with_env; stable | intros t].
  intros s H.
  unfold bind at 1. unfold modify at 1. cbv beta iota.
  unfold bind at 1. unfold modify at 1. cbv beta iota.
  apply sound_update. apply (sound_store t s H).
Qed.

Lemma sound_from_best : preserves pool_sound _create_thread_from_best_candidate.
Proof. apply from_best_keeps; try (stable; fail). apply sound_create. Qed.

Lemma in_set_add_inv (id x : Z) (l : list Z) :
  In x (set_add id l) -> x = id \/ In x l.
Proof.
  unfold set_add. destruct (existsb (Z.eqb id) l); [auto |].
  intros I. apply in_app_or in I. destruct I as [I | [<- | []]]; auto.
Qed.

(** the first loop of [_clean] collects local threads only *)
Lemma inferior_to_local (pool : dict Z Thread) (thread_id : Z)
    (ids acc l : list Z) :
  inferior_to pool thread_id ids acc = Ok l ->
  (forall x, In x acc -> x <> 0%Z) ->
  forall x, In x l -> x <> 0%Z.
Proof.
  revert acc. induction ids as [| id ids IH]; intros acc; cbn [inferior_to].
  - intros E. injection E as <-. auto.
  - destruct (negb (id =? 0)%Z && negb (id =? thread_id)%Z) eqn:G;
      [| apply IH].
    destruct (_inferior pool id thread_id) as [[|] | e];
      [| apply IH | discriminate].
    intros E Hacc. apply (IH _ E).
    intros x I. apply in_set_add_inv in I. destruct I as [-> | I]; [| auto].
    apply andb_true_iff in G. destruct G as [G _].
    apply negb_true_iff in G. apply Z.eqb_neq in G. exact G.
Qed.

Lemma sound_deletions (l : list Z) :
  (forall x, In x l -> x <> 0%Z) ->
  preserves pool_sound
    (for_each l
       (fun id =>
          modify (fun s : State =>
            set_search_thread_pool
              (Dict.remove id (_search_thread_pool s)) s))).
Proof.
  induction l as [| x l IH]; intros Hl; cbn [for_each]; [apply pres_ret |].
  apply pres_bind.
  - apply pres_modify. intros s. apply sound_remove. apply Hl. left. reflexivity.
  - intros _. apply IH. intros y I. apply Hl. right. exact I.
Qed.

Lemma pres_bind_lift {A B} (P : State -> Prop) (r : res A) (f : A -> M B) :
  (forall a, r = Ok a -> preserves P (f a)) ->
  preserves P (bind (lift r) f).
Proof.
  intros Hf s H. unfold bind, lift. destruct r as [a | e]; [| exact H].
  apply (Hf a eq_refl). exact H.
Qed.

(** the pruning pass deletes local threads only *)
Lemma sound_clean (id : Z) : preserves pool_sound (_clean id).
Proof.
  unfold _clean. destruct (id =? 0)%Z eqn:Z0; [apply pres_raise |].
  apply Z.eqb_neq in Z0.
  apply pres_bind; [apply pres_gets | intros pool].
  apply pres_bind_lift. intros td Etd.
  apply pres_bind_lift. intros dom Edom. cbv zeta.
  apply pres_bind; [apply pres_item | intros t].
  apply pres_bind; [| intros create_new].
  { pose proof sound_expand. pres; stable. }
  apply pres_bind; [| intros _].
  - apply sound_deletions.
    assert (L0 : forall x, In x td -> x <> 0%Z).
    { apply (inferior_to_local _ _ _ _ _ Etd). intros x []. }
    assert (L1 : forall l, (forall x, In x l -> x <> 0%Z) ->
                   forall x, In x (set_add id l) -> x <> 0%Z).
    { intros l Hl x I. apply in_set_add_inv in I.
      destruct I as [-> | I]; auto. }
    destruct (converged t), dom; repeat apply L1; exact L0.
  - destruct create_new; [apply sound_from_best | apply pres_ret].
Qed.

Lemma sound_base_suggest (tid : string) :
  preserves pool_sound (BlendSearch_suggest tid).
Proof.
  pose proof sound_clean as Hc.
  assert (Ha : forall f id (s : State),
             pool_sound s ->
             pool_sound
               (set_search_thread_pool
                  (Dict.alter f id (_search_thread_pool s)) s))
    by (intros; apply sound_alter; assumption).
  assert (Hsk : forall choice c, preserves pool_sound (_should_skip choice tid c)).
  { intros. apply should_skip_keeps; try (stable; fail); auto. }
  assert (Hp : forall choice backup c,
             preserves pool_sound (propose tid choice backup c)).
  { intros. apply propose_keeps; try (stable; fail); auto;
      intros; apply sound_update. }
  unfold BlendSearch_suggest.
  apply pres_bind; [apply pres_gets | intros init_used].
  apply pres_bind; [apply pres_gets | intros pts].
  destruct (init_used && negb (nonempty pts)).
  2:{ apply suggest_init_keeps; try (stable; fail); auto. }
  apply pres_bind; [| intros [choice backup]].
  { apply select_thread_keeps; try (stable; fail).
    intros; apply sound_map; assumption. }
  destruct (choice <? 0)%Z; [apply pres_ret |].
  apply pres_bind; [apply suggest_from_keeps; auto | intros config].
  match goal with
  | |- preserves _ (if ?b then _ else _) => destruct b eqn:G
  end.
  - apply andb_true_iff in G. destruct G as [G _].
    apply negb_true_iff in G. apply Z.eqb_neq in G.
    apply pres_bind; [apply pres_gets | intros pool].
    apply pres_bind; [apply pres_item | intros t].
    apply pres_bind; [| intros _; apply pres_ret].
    destruct (converged t); [| apply pres_ret].
    apply pres_bind; [apply sound_expand | intros _].
    apply pres_modify. intros s. apply sound_remove. exact G.
  - pres; stable.
Qed.

Lemma sound_step (c : call) (s : State) : pool_sound s -> pool_sound (step c s).
Proof.
  assert (Ha : forall f id (s : State),
             pool_sound s ->
             pool_sound
               (set_search_thread_pool
                  (Dict.alter f id (_search_thread_pool s)) s))
    by (intros; apply sound_alter; assumption).
  destruct c as [tid | tid r | tid r e]; cbn [step].
  - unfold suggest.
    apply pres_bind; [apply pres_gets | intros c]. destruct c.
    + apply sound_base_suggest.
    + pose proof (sound_base_suggest tid). unfold CFO_suggest. pres; stable.
  - apply on_trial_result_keeps. exact Ha.
  - apply on_trial_complete_keeps; try (stable; fail).
    + apply sound_from_best.
    + intros tid0 r0 e0. apply base_complete_keeps; try (stable; fail); auto.
      * apply sound_clean.
      * intros r1. apply account_keeps; stable.
      * intros. apply record_keeps; try (stable; fail).
        -- apply sound_expand.
        -- apply sound_create.
Qed.

Lemma sound_run (calls : list call) (s : State) :
  pool_sound s -> pool_sound (run calls s).
Proof.
  unfold run. revert s.
  induction calls as [| c calls IH]; intros s H; cbn; [exact H |].
  apply IH. apply sound_step. exact H.
Qed.

Lemma sound_init (c : variant) (metric : string) (points : list Config)
    (config_constraints : list config_constraint)
    (metric_constraints : list metric_constraint) (e : Env) :
  pool_sound (__init__ c metric points config_constraints metric_constraints e).
Proof.
  unfold pool_sound. cbn. split; [reflexivity | split].
  - repeat constructor. intros [].
  - intros id [<- | []]. lia.
Qed.

(** X7. In a coordinator as constructed and after any sequence of calls
    of [suggest], [on_trial_result] and [on_trial_complete], whether
    they return or raise: thread 0 is in the pool, no thread id occurs
    twice, and every thread id is at least 0 and below [_thread_count],
    so that a new thread never replaces one of the pool. *)
Theorem pool_invariant :
  (forall c metric points config_constraints metric_constraints (e : Env)
          calls,
     pool_sound
       (run calls
          (__init__ c metric points config_constraints metric_constraints e)))
  /\ (forall (s : State) calls, pool_sound s -> pool_sound (run calls s)).
Proof.
  split.
  - intros. apply sound_run. apply sound_init.
  - intros s calls. apply sound_run.
Qed.

End PoolSound.

Lemma pool_invariant_witness :
  @pool_sound Z unit Toy.thread
    (Toy.plain_run [Suggest "t1"; Suggest "t2"] (Toy.plain BlendSearch)).
Proof.
  apply (proj2 (@pool_invariant Z unit Toy.thread Toy.plain_search
                  Toy.search_thread)).
  split; [reflexivity | split].
  - repeat constructor. intros [].
  - intros id [<- | []]. cbn. lia.
Defined.

(** ** The target of the metric *)

Lemma flt_trans (a b c : num) :
  (a <. b) = true -> (b <. c) = true -> (a <. c) = true.
Proof.
  intros H1 H2. eapply flt_fle_trans; [exact H1 |]. apply flt_fle. exact H2.
Qed.

(** the test of [on_trial_complete] for an improvement of the target, for
    a minimized and for a maximized metric *)
Lemma improves_min (a b : num) : ((a -. b) *: Fin 1 <. Fin 0) = (a <. b).
Proof.
  destruct a as [x | s |], b as [y | t |]; cbn; try reflexivity;
    repeat match goal with b : bool |- _ => destruct b end;
    try reflexivity.
  apply eq_true_iff_eq. rewrite !Qlt_bool_iff.
  rewrite !Qred_correct. split; intros; lra.
Qed.

Lemma improves_max (a b : num) :
  ((a -. b) *: Fin (-1 # 1) <. Fin 0) = (b <. a).
Proof.
  destruct a as [x | s |], b as [y | t |]; cbn; try reflexivity;
    repeat match goal with b : bool |- _ => destruct b end;
    try reflexivity.
  apply eq_true_iff_eq. rewrite !Qlt_bool_iff.
  rewrite !Qred_correct. split; intros; lra.
Qed.

Section Target.

Context {Sig Env Thread : Type}.
Context {LS : LocalSearch Sig Env} {ST : SearchThread Thread Env}.

Abbreviation State := (@State Sig Env Thread).
Abbreviation M := (@M Sig Env Thread).

(** [a] is the target [b] or passes the test for an improvement of it *)
Definition improves (a b : num) : Prop :=
  a = b \/ ((a -. b) *: metric_op <. Fin 0) = true.

Definition directed : Prop := metric_op = Fin 1 \/ metric_op = Fin (-1 # 1).

Lemma improves_trans (a b c : num) :
  directed -> improves a b -> improves b c -> improves a c.
Proof.
  unfold improves. intros [E | E] [-> | H1] [-> | H2]; auto; right;
    rewrite E in *; rewrite ?improves_min, ?improves_max in *.
  - eapply flt_trans; eauto.
  - eapply flt_trans; eauto.
Qed.

(** the target of [s] is the one of [s0] or an improvement of it *)
Definition target_improved (s0 s : State) : Prop :=
  improves (_metric_target s) (_metric_target s0).

Lemma target_update (s0 : State) (c : Config) (w : region) :
  preserves (target_improved s0) (_update_admissible_region c w).
Proof. apply update_region_keeps; destruct w; stable. Qed.

Lemma target_expand (s0 : State) :
  preserves (target_improved s0) _expand_admissible_region.
Proof. apply expand_keeps; stable. Qed.

Lemma target_create (s0 : State) (c : Config) (r : Result) :
  preserves (target_improved s0) (_create_thread c r).
Proof.
  apply create_thread_frame; try (stable; fail). intros c0. apply target_update.
Qed.

Lemma target_clean (s0 : State) (id : Z) :
  preserves (target_improved s0) (_clean id).
Proof.
  apply clean_frame; try (stable; fail).
  - intros c. apply target_update.
  - apply target_expand.
Qed.

(** the rest of the record of a result, after the update of the target,
    keeps a property that does not depend on the pool, the candidate
    start points, the thread count and the admissible regions *)
Lemma record_target (s0 : State) (tid : string) (r : Result) (e sat : bool)
    (th : option Z) :
  directed ->
  preserves (target_improved s0) (record_result tid r e sat th).
Proof.
  intros Hd. unfold record_result. cbv zeta. destruct e.
  { pres; stable. }
  apply pres_bind; [apply pres_modify; stable | intros _].
  apply pres_bind; [apply pres_item | intros objective].
  intros s H. unfold bind at 1. unfold gets at 1. cbv beta iota.
  match goal with
  | |- target_improved s0 (snd (bind _ ?k s)) =>
      assert (Hrest : preserves (target_improved s0) (k tt))
  end.
  { pose proof (sync_keeps (target_improved s0)) as Sy.
    pose proof (create_condition_keeps (target_improved s0)) as Cc.
    pose proof (target_expand s0). pose proof (target_create s0).
    pres; stable. }
  unfold bind at 1.
  destruct ((objective -. _metric_target s) *: metric_op <. Fin 0) eqn:C;
    unfold modify, ret; cbv beta iota; apply Hrest; [| exact H].
  unfold target_improved in *. cbn [_metric_target set_metric_target].
  eapply improves_trans; [exact Hd | | exact H]. right. exact C.
Qed.

Lemma target_step (s0 : State) (c : call) (s : State) :
  directed -> target_improved s0 s -> target_improved s0 (step c s).
Proof.
  intros Hd. destruct c as [tid | tid r | tid r e]; cbn [step].
  - apply suggest_keeps; try (stable; fail).
    + intros c. apply target_update.
    + intros c. apply target_update.
    + apply target_expand.
    + apply target_clean.
  - apply on_trial_result_keeps. stable.
  - apply on_trial_complete_keeps; try (stable; fail).
    + apply from_best_frame; try (stable; fail). intros c. apply target_update.
    + intros tid0 r0 e0. apply base_complete_keeps; try (stable; fail).
      * apply target_clean.
      * intros r1. apply account_keeps; stable.
      * intros. apply record_target. exact Hd.
Qed.

Lemma target_run (calls : list call) (s0 s : State) :
  directed -> target_improved s0 s -> target_improved s0 (run calls s).
Proof.
  intros Hd. unfold run. revert s.
  induction calls as [| c calls IH]; intros s H; cbn; [exact H |].
  apply IH. apply target_step; assumption.
Qed.

(** X8. The target of the metric only improves: over any sequence of
    calls of [suggest], [on_trial_result] and [on_trial_complete],
    whether they return or raise, the target stays as it is or
    decreases when the metric is minimized ([metric_op = 1]), and stays
    as it is or increases when the metric is maximized
    ([metric_op = -1]). *)
Theorem metric_target_improves (calls : list call) (s : State) :
  (metric_op = Fin 1 ->
   _metric_target (run calls s) = _metric_target s
   \/ (_metric_target (run calls s) <. _metric_target s) = true)
  /\ (metric_op = Fin (-1 # 1) ->
      _metric_target (run calls s) = _metric_target s
      \/ (_metric_target s <. _metric_target (run calls s)) = true).
Proof.
  split; intros E.
  - destruct (target_run calls s s (or_introl E) (or_introl eq_refl))
      as [H | H]; [left; exact H | right].
    rewrite E, improves_min in H. exact H.
  - destruct (target_run calls s s (or_intror E) (or_introl eq_refl))
      as [H | H]; [left; exact H | right].
    rewrite E, improves_max in H. exact H.
Qed.

(** the target is [T] *)
Definition target_is (T : num) (s : State) : Prop := _metric_target s = T.

Lemma target_is_update (T : num) (c : Config) (w : region) :
  preserves (target_is T) (_update_admissible_region c w).
Proof. apply update_region_keeps; destruct w; stable. Qed.

Lemma target_is_expand (T : num) :
  preserves (target_is T) _expand_admissible_region.
Proof. apply expand_keeps; stable. Qed.

Lemma target_is_cleaner (T : num) (th : option Z) :
  preserves (target_is T) (cleaner th).
Proof.
  apply cleaner_frame; try (stable; fail).
  - intros c. apply target_is_update.
  - apply target_is_expand.
Qed.

Lemma target_is_from_best (T : num) :
  preserves (target_is T) _create_thread_from_best_candidate.
Proof.
  apply from_best_frame; try (stable; fail). intros c. apply target_is_update.
Qed.

(** the record of a result without error leaves as target the objective
    when it passes the test for an improvement, and the former target
    otherwise, also when a later step of the record raises *)
Lemma record_sets_target (tid : string) (r : Result) (sat : bool)
    (th : option Z) (objective : num) (s : State) :
  Dict.get ls_metric r = Some objective ->
  _metric_target (snd (record_result tid r false sat th s))
  = if (objective -. _metric_target s) *: metric_op <. Fin 0
    then objective else _metric_target s.
Proof.
  intros G. unfold record_result. cbv zeta.
  unfold bind at 1. unfold modify at 1. cbv beta iota.
  unfold bind at 1. unfold item. rewrite G. unfold ret at 1. cbv beta iota.
  unfold bind at 1. unfold gets at 1. cbv beta iota.
  cbn [_metric_target set_result].
  match goal with
  | |- _metric_target (snd (bind _ ?k _)) = ?T =>
      assert (Hrest : preserves (target_is T) (k tt))
  end.
  { pose proof (sync_keeps (target_is
      (if (objective -. _metric_target s) *: metric_op <. Fin 0
       then objective else _metric_target s))) as Sy.
    pose proof (create_condition_keeps (target_is
      (if (objective -. _metric_target s) *: metric_op <. Fin 0
       then objective else _metric_target s))) as Cc.
    pose proof (target_is_expand
      (if (objective -. _metric_target s) *: metric_op <. Fin 0
       then objective else _metric_target s)).
    assert (Hcr : forall c r0, preserves (target_is
      (if (objective -. _metric_target s) *: metric_op <. Fin 0
       then objective else _metric_target s)) (_create_thread c r0)).
    { intros. apply create_thread_frame; try (stable; fail).
      intros c0. apply target_is_update. }
    pres; stable. }
  unfold bind at 1.
  destruct ((objective -. _metric_target s) *: metric_op <. Fin 0) eqn:C;
    unfold modify, ret; cbv beta iota; apply Hrest; reflexivity.
Qed.

Lemma base_complete_target (tid : string) (r : Result) (s : State) :
  nonempty r = true ->
  recordable s r ->
  exists r' sat s1 objective,
    constraint_phase (Some r) false s = (Ok (Some r', sat), s1)
    /\ accounted s r r'
    /\ Dict.get ls_metric r' = Some objective
    /\ _metric_target (snd (BlendSearch_on_trial_complete tid (Some r) false s))
       = if (objective -. _metric_target s) *: metric_op <. Fin 0
         then objective else _metric_target s.
Proof.
  intros Hr Hrec.
  destruct (constraint_phase_returns s r Hr Hrec)
    as (r' & sat & p & f & objective & E & Hacc & Hr' & G).
  exists r', sat,
    (set_metric_constraint_satisfied f (set_metric_constraint_penalty p s)),
    objective.
  split; [exact E | split; [exact Hacc | split; [exact G |]]].
  unfold BlendSearch_on_trial_complete. unfold bind at 1. rewrite E.
  cbv beta iota.
  set (s1 := set_metric_constraint_satisfied f
               (set_metric_constraint_penalty p s)).
  assert (T1 : _metric_target s1 = _metric_target s) by reflexivity.
  rewrite <- T1.
  assert (U : snd (bind (delivery tid (Some r') false sat)
                     (fun _ => ret (Some r')) s1)
              = snd (delivery tid (Some r') false sat s1)).
  { unfold bind. destruct (delivery tid (Some r') false sat s1) as [[u | e] s2];
      reflexivity. }
  rewrite U. rewrite delivery_unfold.
  destruct (notify_frame tid (Some r') false
              (Dict.get tid (_trial_proposed_by s1)) s1) as (s2 & E2 & _).
  rewrite E2. rewrite Hr'.
  assert (T2 : _metric_target s2 = _metric_target s1).
  { pose proof (notify_keeps (target_is (_metric_target s1))) as N.
    specialize (N ltac:(stable) ltac:(stable) tid (Some r') false
                  (Dict.get tid (_trial_proposed_by s1)) s1 eq_refl).
    rewrite E2 in N. exact N. }
  rewrite <- T2.
  pose proof (record_sets_target tid r' sat
                (Dict.get tid (_trial_proposed_by s1)) objective s2 G) as R.
  destruct (record_result tid r' false sat
              (Dict.get tid (_trial_proposed_by s1)) s2) as [[th | e] s3];
    cbn [snd] in R |- *; [| exact R].
  apply target_is_cleaner. exact R.
Qed.

(** X9. [on_trial_complete] without error for a non-empty result that is
    ready to be recorded.  The first part of the call, the account of the
    metric constraints, returns the record [r']: the result itself
    without metric constraints, the result with the lagrange-modified
    metric that the account computed otherwise.  With [objective] the
    value of that record under the metric of the local engine, in the
    state the call ends in, with a value or an exception, the target is
    [objective] when [(objective - target) * metric_op < 0], and the
    former target otherwise. *)
Theorem completion_updates_target (trial_id : string) (r : Result)
    (s : State) :
  nonempty r = true ->
  recordable s r ->
  exists r' sat s1 objective,
    constraint_phase (Some r) false s = (Ok (Some r', sat), s1)
    /\ accounted s r r'
    /\ Dict.get ls_metric r' = Some objective
    /\ _metric_target (snd (on_trial_complete trial_id (Some r) false s))
       = if (objective -. _metric_target s) *: metric_op <. Fin 0
         then objective else _metric_target s.
Proof.
  intros Hr Hrec.
  destruct (base_complete_target trial_id r s Hr Hrec)
    as (r' & sat & s0 & objective & E & Hacc & G & T).
  exists r', sat, s0, objective.
  split; [exact E | split; [exact Hacc | split; [exact G |]]].
  unfold on_trial_complete. unfold bind at 1. unfold gets at 1.
  cbv beta iota. destruct (cls s).
  - unfold bind.
    destruct (BlendSearch_on_trial_complete trial_id (Some r) false s)
      as [[u | e] s1]; exact T.
  - unfold CFO_on_trial_complete. unfold bind at 1.
    destruct (BlendSearch_on_trial_complete trial_id (Some r) false s)
      as [[u | e] s1]; cbn [snd] in T |- *; [| exact T].
    revert s1 T.
    match goal with
    | |- forall s1, _ -> _metric_target (snd (?m s1)) = ?X =>
        assert (H : preserves (target_is X) m)
    end.
    { pose proof (target_is_from_best
        (if (objective -. _metric_target s) *: metric_op <. Fin 0
         then objective else _metric_target s)).
      pres; stable. }
    intros s1 T. apply H. exact T.
Qed.

End Target.

Lemma metric_target_improves_witness :
  let s := Toy.plain_run [Suggest "t1"] (Toy.plain BlendSearch) in
  let s' := Toy.plain_run
              [OnTrialComplete "t1"
                 (Some [("loss"%string, Fin 3); ("config/x"%string, Fin 0)])
                 false] s in
  _metric_target s' = _metric_target s
  \/ (_metric_target s' <. _metric_target s) = true.
Proof.
  exact (proj1 (@metric_target_improves Z unit Toy.thread Toy.plain_search
                  Toy.search_thread _ _) eq_refl).
Defined.

(** a coordinator that minimizes [loss] subject to [accuracy >= 0.5] *)
Definition toy_half_constrained : @State Z unit Toy.thread :=
  @__init__ Z unit Toy.thread Toy.constrained_search Toy.search_thread
    BlendSearch "loss"%string [] []
    [("accuracy"%string, ">="%string, Fin (1 # 2))] tt.

Lemma completion_updates_target_witness :
  _metric_target
    (snd (@on_trial_complete Z unit Toy.thread Toy.constrained_search
            Toy.search_thread "t1"
            (Some [("loss"%string, Fin 5); ("accuracy"%string, Fin (1 # 4));
                   ("config/x"%string, Fin 0)])
            false toy_half_constrained))
  = Fin 2500000005.
Proof.
  assert (Hrec : @recordable Z unit Toy.thread Toy.constrained_search
                   toy_half_constrained
                   [("loss"%string, Fin 5); ("accuracy"%string, Fin (1 # 4));
                    ("config/x"%string, Fin 0)]).
  { split; [exists [penalty]; split; reflexivity |].
    split; [exists (Fin 5); reflexivity | reflexivity]. }
  destruct (@completion_updates_target Z unit Toy.thread
              Toy.constrained_search Toy.search_thread "t1"%string
              [("loss"%string, Fin 5); ("accuracy"%string, Fin (1 # 4));
               ("config/x"%string, Fin 0)]
              toy_half_constrained eq_refl Hrec)
    as (r' & sat & s1 & objective & E & _ & G & T).
  refine (eq_trans T _). vm_compute in E. injection E as <- _ _.
  vm_compute in G. injection G as <-. reflexivity.
Defined.

(** ** The choice of a thread: [BlendSearch._select_thread] *)

Section Selection.

Context {Sig Env Thread : Type}.
Context {LS : LocalSearch Sig Env} {ST : SearchThread Thread Env}.

Abbreviation State := (@State Sig Env Thread).
Abbreviation M := (@M Sig Env Thread).

(** a local thread that can suggest *)
Definition eligible (kv : Z * Thread) : bool :=
  negb (fst kv =? 0)%Z && can_suggest (snd kv).

(** the body of the last loop of [BlendSearch._select_thread]; the
    accumulator holds [top_thread_id], [backup_thread_id], [priority1]
    and [priority2] *)
Definition select_step (acc : Z * Z * num * num) (kv : Z * Thread)
    : Z * Z * num * num :=
  let '(top, backup, priority1, priority2) := acc in
  let (thread_id, thread) := kv in
  if negb (thread_id =? 0)%Z && can_suggest thread
  then
    let p := priority thread in
    let '(top, priority1) :=
      if p >. priority1 then (thread_id, p) else (top, priority1) in
    let '(backup, priority2) :=
      if (p >. priority2) || (backup =? 0)%Z
      then (thread_id, p) else (backup, priority2) in
    (top, backup, priority1, priority2)
  else acc.

(** what the loop has established after the threads [seen], from the
    priority [p0] of thread 0 *)
Definition scanned (p0 : num) (seen : list (Z * Thread))
    (acc : Z * Z * num * num) : Prop :=
  let '(top, backup, priority1, priority2) := acc in
  (top = 0%Z /\ priority1 = p0
   \/ exists t, In (top, t) seen /\ eligible (top, t) = true
                /\ priority1 = priority t)
  /\ (backup = 0%Z /\ (forall kv, In kv seen -> eligible kv = false)
      \/ exists t, In (backup, t) seen /\ eligible (backup, t) = true
                   /\ priority2 = priority t)
  /\ (p0 >. priority1) = false
  /\ (forall kv, In kv seen -> eligible kv = true ->
        (priority (snd kv) >. priority1) = false
        /\ (priority (snd kv) >. priority2) = false).

Lemma eligible_local (id : Z) (t : Thread) :
  eligible (id, t) = true -> id <> 0%Z /\ can_suggest t = true.
Proof.
  unfold eligible. cbn [fst snd]. intros E.
  apply andb_true_iff in E. destruct E as [E1 E2].
  apply negb_true_iff in E1. apply Z.eqb_neq in E1. auto.
Qed.

Lemma scanned_step (p0 : num) (seen : list (Z * Thread))
    (acc : Z * Z * num * num) (kv : Z * Thread) :
  scanned p0 seen acc -> scanned p0 (seen ++ [kv]) (select_step acc kv).
Proof.
  destruct acc as [[[top backup] p1] p2], kv as [id t].
  unfold scanned, select_step.
  intros (Ht & Hb & H0 & Hall).
  assert (Old : forall x, In x seen -> In x (seen ++ [(id, t)]))
    by (intros; apply in_or_app; auto).
  assert (New : In (id, t) (seen ++ [(id, t)]))
    by (apply in_or_app; right; left; reflexivity).
  assert (T_old : top = 0%Z /\ p1 = p0
                  \/ exists t', In (top, t') (seen ++ [(id, t)])
                                /\ eligible (top, t') = true
                                /\ p1 = priority t').
  { destruct Ht as [Ht | (t' & I & E' & P')];
      [left; exact Ht | right; exists t'; auto]. }
  assert (El : eligible (id, t) = negb (id =? 0)%Z && can_suggest t)
    by reflexivity.
  destruct (negb (id =? 0)%Z && can_suggest t).
  - destruct (eligible_local id t El) as [Nz _].
    assert (B_keep : backup <> 0%Z ->
                     exists t', In (backup, t') (seen ++ [(id, t)])
                                /\ eligible (backup, t') = true
                                /\ p2 = priority t').
    { intros Nb. destruct Hb as [[B0 _] | (t' & I & E' & P')];
        [contradiction | exists t'; auto]. }
    assert (Z_up : (priority t >. p1) = true -> (p0 >. priority t) = false).
    { intros C. eapply not_above_raised; [exact H0 |].
      right. apply flt_fle. exact C. }
    assert (All1_up : (priority t >. p1) = true ->
                      forall kv, In kv (seen ++ [(id, t)]) ->
                        eligible kv = true ->
                        (priority (snd kv) >. priority t) = false).
    { intros C kv I Ek. apply in_app_or in I.
      destruct I as [I | [<- | []]]; [| unfold fgt; apply flt_irrefl].
      eapply not_above_raised; [exact (proj1 (Hall kv I Ek)) |].
      right. apply flt_fle. exact C. }
    assert (All1_keep : (priority t >. p1) = false ->
                        forall kv, In kv (seen ++ [(id, t)]) ->
                          eligible kv = true ->
                          (priority (snd kv) >. p1) = false).
    { intros C kv I Ek. apply in_app_or in I.
      destruct I as [I | [<- | []]]; [exact (proj1 (Hall kv I Ek)) | exact C]. }
    assert (All2_up : ((priority t >. p2) || (backup =? 0)%Z) = true ->
                      forall kv, In kv (seen ++ [(id, t)]) ->
                        eligible kv = true ->
                        (priority (snd kv) >. priority t) = false).
    { intros C kv I Ek. apply in_app_or in I.
      destruct I as [I | [<- | []]]; [| unfold fgt; apply flt_irrefl].
      destruct Hb as [[_ Hn] | (t' & _ & E' & _)].
      - rewrite (Hn kv I) in Ek. discriminate Ek.
      - destruct (eligible_local backup t' E') as [Nb _].
        apply Z.eqb_neq in Nb. rewrite Nb, orb_false_r in C.
        eapply not_above_raised; [exact (proj2 (Hall kv I Ek)) |].
        right. apply flt_fle. exact C. }
    assert (All2_keep : ((priority t >. p2) || (backup =? 0)%Z) = false ->
                        forall kv, In kv (seen ++ [(id, t)]) ->
                          eligible kv = true ->
                          (priority (snd kv) >. p2) = false).
    { intros C kv I Ek. apply orb_false_iff in C. destruct C as [C _].
      apply in_app_or in I.
      destruct I as [I | [<- | []]]; [exact (proj2 (Hall kv I Ek)) | exact C]. }
    destruct (priority t >. p1) eqn:C1;
      destruct ((priority t >. p2) || (backup =? 0)%Z) eqn:C2;
      cbv beta iota zeta;
      (split; [| split; [| split]]);
      try (right; exists t; auto; fail);
      try exact T_old;
      try (right; apply B_keep; apply orb_false_iff in C2;
           destruct C2 as [_ C2]; apply Z.eqb_neq; exact C2);
      try (apply Z_up; reflexivity);
      try exact H0;
      intros kv I Ek; split;
      first [ apply All1_up; auto; fail | apply All1_keep; auto; fail
            | apply All2_up; auto; fail | apply All2_keep; auto ].
  - split; [exact T_old | split; [| split]].
    + destruct Hb as [[B0 Hn] | (t' & I & E' & P')].
      * left. split; [exact B0 |]. intros kv I. apply in_app_or in I.
        destruct I as [I | [<- | []]]; auto.
      * right. exists t'. auto.
    + exact H0.
    + intros kv I Ek. apply in_app_or in I.
      destruct I as [I | [<- | []]]; [auto | congruence].
Qed.

Lemma scanned_fold (p0 : num) (l seen : list (Z * Thread))
    (acc : Z * Z * num * num) :
  scanned p0 seen acc ->
  scanned p0 (seen ++ l) (fold_left select_step l acc).
Proof.
  revert seen acc. induction l as [| kv l IH]; intros seen acc H; cbn.
  - rewrite app_nil_r. exact H.
  - replace (seen ++ kv :: l) with ((seen ++ [kv]) ++ l)
      by (rewrite <- app_assoc; reflexivity).
    apply IH. apply scanned_step. exact H.
Qed.


(** [BlendSearch._select_thread] refreshes every thread of the pool and
    returns the outcome of the scan over the refreshed pool; it raises
    [KeyError] when thread 0 is not in the pool *)
Lemma select_thread_scan (s : State) :
  match BlendSearch_select_thread s with
  | (Ok (top, backup), s') =>
      Dict.keys (_search_thread_pool s') = Dict.keys (_search_thread_pool s)
      /\ exists t0 p1 p2,
           Dict.get 0%Z (_search_thread_pool s') = Some t0
           /\ fold_left select_step (_search_thread_pool s')
                (0%Z, 0%Z, priority t0, priority t0)
              = (top, backup, p1, p2)
  | (Raise e, s') =>
      e = KeyError /\ Dict.mem 0%Z (_search_thread_pool s) = false
  end.
Proof.
  unfold BlendSearch_select_thread. run.
  destruct (time_time (env s)) as [now e'].
  cbn [_deadline _search_thread_pool _metric_target set_env
       set_search_thread_pool].
  set (pool2 := Dict.map_values _ (Dict.map_values _ (_search_thread_pool s))).
  assert (K : Dict.keys pool2 = Dict.keys (_search_thread_pool s)).
  { unfold pool2. rewrite !keys_map_values. reflexivity. }
  assert (N : Dict.get 0%Z pool2 = None ->
              Dict.mem 0%Z (_search_thread_pool s) = false).
  { unfold pool2, Dict.mem. rewrite !get_map_values.
    destruct (Dict.get 0%Z (_search_thread_pool s)); [discriminate | auto]. }
  clearbody pool2.
  destruct (Dict.get 0%Z pool2) as [t0 |] eqn:G.
  - cbv beta iota.
    change (fold_left _ pool2 (0%Z, 0%Z, priority t0, priority t0))
      with (fold_left select_step pool2 (0%Z, 0%Z, priority t0, priority t0)).
    destruct (fold_left select_step pool2
                (0%Z, 0%Z, priority t0, priority t0))
      as [[[top backup] p1] p2] eqn:F.
    cbn [_search_thread_pool set_search_thread_pool].
    split; [exact K |]. exists t0, p1, p2. auto.
  - cbv beta iota. split; [reflexivity | auto].
Qed.

(** the thread [id] is thread 0, or a local thread of the pool that can
    suggest and whose priority no local thread that can suggest
    exceeds *)
Definition best_local (id : Z) (s : State) : Prop :=
  exists t,
    In (id, t) (_search_thread_pool s)
    /\ eligible (id, t) = true
    /\ forall kv,
         In kv (_search_thread_pool s) -> eligible kv = true ->
         (priority (snd kv) >. priority t) = false.

(** X10. [BlendSearch._select_thread] on a pool that holds thread 0
    returns, after it has refreshed the threads, and leaves the ids of
    the pool as they are.  The backup choice is 0 when no local thread
    can suggest, and otherwise a local thread that can suggest whose
    priority no such thread exceeds.  The top choice is thread 0 or a
    local thread that can suggest, and neither thread 0 nor any local
    thread that can suggest has a priority above the one of the top
    choice; it is 0 whenever the backup choice is.  Both choices are ids
    of the pool, and in a pool without negative ids none is negative, so
    that [suggest] does not take its timeout branch.  Without thread 0
    in the pool the call raises [KeyError]. *)
Theorem select_thread_choice (s : State) :
  (Dict.mem 0%Z (_search_thread_pool s) = true ->
   exists top backup s' t0 priority1,
     BlendSearch_select_thread s = (Ok (top, backup), s')
     /\ Dict.keys (_search_thread_pool s') = Dict.keys (_search_thread_pool s)
     /\ Dict.get 0%Z (_search_thread_pool s') = Some t0
     /\ (backup = 0%Z
         /\ (forall kv, In kv (_search_thread_pool s') -> eligible kv = false)
         \/ best_local backup s')
     /\ (top = 0%Z /\ priority1 = priority t0
         \/ exists t, In (top, t) (_search_thread_pool s')
                      /\ eligible (top, t) = true
                      /\ priority1 = priority t)
     /\ (priority t0 >. priority1) = false
     /\ (forall kv, In kv (_search_thread_pool s') -> eligible kv = true ->
           (priority (snd kv) >. priority1) = false)
     /\ (backup = 0%Z -> top = 0%Z)
     /\ In top (Dict.keys (_search_thread_pool s))
     /\ In backup (Dict.keys (_search_thread_pool s))
     /\ ((forall id, In id (Dict.keys (_search_thread_pool s)) ->
            (0 <= id)%Z) ->
         (0 <= top)%Z /\ (0 <= backup)%Z))
  /\ (Dict.mem 0%Z (_search_thread_pool s) = false ->
      fst (BlendSearch_select_thread s) = Raise KeyError).
Proof.
  pose proof (select_thread_scan s) as H.
  destruct (BlendSearch_select_thread s) as [[[top backup] | e] s'].
  - destruct H as (K & t0 & p1 & p2 & G0 & F). split.
    2:{ intros M0. exfalso.
        assert (I : In 0%Z (Dict.keys (_search_thread_pool s'))).
        { eapply get_in_keys; eauto. }
        rewrite K in I. apply mem_in_keys in I. congruence. }
    intros M0.
    pose proof (scanned_fold (priority t0) (_search_thread_pool s') []
                  (0%Z, 0%Z, priority t0, priority t0)) as Sc.
    rewrite F in Sc. cbn [app] in Sc.
    destruct Sc as (Ht & Hb & H0 & Hall).
    { split; [left; auto | split; [left; split; [auto | intros kv []] |]].
      split; [unfold fgt; apply flt_irrefl | intros kv []]. }
    assert (Key : forall id (t : Thread),
              In (id, t) (_search_thread_pool s') ->
              In id (Dict.keys (_search_thread_pool s))).
    { intros id t I. rewrite <- K. unfold Dict.keys.
      apply (in_map fst) in I. exact I. }
    assert (Itop : In top (Dict.keys (_search_thread_pool s))).
    { destruct Ht as [[-> _] | (t & I & _)];
        [apply mem_in_keys; exact M0 | eapply Key; eauto]. }
    assert (Iback : In backup (Dict.keys (_search_thread_pool s))).
    { destruct Hb as [[-> _] | (t & I & _)];
        [apply mem_in_keys; exact M0 | eapply Key; eauto]. }
    exists top, backup, s', t0, p1.
    split; [reflexivity |]. split; [exact K |]. split; [exact G0 |].
    split.
    { destruct Hb as [Hb | (t & I & E & P2)]; [left; exact Hb | right].
      exists t. split; [exact I | split; [exact E |]].
      intros kv Ik Ek. rewrite <- P2. apply (Hall kv Ik Ek). }
    split; [exact Ht |]. split; [exact H0 |].
    split; [intros kv Ik Ek; apply (Hall kv Ik Ek) |].
    split.
    { intros ->. destruct Ht as [[-> _] | (t & I & E & _)]; [reflexivity |].
      destruct Hb as [[_ Hn] | (t' & _ & E' & _)].
      - rewrite (Hn _ I) in E. discriminate E.
      - destruct (eligible_local 0%Z t' E') as [F0 _]. contradiction. }
    split; [exact Itop |]. split; [exact Iback |].
    intros Pos. split; apply Pos; assumption.
  - destruct H as [-> M0]. split; [| reflexivity].
    intros M1. congruence.
Qed.

End Selection.

Lemma select_thread_choice_witness :
  exists top backup s',
    @BlendSearch_select_thread Z unit Toy.thread Toy.plain_search
      Toy.search_thread (Toy.plain BlendSearch)
    = (Ok (top, backup), s')
    /\ (backup = 0%Z -> top = 0%Z).
Proof.
  destruct (proj1 (@select_thread_choice Z unit Toy.thread Toy.plain_search
                     Toy.search_thread (Toy.plain BlendSearch)) eq_refl)
    as (top & backup & s' & t0 & p1 & E & _ & _ & _ & _ & _ & _ & B & _).
  exists top, backup, s'. split; [exact E | exact B].
Defined.

(** ** Candidate start points under [CFO] *)

Section CandidateStart.

Context {Sig Env Thread : Type}.
Context {LS : LocalSearch Sig Env} {ST : SearchThread Thread Env}.

Abbreviation State := (@State Sig Env Thread).
Abbreviation M := (@M Sig Env Thread).

(** every initial point has been handed out, no local thread has been
    created, and there are candidate start points but none has a
    result yet *)
Definition awaiting_candidates (s : State) : Prop :=
  _points_to_evaluate s = []
  /\ List.length (_search_thread_pool s) <> 2%nat
  /\ _thread_count s = 1%Z
  /\ exists d,
       _candidate_start_points s = Some d
       /\ nonempty d = true
       /\ resolved d = [].

Lemma CFO_condition_unresolved (r : Result) (s : State) :
  awaiting_candidates s ->
  CFO_create_condition r s = (Raise ValueError, s).
Proof.
  intros (Pts & Len & Cnt & d & Csp & Nd & Res).
  unfold CFO_create_condition. run. rewrite Pts. cbn [nonempty].
  apply Nat.eqb_neq in Len. rewrite Len.
  rewrite Csp, Cnt. cbn [truthy_opt]. rewrite Nd. cbn [andb Z.eqb].
  rewrite Res. reflexivity.
Qed.

(** X11. Under [CFO], when every initial point has been handed out, no
    local thread has been created yet and none of the candidate start
    points has a result yet, [_create_condition] raises [ValueError]
    (the [min] of an empty sequence), and so does [on_trial_complete]
    without error for a trial of thread 0 with a non-empty result that
    holds the metric, in a coordinator without metric constraints: the
    completion of the first of several start points that were handed
    out together. *)
Theorem cfo_unresolved_candidates (s : State) (trial_id : string)
    (r : Result) (objective : num) :
  awaiting_candidates s ->
  CFO_create_condition r s = (Raise ValueError, s)
  /\ (cls s = CFO ->
      _metric_constraints s = [] ->
      nonempty r = true ->
      Dict.get ls_metric r = Some objective ->
      Dict.get trial_id (_trial_proposed_by s) = Some 0%Z ->
      fst (on_trial_complete trial_id (Some r) false s) = Raise ValueError).
Proof.
  intros Aw. split; [apply CFO_condition_unresolved; exact Aw |].
  intros C Mc Nr G Own.
  assert (Cond : forall s2 : State,
            cls s2 = CFO -> awaiting_candidates s2 ->
            _create_condition r s2 = (Raise ValueError, s2)).
  { intros s2 C2 A2. unfold _create_condition. unfold bind, gets.
    rewrite C2. apply CFO_condition_unresolved. exact A2. }
  unfold on_trial_complete. unfold bind at 1. unfold gets at 1.
  cbv beta iota. rewrite C.
  unfold CFO_on_trial_complete. unfold bind at 1.
  unfold BlendSearch_on_trial_complete. unfold bind at 1.
  unfold constraint_phase. unfold bind at 1. unfold gets at 1.
  cbv beta iota. rewrite Mc, Nr. cbn [nonempty negb andb].
  unfold ret at 1. cbv beta iota.
  unfold bind at 1. rewrite delivery_unfold. rewrite Own, Nr.
  destruct (notify_thread trial_id (Some r) false (Some 0%Z) s)
    as [[[] | e] s1] eqn:E1.
  2:{ exfalso. revert E1. unfold notify_thread. run.
      destruct (Dict.mem 0%Z (_search_thread_pool s)); discriminate. }
  assert (A1 : cls s1 = CFO /\ awaiting_candidates s1).
  { revert E1. unfold notify_thread. run.
    destruct (Dict.mem 0%Z (_search_thread_pool s)); intros E;
      injection E as <-; [| auto].
    destruct Aw as (Pts & Len & Cnt & Hd).
    split; [exact C |]. unfold awaiting_candidates. cbn.
    rewrite length_alter. auto. }
  destruct A1 as [C1 Aw1].
  unfold record_result. cbv zeta.
  unfold bind at 1. unfold modify at 1. cbv beta iota.
  unfold bind at 1. unfold item. rewrite G. unfold ret at 1. cbv beta iota.
  unfold bind at 1. unfold gets at 1. cbv beta iota.
  unfold bind at 1.
  match goal with
  | |- context [if ?b then modify ?f else ret tt] =>
      destruct b; unfold modify, ret; cbv beta iota
  end;
    (unfold bind at 1; rewrite Cond; [reflexivity | exact C1 |];
     destruct Aw1 as (Pts & Len & Cnt & Hd); unfold awaiting_candidates;
     cbn; auto).
Qed.

End CandidateStart.

(** a [CFO] coordinator with two initial points, after both have been
    handed out *)
Definition toy_two_starts : @State Z unit Toy.thread :=
  Toy.plain_run [Suggest "t1"; Suggest "t2"]
    (@__init__ Z unit Toy.thread Toy.plain_search Toy.search_thread
       CFO "loss"%string
       [[("x"%string, Fin (1 # 4))]; [("x"%string, Fin (1 # 2))]] [] [] tt).

Lemma cfo_unresolved_candidates_witness :
  fst (@on_trial_complete Z unit Toy.thread Toy.plain_search
         Toy.search_thread "t1"
         (Some [("loss"%string, Fin 3); ("config/x"%string, Fin (1 # 4))])
         false toy_two_starts)
  = Raise ValueError.
Proof.
  refine (proj2 (@cfo_unresolved_candidates Z unit Toy.thread
                   Toy.plain_search Toy.search_thread toy_two_starts
                   "t1"%string
                   [("loss"%string, Fin 3); ("config/x"%string, Fin (1 # 4))]
                   (Fin 3) _)
            eq_refl eq_refl eq_refl eq_refl eq_refl).
  split; [reflexivity | split; [| split; [reflexivity |]]].
  - vm_compute. intros E. discriminate E.
  - exists [("t1"%string, None); ("t2"%string, None)].
    split; [reflexivity | split; reflexivity].
Defined.

(** ** The configuration held by a result *)

Lemma substring_full (s : string) :
  String.substring 0 (String.length s) s = s.
Proof. induction s as [| a s IH]; cbn; [reflexivity | rewrite IH; reflexivity]. Qed.

Lemma prefix_split (p s : string) :
  String.prefix p s = true ->
  s = (p ++ String.substring (String.length p)
              (String.length s - String.length p) s)%string.
Proof.
  revert p. induction s as [| b s IH]; intros [| a p]; cbn.
  - reflexivity.
  - discriminate.
  - intros _. rewrite substring_full. reflexivity.
  - destruct (ascii_dec a b) as [<- | N]; [| discriminate].
    intros H. f_equal. apply IH. exact H.
Qed.

Lemma prefix_app (p s : string) : String.prefix p (p ++ s) = true.
Proof.
  induction p as [| a p IH]; cbn.
  - destruct s; reflexivity.
  - destruct (ascii_dec a a) as [_ | N]; [exact IH | contradiction].
Qed.

Lemma substring_app (p s : string) :
  String.substring (String.length p)
    (String.length (p ++ s) - String.length p) (p ++ s) = s.
Proof.
  induction p as [| a p IH]; cbn.
  - rewrite Nat.sub_0_r. apply substring_full.
  - exact IH.
Qed.

(** the key of a configuration item in a result record *)
Definition config_key (key : string) : string := ("config/" ++ key)%string.

(** one item of the loop that extracts the configuration *)
Definition config_item (config : Config) (kv : string * num) : Config :=
  let (key, value) := kv in
  if String.prefix "config/" key
  then Dict.set (String.substring 7 (String.length key - 7) key) value config
  else config.

Lemma config_of_result_fold (r : Result) :
  config_of_result r = fold_left config_item r Dict.empty.
Proof. reflexivity. Qed.

Lemma config_fold_lookup (r : Result) (acc : Config) (key : string) :
  NoDup (Dict.keys r) ->
  Dict.get key (fold_left config_item r acc)
  = match Dict.get (config_key key) r with
    | Some v => Some v
    | None => Dict.get key acc
    end.
Proof.
  revert acc. induction r as [| [k' v] r IH]; intros acc N; [reflexivity |].
  cbn [fold_left]. unfold Dict.keys in N. cbn [map fst] in N.
  inversion N as [| ? ? Nin N']. subst.
  rewrite (IH _ N'). unfold Dict.get at 3. fold (@Dict.get string num _).
  change (@eqb string EqDec_string) with String.eqb.
  destruct (String.eqb (config_key key) k') eqn:E.
  - apply String.eqb_eq in E. subst k'.
    rewrite (not_in_keys_get _ _ Nin).
    unfold config_item, config_key.
    rewrite (prefix_app "config/" key).
    change 7%nat with (String.length "config/").
    rewrite substring_app. apply get_set_eq.
  - destruct (Dict.get (config_key key) r) as [v' |]; [reflexivity |].
    unfold config_item.
    destruct (String.prefix "config/" k') eqn:P; [| reflexivity].
    apply get_set_neq. intros Sub.
    apply prefix_split in P. change (String.length "config/") with 7%nat in P.
    rewrite Sub in P. apply String.eqb_neq in E. apply E.
    unfold config_key. symmetry. exact P.
Qed.

(** X13. The configuration that [on_trial_complete] extracts from a
    result record holds under every key the value that the record holds
    under 'config/' followed by the key, and no other key. *)
Theorem config_of_result_lookup (r : Result) (key : string) :
  NoDup (Dict.keys r) ->
  Dict.get key (config_of_result r) = Dict.get ("config/" ++ key)%string r.
Proof.
  intros N. rewrite config_of_result_fold, (config_fold_lookup r _ key N).
  unfold config_key. destruct (Dict.get ("config/" ++ key)%string r);
    reflexivity.
Qed.

Lemma config_of_result_lookup_witness :
  Dict.get "x"%string
    (config_of_result
       [("loss"%string, Fin 3); ("config/x"%string, Fin (1 # 4))])
  = Some (Fin (1 # 4)).
Proof.
  refine (eq_trans
            (@config_of_result_lookup
               [("loss"%string, Fin 3); ("config/x"%string, Fin (1 # 4))]
               "x"%string _) eq_refl).
  repeat constructor; cbn; intuition discriminate.
Defined.

(** ** The tuner for NNI: [BlendSearchTuner] *)

(** what the name [value] of [receive_trial_result] stands for: the
    final metrics of the trial or, once the loop over the parameters has
    bound the name again, the value of a parameter *)
Inductive reported : Type :=
| Metrics (metrics : Result)
| Number (v : num).

(** [nni.utils.extract_scalar_reward]: the collaborator that reads the
    reward off the final metrics *)
Class NNI : Type := {
  extract_scalar_reward : reported -> res num
}.

(** [str(parameter_id)] *)
Definition str (parameter_id : Z) : string :=
  NilZero.string_of_int (Z.to_int parameter_id).

Section Tuner.

Context {Sig Env Thread : Type}.
Context {LS : LocalSearch Sig Env} {ST : SearchThread Thread Env}.
Context {reward_reader : NNI}.

Abbreviation State := (@State Sig Env Thread).
Abbreviation M := (@M Sig Env Thread).

(** the items of [parameters] under the keys of configuration items *)
Definition parameters_record (parameters : Config) : Result :=
  fold_left
    (fun (result : Result) (kv : string * num) =>
       Dict.set ("config/" ++ fst kv)%string (snd kv) result)
    parameters Dict.empty.

(** the name [value] after the loop [for key, value in
    parameters.items()]: the value of the last parameter, or the
    argument when there is no parameter *)
Definition value_after_loop (parameters : Config) (value : Result)
    : reported :=
  match rev parameters with
  | (_, v) :: _ => Number v
  | [] => Metrics value
  end.

(** [value.get(self.cost_attr, value.get('sequence', 1))]; a number has
    no attribute [get] *)
Definition reported_cost (value : reported) : res num :=
  match value with
  | Metrics metrics =>
      Ok (match Dict.get cost_attr metrics with
          | Some c => c
          | None =>
              match Dict.get "sequence"%string metrics with
              | Some q => q
              | None => Fin 1
              end
          end)
  | Number _ => Raise AttributeError
  end.

(** [BlendSearchTuner.receive_trial_result] *)
Definition receive_trial_result (parameter_id : Z) (parameters : Config)
    (value : Result) : M unit :=
  let result := parameters_record parameters in
  let value := value_after_loop parameters value in
  reward <- lift (extract_scalar_reward value) ;;
  metric <- gets _metric ;;
  let result := Dict.set metric reward result in
  (* if nni does not report training cost, using sequence as an
     approximation; if no sequence, using a constant 1 *)
  cost <- lift (reported_cost value) ;;
  let result := Dict.set cost_attr cost result in
  on_trial_complete (str parameter_id) (Some result) false.

(** [BlendSearchTuner.generate_parameters] *)
Definition generate_parameters (parameter_id : Z) : M (option Config) :=
  suggest (str parameter_id).

(** X12. [receive_trial_result] with at least one parameter never
    delivers the result: the loop over the parameters binds the name
    [value] to the value of the last parameter, so that the call raises
    and leaves the coordinator as it is; the exception is
    [AttributeError] whenever the reward is read off that number.
    Without parameters the result record that is passed to
    [on_trial_complete] under the trial id [str(parameter_id)] holds the
    reward under the metric and, under the cost attribute, the reported
    cost, or else the reported sequence number, or else 1. *)
Theorem tuner_result_not_delivered (parameter_id : Z) (parameters : Config)
    (value : Result) (s : State) :
  (parameters <> [] ->
   (exists e, receive_trial_result parameter_id parameters value s
              = (Raise e, s))
   /\ (forall reward,
         extract_scalar_reward (value_after_loop parameters value)
         = Ok reward ->
         receive_trial_result parameter_id parameters value s
         = (Raise AttributeError, s)))
  /\ (forall reward,
        extract_scalar_reward (Metrics value) = Ok reward ->
        exists cost,
          receive_trial_result parameter_id [] value s
          = on_trial_complete (str parameter_id)
              (Some (Dict.set cost_attr cost
                       (Dict.set (_metric s) reward Dict.empty)))
              false s
          /\ cost = match Dict.get cost_attr value with
                    | Some c => c
                    | None =>
                        match Dict.get "sequence"%string value with
                        | Some q => q
                        | None => Fin 1
                        end
                    end).
Proof.
  split.
  - intros Ne.
    assert (Num : exists v, value_after_loop parameters value = Number v).
    { unfold value_after_loop.
      destruct (rev parameters) as [| [k v] l] eqn:R; [| eauto].
      apply (f_equal (@rev _)) in R. rewrite rev_involutive in R.
      contradiction. }
    destruct Num as [v Ev].
    unfold receive_trial_result. cbv zeta. rewrite Ev. run.
    destruct (extract_scalar_reward (Number v)) as [reward |e] eqn:X.
    + split; [eexists; reflexivity |]. intros reward' _. reflexivity.
    + split; [eexists; reflexivity |]. intros reward' E. discriminate E.
  - intros reward X. eexists. split; [| reflexivity].
    unfold receive_trial_result. cbv zeta.
    change (value_after_loop [] value) with (Metrics value).
    unfold bind at 1. unfold lift at 1. rewrite X.
    unfold bind at 1. unfold gets at 1. cbv beta iota.
    unfold bind at 1. unfold lift at 1. unfold reported_cost.
    reflexivity.
Qed.

End Tuner.

(** a reader of the reward off the key 'default' of the final metrics *)
Definition toy_reward_reader : NNI :=
  {| extract_scalar_reward := fun value =>
       match value with
       | Number v => Ok v
       | Metrics metrics =>
           match Dict.get "default"%string metrics with
           | Some v => Ok v
           | None => Raise ValueError
           end
       end |}.

Lemma tuner_result_not_delivered_witness :
  @receive_trial_result Z unit Toy.thread Toy.plain_search Toy.search_thread
    toy_reward_reader 1%Z [("x"%string, Fin (1 # 4))]
    [("default"%string, Fin 3)] (Toy.plain BlendSearch)
  = (Raise AttributeError, Toy.plain BlendSearch).
Proof.
  assert (Ne : [("x"%string, Fin (1 # 4))] <> ([] : Config))
    by (intros E; discriminate E).
  exact (proj2 (proj1 (@tuner_result_not_delivered Z unit Toy.thread
                         Toy.plain_search Toy.search_thread toy_reward_reader
                         1%Z [("x"%string, Fin (1 # 4))]
                         [("default"%string, Fin 3)] (Toy.plain BlendSearch))
                  Ne) (Fin (1 # 4)) eq_refl).
Defined.

(** ** The result cache and the trial table after a completion *)

Section CompletionRecord.

Context {Sig Env Thread : Type}.
Context {LS : LocalSearch Sig Env} {ST : SearchThread Thread Env}.

Abbreviation State := (@State Sig Env Thread).
Abbreviation M := (@M Sig Env Thread).

(** the result cache is [R] *)
Definition result_is (R : dict Sig Result) (s : State) : Prop := _result s = R.

Lemma result_is_update (R : dict Sig Result) (c : Config) (w : region) :
  preserves (result_is R) (_update_admissible_region c w).
Proof. apply update_region_keeps; destruct w; stable. Qed.

Lemma result_is_expand (R : dict Sig Result) :
  preserves (result_is R) _expand_admissible_region.
Proof. apply expand_keeps; stable. Qed.

Lemma result_is_cleaner (R : dict Sig Result) (th : option Z) :
  preserves (result_is R) (cleaner th).
Proof.
  apply cleaner_frame; try (stable; fail).
  - intros c. apply result_is_update.
  - apply result_is_expand.
Qed.

Lemma result_is_from_best (R : dict Sig Result) :
  preserves (result_is R) _create_thread_from_best_candidate.
Proof.
  apply from_best_frame; try (stable; fail). intros c. apply result_is_update.
Qed.

(** the record of a result without error caches it, also when a later
    step of the record raises *)
Lemma record_caches (tid : string) (r : Result) (sat : bool)
    (th : option Z) (s : State) :
  _result (snd (record_result tid r false sat th s))
  = Dict.set (signature_of r) r (_result s).
Proof.
  unfold record_result, signature_of. cbv zeta.
  unfold bind at 1. unfold modify at 1. cbv beta iota.
  match goal with
  | |- _result (snd (?m ?s1)) = ?R =>
      assert (H : preserves (result_is R) m)
  end.
  { pose proof (sync_keeps (result_is
      (Dict.set (config_signature (config_of_result r)) r (_result s)))).
    pose proof (create_condition_keeps (result_is
      (Dict.set (config_signature (config_of_result r)) r (_result s)))).
    pose proof (result_is_expand
      (Dict.set (config_signature (config_of_result r)) r (_result s))).
    assert (Hcr : forall c r0, preserves (result_is
      (Dict.set (config_signature (config_of_result r)) r (_result s)))
      (_create_thread c r0)).
    { intros. apply create_thread_frame; try (stable; fail).
      intros c0. apply result_is_update. }
    pres; stable. }
  apply H. reflexivity.
Qed.

Lemma snd_bind_ret {A B} (m : M A) (b : B) (s : State) :
  snd (bind m (fun _ => ret b) s) = snd (m s).
Proof. unfold bind. destruct (m s) as [[a | e] s1]; reflexivity. Qed.

Lemma base_complete_caches (tid : string) (r : Result) (s : State) :
  nonempty r = true ->
  recordable s r ->
  exists r',
    accounted s r r'
    /\ _result (snd (BlendSearch_on_trial_complete tid (Some r) false s))
       = Dict.set (signature_of r') r' (_result s).
Proof.
  intros Hr Hrec.
  destruct (constraint_phase_returns s r Hr Hrec)
    as (r' & sat & p & f & objective & E & Hacc & Hr' & G).
  exists r'. split; [exact Hacc |].
  unfold BlendSearch_on_trial_complete. unfold bind at 1. rewrite E.
  cbv beta iota. rewrite snd_bind_ret.
  set (s1 := set_metric_constraint_satisfied f
               (set_metric_constraint_penalty p s)).
  change (_result s) with (_result s1).
  rewrite delivery_unfold.
  destruct (notify_frame tid (Some r') false
              (Dict.get tid (_trial_proposed_by s1)) s1)
    as (s2 & E2 & [C2 _] & _).
  rewrite E2, Hr', <- C2.
  pose proof (record_caches tid r' sat
                (Dict.get tid (_trial_proposed_by s1)) s2) as R.
  destruct (record_result tid r' false sat
              (Dict.get tid (_trial_proposed_by s1)) s2) as [[th | e] s3];
    cbn [snd] in R |- *; [| exact R].
  apply result_is_cleaner. exact R.
Qed.

(** X14. [on_trial_complete] without error for a non-empty result that
    is ready to be recorded: in the state the call ends in, with a value
    or an exception, the result cache is the former cache with the
    result (with the lagrange-modified metric added when there are
    metric constraints) stored under the signature of its configuration;
    this holds for every trial, whoever owns it, under [BlendSearch] and
    under [CFO]. *)
Theorem completion_caches_result (trial_id : string) (r : Result)
    (s : State) :
  nonempty r = true ->
  recordable s r ->
  exists r',
    accounted s r r'
    /\ _result (snd (on_trial_complete trial_id (Some r) false s))
       = Dict.set (signature_of r') r' (_result s).
Proof.
  intros Hr Hrec.
  destruct (base_complete_caches trial_id r s Hr Hrec) as (r' & Hacc & T).
  exists r'. split; [exact Hacc |].
  unfold on_trial_complete. unfold bind at 1. unfold gets at 1.
  cbv beta iota. destruct (cls s).
  - rewrite snd_bind_ret. exact T.
  - unfold CFO_on_trial_complete. unfold bind at 1.
    destruct (BlendSearch_on_trial_complete trial_id (Some r) false s)
      as [[u | e] s1]; cbn [snd] in T |- *; [| exact T].
    revert s1 T.
    match goal with
    | |- forall s1, _ -> _result (snd (?m s1)) = ?X =>
        assert (H : preserves (result_is X) m)
    end.
    { pose proof (result_is_from_best
                    (Dict.set (signature_of r') r' (_result s))).
      pres; stable. }
    intros s1 T. apply H. exact T.
Qed.

End CompletionRecord.

Lemma completion_caches_result_witness :
  let s := Toy.plain_run [Suggest "t1"] (Toy.plain BlendSearch) in
  _result
    (snd (@on_trial_complete Z unit Toy.thread Toy.plain_search
            Toy.search_thread "t1"
            (Some [("loss"%string, Fin 3); ("config/x"%string, Fin 0)])
            false s))
  = [(1%Z, [("loss"%string, Fin 3); ("config/x"%string, Fin 0)])].
Proof.
  destruct (@completion_caches_result Z unit Toy.thread Toy.plain_search
              Toy.search_thread "t1"%string
              [("loss"%string, Fin 3); ("config/x"%string, Fin 0)]
              (Toy.plain_run [Suggest "t1"] (Toy.plain BlendSearch))
              eq_refl (ex_intro _ (Fin 3) eq_refl))
    as (r' & Hacc & T).
  refine (eq_trans T _). vm_compute in Hacc. subst r'. reflexivity.
Defined.

(** ** The trial table after a completion *)

Section Release.

Context {Sig Env Thread : Type}.
Context {LS : LocalSearch Sig Env} {ST : SearchThread Thread Env}.

Abbreviation State := (@State Sig Env Thread).
Abbreviation M := (@M Sig Env Thread).

Lemma table_from_best (T : dict string Z) :
  preserves (table_is T) _create_thread_from_best_candidate.
Proof.
  apply from_best_frame; try (stable; fail). intros c. apply table_update.
Qed.

Lemma table_cleaner (T : dict string Z) (th : option Z) :
  preserves (table_is T) (cleaner th).
Proof. apply cleaner_keeps. apply table_clean. Qed.

Lemma table_record (T : dict string Z) (tid : string) (r : Result)
    (e sat : bool) (th : option Z) :
  preserves (table_is T) (record_result tid r e sat th).
Proof.
  apply record_keeps; try (stable; fail).
  - apply table_expand.
  - intros c r0. apply create_thread_frame; try (stable; fail).
    intros c0. apply table_update.
Qed.

(** the trial table and the pool of [s0] *)
Definition table_and_pool (s0 s : State) : Prop :=
  _trial_proposed_by s = _trial_proposed_by s0
  /\ _search_thread_pool s = _search_thread_pool s0.

Lemma constraint_phase_table (s0 : State) (result : option Result)
    (error : bool) :
  preserves (table_and_pool s0) (constraint_phase result error).
Proof.
  pose proof (account_keeps (table_and_pool s0)) as Ha.
  unfold constraint_phase. pres; stable.
Qed.

(** the table after the delivery of a completion: the trial is released
    when its owner is in the pool, and the table is left as it is
    otherwise *)
Definition released (trial_id : string) (s : State) : dict string Z :=
  match Dict.get trial_id (_trial_proposed_by s) with
  | Some id =>
      if Dict.mem id (_search_thread_pool s)
      then Dict.remove trial_id (_trial_proposed_by s)
      else _trial_proposed_by s
  | None => _trial_proposed_by s
  end.

Lemma delivery_table (tid : string) (result : option Result)
    (error sat : bool) (s : State) :
  _trial_proposed_by (snd (delivery tid result error sat s)) = released tid s.
Proof.
  rewrite delivery_unfold.
  assert (N : exists s1,
            notify_thread tid result error
              (Dict.get tid (_trial_proposed_by s)) s = (Ok tt, s1)
            /\ _trial_proposed_by s1 = released tid s).
  { unfold notify_thread, released.
    destruct (Dict.get tid (_trial_proposed_by s)) as [id |]; run;
      [| eauto].
    destruct (Dict.mem id (_search_thread_pool s)); run; eauto. }
  destruct N as (s1 & E1 & T1). rewrite E1.
  assert (Rest : forall th s2,
            table_is (released tid s) s2 ->
            table_is (released tid s) (snd (cleaner th s2)))
    by (intros th s2; apply table_cleaner).
  destruct result as [r |]; [| apply Rest; exact T1].
  destruct (nonempty r); [| apply Rest; exact T1].
  pose proof (table_record (released tid s) tid r error sat
                (Dict.get tid (_trial_proposed_by s)) s1 T1) as R.
  destruct (record_result tid r error sat
              (Dict.get tid (_trial_proposed_by s)) s1) as [[th | e] s2];
    cbn [snd] in R |- *; [apply Rest |]; exact R.
Qed.

Lemma released_same (tid : string) (s0 s : State) :
  table_and_pool s0 s -> released tid s = released tid s0.
Proof. intros [T P]. unfold released. rewrite T, P. reflexivity. Qed.

Lemma base_complete_table (tid : string) (result : option Result)
    (error : bool) (s : State) :
  match BlendSearch_on_trial_complete tid result error s with
  | (Ok _, s') => _trial_proposed_by s' = released tid s
  | (Raise _, s') =>
      _trial_proposed_by s' = released tid s
      \/ _trial_proposed_by s' = _trial_proposed_by s
  end.
Proof.
  unfold BlendSearch_on_trial_complete. unfold bind at 1.
  pose proof (constraint_phase_table s result error s (conj eq_refl eq_refl))
    as C.
  destruct (constraint_phase result error s) as [[[r1 sat] | e] s1];
    cbn [snd] in C; [| right; apply C].
  pose proof (delivery_table tid r1 error sat s1) as D.
  rewrite (released_same tid s s1 C) in D.
  unfold bind.
  destruct (delivery tid r1 error sat s1) as [[u | e] s2]; cbn [snd] in D;
    [exact D | left; exact D].
Qed.

(** X15. The trial table after [on_trial_complete], whether the call
    returns or raises: the table is the former one, or the former one
    without the completed trial.  When the call returns, the trial has
    been released if its owner on record was in the pool, so that a
    second completion of that trial is the completion of a trial without
    owner; when the trial has no owner on record, or its owner is no
    longer in the pool, the table is left as it is, in every outcome. *)
Theorem completion_releases_trial (trial_id : string)
    (result : option Result) (error : bool) (s : State) :
  let s' := snd (on_trial_complete trial_id result error s) in
  (_trial_proposed_by s' = _trial_proposed_by s
   \/ _trial_proposed_by s' = Dict.remove trial_id (_trial_proposed_by s))
  /\ (forall id,
        Dict.get trial_id (_trial_proposed_by s) = Some id ->
        Dict.mem id (_search_thread_pool s) = true ->
        fst (on_trial_complete trial_id result error s) = Ok tt ->
        _trial_proposed_by s' = Dict.remove trial_id (_trial_proposed_by s)
        /\ Dict.get trial_id (_trial_proposed_by s') = None)
  /\ ((Dict.get trial_id (_trial_proposed_by s) = None
       \/ exists id,
            Dict.get trial_id (_trial_proposed_by s) = Some id
            /\ Dict.mem id (_search_thread_pool s) = false) ->
      _trial_proposed_by s' = _trial_proposed_by s).
Proof.
  assert (H : match on_trial_complete trial_id result error s with
              | (Ok _, s') => _trial_proposed_by s' = released trial_id s
              | (Raise _, s') =>
                  _trial_proposed_by s' = released trial_id s
                  \/ _trial_proposed_by s' = _trial_proposed_by s
              end).
  { pose proof (base_complete_table trial_id result error s) as B.
    unfold on_trial_complete. unfold bind at 1. unfold gets at 1.
    cbv beta iota. destruct (cls s).
    - unfold bind.
      destruct (BlendSearch_on_trial_complete trial_id result error s)
        as [[u | e] s1]; exact B.
    - unfold CFO_on_trial_complete. unfold bind at 1.
      destruct (BlendSearch_on_trial_complete trial_id result error s)
        as [[u | e] s1]; [| exact B].
      match goal with
      | |- match ?m s1 with _ => _ end =>
          assert (K : preserves (table_is (released trial_id s)) m)
      end.
      { pose proof (table_from_best (released trial_id s)). pres; stable. }
      specialize (K s1 B).
      match goal with
      | |- match ?m s1 with _ => _ end =>
          destruct (m s1) as [[u' | e] s2]
      end; cbn [snd] in K; [exact K | left; exact K]. }
  cbv zeta.
  destruct (on_trial_complete trial_id result error s) as [[u | e] s'];
    cbn [fst snd]; unfold released in H.
  - split; [| split].
    + destruct (Dict.get trial_id (_trial_proposed_by s)) as [id |];
        [destruct (Dict.mem id (_search_thread_pool s)) |]; auto.
    + intros id G Mm _. rewrite G, Mm in H. split; [exact H |].
      rewrite H. apply get_remove_eq.
    + intros [G | (id & G & Mm)]; rewrite G in H; [exact H |].
      rewrite Mm in H. exact H.
  - split; [| split].
    + destruct H as [H | H]; [| auto].
      destruct (Dict.get trial_id (_trial_proposed_by s)) as [id |];
        [destruct (Dict.mem id (_search_thread_pool s)) |]; auto.
    + intros id _ _ F. discriminate F.
    + intros [G | (id & G & Mm)]; destruct H as [H | H]; auto;
        rewrite G in H; [exact H |].
      rewrite Mm in H. exact H.
Qed.

End Release.

Lemma completion_releases_trial_witness :
  let s := Toy.plain_run [Suggest "t1"] (Toy.plain BlendSearch) in
  Dict.get "t1"%string
    (_trial_proposed_by
       (snd (@on_trial_complete Z unit Toy.thread Toy.plain_search
               Toy.search_thread "t1"
               (Some [("loss"%string, Fin 3); ("config/x"%string, Fin 0)])
               false s)))
  = None.
Proof.
  exact (proj2 (proj1 (proj2
           (@completion_releases_trial Z unit Toy.thread Toy.plain_search
              Toy.search_thread "t1"%string
              (Some [("loss"%string, Fin 3); ("config/x"%string, Fin 0)])
              false (Toy.plain_run [Suggest "t1"] (Toy.plain BlendSearch))))
           0%Z eq_refl eq_refl eq_refl)).
Defined.

(** ** What the pruning pass deletes *)

Section Pruning.

Context {Sig Env Thread : Type}.
Context {LS : LocalSearch Sig Env} {ST : SearchThread Thread Env}.

Abbreviation State := (@State Sig Env Thread).
Abbreviation M := (@M Sig Env Thread).

(** [id] is a local thread other than [thread_id] *)
Definition other_local (thread_id id : Z) : bool :=
  negb (id =? 0)%Z && negb (id =? thread_id)%Z.

Lemma inferior_to_spec (pool : dict Z Thread) (thread_id : Z)
    (ids acc l : list Z) (x : Z) :
  inferior_to pool thread_id ids acc = Ok l ->
  (In x l <->
   In x acc
   \/ (In x ids /\ other_local thread_id x = true
       /\ _inferior pool x thread_id = Ok true)).
Proof.
  revert acc. induction ids as [| id ids IH]; intros acc; cbn [inferior_to].
  - intros E. injection E as <-. split; [auto | intros [H | [[] _]]; exact H].
  - fold (other_local thread_id id).
    destruct (other_local thread_id id) eqn:G.
    + destruct (_inferior pool id thread_id) as [[|] | e] eqn:I;
        [| | discriminate]; intros E; rewrite (IH _ E); split.
      * intros [H | (H1 & H2 & H3)].
        -- apply in_set_add_inv in H. destruct H as [-> | H]; [| auto].
           right. split; [left; reflexivity | auto].
        -- right. split; [right; exact H1 | auto].
      * intros [H | ([-> | H1] & H2 & H3)].
        -- left. unfold set_add. destruct (existsb (Z.eqb id) acc); [exact H |].
           apply in_or_app. left. exact H.
        -- left. apply in_set_add.
        -- right. auto.
      * intros [H | (H1 & H2 & H3)]; [auto |].
        right. split; [right; exact H1 | auto].
      * intros [H | ([-> | H1] & H2 & H3)]; [auto | congruence | auto].
    + intros E. rewrite (IH _ E). split.
      * intros [H | (H1 & H2 & H3)]; [auto |].
        right. split; [right; exact H1 | auto].
      * intros [H | ([-> | H1] & H2 & H3)]; [auto | congruence | auto].
Qed.

Lemma inferior_to_some_spec (pool : dict Z Thread) (thread_id : Z)
    (ids : list Z) (b : bool) :
  inferior_to_some pool thread_id ids = Ok b ->
  (b = true <->
   exists id, In id ids /\ other_local thread_id id = true
              /\ _inferior pool thread_id id = Ok true).
Proof.
  induction ids as [| id ids IH]; cbn [inferior_to_some].
  - intros E. injection E as <-. split; [discriminate | intros (id & [] & _)].
  - fold (other_local thread_id id).
    destruct (other_local thread_id id) eqn:G.
    + destruct (_inferior pool thread_id id) as [[|] | e] eqn:I;
        [| | discriminate]; intros E.
      * injection E as <-. split; [intros _ | reflexivity].
        exists id. split; [left; reflexivity | auto].
      * rewrite (IH E). split.
        -- intros (x & H1 & H2 & H3). exists x. split; [right; exact H1 | auto].
        -- intros (x & [-> | H1] & H2 & H3); [congruence |].
           exists x. auto.
    + intros E. rewrite (IH E). split.
      * intros (x & H1 & H2 & H3). exists x. split; [right; exact H1 | auto].
      * intros (x & [-> | H1] & H2 & H3); [congruence |].
        exists x. auto.
Qed.

(** the pool without the threads of a list *)
Definition remove_all (l : list Z) (pool : dict Z Thread) : dict Z Thread :=
  fold_left (fun d id => Dict.remove id d) l pool.

Lemma deletions_run (l : list Z) (s : State) :
  for_each l
    (fun id =>
       modify (fun s0 : State =>
         set_search_thread_pool (Dict.remove id (_search_thread_pool s0)) s0))
    s
  = (Ok tt, set_search_thread_pool (remove_all l (_search_thread_pool s)) s).
Proof.
  revert s. induction l as [| x l IH]; intros s; cbn [for_each].
  - unfold ret, remove_all. cbn. destruct s; reflexivity.
  - unfold bind at 1. unfold modify at 1. cbv beta iota. rewrite IH.
    reflexivity.
Qed.

Lemma get_remove_all (l : list Z) (pool : dict Z Thread) (id : Z) :
  Dict.get id (remove_all l pool)
  = if existsb (Z.eqb id) l then None else Dict.get id pool.
Proof.
  revert pool. induction l as [| x l IH]; intros pool; cbn; [reflexivity |].
  unfold remove_all in *. cbn [fold_left]. rewrite IH.
  destruct (existsb (Z.eqb id) l); [rewrite orb_true_r; reflexivity |].
  rewrite orb_false_r.
  destruct (Z.eqb_spec id x) as [-> | N].
  - apply get_remove_eq.
  - apply get_remove_neq. auto.
Qed.


(** the threads that the pruning pass for [thread_id] deletes: the other
    local threads that are inferior to it, and the thread itself when it
    has converged or is inferior to another local thread *)
Definition pruned (pool : dict Z Thread) (thread_id : Z) (t : Thread)
    (id : Z) : Prop :=
  (In id (Dict.keys pool) /\ other_local thread_id id = true
   /\ _inferior pool id thread_id = Ok true)
  \/ (id = thread_id
      /\ (converged t = true
          \/ exists id', In id' (Dict.keys pool)
                         /\ other_local thread_id id' = true
                         /\ _inferior pool thread_id id' = Ok true)).

(** the pool and the thread count are those of [s0] *)
Definition pool_is (s0 s : State) : Prop :=
  _search_thread_pool s = _search_thread_pool s0
  /\ _thread_count s = _thread_count s0.

(** the threads with an id below [bound] are those of [pool], and new
    threads get an id from [bound] on *)
Definition old_threads (bound : Z) (pool : dict Z Thread) (s : State) : Prop :=
  (bound <= _thread_count s)%Z
  /\ forall id, (id < bound)%Z ->
        Dict.get id (_search_thread_pool s) = Dict.get id pool.

Lemma old_threads_update (bound : Z) (pool : dict Z Thread) (c : Config)
    (w : region) :
  preserves (old_threads bound pool) (_update_admissible_region c w).
Proof. apply update_region_keeps; destruct w; stable. Qed.

Lemma old_threads_create (bound : Z) (pool : dict Z Thread) (c : Config)
    (r : Result) :
  preserves (old_threads bound pool) (_create_thread c r).
Proof.
  unfold _create_thread.
  apply pres_bind; [apply pres_item | intros obj].
  apply pres_bind; [apply pres_with_env; stable | intros t].
  intros s H.
  unfold bind at 1. unfold modify at 1. cbv beta iota.
  unfold bind at 1. unfold modify at 1. cbv beta iota.
  apply old_threads_update. destruct H as [B G]. split.
  - cbn. lia.
  - intros id L. cbn. rewrite get_set_neq; [apply G; exact L | lia].
Qed.

Lemma old_threads_from_best (bound : Z) (pool : dict Z Thread) :
  preserves (old_threads bound pool) _create_thread_from_best_candidate.
Proof.
  apply from_best_keeps; try (stable; fail). apply old_threads_create.
Qed.

Lemma in_existsb (id : Z) (l : list Z) :
  existsb (Z.eqb id) l = true <-> In id l.
Proof.
  rewrite existsb_exists. split.
  - intros (x & I & E). apply Z.eqb_eq in E. subst x. exact I.
  - intros I. exists id. split; [exact I | apply Z.eqb_refl].
Qed.

Lemma in_set_add_iff (id x : Z) (l : list Z) :
  In x (set_add id l) <-> x = id \/ In x l.
Proof.
  split; [apply in_set_add_inv |].
  intros [-> | I]; [apply in_set_add |].
  unfold set_add. destruct (existsb (Z.eqb id) l); [exact I |].
  apply in_or_app. left. exact I.
Qed.

(** X16. The pruning pass [_clean thread_id], when it returns: of the
    threads that were in the pool it deletes the other local threads
    that are inferior to [thread_id], and [thread_id] itself when it has
    converged or is inferior to another local thread; every other thread
    is left in the pool as it was, thread 0 among them. *)
Theorem clean_deletes (thread_id : Z) (t : Thread) (s s' : State) :
  Dict.get thread_id (_search_thread_pool s) = Some t ->
  _clean thread_id s = (Ok tt, s') ->
  (forall id,
     (id < _thread_count s)%Z ->
     (pruned (_search_thread_pool s) thread_id t id ->
      Dict.get id (_search_thread_pool s') = None)
     /\ (~ pruned (_search_thread_pool s) thread_id t id ->
         Dict.get id (_search_thread_pool s')
         = Dict.get id (_search_thread_pool s)))
  /\ ~ pruned (_search_thread_pool s) thread_id t 0%Z.
Proof.
  intros G E. unfold _clean in E.
  destruct (thread_id =? 0)%Z eqn:Z0; [discriminate E |].
  apply Z.eqb_neq in Z0.
  unfold bind at 1 in E. unfold gets at 1 in E. cbv beta iota in E.
  unfold bind at 1 in E. unfold lift at 1 in E.
  destruct (inferior_to (_search_thread_pool s) thread_id
              (Dict.keys (_search_thread_pool s)) []) as [td | e] eqn:Etd;
    [| discriminate E].
  unfold bind at 1 in E. unfold lift at 1 in E.
  destruct (inferior_to_some (_search_thread_pool s) thread_id
              (Dict.keys (_search_thread_pool s))) as [dom | e] eqn:Edom;
    [| discriminate E].
  cbv zeta in E.
  unfold bind at 1 in E. unfold item at 1 in E. rewrite G in E.
  unfold ret at 1 in E. cbv beta iota in E.
  unfold bind at 1 in E.
  match type of E with
  | context [match ?m s with _ => _ end] =>
      assert (Hb : preserves (pool_is s) m);
        [| pose proof (Hb s (conj eq_refl eq_refl)) as Pb;
           destruct (m s) as [[create_new | e] s1]; [| discriminate E] ]
  end.
  { pose proof (expand_keeps (pool_is s)) as Hx. pres; stable. }
  cbn [snd] in Pb. destruct Pb as [Pp Pc].
  unfold bind at 1 in E. rewrite deletions_run in E.
  set (todelete := if converged t
                   then set_add thread_id
                          (if dom then set_add thread_id td else td)
                   else if dom then set_add thread_id td else td) in E.
  set (s2 := set_search_thread_pool
               (remove_all todelete (_search_thread_pool s1)) s1) in E.
  assert (O2 : old_threads (_thread_count s)
                 (remove_all todelete (_search_thread_pool s)) s2).
  { split; [cbn; lia |]. intros id _. cbn. rewrite Pp. reflexivity. }
  assert (O' : old_threads (_thread_count s)
                 (remove_all todelete (_search_thread_pool s)) s').
  { destruct create_new.
    - pose proof (old_threads_from_best _ _ s2 O2) as K.
      rewrite E in K. exact K.
    - injection E as <-. exact O2. }
  assert (Del : forall id,
            In id todelete
            <-> pruned (_search_thread_pool s) thread_id t id).
  { intros id. unfold pruned.
    pose proof (inferior_to_spec _ _ _ _ _ id Etd) as Std.
    pose proof (inferior_to_some_spec _ _ _ _ Edom) as Sdom.
    assert (Td : In id td
                 <-> In id (Dict.keys (_search_thread_pool s))
                     /\ other_local thread_id id = true
                     /\ _inferior (_search_thread_pool s) id thread_id
                        = Ok true).
    { rewrite Std. split; [intros [[] | H]; exact H | auto]. }
    assert (Other : other_local thread_id thread_id = false).
    { unfold other_local. rewrite Z.eqb_refl, andb_false_r. reflexivity. }
    unfold todelete.
    destruct (converged t), dom; rewrite ?in_set_add_iff, Td;
      split; intros H.
    all: repeat match goal with
         | H : _ \/ _ |- _ => destruct H
         | H : _ /\ _ |- _ => destruct H
         | H : exists _, _ |- _ => destruct H
         end; subst; auto.
    all: try (right; split; [reflexivity |]; auto; fail).
    all: try (right; split; [reflexivity |]; right; apply Sdom; reflexivity).
    all: try congruence.
    all: try (match goal with
              | H : In ?x _, H1 : other_local _ ?x = true,
                H2 : _inferior _ _ ?x = Ok true |- _ =>
                  assert (F : false = true)
                    by (apply Sdom; exists x; auto); discriminate F
              end). }
  split.
  - intros id L. destruct O' as [_ O']. rewrite (O' id L), get_remove_all.
    split.
    + intros P. apply Del in P. apply in_existsb in P. rewrite P. reflexivity.
    + intros NP. destruct (existsb (Z.eqb id) todelete) eqn:X; [| reflexivity].
      apply in_existsb in X. apply Del in X. contradiction.
  - intros [(_ & O & _) | (F & _)]; [discriminate O | congruence].
Qed.

End Pruning.

(** a coordinator whose pool holds the global thread and the two local
    threads of [inferior_pool] *)
Definition toy_two_locals : @State Z unit Toy.thread :=
  set_thread_count 3%Z
    (set_search_thread_pool
       ((0%Z, @new_global_thread Toy.thread unit Toy.search_thread)
          :: inferior_pool)
       (Toy.plain BlendSearch)).

Lemma clean_deletes_witness :
  let s' := snd (@_clean Z unit Toy.thread Toy.plain_search
                   Toy.search_thread 1%Z toy_two_locals) in
  Dict.get 2%Z (_search_thread_pool s') = None
  /\ Dict.get 1%Z (_search_thread_pool s')
     = Dict.get 1%Z (_search_thread_pool toy_two_locals).
Proof.
  assert (E : @_clean Z unit Toy.thread Toy.plain_search Toy.search_thread
                1%Z toy_two_locals
              = (Ok tt,
                 snd (@_clean Z unit Toy.thread Toy.plain_search
                        Toy.search_thread 1%Z toy_two_locals)))
    by (vm_compute; reflexivity).
  destruct (@clean_deletes Z unit Toy.thread Toy.plain_search
              Toy.search_thread 1%Z _ toy_two_locals _ eq_refl E)
    as [D _].
  split.
  - apply (proj1 (D 2%Z ltac:(cbn; lia))).
    left. split; [cbn; auto | split; reflexivity].
  - apply (proj2 (D 1%Z ltac:(cbn; lia))).
    intros [(_ & O & _) | (_ & [C | (id' & I & O & F)])];
      [discriminate O | discriminate C |].
    cbn in I. destruct I as [<- | [<- | [<- | []]]]; discriminate.
Defined.

(** ** The admissible regions stay well formed *)

Section DictUpdateKeys.

Context {K V : Type} `{EqDec K}.

Lemma keys_update (d other : dict K V) :
  (forall k, In k (Dict.keys other) -> In k (Dict.keys d)) ->
  Dict.keys (Dict.update d other) = Dict.keys d.
Proof.
  unfold Dict.update. generalize (Dict.keys other) as ks.
  intros ks. revert d.
  induction ks as [| k ks IH]; intros d Hin; cbn [fold_left];
    [reflexivity |].
  assert (Kd : Dict.keys (match Dict.get k other with
                          | Some v => Dict.set k v d
                          | None => d
                          end) = Dict.keys d).
  { destruct (Dict.get k other) as [v |]; [| reflexivity].
    destruct (in_keys_get k d (Hin k (or_introl eq_refl))) as [v0 G].
    eapply keys_set_present; eauto. }
  rewrite IH; [exact Kd |].
  intros k' I. rewrite Kd. apply Hin. right. exact I.
Qed.

End DictUpdateKeys.

Section Regions.

Context {Sig Env Thread : Type}.
Context {LS : LocalSearch Sig Env} {ST : SearchThread Thread Env}.

Abbreviation State := (@State Sig Env Thread).
Abbreviation M := (@M Sig Env Thread).

(** the region has the dimensions [dims], in that order, for its minima
    and for its maxima, and no minimum is above its maximum *)
Definition region_sound (dims : list string) (w : region) (s : State)
    : Prop :=
  Dict.keys (box_min w s) = dims
  /\ Dict.keys (box_max w s) = dims
  /\ ordered w s.

Definition regions_sound (dims : list string) (s : State) : Prop :=
  region_sound dims LocalBox s /\ region_sound dims GlobalBox s.

Lemma sound_raise_max (dims : list string) (w : region) (key : string)
    (hi value : num) (s : State) :
  region_sound dims w s ->
  Dict.get key (box_max w s) = Some hi ->
  num_le hi value ->
  region_sound dims w (set_box_max w (Dict.set key value (box_max w s)) s).
Proof.
  intros (Kmin & Kmax & Ho) G L. unfold region_sound, ordered.
  rewrite box_min_set_max, box_max_set_max.
  split; [exact Kmin | split].
  - erewrite keys_set_present; [exact Kmax | exact G].
  - intros k lo hi'. rewrite get_set. destruct (eqb key k) eqn:E.
    + apply eqb_eq in E. subst k. intros Glo E'. injection E' as <-.
      pose proof (Ho key lo hi Glo G) as L0.
      destruct L as [<- | L]; [exact L0 | eapply fle_trans; eauto].
    + apply Ho.
Qed.

Lemma sound_lower_min (dims : list string) (w : region) (key : string)
    (lo value : num) (s : State) :
  region_sound dims w s ->
  Dict.get key (box_min w s) = Some lo ->
  num_le value lo ->
  region_sound dims w (set_box_min w (Dict.set key value (box_min w s)) s).
Proof.
  intros (Kmin & Kmax & Ho) G L. unfold region_sound, ordered.
  rewrite box_min_set_min, box_max_set_min.
  split; [| split; [exact Kmax |]].
  - erewrite keys_set_present; [exact Kmin | exact G].
  - intros k lo' hi. rewrite get_set. destruct (eqb key k) eqn:E.
    + apply eqb_eq in E. subst k. intros E' Ghi. injection E' as <-.
      pose proof (Ho key lo hi G Ghi) as L0.
      destruct L as [-> | L]; [exact L0 | eapply fle_trans; eauto].
    + apply Ho.
Qed.

(** an assignment to a bound of one region leaves the other as it is *)
Lemma other_region_max (dims : list string) (w : region) (b : Box)
    (s : State) :
  region_sound dims
    (match w with LocalBox => GlobalBox | GlobalBox => LocalBox end) s ->
  region_sound dims
    (match w with LocalBox => GlobalBox | GlobalBox => LocalBox end)
    (set_box_max w b s).
Proof. destruct w; exact (fun H => H). Qed.

Lemma other_region_min (dims : list string) (w : region) (b : Box)
    (s : State) :
  region_sound dims
    (match w with LocalBox => GlobalBox | GlobalBox => LocalBox end) s ->
  region_sound dims
    (match w with LocalBox => GlobalBox | GlobalBox => LocalBox end)
    (set_box_min w b s).
Proof. destruct w; exact (fun H => H). Qed.

Lemma regions_both (dims : list string) (w : region) (s : State) :
  regions_sound dims s
  <-> region_sound dims w s
      /\ region_sound dims
           (match w with LocalBox => GlobalBox | GlobalBox => LocalBox end) s.
Proof. unfold regions_sound. destruct w; tauto. Qed.

Lemma regions_update (dims : list string) (c : Config) (w : region) :
  preserves (regions_sound dims) (_update_admissible_region c w).
Proof.
  unfold _update_admissible_region.
  apply pres_bind; [apply pres_gets | intros ks].
  apply pres_for_each. intros key s H.
  apply (regions_both dims w) in H. destruct H as [Hw Ho].
  run. destruct (Dict.get key (normalize c)) as [value |];
    [| apply (regions_both dims w); auto].
  destruct (Dict.get key (box_max w s)) as [hi |] eqn:Ghi;
    [| apply (regions_both dims w); auto].
  destruct (value >. hi) eqn:Up.
  - cbn [snd]. apply (regions_both dims w). split.
    + eapply sound_raise_max; eauto. right. apply flt_fle. exact Up.
    + apply other_region_max. exact Ho.
  - run. destruct (Dict.get key (box_min w s)) as [lo |] eqn:Glo;
      [| apply (regions_both dims w); auto].
    destruct (value <. lo) eqn:Down; [| apply (regions_both dims w); auto].
    cbn [snd]. apply (regions_both dims w). split.
    + eapply sound_lower_min; eauto. right. apply flt_fle. exact Down.
    + apply other_region_min. exact Ho.
Qed.

Lemma regions_growth (dims : list string) :
  growth_closed (regions_sound dims).
Proof.
  split.
  - intros s key hi v [Hl Hg] G L. split; [| exact Hg].
    apply (sound_raise_max dims LocalBox key hi v s Hl G L).
  - intros s key lo v [Hl Hg] G L. split; [| exact Hg].
    apply (sound_lower_min dims LocalBox key lo v s Hl G L).
Qed.

Lemma regions_expand (dims : list string) (slack : Q) :
  STEPSIZE = Fin slack -> (0 <= slack)%Q ->
  preserves (regions_sound dims) _expand_admissible_region.
Proof.
  intros HS Hpos. eapply expand_closed; eauto. apply regions_growth.
Qed.

(** the reset of the global region to the local one *)
Lemma regions_sync (dims : list string) :
  preserves (regions_sound dims) sync_admissible_region.
Proof.
  intros s [(Lmin & Lmax & Lo) (Gmin & Gmax & Go)].
  unfold sync_admissible_region. run. cbn [snd].
  cbn [box_min box_max] in *.
  split; [split; [exact Lmin | split; [exact Lmax | exact Lo]] |].
  unfold region_sound, ordered.
  cbn [box_min box_max _gs_admissible_min _gs_admissible_max
       set_gs_admissible_min set_gs_admissible_max _ls_bound_min
       _ls_bound_max].
  split; [| split].
  - rewrite keys_update; [exact Gmin | rewrite Lmin, Gmin; auto].
  - rewrite keys_update; [exact Gmax | rewrite Lmax, Gmax; auto].
  - intros key lo hi. rewrite !get_update.
    destruct (Dict.get key (_ls_bound_min s)) as [lo' |] eqn:G1.
    + intros E. injection E as <-.
      destruct (in_keys_get key (_ls_bound_max s)) as [hi' G2].
      { rewrite Lmax, <- Lmin. eapply get_in_keys; eauto. }
      rewrite G2. intros E. injection E as <-. eapply Lo; eauto.
    + destruct (Dict.get key (_ls_bound_max s)) as [hi' |] eqn:G2.
      * exfalso. apply get_in_keys in G2. rewrite Lmax, <- Lmin in G2.
        apply in_keys_get in G2. destruct G2 as [v G2]. congruence.
      * apply Go.
Qed.


Lemma regions_init (c : variant) (metric : string) (points : list Config)
    (config_constraints : list config_constraint)
    (metric_constraints : list metric_constraint) (e : Env) :
  (forall key v,
     Dict.get key (normalize init_config) = Some v -> (v <=. v) = true) ->
  regions_sound (Dict.keys (normalize init_config))
    (__init__ c metric points config_constraints metric_constraints e).
Proof.
  intros Hn. split; (split; [reflexivity | split; [reflexivity |]]);
    intros key lo hi; cbn; intros G1 G2; rewrite G1 in G2;
    injection G2 as <-; eapply Hn; eauto.
Qed.

Section RegionRuns.

Variable dims : list string.
Variable slack : Q.
Hypothesis step_finite : STEPSIZE = Fin slack.
Hypothesis step_positive : (0 <= slack)%Q.

Lemma regions_expand_here :
  preserves (regions_sound dims) _expand_admissible_region.
Proof using step_finite step_positive.
  apply (regions_expand dims slack); assumption.
Qed.

Lemma regions_create (c : Config) (r : Result) :
  preserves (regions_sound dims) (_create_thread c r).
Proof using Type.
  apply create_thread_frame; try (stable; fail).
  intros c0. apply regions_update.
Qed.

Lemma regions_from_best :
  preserves (regions_sound dims) _create_thread_from_best_candidate.
Proof using Type.
  apply from_best_frame; try (stable; fail). intros c. apply regions_update.
Qed.

Lemma regions_clean (id : Z) : preserves (regions_sound dims) (_clean id).
Proof using step_finite step_positive.
  apply clean_frame; try (stable; fail).
  - intros c. apply regions_update.
  - apply regions_expand_here.
Qed.

Lemma regions_record (tid : string) (r : Result) (e sat : bool)
    (th : option Z) :
  preserves (regions_sound dims) (record_result tid r e sat th).
Proof using step_finite step_positive.
  pose proof regions_expand_here. pose proof regions_create.
  pose proof (regions_sync dims).
  pose proof (create_condition_keeps (regions_sound dims)).
  unfold record_result. pres; stable.
Qed.

Lemma regions_register (choice : Z) (c : Config) :
  preserves (regions_sound dims) (register_proposal choice c).
Proof using Type.
  pose proof (regions_update dims). pose proof (regions_sync dims).
  unfold register_proposal. pres; stable.
Qed.

Lemma regions_should_skip (choice : Z) (tid : string) (c : option Config) :
  preserves (regions_sound dims) (_should_skip choice tid c).
Proof using step_finite step_positive.
  apply should_skip_keeps; try (stable; fail). apply regions_clean.
Qed.

Lemma regions_propose (tid : string) (choice backup : Z) (c : Config) :
  preserves (regions_sound dims) (propose tid choice backup c).
Proof using step_finite step_positive.
  pose proof regions_register. pose proof regions_should_skip.
  pose proof (valid_keeps (regions_sound dims)).
  assert (forall id, preserves (regions_sound dims) (set_proposed_by tid id))
    by (intros; apply set_proposed_by_keeps; stable).
  assert (forall c0, preserves (regions_sound dims) (complete c0))
    by (intros; apply complete_keeps; stable).
  assert (forall id, preserves (regions_sound dims) (suggest_from id tid))
    by (intros; apply suggest_from_keeps; stable).
  unfold propose. pres; stable.
Qed.

Lemma regions_suggest (tid : string) :
  preserves (regions_sound dims) (suggest tid).
Proof using step_finite step_positive.
  pose proof regions_propose. pose proof regions_should_skip.
  pose proof regions_expand_here.
  assert (preserves (regions_sound dims) _select_thread)
    by (apply select_thread_keeps; stable).
  assert (forall id, preserves (regions_sound dims) (suggest_from id tid))
    by (intros; apply suggest_from_keeps; stable).
  assert (preserves (regions_sound dims) (suggest_init tid))
    by (apply suggest_init_keeps; stable).
  unfold suggest, CFO_suggest, BlendSearch_suggest. pres; stable.
Qed.

Lemma regions_step (c : call) (s : State) :
  regions_sound dims s -> regions_sound dims (step c s).
Proof using step_finite step_positive.
  destruct c as [tid | tid r | tid r e]; cbn [step].
  - apply regions_suggest.
  - apply on_trial_result_keeps. stable.
  - apply on_trial_complete_keeps; try (stable; fail).
    + apply regions_from_best.
    + intros tid0 r0 e0. apply base_complete_keeps; try (stable; fail).
      * apply regions_clean.
      * intros r1. apply account_keeps; stable.
      * intros. apply regions_record.
Qed.

Lemma regions_run (calls : list call) (s : State) :
  regions_sound dims s -> regions_sound dims (run calls s).
Proof using step_finite step_positive.
  unfold run. revert s.
  induction calls as [| c calls IH]; intros s H; cbn; [exact H |].
  apply IH. apply regions_step. exact H.
Qed.

End RegionRuns.

(** X17. For a non-negative [STEPSIZE] and an initial configuration
    whose normalized values are numbers: in a coordinator as constructed
    and after any sequence of calls of [suggest], [on_trial_result] and
    [on_trial_complete], whether they return or raise, the minima and
    the maxima of the local bounding box and of the global admissible
    region have the dimensions of the normalized initial configuration,
    in its order, and no minimum is above its maximum. *)
Theorem regions_stay_sound (slack : Q) :
  STEPSIZE = Fin slack ->
  (0 <= slack)%Q ->
  ((forall key v,
      Dict.get key (normalize init_config) = Some v -> (v <=. v) = true) ->
   forall c metric points config_constraints metric_constraints (e : Env)
          calls,
     regions_sound (Dict.keys (normalize init_config))
       (run calls
          (__init__ c metric points config_constraints metric_constraints e)))
  /\ (forall dims (s : State) calls,
        regions_sound dims s -> regions_sound dims (run calls s)).
Proof.
  intros HS Hpos. split.
  - intros Hn c metric points cc mc e calls.
    apply (regions_run _ slack HS Hpos). apply regions_init. exact Hn.
  - intros dims s calls. apply (regions_run _ slack HS Hpos).
Qed.

End Regions.

Lemma regions_stay_sound_witness :
  @regions_sound Z unit Toy.thread ["x"%string]
    (Toy.plain_run [Suggest "t1"; Suggest "t2"] (Toy.plain BlendSearch)).
Proof.
  assert (Hpos : (0 <= 1 # 100)%Q) by (unfold Qle; cbn; lia).
  apply (proj1 (@regions_stay_sound Z unit Toy.thread Toy.plain_search
                  Toy.search_thread (1 # 100) eq_refl Hpos)).
  intros key v. cbn. unfold Dict.get.
  destruct (eqb key "x"%string); intros E; [| discriminate E].
  injection E as <-. reflexivity.
Defined.

(** ** The expansion of the local bounding box *)

Section DictBump.

Context {K V : Type} `{EqDec K}.

(** the values under the keys of a list changed by [f], one key after
    the other *)
Definition bump (f : V -> V) (ks : list K) (d : dict K V) : dict K V :=
  fold_left
    (fun acc k =>
       match Dict.get k acc with
       | Some v => Dict.set k (f v) acc
       | None => acc
       end) ks d.

Lemma get_cons (k k' : K) (v : V) (r : dict K V) :
  Dict.get k' ((k, v) :: r) = if eqb k' k then Some v else Dict.get k' r.
Proof. reflexivity. Qed.

Lemma set_cons (k k' : K) (v x : V) (r : dict K V) :
  Dict.set k' x ((k, v) :: r)
  = if eqb k' k then (k', x) :: r else (k, v) :: Dict.set k' x r.
Proof. reflexivity. Qed.

Lemma bump_head (f : V -> V) (ks : list K) (k : K) (v : V) (r : dict K V) :
  ~ In k ks ->
  bump f ks ((k, v) :: r) = (k, v) :: bump f ks r.
Proof.
  revert v r. induction ks as [| k' ks IH]; intros v r N; [reflexivity |].
  unfold bump in *. cbn [fold_left].
  assert (Nk : k' <> k) by (intros ->; apply N; left; reflexivity).
  assert (Nks : ~ In k ks) by (intros I; apply N; right; exact I).
  rewrite get_cons, (eqb_neq Nk).
  destruct (Dict.get k' r) as [v' |].
  - rewrite set_cons, (eqb_neq Nk). apply IH. exact Nks.
  - apply IH. exact Nks.
Qed.

Lemma bump_keys (f : V -> V) (d : dict K V) :
  NoDup (Dict.keys d) -> bump f (Dict.keys d) d = Dict.map_values f d.
Proof.
  induction d as [| [k v] r IH]; intros N; [reflexivity |].
  unfold Dict.keys in *. cbn [map fst] in *.
  inversion N as [| ? ? Nin N']. subst.
  unfold bump. cbn [fold_left].
  rewrite get_cons, eqb_refl, set_cons, eqb_refl.
  fold (bump f (map fst r) ((k, f v) :: r)).
  rewrite (bump_head f (map fst r) k (f v) r Nin).
  rewrite (IH N'). reflexivity.
Qed.

Lemma keys_bump (f : V -> V) (ks : list K) (d : dict K V) :
  Dict.keys (bump f ks d) = Dict.keys d.
Proof.
  revert d. induction ks as [| k ks IH]; intros d; [reflexivity |].
  unfold bump in *. cbn [fold_left]. rewrite IH.
  destruct (Dict.get k d) as [v |] eqn:G; [| reflexivity].
  eapply keys_set_present; eauto.
Qed.

End DictBump.

Section Expansion.

Context {Sig Env Thread : Type}.
Context {LS : LocalSearch Sig Env} {ST : SearchThread Thread Env}.

Abbreviation State := (@State Sig Env Thread).
Abbreviation M := (@M Sig Env Thread).

(** the state with the local bounding box replaced *)
Definition with_local_box (lo hi : Box) (s : State) : State :=
  set_ls_bound_min lo (set_ls_bound_max hi s).

Lemma with_local_box_twice (lo hi lo' hi' : Box) (s : State) :
  set_ls_bound_min lo' (set_ls_bound_max hi' (with_local_box lo hi s))
  = with_local_box lo' hi' s.
Proof. destruct s; reflexivity. Qed.

Lemma with_local_box_same (s : State) :
  with_local_box (_ls_bound_min s) (_ls_bound_max s) s = s.
Proof. destruct s; reflexivity. Qed.

(** the body of the loop of [_expand_admissible_region] *)
Definition expand_dimension (key : string) : M unit :=
  hi <- gets_item KeyError (fun s => Dict.get key (_ls_bound_max s)) ;;
  modify (fun s =>
    set_ls_bound_max (Dict.set key (hi +. STEPSIZE) (_ls_bound_max s)) s) ;;
  lo <- gets_item KeyError (fun s => Dict.get key (_ls_bound_min s)) ;;
  modify (fun s =>
    set_ls_bound_min (Dict.set key (lo -. STEPSIZE) (_ls_bound_min s)) s).

Lemma expand_region_unfold :
  _expand_admissible_region
  = (ks <- gets (fun s => Dict.keys (_ls_bound_max s)) ;;
     for_each ks expand_dimension).
Proof. reflexivity. Qed.

Lemma expand_dimension_run (key : string) (lo hi : Box) (lo0 hi0 : num)
    (s : State) :
  Dict.get key hi = Some hi0 ->
  Dict.get key lo = Some lo0 ->
  expand_dimension key (with_local_box lo hi s)
  = (Ok tt,
     with_local_box (Dict.set key (lo0 -. STEPSIZE) lo)
       (Dict.set key (hi0 +. STEPSIZE) hi) s).
Proof.
  intros Ghi Glo. unfold expand_dimension. run.
  cbn [_ls_bound_max _ls_bound_min with_local_box set_ls_bound_min
       set_ls_bound_max].
  rewrite Ghi.
  cbn [_ls_bound_max _ls_bound_min with_local_box set_ls_bound_min
       set_ls_bound_max].
  rewrite Glo. destruct s; reflexivity.
Qed.

Lemma expand_loop (ks : list string) (lo hi : Box) (s : State) :
  (forall key, In key ks -> In key (Dict.keys hi)) ->
  Dict.keys lo = Dict.keys hi ->
  for_each ks expand_dimension (with_local_box lo hi s)
  = (Ok tt,
     with_local_box (bump (fun v => v -. STEPSIZE) ks lo)
       (bump (fun v => v +. STEPSIZE) ks hi) s).
Proof.
  revert lo hi. induction ks as [| key ks IH]; intros lo hi Hin Hk;
    [reflexivity |].
  cbn [for_each]. unfold bind at 1.
  destruct (in_keys_get key hi (Hin key (or_introl eq_refl))) as [hi0 Ghi].
  destruct (in_keys_get key lo) as [lo0 Glo].
  { rewrite Hk. apply Hin. left. reflexivity. }
  rewrite (expand_dimension_run key lo hi lo0 hi0 s Ghi Glo).
  rewrite IH.
  - unfold bump. cbn [fold_left]. rewrite Ghi, Glo. reflexivity.
  - intros k I. erewrite keys_set_present; [| exact Ghi].
    apply Hin. right. exact I.
  - erewrite !keys_set_present; eauto.
Qed.

(** a dimension that the minima lack stops the loop *)
Lemma expand_loop_missing (ks : list string) (key : string) (s : State) :
  In key ks ->
  Dict.mem key (_ls_bound_min s) = false ->
  fst (for_each ks expand_dimension s) = Raise KeyError.
Proof.
  revert s. induction ks as [| k ks IH]; intros s I Mm; [destruct I |].
  cbn [for_each]. unfold bind at 1.
  assert (Step : match expand_dimension k s with
                 | (Ok _, s1) =>
                     k <> key /\ Dict.mem key (_ls_bound_min s1) = false
                 | (Raise e, _) => e = KeyError
                 end).
  { unfold expand_dimension. run.
    destruct (Dict.get k (_ls_bound_max s)) as [hi |]; [| reflexivity].
    cbn [_ls_bound_min set_ls_bound_max].
    destruct (Dict.get k (_ls_bound_min s)) as [lo |] eqn:Glo;
      [| reflexivity].
    assert (N : k <> key).
    { intros ->. unfold Dict.mem in Mm. rewrite Glo in Mm. discriminate Mm. }
    split; [exact N |]. cbn. unfold Dict.mem in *.
    rewrite get_set_neq; auto. }
  destruct (expand_dimension k s) as [[u | e] s1]; cbn [fst].
  - destruct Step as [N Mm1]. apply IH; [| exact Mm1].
    destruct I as [-> | I]; [contradiction | exact I].
  - rewrite Step. reflexivity.
Qed.

(** X18. [_expand_admissible_region] on a local bounding box whose
    minima and maxima have the same dimensions: the call returns, every
    maximum has been raised by [STEPSIZE] and every minimum lowered by
    [STEPSIZE], and nothing else has changed.  When the minima lack a
    dimension of the maxima the call raises [KeyError]. *)
Theorem expand_moves_every_bound (s : State) :
  (Dict.keys (_ls_bound_min s) = Dict.keys (_ls_bound_max s) ->
   NoDup (Dict.keys (_ls_bound_max s)) ->
   _expand_admissible_region s
   = (Ok tt,
      with_local_box
        (Dict.map_values (fun v => v -. STEPSIZE) (_ls_bound_min s))
        (Dict.map_values (fun v => v +. STEPSIZE) (_ls_bound_max s)) s))
  /\ (forall key,
        In key (Dict.keys (_ls_bound_max s)) ->
        Dict.mem key (_ls_bound_min s) = false ->
        fst (_expand_admissible_region s) = Raise KeyError).
Proof.
  split.
  - intros Hk N. rewrite expand_region_unfold.
    unfold bind at 1. unfold gets at 1. cbv beta iota.
    rewrite <- (with_local_box_same s) at 2.
    rewrite expand_loop; [| auto | exact Hk].
    rewrite (bump_keys _ _ N). rewrite <- Hk at 1.
    rewrite bump_keys; [reflexivity | rewrite Hk; exact N].
  - intros key I Mm. rewrite expand_region_unfold.
    unfold bind at 1. unfold gets at 1. cbv beta iota.
    apply (expand_loop_missing _ key s I Mm).
Qed.

End Expansion.

Lemma expand_moves_every_bound_witness :
  @_expand_admissible_region Z unit Toy.thread Toy.plain_search
    (Toy.plain BlendSearch)
  = (Ok tt,
     with_local_box [("x"%string, Fin (-1 # 100))]
       [("x"%string, Fin (1 # 100))] (Toy.plain BlendSearch)).
Proof.
  refine (eq_trans
            (proj1 (@expand_moves_every_bound Z unit Toy.thread
                      Toy.plain_search (Toy.plain BlendSearch))
               eq_refl _) eq_refl).
  repeat constructor. intros [].
Defined.

(** ** The best candidate start point *)

(** the running minimum of [min]: the start value or an item of the
    list below it, that no item of the list is below *)
Lemma fold_min_spec (l : list num) (m0 : num) :
  let m := fold_left (fun m y => if y <. m then y else m) l m0 in
  (m = m0 \/ (In m l /\ (m <. m0) = true))
  /\ forall x, In x l -> (x <. m) = false.
Proof.
  revert m0. induction l as [| y l IH]; intros m0; cbn [fold_left].
  - split; [left; reflexivity | intros x []].
  - specialize (IH (if y <. m0 then y else m0)).
    cbv zeta in IH |- *.
    set (m := fold_left (fun m y0 => if y0 <. m then y0 else m) l
                (if y <. m0 then y else m0)) in *.
    destruct IH as (Rel & All).
    destruct (y <. m0) eqn:C.
    + split.
      * right. destruct Rel as [-> | [I L]].
        -- split; [left; reflexivity | exact C].
        -- split; [right; exact I | eapply flt_trans; eauto].
      * intros x [<- | I]; [| apply All; exact I].
        destruct Rel as [-> | [_ L]]; [apply flt_irrefl |].
        apply flt_asym. exact L.
    + split.
      * destruct Rel as [-> | [I L]]; [left; reflexivity |].
        right. split; [right; exact I | exact L].
      * intros x [<- | I]; [| apply All; exact I].
        destruct Rel as [-> | [_ L]]; [exact C |].
        destruct (y <. m) eqn:E; [| reflexivity].
        rewrite (flt_trans _ _ _ E L) in C. discriminate C.
Qed.

Lemma fmin_list_spec (l : list num) (m : num) :
  fmin_list l = Some m ->
  In m l /\ forall x, In x l -> (x <. m) = false.
Proof.
  destruct l as [| x0 l]; [discriminate |].
  unfold fmin_list. intros E. injection E as <-.
  destruct (fold_min_spec l x0) as (Rel & All). cbv zeta in Rel, All.
  split.
  - destruct Rel as [-> | [I _]]; [left; reflexivity | right; exact I].
  - intros x [<- | I]; [| apply All; exact I].
    destruct Rel as [-> | [_ L]]; [apply flt_irrefl |].
    apply flt_asym. exact L.
Qed.

Section BestCandidate.

Context {Sig Env Thread : Type}.
Context {LS : LocalSearch Sig Env} {ST : SearchThread Thread Env}.

Abbreviation State := (@State Sig Env Thread).
Abbreviation M := (@M Sig Env Thread).

(** the sign-adjusted objective of a record *)
Definition adjusted (r : Result) : option num :=
  match Dict.get ls_metric r with
  | Some v => Some (v *: metric_op)
  | None => None
  end.

(** every record of the list holds the metric *)
Definition all_scored {A} (l : list (A * Result)) : Prop :=
  forall a r, In (a, r) l -> exists v, Dict.get ls_metric r = Some v.

Lemma objectives_spec {A} (l : list (A * Result)) :
  all_scored l ->
  exists objs,
    objectives l = Ok objs
    /\ map fst objs = map fst l
    /\ forall a o, In (a, o) objs <->
         exists r, In (a, r) l /\ adjusted r = Some o.
Proof.
  induction l as [| [a r] l IH]; intros Hs.
  - exists []. cbn. split; [reflexivity | split; [reflexivity |]].
    intros a o. split; [intros [] | intros (r & [] & _)].
  - destruct (Hs a r (or_introl eq_refl)) as [v G].
    destruct IH as (objs & E & Ks & Hin).
    { intros a' r' I. apply (Hs a' r'). right. exact I. }
    exists ((a, v *: metric_op) :: objs). cbn [objectives].
    rewrite G, E. split; [reflexivity | split].
    + cbn. rewrite Ks. reflexivity.
    + intros a' o. split.
      * intros [X | I].
        -- injection X as <- <-. exists r. split; [left; reflexivity |].
           unfold adjusted. rewrite G. reflexivity.
        -- apply Hin in I. destruct I as (r' & I & Ad).
           exists r'. split; [right; exact I | exact Ad].
      * intros (r' & [X | I] & Ad).
        -- injection X as <- <-. unfold adjusted in Ad. rewrite G in Ad.
           injection Ad as <-. left. reflexivity.
        -- right. apply Hin. exists r'. auto.
Qed.

Lemma objectives_missing {A} (l : list (A * Result)) (a : A) (r : Result) :
  In (a, r) l -> Dict.get ls_metric r = None -> objectives l = Raise KeyError.
Proof.
  induction l as [| [a' r'] l IH]; intros I G; [destruct I |].
  cbn [objectives]. destruct I as [X | I].
  - injection X as -> ->. rewrite G. reflexivity.
  - destruct (Dict.get ls_metric r') as [v |]; [| reflexivity].
    rewrite (IH I G). reflexivity.
Qed.

(** the scan for the best candidate: the outcome is a candidate of the
    list with its sign-adjusted objective, and no candidate of the list
    has a sign-adjusted objective below it *)
Lemma best_candidate_spec (l : list (string * Result))
    (best : option (string * num)) :
  all_scored l ->
  exists out,
    best_candidate l best = Ok out
    /\ match out with
       | None => best = None /\ l = []
       | Some (tid, obj) =>
           (best = Some (tid, obj)
            \/ (exists r, In (tid, r) l /\ adjusted r = Some obj)
               /\ match best with
                  | Some (_, obj0) => (obj <. obj0) = true
                  | None => True
                  end)
           /\ forall t r o, In (t, r) l -> adjusted r = Some o ->
                (o <. obj) = false
       end.
Proof.
  revert best. induction l as [| [t r] l IH]; intros best Hs.
  - exists best. split; [reflexivity |].
    destruct best as [[tid obj] |]; [| auto].
    split; [left; reflexivity | intros t r o []].
  - destruct (Hs t r (or_introl eq_refl)) as [v G].
    assert (Hs' : all_scored l)
      by (intros a' r' I; apply (Hs a' r'); right; exact I).
    assert (Ad : adjusted r = Some (v *: metric_op))
      by (unfold adjusted; rewrite G; reflexivity).
    cbn [best_candidate]. rewrite G.
    destruct best as [[tid0 obj0] |].
    + destruct (v *: metric_op <. obj0) eqn:C.
      * destruct (IH (Some (t, v *: metric_op)) Hs') as (out & E & Sp).
        exists out. split; [exact E |].
        destruct out as [[tid obj] |]; [| destruct Sp as [F _]; discriminate F].
        destruct Sp as (Rel & All). split.
        -- right. destruct Rel as [X | [(r' & I & Ad') L]].
           ++ injection X as <- <-. split; [| exact C].
              exists r. split; [left; reflexivity | exact Ad].
           ++ split; [exists r'; split; [right; exact I | exact Ad'] |].
              eapply flt_trans; eauto.
        -- intros t' r' o [X | I] Ad'; [| eapply All; eauto].
           injection X as <- <-. rewrite Ad in Ad'. injection Ad' as <-.
           destruct Rel as [X | [_ L]];
             [injection X as <- <-; apply flt_irrefl
             | apply flt_asym; exact L].
      * destruct (IH (Some (tid0, obj0)) Hs') as (out & E & Sp).
        exists out. split; [exact E |].
        destruct out as [[tid obj] |]; [| destruct Sp as [F _]; discriminate F].
        destruct Sp as (Rel & All). split.
        -- destruct Rel as [X | [(r' & I & Ad') L]]; [left; exact X |].
           right. split; [exists r'; split; [right; exact I | exact Ad'] |].
           exact L.
        -- intros t' r' o [X | I] Ad'; [| eapply All; eauto].
           injection X as <- <-. rewrite Ad in Ad'. injection Ad' as <-.
           destruct Rel as [X | [_ L]]; [injection X as <- <-; exact C |].
           destruct (v *: metric_op <. obj) eqn:D; [| reflexivity].
           rewrite (flt_trans _ _ _ D L) in C. discriminate C.
    + destruct (IH (Some (t, v *: metric_op)) Hs') as (out & E & Sp).
      exists out. split; [exact E |].
      destruct out as [[tid obj] |]; [| destruct Sp as [F _]; discriminate F].
      destruct Sp as (Rel & All). split.
      * right. split; [| exact I].
        destruct Rel as [X | [(r' & I & Ad') L]].
        -- injection X as <- <-. exists r. split; [left; reflexivity | exact Ad].
        -- exists r'. split; [right; exact I | exact Ad'].
      * intros t' r' o [X | I] Ad'; [| eapply All; eauto].
        injection X as <- <-. rewrite Ad in Ad'. injection Ad' as <-.
        destruct Rel as [X | [_ L]];
          [injection X as <- <-; apply flt_irrefl | apply flt_asym; exact L].
Qed.


Lemma in_resolved {A} (l : list (A * option Result)) (a : A) (r : Result) :
  In (a, r) (resolved l) <-> In (a, Some r) l /\ nonempty r = true.
Proof.
  unfold resolved. rewrite in_flat_map. split.
  - intros ([a' o] & I & X). cbn [fst snd] in X.
    destruct o as [r' |]; [| destruct X].
    destruct (nonempty r') eqn:N; [| destruct X].
    destruct X as [X | []]. injection X as <- <-. auto.
  - intros [I N]. exists (a, Some r). split; [exact I |].
    cbn [fst snd]. rewrite N. left. reflexivity.
Qed.

Lemma in_get_unique {K V} `{EqDec K} (d : dict K V) (k : K) (v : V) :
  NoDup (Dict.keys d) -> In (k, v) d -> Dict.get k d = Some v.
Proof.
  unfold Dict.keys. induction d as [| [k' v'] r IH]; intros N I; [destruct I |].
  cbn [map fst] in N. inversion N as [| ? ? Nin N']. subst.
  rewrite get_cons. destruct I as [X | I].
  - injection X as <- <-. rewrite eqb_refl. reflexivity.
  - destruct (eqb k k') eqn:E; [| apply IH; assumption].
    apply eqb_eq in E. subst k'. exfalso. apply Nin.
    apply (in_map fst) in I. exact I.
Qed.

Lemma get_in {K V} `{EqDec K} (d : dict K V) (k : K) (v : V) :
  Dict.get k d = Some v -> In (k, v) d.
Proof.
  induction d as [| [k' v'] r IH]; [discriminate |].
  rewrite get_cons. destruct (eqb k k') eqn:E.
  - apply eqb_eq in E. subst k'. intros X. injection X as <-. left. reflexivity.
  - intros G. right. apply IH. exact G.
Qed.

(** X19. [_create_thread_from_best_candidate] with candidate start
    points whose results hold the metric: without a candidate that has a
    result the call changes nothing; otherwise it picks a candidate with
    a result such that no candidate has a sign-adjusted objective below
    its own, and, unless the id of that trial is the empty string, sets
    [_started_from_given], deletes the candidate from the start points
    and creates a thread from its configuration and result. *)
Theorem best_candidate_started (d : dict string (option Result))
    (s : State) :
  _candidate_start_points s = Some d ->
  NoDup (Dict.keys d) ->
  all_scored (resolved d) ->
  (resolved d = [] -> _create_thread_from_best_candidate s = (Ok tt, s))
  /\ (resolved d <> [] ->
      exists tid r obj,
        Dict.get tid d = Some (Some r)
        /\ nonempty r = true
        /\ adjusted r = Some obj
        /\ (forall t r' o,
              Dict.get t d = Some (Some r') -> nonempty r' = true ->
              adjusted r' = Some o -> (o <. obj) = false)
        /\ _create_thread_from_best_candidate s
           = if (String.length tid =? 0)%nat then (Ok tt, s)
             else _create_thread (config_of_result r) r
                    (set_candidate_start_points (Some (Dict.remove tid d))
                       (set_started_from_given (Some true) s))).
Proof.
  intros Csp N Hs.
  destruct (best_candidate_spec (resolved d) None Hs) as (out & E & Sp).
  split.
  - intros Em. unfold _create_thread_from_best_candidate. run.
    rewrite Csp, Em. reflexivity.
  - intros Ne. destruct out as [[tid obj] |];
      [| destruct Sp as [_ F]; contradiction].
    destruct Sp as ([F | [(r & I & Ad) _]] & All); [discriminate F |].
    apply in_resolved in I. destruct I as [I Nr].
    pose proof (in_get_unique d tid (Some r) N I) as G.
    exists tid, r, obj. split; [exact G | split; [exact Nr |]].
    split; [exact Ad | split].
    + intros t r' o G' Nr' Ad'. apply (All t r' o); [| exact Ad'].
      apply in_resolved. split; [apply get_in; exact G' | exact Nr'].
    + unfold _create_thread_from_best_candidate.
      unfold bind at 1. unfold gets at 1. cbv beta iota. rewrite Csp.
      unfold bind at 1. unfold lift at 1. rewrite E.
      destruct (String.length tid =? 0)%nat; [reflexivity |].
      rewrite G. reflexivity.
Qed.

(** X20. [CFO._create_condition] when no initial point is left and the
    pool does not hold 2 threads: without candidate start points, or
    once a thread has been created, it returns [True]; with candidate
    start points of which at least one has a result, all results
    holding the metric, and no thread created yet, it returns whether
    the sign-adjusted objective of the result is at most the least
    sign-adjusted objective of the candidates that have a result. *)
Theorem cfo_condition_best (r : Result) (s : State) :
  _points_to_evaluate s = [] ->
  List.length (_search_thread_pool s) <> 2%nat ->
  (truthy_opt (_candidate_start_points s) = false
   \/ _thread_count s <> 1%Z ->
   CFO_create_condition r s = (Ok true, s))
  /\ (forall d v,
        _candidate_start_points s = Some d ->
        _thread_count s = 1%Z ->
        resolved d <> [] ->
        all_scored (resolved d) ->
        Dict.get ls_metric r = Some v ->
        exists best,
          CFO_create_condition r s = (Ok (v *: metric_op <=. best), s)
          /\ (exists t r', In (t, r') (resolved d)
                           /\ adjusted r' = Some best)
          /\ forall t r' o,
               In (t, r') (resolved d) -> adjusted r' = Some o ->
               (o <. best) = false).
Proof.
  intros Pts Len. apply Nat.eqb_neq in Len. split.
  - intros H. unfold CFO_create_condition. run. rewrite Pts.
    cbn [nonempty]. rewrite Len.
    destruct H as [H | H].
    + rewrite H. reflexivity.
    + apply Z.eqb_neq in H. rewrite H, andb_false_r. reflexivity.
  - intros d v Csp Cnt Ne Hs G.
    destruct (objectives_spec (resolved d) Hs) as (objs & E & Ks & Hin).
    assert (Nd : nonempty d = true).
    { destruct d as [| kv d']; [| reflexivity]. exfalso. apply Ne.
      reflexivity. }
    assert (No : map snd objs <> []).
    { destruct objs as [| o objs]; [| discriminate].
      destruct (resolved d); [contradiction | discriminate Ks]. }
    destruct (fmin_list (map snd objs)) as [best |] eqn:Fm.
    2:{ destruct (map snd objs); [contradiction | discriminate Fm]. }
    destruct (fmin_list_spec _ _ Fm) as [Ib Low].
    exists best. split; [| split].
    + unfold CFO_create_condition. run. rewrite Pts. cbn [nonempty].
      rewrite Len, Csp, Cnt. cbn [truthy_opt]. rewrite Nd. cbn [andb Z.eqb].
      rewrite E, Fm, G. reflexivity.
    + apply in_map_iff in Ib. destruct Ib as ([a o] & X & I).
      cbn [snd] in X. subst o. apply Hin in I. destruct I as (r' & I & Ad).
      exists a, r'. auto.
    + intros t r' o I Ad. apply Low. apply in_map_iff.
      exists (t, o). split; [reflexivity |]. apply Hin. exists r'. auto.
Qed.

End BestCandidate.

(** two candidate start points with their results *)
Definition toy_candidates : dict string (option Result) :=
  [("t1"%string, Some [("loss"%string, Fin 3); ("config/x"%string, Fin (1 # 4))]);
   ("t2"%string, Some [("loss"%string, Fin 2); ("config/x"%string, Fin (1 # 2))])].

(** a [CFO] coordinator that holds them *)
Definition toy_with_candidates : @State Z unit Toy.thread :=
  set_candidate_start_points (Some toy_candidates) (Toy.plain CFO).

Lemma toy_candidates_scored :
  @all_scored Z unit Toy.plain_search string (resolved toy_candidates).
Proof.
  intros a r I. cbn in I.
  destruct I as [X | [X | []]]; injection X as <- <-; eexists; reflexivity.
Qed.

Lemma toy_candidates_unique : NoDup (Dict.keys toy_candidates).
Proof. repeat constructor; cbn; intuition discriminate. Qed.

Lemma best_candidate_started_witness :
  exists tid r,
    Dict.get tid toy_candidates = Some (Some r)
    /\ @_create_thread_from_best_candidate Z unit Toy.thread Toy.plain_search
         Toy.search_thread toy_with_candidates
       = if (String.length tid =? 0)%nat then (Ok tt, toy_with_candidates)
         else @_create_thread Z unit Toy.thread Toy.plain_search
                Toy.search_thread (config_of_result r) r
                (set_candidate_start_points
                   (Some (Dict.remove tid toy_candidates))
                   (set_started_from_given (Some true) toy_with_candidates)).
Proof.
  assert (Ne : resolved toy_candidates <> []) by (intros E; discriminate E).
  destruct (proj2 (@best_candidate_started Z unit Toy.thread Toy.plain_search
                     Toy.search_thread toy_candidates toy_with_candidates
                     eq_refl toy_candidates_unique toy_candidates_scored) Ne)
    as (tid & r & obj & G & _ & _ & _ & E).
  exists tid, r. split; [exact G | exact E].
Defined.

Lemma cfo_condition_best_witness :
  exists best,
    @CFO_create_condition Z unit Toy.thread Toy.plain_search
      [("loss"%string, Fin 1)] toy_with_candidates
    = (Ok (Fin 1 *: Fin 1 <=. best), toy_with_candidates).
Proof.
  assert (Len : List.length (_search_thread_pool toy_with_candidates)
                <> 2%nat) by (intros E; discriminate E).
  assert (Ne : resolved toy_candidates <> []) by (intros E; discriminate E).
  destruct (proj2 (@cfo_condition_best Z unit Toy.thread Toy.plain_search
                     [("loss"%string, Fin 1)] toy_with_candidates
                     eq_refl Len)
              toy_candidates (Fin 1) eq_refl eq_refl Ne toy_candidates_scored
              eq_refl)
    as (best & E & _).
  exists best. exact E.
Defined.


(** ** The weights of the metric constraints *)

(** a number above zero *)
Definition above_zero (a : num) : Prop := (Fin 0 <. a) = true.

Lemma above_zero_add (a b : num) :
  above_zero a -> above_zero b -> above_zero (a +. b).
Proof.
  unfold above_zero.
  destruct a as [x | s |], b as [y | t |]; cbn; try congruence;
    repeat match goal with b : bool |- _ => destruct b end;
    cbn; try congruence.
  rewrite !Qlt_bool_iff, Qred_correct. intros; lra.
Qed.

Lemma Qsign_positive (x : Q) : (0 < x)%Q -> Qsign x = Some false.
Proof.
  destruct x as [[| n | n] d]; unfold Qlt, Qsign; cbn; intros H;
    [lia | reflexivity | lia].
Qed.

Lemma above_zero_mul (a b : num) :
  above_zero a -> above_zero b -> above_zero (a *: b).
Proof.
  unfold above_zero.
  destruct a as [x | s |], b as [y | t |]; cbn; try congruence.
  - rewrite !Qlt_bool_iff, Qred_correct. intros; nra.
  - rewrite Qlt_bool_iff. intros Hx Ht. rewrite (@Qsign_positive x Hx).
    destruct t; cbn in *; congruence.
  - rewrite Qlt_bool_iff. intros Hs Hy. rewrite (@Qsign_positive y Hy).
    destruct s; cbn in *; congruence.
  - destruct s, t; cbn; congruence.
Qed.

(** the sign-adjusted objective is a number or plus infinity *)
Definition ranked (op o : num) : Prop :=
  match o *: op with
  | Fin _ | Inf false => True
  | _ => False
  end.

(** adding a positive term times the sign of the mode never improves the
    sign-adjusted objective *)
Lemma penalty_term_worsens (op o x : num) :
  op = Fin 1 \/ op = Fin (-1 # 1) ->
  ranked op o -> above_zero x ->
  ranked op (o +. x *: op)
  /\ (o *: op <=. (o +. x *: op) *: op) = true.
Proof.
  unfold ranked, above_zero.
  intros [-> | ->]; destruct o as [a | s |], x as [b | t |]; cbn;
    try contradiction; try discriminate;
    repeat match goal with b : bool |- _ => destruct b end;
    cbn; try contradiction; try discriminate; try (split; [exact I | reflexivity]);
    intros _; rewrite Qlt_bool_iff; intros Hb; (split; [exact I |]);
    apply Qle_bool_iff; rewrite !Qred_correct; lra.
Qed.

Lemma ranked_refl (op o : num) :
  op = Fin 1 \/ op = Fin (-1 # 1) ->
  ranked op o -> (o *: op <=. o *: op) = true.
Proof.
  unfold ranked.
  intros [-> | ->]; destruct o as [a | s |]; cbn;
    try contradiction;
    repeat match goal with b : bool |- _ => destruct b end;
    cbn; try contradiction; try reflexivity;
    intros _; apply Qle_bool_iff; lra.
Qed.

Lemma Forall_list_set {A} (P : A -> Prop) (i : nat) (v : A) (l : list A) :
  P v -> Forall P l -> Forall P (list_set i v l).
Proof.
  intros Hv. revert i. induction l as [| x r IH]; intros i Hl; [destruct i; exact Hl |].
  inversion Hl as [| ? ? Hx Hr]; subst.
  destruct i as [| j]; cbn; constructor; auto.
Qed.

Lemma map_snd_enumerate {A} (l : list A) : map snd (enumerate l) = l.
Proof.
  unfold enumerate. generalize 0%nat.
  induction l as [| x r IH]; intros n; cbn; [reflexivity |].
  rewrite IH. reflexivity.
Qed.

Section Penalty.

Context {Sig Env Thread : Type}.
Context {LS : LocalSearch Sig Env} {ST : SearchThread Thread Env}.

Abbreviation State := (@State Sig Env Thread).
Abbreviation M := (@M Sig Env Thread).

Hypothesis mode : metric_op = Fin 1 \/ metric_op = Fin (-1 # 1).

(** the coordinator optimizes [metric] under the constraints [C] and
    holds one positive weight per constraint *)
Definition weights_sound (metric : string) (C : list metric_constraint)
    (s : State) : Prop :=
  _metric s = metric
  /\ _metric_constraints s = C
  /\ exists l,
       _metric_constraint_penalty s = Some l
       /\ List.length l = List.length C
       /\ Forall above_zero l.

(** a step of the loop over the metric constraints, with a weight for
    the constraint: it returns, the weights stay above zero, the flag is
    cleared exactly by a violated constraint, and the objective does not
    improve *)
Lemma step_sound (r : Result) (i : nat) (c : metric_constraint)
    (o : num) (sat : bool) (l : list num) (s : State) :
  _metric_constraint_penalty s = Some l ->
  (i < List.length l)%nat ->
  Forall above_zero l ->
  exists o' l',
    metric_constraint_step r (i, c) (o, sat) s
    = (Ok (o', sat && unviolated r c),
       set_metric_constraint_penalty (Some l') s)
    /\ List.length l' = List.length l
    /\ Forall above_zero l'
    /\ (ranked metric_op o ->
        ranked metric_op o'
        /\ (o *: metric_op <=. o' *: metric_op) = true).
Proof.
  intros Hp Hi Hl.
  destruct (unviolated r c) eqn:U.
  - exists o, l. rewrite (@step_unviolated Sig Env Thread LS r i c (o, sat) s U).
    rewrite andb_true_r, <- Hp, set_penalty_same.
    repeat split; auto.
    apply ranked_refl; assumption.
  - destruct c as [[name sign] threshold].
    unfold unviolated in U. cbn [fst snd] in U.
    destruct (Dict.get name r) as [value |] eqn:G; [| discriminate U].
    apply orb_false_iff in U. destruct U as [T V].
    apply negb_false_iff in T. apply negb_false_iff in V.
    destruct (nth_error l i) as [p |] eqn:N.
    2:{ apply nth_error_None in N. lia. }
    assert (Pp : above_zero p).
    { rewrite Forall_forall in Hl. apply Hl. eapply nth_error_In. exact N. }
    assert (Pv : above_zero (violation sign threshold value)) by exact V.
    rewrite (@step_violated Sig Env Thread LS r i name sign threshold value
               o p sat l s G T V Hp N).
    rewrite andb_false_r.
    exists (o +. p *: violation sign threshold value *: metric_op).
    destruct (p <. penalty).
    + exists (list_set i (p +. violation sign threshold value) l).
      split; [reflexivity |]. split; [apply length_list_set |].
      split; [apply Forall_list_set; [apply above_zero_add |]; assumption |].
      intros Co. apply penalty_term_worsens; try assumption.
      apply above_zero_mul; assumption.
    + exists l. rewrite <- Hp, set_penalty_same.
      split; [reflexivity |]. split; [reflexivity |].
      split; [assumption |].
      intros Co. apply penalty_term_worsens; try assumption.
      apply above_zero_mul; assumption.
Qed.

Lemma loop_sound (r : Result) (ics : list (nat * metric_constraint))
    (o : num) (sat : bool) (l : list num) (s : State) :
  _metric_constraint_penalty s = Some l ->
  (forall i c, In (i, c) ics -> (i < List.length l)%nat) ->
  Forall above_zero l ->
  exists o' l',
    fold_M ics (metric_constraint_step r) (o, sat) s
    = (Ok (o', sat && forallb (unviolated r) (map snd ics)),
       set_metric_constraint_penalty (Some l') s)
    /\ List.length l' = List.length l
    /\ Forall above_zero l'
    /\ (ranked metric_op o ->
        ranked metric_op o'
        /\ (o *: metric_op <=. o' *: metric_op) = true).
Proof.
  revert o sat l s.
  induction ics as [| [i c] ics IH]; intros o sat l s Hp Hi Hl.
  - exists o, l. cbn. unfold ret.
    rewrite andb_true_r, <- Hp, set_penalty_same.
    repeat split; auto. apply ranked_refl; assumption.
  - destruct (@step_sound r i c o sat l s Hp (Hi i c (or_introl eq_refl)) Hl)
      as (o1 & l1 & E1 & L1 & P1 & C1).
    destruct (IH o1 (sat && unviolated r c) l1
                (set_metric_constraint_penalty (Some l1) s) eq_refl)
      as (o2 & l2 & E2 & L2 & P2 & C2).
    { intros j c' I. rewrite L1. apply (Hi j c'). right. exact I. }
    { exact P1. }
    exists o2, l2. cbn [fold_M map snd forallb]. unfold bind. rewrite E1, E2.
    rewrite andb_assoc.
    split; [reflexivity |]. split; [congruence |]. split; [exact P2 |].
    intros Co. destruct (C1 Co) as [Co1 F1]. destruct (C2 Co1) as [Co2 F2].
    split; [exact Co2 |]. eapply fle_trans; eassumption.
Qed.

(** the account of the metric constraints of a result that holds the
    metric *)
Lemma account_sound (metric : string) (C : list metric_constraint)
    (r : Result) (o : num) (s : State) :
  weights_sound metric C s ->
  Dict.get metric r = Some o ->
  exists o' s',
    account_metric_constraints r s
    = (Ok (Dict.set (metric ++ lagrange)%string o' r,
           forallb (unviolated r) C), s')
    /\ weights_sound metric C s'
    /\ (ranked metric_op o ->
        (o *: metric_op <=. o' *: metric_op) = true).
Proof.
  intros (Hm & Hc & l & Hp & Hl & Pl) G.
  unfold account_metric_constraints.
  unfold bind at 1. unfold gets at 1. cbv beta iota.
  unfold bind at 1. unfold gets at 1. cbv beta iota.
  rewrite Hm, Hc.
  unfold bind at 1. unfold item. rewrite G. unfold ret at 1. cbv beta iota.
  destruct (@loop_sound r (enumerate C) o true l s Hp) as (o' & l' & E & L & P' & Co).
  { intros i c I. rewrite Hl. eapply enumerate_index; eauto. }
  { exact Pl. }
  rewrite map_snd_enumerate in E. cbn [andb] in E.
  unfold bind at 1. rewrite E. cbv beta iota.
  run. cbn [_metric_constraint_satisfied set_metric_constraint_penalty].
  exists o'.
  assert (Ones : Forall above_zero (map (fun _ : metric_constraint => Fin 1) C)).
  { apply Forall_forall. intros x I. apply in_map_iff in I.
    destruct I as (c & <- & _). reflexivity. }
  destruct (forallb (unviolated r) C && negb (_metric_constraint_satisfied s));
    run; eexists; (split; [reflexivity |]); (split; [| intros K; apply Co; exact K]);
    (split; [exact Hm |]); (split; [exact Hc |]); cbn.
  - eexists. split; [reflexivity |]. split; [apply length_map | exact Ones].
  - exists l'. split; [reflexivity |]. split; [congruence | exact P'].
Qed.


Section WeightRuns.

Variable metric : string.
Variable C : list metric_constraint.

Abbreviation sound := (weights_sound metric C).

Lemma weights_account (r : Result) :
  preserves sound (account_metric_constraints r).
Proof using mode.
  intros s H.
  destruct (Dict.get metric r) as [o |] eqn:G.
  - destruct (@account_sound metric C r o s H G) as (o' & s' & E & H' & _).
    rewrite E. exact H'.
  - destruct H as (Hm & Hc & Hw).
    unfold account_metric_constraints. run. rewrite Hm, G.
    cbn. repeat split; assumption.
Qed.

Lemma weights_update (c : Config) (w : region) :
  preserves sound (_update_admissible_region c w).
Proof using Type. apply update_region_keeps; destruct w; stable. Qed.

Lemma weights_expand : preserves sound _expand_admissible_region.
Proof using Type. apply expand_keeps; stable. Qed.

Lemma weights_from_best :
  preserves sound _create_thread_from_best_candidate.
Proof using Type.
  apply from_best_frame; try (stable; fail). intros c. apply weights_update.
Qed.

Lemma weights_clean (id : Z) : preserves sound (_clean id).
Proof using Type.
  apply clean_frame; try (stable; fail).
  - intros c. apply weights_update.
  - apply weights_expand.
Qed.

Lemma weights_record (tid : string) (r : Result) (e sat : bool)
    (th : option Z) :
  preserves sound (record_result tid r e sat th).
Proof using Type.
  apply record_keeps; try (stable; fail).
  - apply weights_expand.
  - intros c r0. apply create_thread_frame; try (stable; fail).
    intros c0. apply weights_update.
Qed.

Lemma weights_suggest (tid : string) : preserves sound (suggest tid).
Proof using Type.
  apply suggest_keeps; try (stable; fail).
  - intros c. apply weights_update.
  - intros c. apply weights_update.
  - apply weights_expand.
  - apply weights_clean.
Qed.

Lemma weights_step (c : call) (s : State) : sound s -> sound (step c s).
Proof using mode.
  destruct c as [tid | tid r | tid r e]; cbn [step].
  - apply weights_suggest.
  - apply on_trial_result_keeps. stable.
  - apply on_trial_complete_keeps; try (stable; fail).
    + apply weights_from_best.
    + intros tid0 r0 e0. apply base_complete_keeps; try (stable; fail).
      * apply weights_clean.
      * apply weights_account.
      * intros. apply weights_record.
Qed.

Lemma weights_run (calls : list call) (s : State) :
  sound s -> sound (run calls s).
Proof using mode.
  unfold run. revert s.
  induction calls as [| c calls IH]; intros s H; cbn; [exact H |].
  apply IH. apply weights_step. exact H.
Qed.

End WeightRuns.

Lemma weights_init (c : variant) (metric : string) (points : list Config)
    (config_constraints : list config_constraint)
    (metric_constraints : list metric_constraint) (e : Env) :
  metric_constraints <> [] ->
  weights_sound metric metric_constraints
    (__init__ c metric points config_constraints metric_constraints e).
Proof using Type.
  intros N. split; [reflexivity |]. split; [reflexivity |].
  destruct metric_constraints as [| m rest]; [congruence |].
  cbn. eexists. split; [reflexivity |]. split.
  - cbn. rewrite length_map. reflexivity.
  - constructor; [reflexivity |].
    apply Forall_forall. intros x I. apply in_map_iff in I.
    destruct I as (c0 & <- & _). reflexivity.
Qed.

(** X21. The weights of the metric constraints and the
    lagrange-modified metric. A coordinator built with metric
    constraints, after any sequence of [suggest], [on_trial_result] and
    [on_trial_complete] calls, holds one weight per constraint, and every
    weight is above zero. On a result that holds the metric as a number,
    the account of the metric constraints in [on_trial_complete] then
    returns: it adds the lagrange-modified metric to the result; the local
    flag [metric_constraint_satisfied] is true exactly when no constraint
    with a present, non-zero value is violated; and the sign-adjusted
    lagrange-modified metric is never below the sign-adjusted metric, so
    a violation never makes a result look better.  Here [metric_op] is 1
    or -1. *)
Theorem penalty_never_rewards (c : variant) (metric : string)
    (points : list Config) (config_constraints : list config_constraint)
    (metric_constraints : list metric_constraint) (e : Env)
    (calls : list call) (r : Result) (objective : Q) :
  metric_constraints <> [] ->
  Dict.get metric r = Some (Fin objective) ->
  let s :=
    run calls
      (__init__ c metric points config_constraints metric_constraints e) in
  (exists l,
     _metric_constraint_penalty s = Some l
     /\ List.length l = List.length metric_constraints
     /\ Forall (fun p => (Fin 0 <. p) = true) l)
  /\ exists objective' s',
       account_metric_constraints r s
       = (Ok (Dict.set (metric ++ lagrange)%string objective' r,
              forallb (unviolated r) metric_constraints), s')
       /\ (Fin objective *: metric_op <=. objective' *: metric_op) = true.
Proof using mode.
  intros N G s.
  assert (H : weights_sound metric metric_constraints s).
  { apply weights_run. apply weights_init. exact N. }
  split.
  - destruct H as (_ & _ & l & Hp & Hl & Pl). exists l. auto.
  - destruct (@account_sound metric metric_constraints r (Fin objective) s
                H G) as (o' & s' & E & _ & Co).
    exists o', s'. split; [exact E |]. apply Co.
    unfold ranked. destruct mode as [-> | ->]; exact I.
Qed.

End Penalty.

Lemma penalty_never_rewards_witness :
  let r := [("loss"%string, Fin 5); ("accuracy"%string, Fin (8 # 10))] in
  let s :=
    @run Z unit Toy.thread Toy.constrained_search Toy.search_thread
      [OnTrialComplete "t1" (Some r) false] Toy.constrained in
  (exists l,
     _metric_constraint_penalty s = Some l
     /\ List.length l = 1%nat
     /\ Forall (fun p => (Fin 0 <. p) = true) l)
  /\ exists objective' s',
       @account_metric_constraints Z unit Toy.thread Toy.constrained_search
         r s
       = (Ok (Dict.set "loss_lagrange"%string objective' r, false), s')
       /\ (Fin 5 *: Fin 1 <=. objective' *: Fin 1) = true.
Proof.
  intros r s.
  apply (@penalty_never_rewards Z unit Toy.thread Toy.constrained_search
           Toy.search_thread (or_introl eq_refl) BlendSearch "loss"%string
           [] [] [("accuracy"%string, ">="%string, Fin (9 # 10))] tt
           [OnTrialComplete "t1" (Some r) false] r 5).
  - discriminate.
  - reflexivity.
Defined.

(** ** The proposals of [CFO] *)

Lemma two_keys (l : list Z) (k : Z) :
  NoDup l -> List.length l = 2%nat -> In 0%Z l -> In k l -> k <> 0%Z ->
  filter (fun key => negb (key =? 0)%Z) l = [k].
Proof.
  intros N L I0 Ik Nk.
  destruct l as [| a [| b [| c r]]]; try discriminate L.
  inversion N as [| ? ? Na _]; subst.
  assert (Hab : a <> b) by (intros ->; apply Na; left; reflexivity).
  assert (Ek : (k =? 0)%Z = false) by (apply Z.eqb_neq; exact Nk).
  cbn in I0, Ik.
  destruct I0 as [E0 | [E0 | []]], Ik as [E1 | [E1 | []]]; subst;
    try congruence; cbn [filter]; rewrite Ek, Z.eqb_refl; reflexivity.
Qed.

Section CFOProposals.

Context {Sig Env Thread : Type}.
Context {LS : LocalSearch Sig Env} {ST : SearchThread Thread Env}.

Abbreviation State := (@State Sig Env Thread).
Abbreviation M := (@M Sig Env Thread).

(** steps from a known state *)
Lemma triple_gets_from {A B} (f : State -> A) (s0 : State) (k : A -> M B)
    (Q : B -> State -> Prop) (E : State -> Prop) :
  triple (eq s0) (k (f s0)) Q E -> triple (eq s0) (bind (gets f) k) Q E.
Proof. intros H s <-. unfold bind, gets. apply H. reflexivity. Qed.

Lemma triple_step_from {A B} (m : M A) (a : A) (s0 s1 : State)
    (k : A -> M B) (Q : B -> State -> Prop) (E : State -> Prop) :
  m s0 = (Ok a, s1) ->
  triple (eq s1) (k a) Q E -> triple (eq s0) (bind m k) Q E.
Proof. intros Hm H s <-. unfold bind. rewrite Hm. apply H. reflexivity. Qed.

Lemma triple_any {A} (m : M A) :
  triple anyhow m (fun _ => anyhow) anyhow.
Proof. intros s _. destruct (m s) as [[a | e] s']; exact I. Qed.

(** under [CFO] with thread 0 and one local thread, [_select_thread]
    returns the local thread twice *)
Lemma cfo_select_local (k : Z) (s : State) :
  pool_sound s ->
  List.length (_search_thread_pool s) = 2%nat ->
  Dict.mem k (_search_thread_pool s) = true ->
  k <> 0%Z ->
  CFO_select_thread s = (Ok (k, k), s).
Proof.
  intros (M0 & N & _) L Mk Nk.
  unfold CFO_select_thread. run.
  rewrite (@two_keys (Dict.keys (_search_thread_pool s)) k); auto.
  - unfold Dict.keys. rewrite length_map. exact L.
  - apply mem_in_keys. exact M0.
  - apply mem_in_keys. exact Mk.
Qed.

(** what [suggest] returns under [CFO] with a local thread: the proposal
    [c0] of that thread, recorded as a trial of the thread [k] *)
Definition local_proposal (tid : string) (k : Z) (c0 : option Config)
    (r : option Config) (s : State) : Prop :=
  forall c, r = Some c ->
    c0 = Some c /\ Dict.get tid (_trial_proposed_by s) = Some k.

Lemma register_local (tid : string) (k : Z) (c : Config) :
  k <> 0%Z ->
  triple (fun s => Dict.get tid (_trial_proposed_by s) = Some k)
    (register_proposal k c) (local_proposal tid k (Some c)) anyhow.
Proof.
  intros Nk. unfold register_proposal.
  apply Z.eqb_neq in Nk. rewrite Nk.
  set (P := fun s : State => Dict.get tid (_trial_proposed_by s) = Some k).
  assert (Hu : forall c0 w, preserves P (_update_admissible_region c0 w))
    by (intros; apply update_region_keeps; destruct w; stable).
  apply triple_bind with (R := fun config s => config = c /\ P s).
  - apply triple_then; [apply Hu | intros _].
    apply triple_then; [apply sync_keeps; stable | intros _].
    apply triple_ret. auto.
  - intros config.
    apply triple_bind with (R := fun _ s => config = c /\ P s).
    + apply triple_modify. intros s [E H]. split; [exact E | exact H].
    + intros _. apply triple_ret. intros s [-> H] c' E.
      injection E as <-. auto.
Qed.

(** X22. The proposals of [CFO] once the initial points are used up:
    with thread 0 and one local thread in the pool, a configuration that
    [suggest] returns is the configuration the local thread proposed for
    the trial, and the trial is recorded as a trial of that thread; the
    global thread and the random fallback are not used. *)
Theorem cfo_proposes_local (trial_id : string) (k : Z) (t : Thread)
    (s : State) :
  cls s = CFO ->
  _init_used s = true ->
  _points_to_evaluate s = [] ->
  pool_sound s ->
  List.length (_search_thread_pool s) = 2%nat ->
  k <> 0%Z ->
  Dict.get k (_search_thread_pool s) = Some t ->
  match suggest trial_id s with
  | (Ok (Some config), s') =>
      fst (thread_suggest t trial_id) = Some config
      /\ Dict.get trial_id (_trial_proposed_by s') = Some k
  | _ => True
  end.
Proof.
  intros Hc Hi Hp Hs Hl Nk Gk.
  assert (Mk : Dict.mem k (_search_thread_pool s) = true)
    by (unfold Dict.mem; rewrite Gk; reflexivity).
  assert (K0 : (k <? 0)%Z = false).
  { apply Z.ltb_ge. destruct Hs as (_ & _ & B).
    apply (B k). apply mem_in_keys. exact Mk. }
  assert (H : triple (eq s) (suggest trial_id)
                (local_proposal trial_id k (fst (thread_suggest t trial_id)))
                anyhow).
  { unfold suggest. apply triple_gets_from. rewrite Hc.
    unfold CFO_suggest. apply triple_gets_from. rewrite Hl. cbn [Nat.ltb Nat.leb].
    eapply triple_step_from; [reflexivity |].
    unfold BlendSearch_suggest.
    apply triple_gets_from. apply triple_gets_from. rewrite Hi, Hp.
    cbn [nonempty negb andb].
    eapply triple_step_from.
    { unfold _select_thread. unfold bind, gets. rewrite Hc.
      apply cfo_select_local; eassumption. }
    cbv beta iota. rewrite K0.
    eapply triple_step_from.
    { unfold suggest_from. run. rewrite Gk. reflexivity. }
    apply triple_pre with (P := anyhow); [| intros; exact I].
    assert (N0 : negb (k =? 0)%Z = true)
      by (apply negb_true_iff; apply Z.eqb_neq; exact Nk).
    rewrite N0.
    assert (Hnone : forall m : M unit,
               triple anyhow (m ;; ret None)
                 (local_proposal trial_id k (fst (thread_suggest t trial_id)))
                 anyhow).
    { intros m. eapply triple_bind; [apply triple_any | intros ?].
      apply triple_ret. intros s0 _ c E. discriminate E. }
    destruct (fst (thread_suggest t trial_id)) as [c |]; cbn [andb].
    - eapply triple_bind; [apply triple_any | intros skip].
      destruct skip.
      + apply triple_ret. intros s0 _ c' E. discriminate E.
      + unfold propose. rewrite N0.
        apply triple_bind with (R := fun valid _ => valid = true);
          [apply triple_ret; reflexivity |].
        intros valid. destruct valid.
        * apply triple_bind
            with (R := fun _ s0 =>
                         Dict.get trial_id (_trial_proposed_by s0) = Some k).
          -- apply triple_modify. intros s0 _. cbn. apply get_set_eq.
          -- intros _. apply register_local. exact Nk.
        * intros s0 H0. discriminate H0.
    - eapply triple_bind; [apply triple_any | intros pool].
      eapply triple_bind; [apply triple_any | intros t0].
      apply Hnone. }
  specialize (H s eq_refl).
  destruct (suggest trial_id s) as [[[config |] | e] s']; try exact I.
  apply H. reflexivity.
Qed.

End CFOProposals.

(** a [CFO] coordinator past its initial point, with the local thread 1
    that proposes [x = 1/2] *)
Definition toy_cfo_local : @State Z unit Toy.thread :=
  set_search_thread_pool
    [(0%Z, @new_global_thread Toy.thread unit Toy.search_thread);
     (1%Z,
      Toy.mkThread (Fin 1) (Fin 1) None false false
        (Some [("x"%string, Fin (1 # 2))]) 0)]
    (set_thread_count 2%Z (set_init_used true (Toy.plain CFO))).

Lemma cfo_proposes_local_witness :
  fst (@suggest Z unit Toy.thread Toy.plain_search Toy.search_thread
         "t2" toy_cfo_local)
  = Ok (Some [("x"%string, Fin (1 # 2))])
  /\ match
       @suggest Z unit Toy.thread Toy.plain_search Toy.search_thread
         "t2" toy_cfo_local
     with
     | (Ok (Some config), s') =>
         Some [("x"%string, Fin (1 # 2))] = Some config
         /\ Dict.get "t2"%string (_trial_proposed_by s') = Some 1%Z
     | _ => True
     end.
Proof.
  split; [reflexivity |].
  apply (@cfo_proposes_local Z unit Toy.thread Toy.plain_search
           Toy.search_thread "t2"%string 1%Z
           (Toy.mkThread (Fin 1) (Fin 1) None false false
              (Some [("x"%string, Fin (1 # 2))]) 0)
           toy_cfo_local);
    try reflexivity; try discriminate.
  split; [reflexivity |]. split.
  - repeat constructor; cbn; intuition discriminate.
  - intros id. cbn. intros [<- | [<- | []]]; lia.
Defined.

(** ** Proposals and the result cache *)

Section FreshProposals.

Context {Sig Env Thread : Type}.
Context {LS : LocalSearch Sig Env} {ST : SearchThread Thread Env}.

Abbreviation State := (@State Sig Env Thread).
Abbreviation M := (@M Sig Env Thread).

(** the cache and the variant when [suggest] is called, and the trial *)
Variable R0 : dict Sig Result.
Variable V : variant.
Variable tid : string.

(** the cache holds every signature it held at the call *)
Definition grown (s : State) : Prop :=
  cls s = V
  /\ forall k, Dict.mem k R0 = true -> Dict.mem k (_result s) = true.

(** the signature of the configuration was not cached at the call *)
Definition fresh (c : Config) : Prop :=
  Dict.mem (config_signature c) R0 = false.

Definition fresh_or_global (r : option Config) (s : State) : Prop :=
  forall c, r = Some c ->
    fresh c
    \/ (V = BlendSearch
        /\ Dict.get tid (_trial_proposed_by s) = Some 0%Z).

Lemma triple_fact {A} (P : State -> Prop) (F : Prop) (m : M A)
    (Q : A -> State -> Prop) (E : State -> Prop) :
  (forall s, P s -> F) -> (F -> triple P m Q E) -> triple P m Q E.
Proof. intros HF Ht s HP. apply (Ht (HF s HP) s HP). Qed.

Lemma triple_value {A} (P : State -> Prop) (m : M A)
    (Q : A -> State -> Prop) :
  (forall a s s', m s = (Ok a, s') -> Q a s') -> triple P m Q anyhow.
Proof.
  intros H s _. destruct (m s) as [[a | e] s'] eqn:E; [| exact I].
  eapply H. exact E.
Qed.

Lemma grown_fresh (c : Config) (s : State) :
  grown s -> Dict.mem (config_signature c) (_result s) = false -> fresh c.
Proof.
  intros [_ G] F. unfold fresh.
  destruct (Dict.mem (config_signature c) R0) eqn:E; [| reflexivity].
  apply G in E. congruence.
Qed.

Lemma grown_set (k : Sig) (v : Result) (s : State) :
  grown s -> grown (set_result (Dict.set k v (_result s)) s).
Proof.
  intros [C G]. split; [exact C |]. intros k' Mk. cbn.
  apply mem_set_other. apply G. exact Mk.
Qed.

Lemma grown_update (c : Config) (w : region) :
  preserves grown (_update_admissible_region c w).
Proof. apply update_region_keeps; destruct w; stable. Qed.

Lemma grown_skip_known (choice : Z) (tid' : string) (signature : Sig) :
  preserves grown (skip_known choice tid' signature).
Proof.
  intros s [C G].
  set (P := fun s' : State => cls s' = V /\ _result s' = _result s).
  assert (Hc : forall id, preserves P (_clean id)).
  { intros id. apply clean_frame; try (stable; fail).
    - intros c. apply update_region_keeps; stable.
    - apply expand_keeps; stable. }
  pose proof (thread_complete_keeps P) as Ht.
  assert (K : preserves P (skip_known choice tid' signature)).
  { unfold skip_known. pres; apply Ht; stable. }
  destruct (K s (conj C eq_refl)) as [C' E'].
  split; [exact C' |]. rewrite E'. exact G.
Qed.

Lemma grown_should_skip (choice : Z) (tid' : string) (c : option Config) :
  preserves grown (_should_skip choice tid' c).
Proof.
  intros s H. destruct c as [c |]; [| exact H].
  rewrite should_skip_unfold.
  destruct (Dict.mem (config_signature c) (_result s)).
  - apply grown_skip_known. exact H.
  - destruct (existsb (violated c) (_config_constraints s)); [| exact H].
    apply grown_skip_known. apply grown_set. exact H.
Qed.

(** [_should_skip] returns [False] for a configuration that is not
    cached only, in the state it was called in *)
Lemma should_skip_false_inv (choice : Z) (tid' : string)
    (c : option Config) (s s' : State) :
  _should_skip choice tid' c s = (Ok false, s') ->
  s' = s
  /\ exists c0,
       c = Some c0 /\ Dict.mem (config_signature c0) (_result s) = false.
Proof.
  destruct c as [c |]; [| cbn; discriminate].
  rewrite should_skip_unfold.
  destruct (Dict.mem (config_signature c) (_result s)) eqn:Mm.
  - intros E. exfalso.
    apply (skip_known_true choice tid' (config_signature c) s).
    rewrite E. reflexivity.
  - destruct (existsb (violated c) (_config_constraints s)).
    + intros E. exfalso.
      eapply (skip_known_true choice tid' (config_signature c)).
      rewrite E. reflexivity.
    + intros E. injection E as <-. split; [reflexivity |].
      exists c. auto.
Qed.

Lemma should_skip_fresh (choice : Z) (c : option Config) :
  triple grown (_should_skip choice tid c)
    (fun skip s =>
       grown s /\ (skip = false -> exists c0, c = Some c0 /\ fresh c0))
    anyhow.
Proof.
  intros s H. pose proof (grown_should_skip choice tid c s H) as K.
  destruct (_should_skip choice tid c s) as [[[|] | e] s'] eqn:E.
  - split; [exact K | discriminate].
  - apply should_skip_false_inv in E. destruct E as (-> & c0 & -> & F).
    split; [exact H |]. intros _. exists c0. split; [reflexivity |].
    eapply grown_fresh; eassumption.
  - exact I.
Qed.

Lemma none_fresh {A} (P : State -> Prop) (m : M A) :
  triple P (m ;; ret None) fresh_or_global anyhow.
Proof.
  apply triple_value. intros a s s' E c ->.
  apply bind_ok in E. destruct E as (x & s1 & _ & E). discriminate E.
Qed.

Lemma ret_none_fresh (P : State -> Prop) :
  triple P (ret None) fresh_or_global anyhow.
Proof. apply triple_ret. intros s _ c E. discriminate E. Qed.

Lemma register_fresh (choice : Z) (c : Config) :
  (choice <> 0%Z -> fresh c) ->
  (choice = 0%Z -> V = BlendSearch) ->
  triple (fun s => Dict.get tid (_trial_proposed_by s) = Some choice)
    (register_proposal choice c) fresh_or_global anyhow.
Proof.
  intros Hf Hv.
  set (P := fun s : State => Dict.get tid (_trial_proposed_by s) = Some choice).
  assert (Hu : forall c0 w, preserves P (_update_admissible_region c0 w))
    by (intros; apply update_region_keeps; destruct w; stable).
  unfold register_proposal.
  destruct (Z.eqb_spec choice 0) as [E | N].
  - apply triple_then; [pres; stable | intros config].
    apply triple_then; [pres; stable | intros _].
    apply triple_ret. intros s H c' _. right. split; [auto |].
    unfold P in H. rewrite H, E. reflexivity.
  - apply triple_bind with (R := fun config _ => config = c).
    + apply triple_value. intros a s s' E.
      apply bind_ok in E. destruct E as (x & s1 & _ & E).
      apply bind_ok in E. destruct E as (y & s2 & _ & E).
      injection E as <- _. reflexivity.
    + intros config.
      apply triple_fact with (F := config = c); [auto | intros ->].
      apply triple_value. intros a s s' E c' ->.
      apply bind_ok in E. destruct E as (x & s1 & _ & E).
      injection E as <- _. left. apply Hf. exact N.
Qed.

Lemma assign_fresh (P : State -> Prop) (choice : Z) (c : Config) :
  (choice <> 0%Z -> fresh c) ->
  (choice = 0%Z -> V = BlendSearch) ->
  triple P (set_proposed_by tid choice ;; register_proposal choice c)
    fresh_or_global anyhow.
Proof.
  intros Hf Hv.
  apply triple_bind
    with (R := fun _ s => Dict.get tid (_trial_proposed_by s) = Some choice).
  - apply triple_modify. intros s _. cbn. apply get_set_eq.
  - intros _. apply register_fresh; assumption.
Qed.

Lemma propose_fresh (choice backup : Z) (c : Config) :
  fresh c ->
  (choice = 0%Z -> V = BlendSearch) ->
  triple grown (propose tid choice backup c) fresh_or_global anyhow.
Proof.
  intros Hf Hv. unfold propose.
  apply triple_bind
    with (R := fun valid s => grown s /\ (valid = false -> choice = 0%Z)).
  { destruct (Z.eqb_spec choice 0) as [E | N]; cbn [negb].
    - eapply triple_conseq;
        [apply triple_keep; apply (valid_keeps grown c) | auto | | auto].
      intros a s H. split; [exact H | auto].
    - apply triple_ret. intros s H. split; [exact H | discriminate]. }
  intros valid. destruct valid; [apply assign_fresh; auto |].
  apply triple_fact with (F := choice = 0%Z); [intros s [_ H]; auto |].
  intros ->. specialize (Hv eq_refl).
  apply triple_pre with (P := grown); [| intros s [H _]; exact H].
  destruct (Z.eqb_spec 0 backup) as [E | N].
  - apply triple_then; [apply complete_keeps; stable | intros c'].
    apply assign_fresh; [congruence | auto].
  - apply triple_then; [apply suggest_from_keeps; stable | intros c'].
    eapply triple_bind; [apply should_skip_fresh | intros skip].
    destruct skip; [apply ret_none_fresh |].
    apply triple_fact with (F := exists c0, c' = Some c0 /\ fresh c0);
      [intros s [_ H]; auto |].
    intros (c0 & -> & F0).
    apply assign_fresh; [auto | congruence].
Qed.

Lemma suggest_init_fresh :
  triple grown (suggest_init tid) fresh_or_global anyhow.
Proof.
  unfold suggest_init.
  apply triple_then; [apply pres_gets | intros csp].
  apply triple_then; [apply pres_gets | intros pts].
  apply triple_then; [pres; stable | intros _].
  apply triple_then; [pres; stable | intros init].
  apply triple_then; [apply complete_keeps; stable | intros config].
  apply triple_bind with (R := fun cache s => grown s /\ cache = _result s).
  { apply triple_gets. auto. }
  intros cache.
  destruct (Dict.get (config_signature config) cache) as [[| kv r] |] eqn:G;
    try apply ret_none_fresh.
  apply triple_fact with (F := fresh config).
  { intros s [H ->]. eapply grown_fresh; [exact H |].
    unfold Dict.mem. rewrite G. reflexivity. }
  intros F. apply triple_value. intros a s s' E c ->. left.
  repeat (apply bind_ok in E; destruct E as (? & ? & _ & E)).
  injection E as <- _. exact F.
Qed.

(** under [CFO] the thread chosen is not the global thread *)
Lemma select_thread_choice_local (choice backup : Z) (s s' : State) :
  _select_thread s = (Ok (choice, backup), s') ->
  cls s = CFO -> choice <> 0%Z.
Proof.
  unfold _select_thread. unfold bind, gets. intros E C. rewrite C in E.
  unfold CFO_select_thread in E. unfold bind, gets in E.
  destruct (filter (fun key => negb (key =? 0)%Z)
              (Dict.keys (_search_thread_pool s))) as [| key r] eqn:F;
    [discriminate E |].
  injection E as <- _ _.
  assert (I : In key (filter (fun key => negb (key =? 0)%Z)
                        (Dict.keys (_search_thread_pool s))))
    by (rewrite F; left; reflexivity).
  apply filter_In in I. destruct I as [_ I].
  apply negb_true_iff in I. apply Z.eqb_neq in I. exact I.
Qed.

Lemma base_suggest_fresh :
  triple grown (BlendSearch_suggest tid) fresh_or_global anyhow.
Proof.
  unfold BlendSearch_suggest.
  apply triple_then; [apply pres_gets | intros init_used].
  apply triple_then; [apply pres_gets | intros pts].
  destruct (init_used && negb (nonempty pts)); [| apply suggest_init_fresh].
  apply triple_bind
    with (R := fun cb s => grown s /\ (fst cb = 0%Z -> V = BlendSearch)).
  { intros s H.
    pose proof (select_thread_keeps grown) as K.
    assert (K' : preserves grown _select_thread) by (apply K; stable).
    specialize (K' s H).
    destruct (_select_thread s) as [[[choice backup] | e] s'] eqn:E;
      [| exact I].
    split; [exact K' |]. cbn [fst]. intros ->.
    destruct H as [C _]. destruct V; [reflexivity |].
    exfalso. apply (@select_thread_choice_local 0%Z backup s s' E C).
    reflexivity. }
  intros [choice backup]. cbn [fst].
  apply triple_fact with (F := choice = 0%Z -> V = BlendSearch);
    [intros s [_ H]; exact H | intros Hv].
  apply triple_pre with (P := grown); [| intros s [H _]; exact H].
  destruct (choice <? 0)%Z; [apply ret_none_fresh |].
  apply triple_then; [apply suggest_from_keeps; stable | intros config].
  match goal with |- triple _ (if ?b then _ else _) _ _ => destruct b end.
  - apply triple_value. intros a s s' E c ->.
    repeat (apply bind_ok in E; destruct E as (? & ? & _ & E)).
    discriminate E.
  - eapply triple_bind; [apply should_skip_fresh | intros skip].
    destruct skip.
    + destruct (negb (choice =? 0)%Z); [apply ret_none_fresh |].
      apply triple_pre with (P := grown); [| intros s [H _]; exact H].
      apply triple_then; [apply pres_with_env; stable | intros generated].
      cbv zeta.
      eapply triple_bind; [apply should_skip_fresh | intros skip].
      destruct skip; [apply ret_none_fresh |].
      match goal with
      | |- triple _ (match ?x with _ => _ end) _ _ => set (config' := x)
      end.
      apply triple_fact with (F := exists c0, config' = Some c0 /\ fresh c0);
        [intros s [_ H]; auto |].
      intros (c0 & -> & F0).
      apply triple_pre with (P := grown); [| intros s [H _]; exact H].
      apply propose_fresh; assumption.
    + apply triple_fact with (F := exists c0, config = Some c0 /\ fresh c0);
        [intros s [_ H]; auto |].
      intros (c0 & -> & F0).
      apply triple_pre with (P := grown); [| intros s [H _]; exact H].
      apply propose_fresh; assumption.
Qed.

Lemma suggest_fresh : triple grown (suggest tid) fresh_or_global anyhow.
Proof.
  unfold suggest.
  apply triple_then; [apply pres_gets | intros c]. destruct c.
  - apply base_suggest_fresh.
  - unfold CFO_suggest.
    apply triple_then; [apply pres_gets | intros pool].
    destruct (List.length pool <? 3)%nat;
      [| apply triple_raise; intros; exact I].
    apply triple_then; [pres; stable | intros _].
    apply base_suggest_fresh.
Qed.

End FreshProposals.

Section FreshProposalsOfSuggest.

Context {Sig Env Thread : Type}.
Context {LS : LocalSearch Sig Env} {ST : SearchThread Thread Env}.

(** X23. [suggest] and the result cache: a configuration that
    [suggest] returns has a signature that was not in the result cache
    when [suggest] was called, so that a configuration with a known or a
    pending result is not proposed again; the exception is a trial that
    [BlendSearch] gives to the global thread 0.  Under [CFO], and for
    every trial of a local thread, the returned configuration is new to
    the cache. *)
Theorem proposals_fresh (trial_id : string) (s : @State Sig Env Thread) :
  match suggest trial_id s with
  | (Ok (Some config), s') =>
      Dict.mem (config_signature config) (_result s) = false
      \/ (cls s = BlendSearch
          /\ Dict.get trial_id (_trial_proposed_by s') = Some 0%Z)
  | _ => True
  end.
Proof.
  pose proof (@suggest_fresh Sig Env Thread LS ST (_result s) (cls s)
                trial_id s) as H.
  assert (G : grown (_result s) (cls s) s) by (split; auto).
  specialize (H G).
  destruct (suggest trial_id s) as [[[config |] | e] s']; try exact I.
  apply (H config eq_refl).
Qed.

End FreshProposalsOfSuggest.
